(** * Ontogenesis: the kernel evolution engine of daelos

    A shallow embedding of [OntogenesisService] (kernel factory, breeding,
    selection, per-generation cycle, fitness evaluation, genome checksum)
    together with the properties its specification states.

    Conventions of the embedding.
    - A JavaScript number is the rational value ([Q]) of a finite double.
      Every arithmetic operation of the source rounds its exact result to
      the nearest double, ties to even ([Js.double]); a numeric literal
      is the double nearest to its decimal. The exponent range is not
      modelled: magnitudes are rounded to 53 significant bits, so results
      that overflow or underflow the range of doubles are outside the
      model, as are [NaN] and the infinities; where the source divides by
      a quantity that can be zero, the result is an [option Q] whose
      [None] stands for the non-finite JavaScript result.
    - A JavaScript string is a [string] holding its UTF-8 encoding; where
      the source reads UTF-16 code units, the model decodes them
      ([Js.codeUnits]).
    - Objects that the source shares by reference (genes, kernels) live in
      heaps indexed by locations; arrays of objects are lists of locations.
      The identity of a kernel is its location, not its [id] string.
    - [Math.random()] and [Date.now()] are read from an environment, one
      value per call; the calls made so far are counted in the state.
    - The engine's methods are computations in a state monad with
      exceptions: a JavaScript [TypeError] is the outcome [Throw], a loop
      that does not come back is the outcome [Hang].
    - Event listeners are collaborators outside the engine: [emitEvent]
      catches what they throw, and the model records the emitted events.

    The file has three parts: the model, the vocabulary of the
    specification, and the lemmas and theorems. *)

From Stdlib Require Import List String Ascii ZArith QArith Qround Qminmax Qabs Qpower.
From Stdlib Require Import Lia Lqa Bool Arith PeanoNat.
From Stdlib Require Import DecimalString HexadecimalString HexadecimalN.
From Stdlib Require Import Permutation Sorted.
Import ListNotations.

Local Open Scope string_scope.
Local Open Scope list_scope.
Local Open Scope Z_scope.

(** ** JavaScript primitives *)

Module Js.

(** [ToInt32]: the value of a bitwise operator's operand. *)
Definition wrap32 (z : Z) : Z := (z + 2 ^ 31) mod 2 ^ 32 - 2 ^ 31.

(** *** Numbers

    Rounding to the nearest double, ties to even. A positive [v] with
    [2^k <= v < 2^(k+1)] is rounded to the nearest multiple of [2^(k-52)]. *)
Definition pow2 (e : Z) : Q := Qpower 2 e.

(** The [k] with [2^k <= v < 2^(k+1)], for [0 < v]. *)
Definition ilog2 (v : Q) : Z :=
  if Qle_bool 1 v then Z.log2 (Qfloor v) else - Z.log2_up (Qceiling (/ v)).

Definition roundHalfEven (v : Q) : Z :=
  let f := Qfloor v in
  match Qcompare (v - inject_Z f) (1 # 2) with
  | Lt => f
  | Gt => f + 1
  | Eq => if Z.even f then f else f + 1
  end.

Definition round53 (v : Q) : Q :=
  let e := ilog2 v - 52 in
  Qred (inject_Z (roundHalfEven (v / pow2 e)) * pow2 e).

Definition double (x : Q) : Q :=
  match Qcompare x 0 with
  | Eq => 0%Q
  | Gt => round53 x
  | Lt => (- round53 (- x))%Q
  end.

(** The arithmetic operators on numbers. *)
Definition add (a b : Q) : Q := double (a + b).
Definition sub (a b : Q) : Q := double (a - b).
Definition mul (a b : Q) : Q := double (a * b).
Definition div (a b : Q) : Q := double (a / b).

(** The largest value [Math.random()] can give: [1 - 2^-53]. *)
Definition belowOne : Q := (1 - pow2 (-53))%Q.

Definition quoteChar : ascii := ascii_of_nat 34.
Definition backslash : ascii := ascii_of_nat 92.

Definition showZ (z : Z) : string :=
  DecimalString.NilZero.string_of_int (Z.to_int z).
Definition showNat (n : nat) : string := showZ (Z.of_nat n).

(** [Number.prototype.toString(16)] on a non-negative integer. *)
Definition toHex (z : Z) : string :=
  HexadecimalString.NilZero.string_of_uint (N.to_hex_uint (Z.to_N z)).

(** *** Printing a number

    [Number::toString]: with [n], [k] and [s] such that [s] has [k] digits,
    the double nearest to [s * 10^(n-k)] is the number, and [k] is as small
    as possible, the digits of [s] are laid out by the size of [n]. *)
Definition pow10 (e : Z) : Q := Qpower 10 e.

(** The least [j >= 0] with [1 <= x * 10^j], for [0 < x < 1]. *)
Fixpoint shiftToUnit (fuel : nat) (x : Q) (j : Z) : Z :=
  match fuel with
  | O => j
  | S fuel' => if Qle_bool 1 x then j else shiftToUnit fuel' (x * 10)%Q (j + 1)
  end.

(** The [n] with [10^(n-1) <= x < 10^n], for [0 < x]. *)
Definition decimalExponent (x : Q) : Z :=
  if Qle_bool 1 x then Z.of_nat (String.length (showZ (Qfloor x)))
  else 1 - shiftToUnit (Pos.size_nat (Qden x) + 1) x 0.

(** The digits [s] of [k] figures that stand for the double [x], if there
    are any: of the two integers next to [x / 10^(n-k)] the one that reads
    back as [x]; if both do, the nearer one, and the even one in a tie. *)
Definition digitsOfLength (x : Q) (n k : Z) : option Z :=
  let scale := pow10 (n - k) in
  let t := (x / scale)%Q in
  let lo := Qfloor t in
  let hi := lo + 1 in
  let ok c := Qeq_bool (double (inject_Z c * scale)) x in
  match ok lo, ok hi with
  | true, true =>
      match Qcompare (t - inject_Z lo) (1 # 2) with
      | Lt => Some lo
      | Gt => Some hi
      | Eq => Some (if Z.even lo then lo else hi)
      end
  | true, false => Some lo
  | false, true => Some hi
  | false, false => None
  end.

(** The shortest digits that stand for [x], and their number. No double
    needs more than 17. *)
Fixpoint shortestDigits (fuel : nat) (x : Q) (n k : Z) : Z * Z :=
  match fuel with
  | O => (Qfloor (x / pow10 (n - k)), k)
  | S fuel' =>
      match digitsOfLength x n k with
      | Some s => (s, k)
      | None => shortestDigits fuel' x n (k + 1)
      end
  end.

Definition zeros (n : Z) : string :=
  string_of_list_ascii (repeat "0"%char (Z.to_nat n)).

Definition substring (s : string) (from len : Z) : string :=
  String.substring (Z.to_nat from) (Z.to_nat len) s.

(** [Number::toString] on a positive double. *)
Definition positiveToString (x : Q) : string :=
  let n0 := decimalExponent x in
  let '(s0, k0) := shortestDigits 17 x n0 1 in
  (* the digits 10^k are the digit 1, one place higher *)
  let '(s, k, n) := if s0 =? 10 ^ k0 then (1, 1, n0 + 1) else (s0, k0, n0) in
  let digits := showZ s in
  if (k <=? n) && (n <=? 21) then (digits ++ zeros (n - k))%string
  else if (0 <? n) && (n <=? 21) then
    (substring digits 0 n ++ "." ++ substring digits n (k - n))%string
  else if (-6 <? n) && (n <=? 0) then ("0." ++ zeros (- n) ++ digits)%string
  else
    let e := n - 1 in
    let sign := if e <? 0 then "-" else "+" in
    let exponent := (sign ++ showZ (Z.abs e))%string in
    if k =? 1 then (digits ++ "e" ++ exponent)%string
    else (substring digits 0 1 ++ "." ++ substring digits 1 (k - 1) ++ "e"
          ++ exponent)%string.

(** [Number::toString] as [JSON.stringify] applies it to a finite number:
    the shortest decimal that reads back as the same double, in positional
    notation from [1e-6] up to [1e21] and in exponent notation outside. *)
Definition numberToString (q : Q) : string :=
  let x := double q in
  match Qcompare x 0 with
  | Eq => "0"
  | Gt => positiveToString x
  | Lt => ("-" ++ positiveToString (- x))%string
  end.

(** *** Strings

    The UTF-16 code units of a string, which [charCodeAt] and [length] read.
    The characters of a [string] of the model are the bytes of its UTF-8
    encoding; a byte that does not begin a well-formed sequence stands for
    the code unit of the same number. *)
Definition isContinuation (b : Z) : bool := (128 <=? b) && (b <? 192).

Fixpoint utf16 (fuel : nat) (bytes : list Z) : list Z :=
  match fuel with
  | O => []
  | S fuel' =>
      match bytes with
      | [] => []
      | b0 :: rest =>
          match rest with
          | b1 :: b2 :: b3 :: rest3 =>
              if (240 <=? b0) && (b0 <? 248) && isContinuation b1 && isContinuation b2
                 && isContinuation b3 then
                let cp := (b0 - 240) * 262144 + (b1 - 128) * 4096 + (b2 - 128) * 64
                          + (b3 - 128) in
                (55296 + (cp - 65536) / 1024) :: (56320 + (cp - 65536) mod 1024)
                :: utf16 fuel' rest3
              else if (224 <=? b0) && (b0 <? 240) && isContinuation b1 && isContinuation b2
              then ((b0 - 224) * 4096 + (b1 - 128) * 64 + (b2 - 128))
                   :: utf16 fuel' (b3 :: rest3)
              else if (192 <=? b0) && (b0 <? 224) && isContinuation b1
              then ((b0 - 192) * 64 + (b1 - 128)) :: utf16 fuel' (b2 :: b3 :: rest3)
              else b0 :: utf16 fuel' rest
          | b1 :: b2 :: rest2 =>
              if (224 <=? b0) && (b0 <? 240) && isContinuation b1 && isContinuation b2
              then ((b0 - 224) * 4096 + (b1 - 128) * 64 + (b2 - 128)) :: utf16 fuel' rest2
              else if (192 <=? b0) && (b0 <? 224) && isContinuation b1
              then ((b0 - 192) * 64 + (b1 - 128)) :: utf16 fuel' (b2 :: rest2)
              else b0 :: utf16 fuel' rest
          | b1 :: rest1 =>
              if (192 <=? b0) && (b0 <? 224) && isContinuation b1
              then ((b0 - 192) * 64 + (b1 - 128)) :: utf16 fuel' rest1
              else b0 :: utf16 fuel' rest
          | [] => [b0]
          end
      end
  end.

Definition codeUnits (s : string) : list Z :=
  let bytes := map (fun c => Z.of_nat (nat_of_ascii c)) (list_ascii_of_string s) in
  utf16 (List.length bytes) bytes.

Definition hexDigit (n : nat) : ascii :=
  nth n (list_ascii_of_string "0123456789abcdef") "0"%char.

(** [QuoteJSONString]: the quote, the backslash and control characters are
    escaped. *)
Definition escapeChar (c : ascii) : string :=
  let n := nat_of_ascii c in
  if (n =? 34)%nat then String backslash (String quoteChar EmptyString)
  else if (n =? 92)%nat then String backslash (String backslash EmptyString)
  else if (n =? 8)%nat then String backslash "b"
  else if (n =? 12)%nat then String backslash "f"
  else if (n =? 10)%nat then String backslash "n"
  else if (n =? 13)%nat then String backslash "r"
  else if (n =? 9)%nat then String backslash "t"
  else if (n <? 32)%nat then
    String backslash
      ("u00" ++ String (hexDigit (n / 16)) (String (hexDigit (n mod 16)) EmptyString))
  else String c EmptyString.

Fixpoint escape (s : string) : string :=
  match s with
  | EmptyString => EmptyString
  | String c s' => (escapeChar c ++ escape s')%string
  end.

Definition quoteJSONString (s : string) : string :=
  String quoteChar (escape s ++ String quoteChar EmptyString).

(** Relative index of [Array.prototype.slice] / [String.prototype.slice]. *)
Definition relIndex (len k : Z) : Z :=
  if k <? 0 then Z.max (len + k) 0 else Z.min k len.

Definition slice {A : Type} (l : list A) (start : Z) (stop : option Z) : list A :=
  let len := Z.of_nat (List.length l) in
  let from := relIndex len start in
  let upto := match stop with None => len | Some e => relIndex len e end in
  firstn (Z.to_nat (upto - from)) (skipn (Z.to_nat from) l).

Definition sliceString (s : string) (start : Z) (stop : option Z) : string :=
  string_of_list_ascii (slice (list_ascii_of_string s) start stop).

(** [a[i]] for an index computed as a number: [undefined] outside the array. *)
Definition index {A : Type} (l : list A) (i : Z) : option A :=
  if i <? 0 then None else nth_error l (Z.to_nat i).

Definition Qltb (a b : Q) : bool := negb (Qle_bool b a).

(** [a / b] where [b] may be zero. *)
Definition divide (a b : Q) : option Q :=
  if Qeq_bool b 0 then None else Some (div a b).

End Js.

(** ** Data model (types.ts) *)

Definition loc := nat.

Inductive GeneType := GParameter | GSwitch | GSelector | GSequence | GStructure.

(** [Gene.value] is [unknown] in the source; the variants are the values the
    operators and the checksum distinguish. *)
Inductive GeneValue :=
| VNumber (q : Q)
| VBoolean (b : bool)
| VString (s : string)
| VNull
| VUndefined.

Record Gene := mkGene {
  g_id : string;
  g_name : string;
  g_type : GeneType;
  g_value : GeneValue;
  g_mutable : bool;
  g_expressionLevel : Q
}.

Record ExpressionModifier := mkExpressionModifier {
  em_targetGene : string;
  em_condition : string;
  em_modifier : Q
}.

(** A genome holds its genes by reference. *)
Record KernelGenome := mkGenome {
  coreGenes : list loc;
  regulatoryGenes : list loc;
  expressionModifiers : list ExpressionModifier;
  checksum : string
}.

(** ** The genome checksum *)

Module Checksum.

(** [JSON.stringify({ id: g.id, value: g.value })]: a property whose value
    is [undefined] is omitted. *)
Definition stringifyEntry (g : Gene) : string :=
  let idPart := (Js.quoteJSONString "id" ++ ":" ++ Js.quoteJSONString (g_id g))%string in
  let valuePart (v : string) := ("," ++ Js.quoteJSONString "value" ++ ":" ++ v)%string in
  ("{" ++ idPart ++
   match g_value g with
   | VNumber q => valuePart (Js.numberToString q)
   | VBoolean true => valuePart "true"
   | VBoolean false => valuePart "false"
   | VString s => valuePart (Js.quoteJSONString s)
   | VNull => valuePart "null"
   | VUndefined => EmptyString
   end ++ "}")%string.

Fixpoint joinComma (l : list string) : string :=
  match l with
  | [] => EmptyString
  | [x] => x
  | x :: rest => (x ++ "," ++ joinComma rest)%string
  end.

Definition stringifyArray (gs : list Gene) : string :=
  ("[" ++ joinComma (map stringifyEntry gs) ++ "]")%string.

(** [JSON.stringify({ core: ..., reg: ... })]. *)
Definition stringify (core reg : list Gene) : string :=
  ("{" ++ Js.quoteJSONString "core" ++ ":" ++ stringifyArray core ++ "," ++
   Js.quoteJSONString "reg" ++ ":" ++ stringifyArray reg ++ "}")%string.

(** One turn of the hashing loop, on the code unit [data.charCodeAt(i)]:
    [hash = ((hash << 5) - hash) + char; hash = hash & hash]. *)
Definition hashStep (hash : Z) (char : Z) : Z :=
  Js.wrap32 (Js.wrap32 (Z.shiftl hash 5) - hash + char).

Fixpoint hashFrom (hash : Z) (units : list Z) : Z :=
  match units with
  | [] => hash
  | char :: rest => hashFrom (hashStep hash char) rest
  end.

Definition hashString (data : string) : string :=
  Js.toHex (Z.abs (hashFrom 0 (Js.codeUnits data))).

(** [calculateChecksum] on the gene contents of a genome. *)
Definition ofGenes (core reg : list Gene) : string :=
  hashString (stringify core reg).

End Checksum.

(** ** Kernels, populations and the engine state (types.ts) *)

Inductive KernelType :=
| Inference | Reasoning | Memory | Perception | Action | Meta | Integration
| Specialized.

Definition kernelTypeName (t : KernelType) : string :=
  match t with
  | Inference => "inference" | Reasoning => "reasoning" | Memory => "memory"
  | Perception => "perception" | Action => "action" | Meta => "meta"
  | Integration => "integration" | Specialized => "specialized"
  end.

Definition kernelType_eqb (a b : KernelType) : bool :=
  String.eqb (kernelTypeName a) (kernelTypeName b).

Inductive BreedingMethod := Asexual | Crossover | MultiParent | Synthetic | Emergent.

Inductive MutationType :=
| MParameter | MStructural | MBehavioral | MDeletion | MInsertion | MDuplication.

Record Mutation := mkMutation {
  m_id : string;
  m_type : MutationType;
  m_target : string;
  m_magnitude : Q;
  m_timestamp : Z
}.

Record KernelLineage := mkLineage {
  generation : nat;
  parents : list string;
  ancestors : list string;
  breedingMethod : BreedingMethod;
  mutations : list Mutation
}.

Record FitnessScores := mkFitness {
  overall : Q;
  performance : Q;
  efficiency : Q;
  reliability : Q;
  adaptability : Q;
  innovation : Q;
  evaluations : nat;
  lastEvaluated : Z
}.

Inductive KernelState :=
| DORMANT | ACTIVE | BREEDING | EVALUATING | DEPRECATED | ARCHIVED.

Definition isArchived (st : KernelState) : bool :=
  match st with ARCHIVED => true | _ => false end.
Definition isDeprecated (st : KernelState) : bool :=
  match st with DEPRECATED => true | _ => false end.
Definition isActive (st : KernelState) : bool :=
  match st with ACTIVE => true | _ => false end.

Record CognitiveKernel := mkKernel {
  k_id : string;
  k_name : string;
  k_version : string;
  k_type : KernelType;
  lineage : KernelLineage;
  genome : KernelGenome;
  fitness : FitnessScores;
  k_state : KernelState;
  created : Z;
  lastActivated : Z
}.

Record PopulationStatistics := mkStatistics {
  totalCreated : nat;
  activeCount : nat;
  archivedCount : nat;
  averageFitness : Q;
  bestFitness : Q;
  fitnessTrend : list Q;
  diversityIndex : Q
}.

(** A population holds its kernels by reference. *)
Record KernelPopulation := mkPopulation {
  p_id : string;
  p_name : KernelType;
  p_generation : nat;
  kernels : list loc;
  statistics : PopulationStatistics;
  selectionPressure : Q;
  mutationRate : Q;
  capacity : Z
}.

Record BreedingRequest := mkRequest {
  rq_parents : list string;
  rq_method : BreedingMethod;
  rq_mutationRate : option Q;
  rq_offspringCount : nat
}.

Record BreedingResult := mkResult {
  offspring : list loc;
  successRate : option Q;
  mutationsApplied : nat;
  novelGenes : nat
}.

Record EvolutionConfig := mkConfig {
  generationInterval : Q;
  populationCapacity : Q;
  baseMutationRate : Q;
  cfg_selectionPressure : Q;
  elitismRate : Q;
  crossoverRate : Q;
  enableEmergence : bool;
  archiveThreshold : Q
}.

Definition DEFAULT_EVOLUTION_CONFIG : EvolutionConfig :=
  mkConfig 300000 50 (Js.double (1 # 10)) (1 # 2) (Js.double (1 # 10))
    (Js.double (7 # 10)) true (Js.double (3 # 10)).

Inductive EmergenceType := ECapability | EBehavior | EStructure | EIntegration.

Record EmergenceEvent := mkEmergence {
  ee_id : string;
  ee_timestamp : Z;
  ee_type : EmergenceType;
  ee_description : string;
  ee_significance : option Q
}.

(** [Partial<KernelGenome>]: every field may be absent. *)
Record PartialGenome := mkPartialGenome {
  pg_coreGenes : option (list loc);
  pg_regulatoryGenes : option (list loc);
  pg_expressionModifiers : option (list ExpressionModifier)
}.

Record KernelTemplate := mkTemplate {
  t_name : string;
  t_type : KernelType;
  baseGenome : PartialGenome;
  t_description : string
}.

(** [Partial<FitnessScores>] as [evaluateFitness] reads it. *)
Record PartialScores := mkScores {
  ps_performance : option Q;
  ps_efficiency : option Q;
  ps_reliability : option Q;
  ps_adaptability : option Q;
  ps_innovation : option Q
}.

(** What [emitEvent] hands to the listeners, by event type. *)
Inductive EventData :=
| KernelCreated (kernel : loc)
| KernelActivated (kernelId : string)
| KernelDeprecated (kernelId : string)
| BreedingComplete (parentIds offspringIds : list string) (method : BreedingMethod)
| GenerationComplete (gen : nat) (summary : list (KernelType * nat * Q))
| EmergenceDetected (event : EmergenceEvent)
| PopulationUpdated (populationId : string) (stats : PopulationStatistics).

Record OntogenesisEvent := mkEvent {
  ev_timestamp : Z;
  ev_data : EventData
}.

Definition isBreedingComplete (e : OntogenesisEvent) : bool :=
  match ev_data e with BreedingComplete _ _ _ => true | _ => false end.
Definition isPopulationUpdated (e : OntogenesisEvent) : bool :=
  match ev_data e with PopulationUpdated _ _ => true | _ => false end.

(** The service: [this.state] (an [OntogenesisState]), the interval timer,
    the heaps of the gene and kernel objects, the events emitted so far and
    the number of [Math.random()] and [Date.now()] calls made so far. *)
Record State := mkState {
  populations : list KernelPopulation;
  archive : list loc;
  config : EvolutionConfig;
  globalGeneration : nat;
  totalKernelsCreated : nat;
  emergenceEvents : list EmergenceEvent;
  isEvolving : bool;
  lastEvolutionCycle : Z;
  evolutionInterval : bool;
  geneHeap : list Gene;
  kernelHeap : list CognitiveKernel;
  emitted : list OntogenesisEvent;
  randomCalls : nat;
  nowCalls : nat
}.

Definition set_populations (v : list KernelPopulation) (s : State) : State :=
  mkState v (archive s) (config s) (globalGeneration s) (totalKernelsCreated s)
    (emergenceEvents s) (isEvolving s) (lastEvolutionCycle s) (evolutionInterval s)
    (geneHeap s) (kernelHeap s) (emitted s) (randomCalls s) (nowCalls s).
Definition set_archive (v : list loc) (s : State) : State :=
  mkState (populations s) v (config s) (globalGeneration s) (totalKernelsCreated s)
    (emergenceEvents s) (isEvolving s) (lastEvolutionCycle s) (evolutionInterval s)
    (geneHeap s) (kernelHeap s) (emitted s) (randomCalls s) (nowCalls s).
Definition set_globalGeneration (v : nat) (s : State) : State :=
  mkState (populations s) (archive s) (config s) v (totalKernelsCreated s)
    (emergenceEvents s) (isEvolving s) (lastEvolutionCycle s) (evolutionInterval s)
    (geneHeap s) (kernelHeap s) (emitted s) (randomCalls s) (nowCalls s).
Definition set_totalKernelsCreated (v : nat) (s : State) : State :=
  mkState (populations s) (archive s) (config s) (globalGeneration s) v
    (emergenceEvents s) (isEvolving s) (lastEvolutionCycle s) (evolutionInterval s)
    (geneHeap s) (kernelHeap s) (emitted s) (randomCalls s) (nowCalls s).
Definition set_emergenceEvents (v : list EmergenceEvent) (s : State) : State :=
  mkState (populations s) (archive s) (config s) (globalGeneration s)
    (totalKernelsCreated s) v (isEvolving s) (lastEvolutionCycle s)
    (evolutionInterval s) (geneHeap s) (kernelHeap s) (emitted s) (randomCalls s)
    (nowCalls s).
Definition set_isEvolving (v : bool) (s : State) : State :=
  mkState (populations s) (archive s) (config s) (globalGeneration s)
    (totalKernelsCreated s) (emergenceEvents s) v (lastEvolutionCycle s)
    (evolutionInterval s) (geneHeap s) (kernelHeap s) (emitted s) (randomCalls s)
    (nowCalls s).
Definition set_lastEvolutionCycle (v : Z) (s : State) : State :=
  mkState (populations s) (archive s) (config s) (globalGeneration s)
    (totalKernelsCreated s) (emergenceEvents s) (isEvolving s) v
    (evolutionInterval s) (geneHeap s) (kernelHeap s) (emitted s) (randomCalls s)
    (nowCalls s).
Definition set_evolutionInterval (v : bool) (s : State) : State :=
  mkState (populations s) (archive s) (config s) (globalGeneration s)
    (totalKernelsCreated s) (emergenceEvents s) (isEvolving s)
    (lastEvolutionCycle s) v (geneHeap s) (kernelHeap s) (emitted s)
    (randomCalls s) (nowCalls s).
Definition set_geneHeap (v : list Gene) (s : State) : State :=
  mkState (populations s) (archive s) (config s) (globalGeneration s)
    (totalKernelsCreated s) (emergenceEvents s) (isEvolving s)
    (lastEvolutionCycle s) (evolutionInterval s) v (kernelHeap s) (emitted s)
    (randomCalls s) (nowCalls s).
Definition set_kernelHeap (v : list CognitiveKernel) (s : State) : State :=
  mkState (populations s) (archive s) (config s) (globalGeneration s)
    (totalKernelsCreated s) (emergenceEvents s) (isEvolving s)
    (lastEvolutionCycle s) (evolutionInterval s) (geneHeap s) v (emitted s)
    (randomCalls s) (nowCalls s).
Definition set_emitted (v : list OntogenesisEvent) (s : State) : State :=
  mkState (populations s) (archive s) (config s) (globalGeneration s)
    (totalKernelsCreated s) (emergenceEvents s) (isEvolving s)
    (lastEvolutionCycle s) (evolutionInterval s) (geneHeap s) (kernelHeap s) v
    (randomCalls s) (nowCalls s).
Definition set_randomCalls (v : nat) (s : State) : State :=
  mkState (populations s) (archive s) (config s) (globalGeneration s)
    (totalKernelsCreated s) (emergenceEvents s) (isEvolving s)
    (lastEvolutionCycle s) (evolutionInterval s) (geneHeap s) (kernelHeap s)
    (emitted s) v (nowCalls s).
Definition set_nowCalls (v : nat) (s : State) : State :=
  mkState (populations s) (archive s) (config s) (globalGeneration s)
    (totalKernelsCreated s) (emergenceEvents s) (isEvolving s)
    (lastEvolutionCycle s) (evolutionInterval s) (geneHeap s) (kernelHeap s)
    (emitted s) (randomCalls s) v.

(** ** Environment, outcomes and the engine monad *)

(** What the engine reads from outside: the successive values of
    [Math.random()] and [Date.now()], the Box-Muller expression
    [Math.sqrt(-2.0 * Math.log(u)) * Math.cos(2.0 * Math.PI * v)], the
    rendering [Number.prototype.toString(36)], and the number of draws after
    which a [while (u === 0)] loop that only sees zeros is given up as
    non-terminating. *)
Record Env := mkEnv {
  random : nat -> Q;
  now : nat -> Z;
  boxMuller : Q -> Q -> Q;
  toString36 : Q -> string;
  patience : nat
}.

Inductive Exn := TypeError.

Inductive Outcome (A : Type) :=
| Ret (a : A) (s : State)
| Throw (e : Exn) (s : State)
| Hang.
Arguments Ret {A} a s.
Arguments Throw {A} e s.
Arguments Hang {A}.

Definition M (A : Type) : Type := State -> Outcome A.

Definition ret {A : Type} (a : A) : M A := fun s => Ret a s.

Definition bind {A B : Type} (m : M A) (k : A -> M B) : M B :=
  fun s =>
    match m s with
    | Ret a s' => k a s'
    | Throw e s' => Throw e s'
    | Hang => Hang
    end.

Definition get : M State := fun s => Ret s s.
Definition modify (f : State -> State) : M unit := fun s => Ret tt (f s).
Definition throw {A : Type} (e : Exn) : M A := fun s => Throw e s.
Definition hang {A : Type} : M A := fun _ => Hang.

Notation "x <- m ;; k" := (bind m (fun x => k))
  (at level 61, m at next level, right associativity).
Notation "m ;; k" := (bind m (fun _ => k))
  (at level 61, right associativity).
Notation "' pat <- m ;; k" := (bind m (fun x => match x with pat => k end))
  (at level 61, pat pattern, m at next level, right associativity).

Fixpoint forEach {A : Type} (l : list A) (body : A -> M unit) : M unit :=
  match l with
  | [] => ret tt
  | x :: rest => body x ;; forEach rest body
  end.

Fixpoint mapM {A B : Type} (f : A -> M B) (l : list A) : M (list B) :=
  match l with
  | [] => ret []
  | x :: rest => y <- f x ;; ys <- mapM f rest ;; ret (y :: ys)
  end.

(** The state an outcome leaves behind, if the computation came back. *)
Definition finalState {A : Type} (o : Outcome A) : option State :=
  match o with
  | Ret _ s => Some s
  | Throw _ s => Some s
  | Hang => None
  end.

(** ** Heaps *)

Definition dummyGene : Gene :=
  mkGene EmptyString EmptyString GStructure VUndefined false 0.

Definition createInitialFitness : FitnessScores :=
  mkFitness (1 # 2) (1 # 2) (1 # 2) (1 # 2) (1 # 2) (1 # 2) 0 0.

Definition dummyKernel : CognitiveKernel :=
  mkKernel EmptyString EmptyString EmptyString Specialized
    (mkLineage 0 [] [] Synthetic []) (mkGenome [] [] [] EmptyString)
    createInitialFitness DORMANT 0 0.

Definition dummyPopulation : KernelPopulation :=
  mkPopulation EmptyString Specialized 0 [] (mkStatistics 0 0 0 0 0 [] 0) 0 0 0.

(** Dereferencing; the engine never holds a dangling reference, the default
    only makes the functions total. *)
Definition geneAt (h : list Gene) (l : loc) : Gene := nth l h dummyGene.
Definition kernelAt (h : list CognitiveKernel) (l : loc) : CognitiveKernel :=
  nth l h dummyKernel.
Definition populationAt (ps : list KernelPopulation) (i : nat) : KernelPopulation :=
  nth i ps dummyPopulation.

Fixpoint replaceAt {A : Type} (n : nat) (x : A) (l : list A) : list A :=
  match l, n with
  | [], _ => []
  | _ :: rest, O => x :: rest
  | y :: rest, S n' => y :: replaceAt n' x rest
  end.

Definition readGene (l : loc) : M Gene :=
  fun s => Ret (geneAt (geneHeap s) l) s.
Definition writeGene (l : loc) (g : Gene) : M unit :=
  modify (fun s => set_geneHeap (replaceAt l g (geneHeap s)) s).
Definition allocGene (g : Gene) : M loc :=
  fun s => Ret (List.length (geneHeap s)) (set_geneHeap (geneHeap s ++ [g]) s).

Definition readKernel (l : loc) : M CognitiveKernel :=
  fun s => Ret (kernelAt (kernelHeap s) l) s.
Definition writeKernel (l : loc) (k : CognitiveKernel) : M unit :=
  modify (fun s => set_kernelHeap (replaceAt l k (kernelHeap s)) s).
Definition allocKernel (k : CognitiveKernel) : M loc :=
  fun s => Ret (List.length (kernelHeap s)) (set_kernelHeap (kernelHeap s ++ [k]) s).

Definition readPopulation (i : nat) : M KernelPopulation :=
  fun s => Ret (populationAt (populations s) i) s.
Definition writePopulation (i : nat) (p : KernelPopulation) : M unit :=
  modify (fun s => set_populations (replaceAt i p (populations s)) s).

(** Field updates on the records the engine mutates in place. *)
Definition withState (st : KernelState) (k : CognitiveKernel) : CognitiveKernel :=
  mkKernel (k_id k) (k_name k) (k_version k) (k_type k) (lineage k) (genome k)
    (fitness k) st (created k) (lastActivated k).
Definition withLastActivated (t : Z) (k : CognitiveKernel) : CognitiveKernel :=
  mkKernel (k_id k) (k_name k) (k_version k) (k_type k) (lineage k) (genome k)
    (fitness k) (k_state k) (created k) t.
Definition withFitness (f : FitnessScores) (k : CognitiveKernel) : CognitiveKernel :=
  mkKernel (k_id k) (k_name k) (k_version k) (k_type k) (lineage k) (genome k)
    f (k_state k) (created k) (lastActivated k).
Definition withValue (v : GeneValue) (g : Gene) : Gene :=
  mkGene (g_id g) (g_name g) (g_type g) v (g_mutable g) (g_expressionLevel g).
Definition withKernels (ks : list loc) (p : KernelPopulation) : KernelPopulation :=
  mkPopulation (p_id p) (p_name p) (p_generation p) ks (statistics p)
    (selectionPressure p) (mutationRate p) (capacity p).
Definition withStatistics (st : PopulationStatistics) (p : KernelPopulation)
  : KernelPopulation :=
  mkPopulation (p_id p) (p_name p) (p_generation p) (kernels p) st
    (selectionPressure p) (mutationRate p) (capacity p).
Definition withGeneration (g : nat) (p : KernelPopulation) : KernelPopulation :=
  mkPopulation (p_id p) (p_name p) g (kernels p) (statistics p)
    (selectionPressure p) (mutationRate p) (capacity p).

(** ** Kernel templates (types.ts)

    The genes of [KERNEL_TEMPLATES] are module-level objects: they are in the
    gene heap from the start, at locations 0 to 11. *)

Definition templateGene (id name : string) (v : Q) : Gene :=
  mkGene id name GParameter (VNumber (Js.double v)) true 1.

Definition templateGenes : list Gene :=
  [ templateGene "temperature" "Temperature" (7 # 10);
    templateGene "maxTokens" "Max Tokens" 2048;
    templateGene "topP" "Top P" (9 # 10);
    templateGene "depth" "Reasoning Depth" 3;
    templateGene "breadth" "Exploration Breadth" 5;
    templateGene "rigor" "Logical Rigor" (8 # 10);
    templateGene "capacity" "Capacity" 7;
    templateGene "decay" "Decay Rate" (1 # 10);
    templateGene "consolidation" "Consolidation Rate" (3 # 10);
    templateGene "introspectionDepth" "Introspection Depth" 2;
    templateGene "selfAwareness" "Self-Awareness Level" (5 # 10);
    templateGene "adaptability" "Adaptability" (6 # 10) ].

Definition templateGenome (ls : list loc) : PartialGenome :=
  mkPartialGenome (Some ls) (Some []) (Some []).

Definition KERNEL_TEMPLATES : list KernelTemplate :=
  [ mkTemplate "Basic Inference" Inference (templateGenome [0; 1; 2]%nat)
      "Basic LLM inference kernel";
    mkTemplate "Analytical Reasoning" Reasoning (templateGenome [3; 4; 5]%nat)
      "Analytical reasoning kernel";
    mkTemplate "Working Memory" Memory (templateGenome [6; 7; 8]%nat)
      "Working memory management kernel";
    mkTemplate "Meta-Cognitive Monitor" Meta (templateGenome [9; 10; 11]%nat)
      "Meta-cognitive monitoring kernel" ].

(** [createInitialState], with the template genes in the gene heap. *)
Definition createInitialState (cfg : EvolutionConfig) : State :=
  mkState [] [] cfg 0 0 [] false 0 false templateGenes [] [] 0 0.

(** ** Pure helpers of the service *)

Definition calculateOverallFitness (f : FitnessScores) : Q :=
  Js.add
    (Js.add
       (Js.add
          (Js.add (Js.mul (performance f) (Js.double (3 # 10)))
             (Js.mul (efficiency f) (Js.double (2 # 10))))
          (Js.mul (reliability f) (Js.double (2 # 10))))
       (Js.mul (adaptability f) (Js.double (15 # 100))))
    (Js.mul (innovation f) (Js.double (15 # 100))).

(** [calculateChecksum]: the gene contents are read through the heap. *)
Definition calculateChecksum (h : list Gene) (core reg : list loc) : string :=
  Checksum.ofGenes (map (geneAt h) core) (map (geneAt h) reg).

Definition findIn (h : list CognitiveKernel) (id : string) (ls : list loc)
  : option loc :=
  find (fun l => String.eqb (k_id (kernelAt h l)) id) ls.

Fixpoint findInPopulations (h : list CognitiveKernel) (id : string)
  (ps : list KernelPopulation) : option loc :=
  match ps with
  | [] => None
  | p :: rest =>
      match findIn h id (kernels p) with
      | Some l => Some l
      | None => findInPopulations h id rest
      end
  end.

(** [findKernel]: the populations in order, then the archive. *)
Definition findKernel (s : State) (id : string) : option loc :=
  match findInPopulations (kernelHeap s) id (populations s) with
  | Some l => Some l
  | None => findIn (kernelHeap s) id (archive s)
  end.

(** Insertion into a JavaScript [Set], which keeps first-insertion order. *)
Definition setAdd (x : string) (l : list string) : list string :=
  if existsb (String.eqb x) l then l else l ++ [x].

Definition buildAncestorChain (h : list CognitiveKernel) (ps : list loc)
  : list string :=
  let step acc p :=
    fold_left (fun a x => setAdd x a)
      (Js.slice (ancestors (lineage (kernelAt h p))) 0 (Some 4))
      (setAdd (k_id (kernelAt h p)) acc) in
  Js.slice (fold_left step ps []) 0 (Some 5).

(** [Math.max(...xs)] on natural numbers, for a non-empty [xs]. *)
Definition maxNat (xs : list nat) : nat := fold_right Nat.max 0%nat xs.

(** [Math.max(x, ...xs)]. *)
Definition maxQ (x : Q) (xs : list Q) : Q := fold_left Qmax xs x.

(** [xs.reduce((a, b) => a + b, 0)]. *)
Definition sumQ (xs : list Q) : Q := fold_left Js.add xs 0%Q.

(** Size of [new Set(xs)]. *)
Definition distinctCount (xs : list string) : nat :=
  List.length (fold_left (fun a x => setAdd x a) xs []).

(** [Array.prototype.sort] with the comparator
    [(a, b) => b.fitness.overall - a.fitness.overall]: a stable sort,
    descending in [overall]. *)
Fixpoint insertByFitness (h : list CognitiveKernel) (x : loc) (l : list loc)
  : list loc :=
  match l with
  | [] => [x]
  | y :: rest =>
      if Js.Qltb (overall (fitness (kernelAt h x))) (overall (fitness (kernelAt h y)))
      then y :: insertByFitness h x rest
      else x :: y :: rest
  end.

Definition sortByFitness (h : list CognitiveKernel) (l : list loc) : list loc :=
  fold_right (insertByFitness h) [] l.

Definition orEmpty {A : Type} (o : option (list A)) : list A :=
  match o with Some l => l | None => [] end.

Definition withArchivedCount (n : nat) (st : PopulationStatistics)
  : PopulationStatistics :=
  mkStatistics (totalCreated st) (activeCount st) n (averageFitness st)
    (bestFitness st) (fitnessTrend st) (diversityIndex st).
Definition withTotalCreated (n : nat) (st : PopulationStatistics)
  : PopulationStatistics :=
  mkStatistics n (activeCount st) (archivedCount st) (averageFitness st)
    (bestFitness st) (fitnessTrend st) (diversityIndex st).

Definition isInsertion (m : Mutation) : bool :=
  match m_type m with MInsertion => true | _ => false end.
Definition isCrossover (m : BreedingMethod) : bool :=
  match m with Crossover => true | _ => false end.

Definition QofNat (n : nat) : Q := inject_Z (Z.of_nat n).

(** [Math.floor(r * n)]. *)
Definition floorTimes (r : Q) (n : nat) : Z := Qfloor (Js.mul r (QofNat n)).

(** ** The service (OntogenesisService.ts) *)

Section Engine.

Variable E : Env.

Definition mathRandom : M Q :=
  fun s => Ret (random E (randomCalls s)) (set_randomCalls (S (randomCalls s)) s).

Definition dateNow : M Z :=
  fun s => Ret (now E (nowCalls s)) (set_nowCalls (S (nowCalls s)) s).

(** [emitEvent]: the event is stamped and handed to the listeners, whose
    exceptions are caught; the model records the event. *)
Definition emitEvent (d : EventData) : M unit :=
  t <- dateNow ;;
  modify (fun s => set_emitted (emitted s ++ [mkEvent t d]) s).

Definition generateKernelId : M string :=
  t <- dateNow ;;
  r <- mathRandom ;;
  ret ("kernel-" ++ Js.showZ t ++ "-" ++ Js.sliceString (toString36 E r) 2 (Some 8))%string.

Definition bumpTotalKernelsCreated : M unit :=
  modify (fun s => set_totalKernelsCreated (S (totalKernelsCreated s)) s).

Definition createKernel (template : KernelTemplate) (customGenome : option PartialGenome)
  : M loc :=
  id <- generateKernelId ;;
  let base := baseGenome template in
  let core0 := orEmpty (pg_coreGenes base) in
  let reg0 := orEmpty (pg_regulatoryGenes base) in
  let mods := orEmpty (pg_expressionModifiers base) in
  let core :=
    match customGenome with
    | Some c => match pg_coreGenes c with Some extra => core0 ++ extra | None => core0 end
    | None => core0
    end in
  let reg :=
    match customGenome with
    | Some c => match pg_regulatoryGenes c with Some extra => reg0 ++ extra | None => reg0 end
    | None => reg0
    end in
  s <- get ;;
  let sum := calculateChecksum (geneHeap s) core reg in
  t <- dateNow ;;
  l <- allocKernel
         (mkKernel id (t_name template ++ "-" ++ Js.sliceString id (-4) None)%string
            "1.0.0" (t_type template) (mkLineage 0 [] [] Synthetic [])
            (mkGenome core reg mods sum) createInitialFitness DORMANT t 0) ;;
  bumpTotalKernelsCreated ;;
  emitEvent (KernelCreated l) ;;
  ret l.

(** [genes.map(g => ({ ...g }))]: every gene is copied into a new object. *)
Definition cloneGenes (ls : list loc) : M (list loc) :=
  mapM (fun l => g <- readGene l ;; allocGene g) ls.

Definition asexualReproduction (parentGenome : KernelGenome) : M KernelGenome :=
  core <- cloneGenes (coreGenes parentGenome) ;;
  reg <- cloneGenes (regulatoryGenes parentGenome) ;;
  ret (mkGenome core reg (expressionModifiers parentGenome) EmptyString).

Definition crossover (genome1 genome2 : KernelGenome) : M KernelGenome :=
  r <- mathRandom ;;
  let crossoverPoint := floorTimes r (List.length (coreGenes genome1)) in
  front <- cloneGenes (Js.slice (coreGenes genome1) 0 (Some crossoverPoint)) ;;
  back <- cloneGenes (Js.slice (coreGenes genome2) crossoverPoint None) ;;
  r2 <- mathRandom ;;
  reg <- (if Js.Qltb r2 (1 # 2)
          then cloneGenes (regulatoryGenes genome1)
          else cloneGenes (regulatoryGenes genome2)) ;;
  let half1 := Z.of_nat (List.length (expressionModifiers genome1) / 2) in
  let half2 := Z.of_nat (List.length (expressionModifiers genome2) / 2) in
  ret (mkGenome (front ++ back) reg
         (Js.slice (expressionModifiers genome1) 0 (Some half1)
          ++ Js.slice (expressionModifiers genome2) half2 None)
         EmptyString).

Fixpoint multiParentCore (genomes : list KernelGenome) (idxs : list nat)
  (acc : list loc) : M (list loc) :=
  match idxs with
  | [] => ret acc
  | i :: rest =>
      r <- mathRandom ;;
      match Js.index genomes (floorTimes r (List.length genomes)) with
      | None => throw TypeError
      | Some g =>
          match nth_error (coreGenes g) i with
          | Some l =>
              gene <- readGene l ;;
              l' <- allocGene gene ;;
              multiParentCore genomes rest (acc ++ [l'])
          | None => multiParentCore genomes rest acc
          end
      end
  end.

Definition multiParentBreeding (genomes : list KernelGenome) : M KernelGenome :=
  core <- match genomes with
          | g0 :: _ => multiParentCore genomes (seq 0 (List.length (coreGenes g0))) []
          | [] => ret []
          end ;;
  r <- mathRandom ;;
  reg <- match Js.index genomes (floorTimes r (List.length genomes)) with
         | Some g => cloneGenes (regulatoryGenes g)
         | None => ret []
         end ;;
  ret (mkGenome core reg [] EmptyString).

(** [while (u === 0) u = Math.random()]. *)
Fixpoint drawNonZero (fuel : nat) : M Q :=
  match fuel with
  | O => hang
  | S fuel' =>
      u <- mathRandom ;;
      if Qeq_bool u 0 then drawNonZero fuel' else ret u
  end.

Definition gaussianRandom : M Q :=
  u <- drawNonZero (patience E) ;;
  v <- drawNonZero (patience E) ;;
  ret (boxMuller E u v).

(** [mutateGene] changes the gene object in place. *)
Definition mutateGene (l : loc) : M (option Mutation) :=
  gene <- readGene l ;;
  magnitude <-
    match g_type gene, g_value gene with
    | GParameter, VNumber v =>
        z <- gaussianRandom ;;
        let delta := Js.mul z (Js.double (1 # 10)) in
        writeGene l (withValue (VNumber (Qmax 0 (Qmin 1 (Js.add v delta)))) gene) ;;
        ret (Qabs delta)
    | GSwitch, VBoolean b =>
        writeGene l (withValue (VBoolean (negb b)) gene) ;;
        ret 1%Q
    | _, _ => ret 0%Q
    end ;;
  if Js.Qltb 0 magnitude then
    t1 <- dateNow ;;
    r <- mathRandom ;;
    t2 <- dateNow ;;
    ret (Some (mkMutation
                 ("mut-" ++ Js.showZ t1 ++ "-"
                  ++ Js.sliceString (toString36 E r) 2 (Some 6))%string
                 MParameter (g_id gene) magnitude t2))
  else ret None.

Fixpoint mutateCoreGenes (ls : list loc) (rate : Q) (acc : list Mutation)
  : M (list Mutation) :=
  match ls with
  | [] => ret acc
  | l :: rest =>
      gene <- readGene l ;;
      if g_mutable gene then
        r <- mathRandom ;;
        if Js.Qltb r rate then
          m <- mutateGene l ;;
          match m with
          | Some x => mutateCoreGenes rest rate (acc ++ [x])
          | None => mutateCoreGenes rest rate acc
          end
        else mutateCoreGenes rest rate acc
      else mutateCoreGenes rest rate acc
  end.

Definition applyMutations (g : KernelGenome) (rate : Q)
  : M (KernelGenome * list Mutation) :=
  muts <- mutateCoreGenes (coreGenes g) rate [] ;;
  r <- mathRandom ;;
  '(core, muts') <-
    (if Js.Qltb r (Js.mul rate (Js.double (1 # 10))) then
       t1 <- dateNow ;;
       v <- mathRandom ;;
       l <- allocGene (mkGene ("gene-" ++ Js.showZ t1) "Novel Gene" GParameter
                         (VNumber v) true (1 # 2)) ;;
       t2 <- dateNow ;;
       t3 <- dateNow ;;
       ret (coreGenes g ++ [l],
            muts ++ [mkMutation ("mut-" ++ Js.showZ t2) MInsertion
                       ("gene-" ++ Js.showZ t1) 1 t3])
     else ret (coreGenes g, muts)) ;;
  s <- get ;;
  ret (mkGenome core (regulatoryGenes g) (expressionModifiers g)
         (calculateChecksum (geneHeap s) core (regulatoryGenes g)),
       muts').

(** [request.parents.map(id => this.findKernel(id)).filter(k => k !== null)] *)
Definition resolveParents (s : State) (ids : list string) : list loc :=
  flat_map (fun id => match findKernel s id with Some l => [l] | None => [] end) ids.

(** One turn of the offspring loop of [breed]. *)
Definition breedOne (request : BreedingRequest) (ps : list loc) (p0 : loc) (i : nat)
  : M (loc * list Mutation) :=
  s <- get ;;
  let g0 := genome (kernelAt (kernelHeap s) p0) in
  childGenome <-
    match rq_method request with
    | Asexual => asexualReproduction g0
    | Crossover =>
        crossover g0
          match nth_error ps 1 with
          | Some p1 => genome (kernelAt (kernelHeap s) p1)
          | None => g0
          end
    | MultiParent =>
        multiParentBreeding (map (fun p => genome (kernelAt (kernelHeap s) p)) ps)
    | _ => asexualReproduction g0
    end ;;
  s1 <- get ;;
  let rate := match rq_mutationRate request with
              | Some r => r
              | None => baseMutationRate (config s1)
              end in
  '(mutatedGenome, muts) <- applyMutations childGenome rate ;;
  id <- generateKernelId ;;
  s2 <- get ;;
  let h := kernelHeap s2 in
  t <- dateNow ;;
  child <- allocKernel
             (mkKernel id
                (kernelTypeName (k_type (kernelAt h p0)) ++ "-gen"
                 ++ Js.showNat (globalGeneration s2 + 1) ++ "-" ++ Js.showNat i)%string
                "1.0.0" (k_type (kernelAt h p0))
                (mkLineage
                   (maxNat (map (fun p => generation (lineage (kernelAt h p))) ps) + 1)
                   (map (fun p => k_id (kernelAt h p)) ps)
                   (buildAncestorChain h ps)
                   (rq_method request) muts)
                mutatedGenome createInitialFitness DORMANT t 0) ;;
  bumpTotalKernelsCreated ;;
  ret (child, muts).

Fixpoint breedLoop (request : BreedingRequest) (ps : list loc) (p0 : loc)
  (idxs : list nat) (acc : list loc * nat * nat) : M (list loc * nat * nat) :=
  match idxs with
  | [] => ret acc
  | i :: rest =>
      '(child, muts) <- breedOne request ps p0 i ;;
      let '(children, totalMutations, novel) := acc in
      breedLoop request ps p0 rest
        (children ++ [child],
         (totalMutations + List.length muts)%nat,
         (novel + List.length (filter isInsertion muts))%nat)
  end.

Definition breed (request : BreedingRequest) : M BreedingResult :=
  s <- get ;;
  match resolveParents s (rq_parents request) with
  | [] => ret (mkResult [] (Some 0%Q) 0 0)
  | p0 :: rest =>
      let ps := p0 :: rest in
      '(children, totalMutations, novel) <-
        breedLoop request ps p0 (seq 0 (rq_offspringCount request)) ([], 0%nat, 0%nat) ;;
      s' <- get ;;
      emitEvent (BreedingComplete
                   (map (fun p => k_id (kernelAt (kernelHeap s') p)) ps)
                   (map (fun c => k_id (kernelAt (kernelHeap s') c)) children)
                   (rq_method request)) ;;
      ret (mkResult children
             (Js.divide (QofNat (List.length children)) (QofNat (rq_offspringCount request)))
             totalMutations novel)
  end.

Definition orElse (o : option Q) (d : Q) : Q :=
  match o with Some v => v | None => d end.

(** The fitness record [evaluateFitness] leaves in the kernel: the supplied
    scores overwrite the stored ones as they are, [overall] is recomputed,
    [evaluations] is incremented and [lastEvaluated] is the clock reading. *)
Definition rescored (scores : PartialScores) (t : Z) (f : FitnessScores)
  : FitnessScores :=
  let f1 := mkFitness (overall f)
              (orElse (ps_performance scores) (performance f))
              (orElse (ps_efficiency scores) (efficiency f))
              (orElse (ps_reliability scores) (reliability f))
              (orElse (ps_adaptability scores) (adaptability f))
              (orElse (ps_innovation scores) (innovation f))
              (evaluations f) (lastEvaluated f) in
  mkFitness (calculateOverallFitness f1) (performance f1) (efficiency f1)
    (reliability f1) (adaptability f1) (innovation f1) (S (evaluations f1)) t.

Definition evaluateFitness (kernelId : string) (scores : PartialScores)
  : M (option FitnessScores) :=
  s <- get ;;
  match findKernel s kernelId with
  | None => ret None
  | Some l =>
      k <- readKernel l ;;
      t <- dateNow ;;
      let f := rescored scores t (fitness k) in
      writeKernel l (withFitness f k) ;;
      ret (Some f)
  end.

Definition activateKernel (kernelId : string) : M bool :=
  s <- get ;;
  match findKernel s kernelId with
  | None => ret false
  | Some l =>
      k <- readKernel l ;;
      if isDeprecated (k_state k) then ret false
      else
        t <- dateNow ;;
        writeKernel l (withLastActivated t (withState ACTIVE k)) ;;
        emitEvent (KernelActivated kernelId) ;;
        ret true
  end.

Definition deprecateKernel (kernelId : string) : M bool :=
  s <- get ;;
  match findKernel s kernelId with
  | None => ret false
  | Some l =>
      k <- readKernel l ;;
      writeKernel l (withState DEPRECATED k) ;;
      emitEvent (KernelDeprecated kernelId) ;;
      ret true
  end.

Definition initializePopulations : M unit :=
  forEach [Inference; Reasoning; Memory; Meta] (fun type =>
    s <- get ;;
    ks <- match find (fun t => kernelType_eqb (t_type t) type) KERNEL_TEMPLATES with
          | Some template => mapM (fun _ : nat => createKernel template None) (seq 0 5)
          | None => ret []
          end ;;
    modify (fun s' =>
      set_populations
        (populations s' ++
         [mkPopulation ("pop-" ++ kernelTypeName type) type 0 ks
            (mkStatistics (List.length ks) 0 0 0 0 [] 0)
            (cfg_selectionPressure (config s)) (baseMutationRate (config s))
            (Qfloor (Js.div (populationCapacity (config s)) 4))]) s')).

Definition startEvolution : M unit :=
  s <- get ;;
  if isEvolving s then ret tt
  else
    modify (set_isEvolving true) ;;
    s1 <- get ;;
    (if (List.length (populations s1) =? 0)%nat then initializePopulations else ret tt) ;;
    modify (set_evolutionInterval true).

Definition stopEvolution : M unit :=
  modify (fun s => set_isEvolving false (set_evolutionInterval false s)).

(** The body of the archiving loop of [performSelection], for one kernel of
    population [i]. *)
Definition archiveKernel (i : nat) (l : loc) : M unit :=
  k <- readKernel l ;;
  writeKernel l (withState ARCHIVED k) ;;
  modify (fun s' => set_archive (archive s' ++ [l]) s') ;;
  p' <- readPopulation i ;;
  writePopulation i
    (withStatistics
       (withArchivedCount (S (archivedCount (statistics p'))) (statistics p')) p').

(** The filter of [performSelection]:
    [k.fitness.overall < criteria.minFitness && k.fitness.evaluations > 0]. *)
Definition archivable (s : State) (l : loc) : bool :=
  Js.Qltb (overall (fitness (kernelAt (kernelHeap s) l))) (archiveThreshold (config s))
  && (0 <? evaluations (fitness (kernelAt (kernelHeap s) l)))%nat.

Definition performSelection (i : nat) : M unit :=
  s <- get ;;
  p <- readPopulation i ;;
  let sorted := sortByFitness (kernelHeap s) (kernels p) in
  writePopulation i (withKernels sorted p) ;;
  let toArchive := filter (archivable s) sorted in
  forEach toArchive (archiveKernel i) ;;
  s1 <- get ;;
  p1 <- readPopulation i ;;
  writePopulation i
    (withKernels
       (filter (fun l => negb (isArchived (k_state (kernelAt (kernelHeap s1) l))))
          (kernels p1))
       p1).

(** [elite[Math.floor(Math.random() * elite.length)].id]: reading [id] of
    [undefined] is a [TypeError]. *)
Definition pickElite (elite : list loc) : M string :=
  r <- mathRandom ;;
  s <- get ;;
  match Js.index elite (floorTimes r (List.length elite)) with
  | Some l => ret (k_id (kernelAt (kernelHeap s) l))
  | None => throw TypeError
  end.

(** The tail of one turn of the breeding loop: breed one offspring and, if
    one came back, append it to population [i]. *)
Definition breedInto (i : nat) (request : BreedingRequest) : M unit :=
  result <- breed request ;;
  match offspring result with
  | child :: _ =>
      p' <- readPopulation i ;;
      writePopulation i
        (withStatistics
           (withTotalCreated (S (totalCreated (statistics p'))) (statistics p'))
           (withKernels (kernels p' ++ [child]) p'))
  | [] => ret tt
  end.

(** One turn of the breeding loop of [performBreeding]: the method is drawn,
    one or two parents are drawn from [elite], and one offspring is bred. *)
Definition growSlot (i : nat) (elite : list loc) (rate : Q) : M unit :=
  r <- mathRandom ;;
  let method := if Js.Qltb r rate then Crossover else Asexual in
  ids <- (if isCrossover method && (2 <=? List.length elite)%nat
          then a <- pickElite elite ;; b <- pickElite elite ;; ret [a; b]
          else a <- pickElite elite ;; ret [a]) ;;
  breedInto i (mkRequest ids method None 1).

Definition performBreeding (i : nat) : M unit :=
  s <- get ;;
  p <- readPopulation i ;;
  let eliteCount :=
    Qceiling (Js.mul (QofNat (List.length (kernels p))) (elitismRate (config s))) in
  let elite := Js.slice (kernels p) 0 (Some eliteCount) in
  let newKernelsNeeded := Z.max 0 (capacity p - Z.of_nat (List.length (kernels p))) in
  if newKernelsNeeded =? 0 then ret tt
  else
    forEach (seq 0 (Z.to_nat newKernelsNeeded)) (fun _ =>
      growSlot i elite (crossoverRate (config s))).

Definition updatePopulationStatistics (i : nat) : M unit :=
  s <- get ;;
  p <- readPopulation i ;;
  let st := statistics p in
  match kernels p with
  | [] =>
      writePopulation i
        (withStatistics
           (mkStatistics (totalCreated st) (activeCount st) (archivedCount st) 0 0
              (fitnessTrend st) (diversityIndex st)) p)
  | k0 :: rest =>
      let ks := k0 :: rest in
      let fits := map (fun l => overall (fitness (kernelAt (kernelHeap s) l))) ks in
      let average := Js.div (sumQ fits) (QofNat (List.length ks)) in
      let best := maxQ (overall (fitness (kernelAt (kernelHeap s) k0)))
                    (map (fun l => overall (fitness (kernelAt (kernelHeap s) l))) rest) in
      let pushed := fitnessTrend st ++ [average] in
      let trend := if (20 <? List.length pushed)%nat
                   then Js.slice pushed (-20) None else pushed in
      let diversity :=
        Js.div
          (QofNat (distinctCount
                     (map (fun l => checksum (genome (kernelAt (kernelHeap s) l))) ks)))
          (QofNat (List.length ks)) in
      let active :=
        List.length (filter (fun l => isActive (k_state (kernelAt (kernelHeap s) l))) ks) in
      let st' := mkStatistics (totalCreated st) active (archivedCount st) average best
                   trend diversity in
      writePopulation i (withStatistics st' p) ;;
      emitEvent (PopulationUpdated (p_id p) st')
  end.

Definition checkForEmergence : M unit :=
  s <- get ;;
  forEach (populations s) (fun p =>
    let trend := fitnessTrend (statistics p) in
    if (5 <=? List.length trend)%nat then
      let recent := Js.slice trend (-5) None in
      let older := Js.slice trend (-10) (Some (-5)) in
      if (0 <? List.length older)%nat then
        let recentAvg := Js.div (sumQ recent) (QofNat (List.length recent)) in
        let olderAvg := Js.div (sumQ older) (QofNat (List.length older)) in
        if Js.Qltb (Js.mul olderAvg (Js.double (12 # 10))) recentAvg then
          t1 <- dateNow ;;
          t2 <- dateNow ;;
          let event :=
            mkEmergence ("emerge-" ++ Js.showZ t1) t2 ECapability
              ("Significant capability improvement in " ++ kernelTypeName (p_name p)
               ++ " population")
              (Js.divide (Js.sub recentAvg olderAvg) olderAvg) in
          modify (fun s' => set_emergenceEvents (emergenceEvents s' ++ [event]) s') ;;
          emitEvent (EmergenceDetected event)
        else ret tt
      else ret tt
    else ret tt).

(** [population.generation++], at the end of the turn of a population. *)
Definition advanceGeneration (i : nat) : M unit :=
  p <- readPopulation i ;;
  writePopulation i (withGeneration (S (p_generation p)) p).

Definition evolutionCycle : M unit :=
  s <- get ;;
  forEach (seq 0 (List.length (populations s))) (fun i =>
    performSelection i ;;
    performBreeding i ;;
    updatePopulationStatistics i ;;
    advanceGeneration i) ;;
  (if enableEmergence (config s) then checkForEmergence else ret tt) ;;
  modify (fun s' => set_globalGeneration (S (globalGeneration s')) s') ;;
  t <- dateNow ;;
  modify (set_lastEvolutionCycle t) ;;
  s1 <- get ;;
  emitEvent (GenerationComplete (globalGeneration s1)
               (map (fun p => (p_name p, List.length (kernels p),
                               averageFitness (statistics p)))
                  (populations s1))).

End Engine.

(** ** The engine as a transition system

    The operations a collaborator can invoke, and the timer tick. *)

Inductive Op :=
| OpStartEvolution
| OpStopEvolution
| OpTick
| OpCreateKernel (template : KernelTemplate) (customGenome : option PartialGenome)
| OpBreed (request : BreedingRequest)
| OpEvaluateFitness (kernelId : string) (scores : PartialScores)
| OpActivateKernel (kernelId : string)
| OpDeprecateKernel (kernelId : string).

Definition runOp (E : Env) (op : Op) : M unit :=
  match op with
  | OpStartEvolution => startEvolution E
  | OpStopEvolution => stopEvolution
  | OpTick => evolutionCycle E
  | OpCreateKernel t c => createKernel E t c ;; ret tt
  | OpBreed r => breed E r ;; ret tt
  | OpEvaluateFitness id sc => evaluateFitness E id sc ;; ret tt
  | OpActivateKernel id => activateKernel E id ;; ret tt
  | OpDeprecateKernel id => deprecateKernel E id ;; ret tt
  end.

(** The timer fires only while the interval is installed. *)
Definition enabled (op : Op) (s : State) : bool :=
  match op with
  | OpTick => evolutionInterval s
  | _ => true
  end.

(** One operation that came back, normally or by an exception, from [s]. *)
Definition stepTo (E : Env) (op : Op) (s s' : State) : Prop :=
  enabled op s = true /\ finalState (runOp E op s) = Some s'.

(** States reachable by operations that satisfy [allowed]. *)
Inductive reachableVia (E : Env) (allowed : Op -> Prop) : State -> Prop :=
| reach_init (cfg : EvolutionConfig) : reachableVia E allowed (createInitialState cfg)
| reach_step (s s' : State) (op : Op) :
    reachableVia E allowed s -> allowed op -> stepTo E op s s' ->
    reachableVia E allowed s'.

Definition reachable (E : Env) : State -> Prop := reachableVia E (fun _ => True).

(** Any number of further operations. *)
Inductive stepsTo (E : Env) : State -> State -> Prop :=
| steps_refl (s : State) : stepsTo E s s
| steps_cons (s s' s'' : State) (op : Op) :
    stepTo E op s s' -> stepsTo E s' s'' -> stepsTo E s s''.

(** Running a list of operations, for evaluation on concrete inputs; an
    operation that is not enabled is skipped. *)
Fixpoint runOps (E : Env) (ops : list Op) (s : State) : option State :=
  match ops with
  | [] => Some s
  | op :: rest =>
      if enabled op s then
        match finalState (runOp E op s) with
        | Some s' => runOps E rest s'
        | None => None
        end
      else runOps E rest s
  end.

(** A sample environment: the clock advances by one millisecond per reading,
    every draw is 0.5 (rendered [0.i] in base 36), and the Box-Muller value is
    the double [-1.1774], near its value at [u = v = 0.5]. *)
Definition sampleEnv : Env :=
  mkEnv (fun _ => 1 # 2) (fun n => 1700000000000 + Z.of_nat n)
    (fun _ _ => Js.double (- (11774 # 10000))) (fun _ => "0.i") 8.

(** ** Read-only calls of the service *)

(** [getPopulation]: [populations.find(p => p.name === type) || null]. *)
Definition getPopulation (s : State) (type : KernelType) : option KernelPopulation :=
  find (fun p => kernelType_eqb (p_name p) type) (populations s).

(** [getBestKernel]: [reduce] without an initial value starts from the first
    kernel and replaces the best one only by a strictly fitter one. *)
Definition getBestKernel (s : State) (type : KernelType) : option loc :=
  match getPopulation s type with
  | None => None
  | Some p =>
      match kernels p with
      | [] => None
      | k0 :: rest =>
          Some (fold_left
                  (fun best current =>
                     if Js.Qltb (overall (fitness (kernelAt (kernelHeap s) best)))
                          (overall (fitness (kernelAt (kernelHeap s) current)))
                     then current else best)
                  rest k0)
      end
  end.

(** * Vocabulary of the specification *)

(** A triple for the engine monad: from a state satisfying [P], a normal
    return satisfies [Q] and an exceptional one satisfies [X]. *)
Definition hoare {A : Type} (P : State -> Prop) (m : M A)
  (Q : A -> State -> Prop) (X : State -> Prop) : Prop :=
  forall s, P s ->
    match m s with
    | Ret a s' => Q a s'
    | Throw _ s' => X s'
    | Hang => True
    end.

(** A kernel as [createKernel] and [breed] make it. *)
Definition newborn (k : CognitiveKernel) : Prop :=
  fitness k = createInitialFitness /\ k_state k = DORMANT.

(** The state only grows: populations, archive and configuration are the
    same, and the kernel heap has gained freshly made kernels at its end. *)
Definition extends (s0 s : State) : Prop :=
  populations s = populations s0 /\ archive s = archive s0 /\
  config s = config s0 /\ evolutionInterval s = evolutionInterval s0 /\
  exists ext, kernelHeap s = kernelHeap s0 ++ ext /\ Forall newborn ext.

(** [frames m]: whatever [m] does, the state it leaves extends the one it
    started from. *)
Definition frames {A : Type} (m : M A) : Prop :=
  forall s0, hoare (extends s0) m (fun _ => extends s0) (extends s0).

(** [c] was allocated between [s] and [s']. *)
Definition bornBetween (s s' : State) (c : loc) : Prop :=
  (List.length (kernelHeap s) <= c < List.length (kernelHeap s'))%nat.

(** The kernels of the population at index [i]. *)
Definition kernelsOf (s : State) (i : nat) : list loc :=
  kernels (populationAt (populations s) i).

(** Every kernel object the engine holds is held once: by one population or
    by the archive; the ones held by populations are not marked ARCHIVED. *)
Record wellOwned (s : State) : Prop := mkWellOwned {
  wo_bound : forall i l, In l (kernelsOf s i) -> (l < List.length (kernelHeap s))%nat;
  wo_bound_archive : forall l, In l (archive s) -> (l < List.length (kernelHeap s))%nat;
  wo_archive : forall i l, In l (kernelsOf s i) -> ~ In l (archive s);
  wo_disjoint : forall i j l, i <> j -> In l (kernelsOf s i) -> ~ In l (kernelsOf s j);
  wo_state : forall i l,
      In l (kernelsOf s i) -> k_state (kernelAt (kernelHeap s) l) <> ARCHIVED
}.

(** The kernels [ls] have been marked ARCHIVED and appended to the archive;
    nothing else about the kernel objects has changed. *)
Record marked (ls : list loc) (s s' : State) : Prop := mkMarked {
  mk_archive : archive s' = archive s ++ ls;
  mk_length : List.length (kernelHeap s') = List.length (kernelHeap s);
  mk_rest : forall l,
      withState ARCHIVED (kernelAt (kernelHeap s') l) =
      withState ARCHIVED (kernelAt (kernelHeap s) l);
  mk_out : forall l,
      ~ In l ls ->
      k_state (kernelAt (kernelHeap s') l) = k_state (kernelAt (kernelHeap s) l);
  mk_in : forall l,
      In l ls -> (l < List.length (kernelHeap s))%nat ->
      k_state (kernelAt (kernelHeap s') l) = ARCHIVED;
  mk_populations : List.length (populations s') = List.length (populations s)
}.

(** The local [toArchive] of [performSelection] on population [i]. *)
Definition toArchive (s : State) (i : nat) : list loc :=
  filter (archivable s) (sortByFitness (kernelHeap s) (kernelsOf s i)).

(** What [performSelection] does to population [i]. *)
Record selected (i : nat) (s s' : State) : Prop := mkSelected {
  sel_marked : marked (toArchive s i) s s';
  sel_others : forall j, j <> i -> kernelsOf s' j = kernelsOf s j;
  sel_kernels :
    kernelsOf s' i =
    filter (fun l => negb (isArchived (k_state (kernelAt (kernelHeap s') l))))
      (sortByFitness (kernelHeap s) (kernelsOf s i))
}.

(** [evolves s s'] holds between the states before and after every phase of
    a cycle and every operation except [evaluateFitness]: ownership stays
    intact, the archive only grows, and a kernel's fitness is either what it
    was or the initial fitness of a newly made kernel. *)
Record evolves (s s' : State) : Prop := mkEvolves {
  ev_owned : wellOwned s -> wellOwned s';
  ev_archive : incl (archive s) (archive s');
  ev_fitness : forall l,
      fitness (kernelAt (kernelHeap s') l) = fitness (kernelAt (kernelHeap s) l) \/
      fitness (kernelAt (kernelHeap s') l) = createInitialFitness
}.

(** [evolving m]: whatever [m] does, the state evolves. *)
Definition evolving {A : Type} (m : M A) : Prop :=
  forall s0, hoare (evolves s0) m (fun _ => evolves s0) (evolves s0).

Definition isEvaluate (op : Op) : bool :=
  match op with OpEvaluateFitness _ _ => true | _ => false end.

(** The phases [evolutionCycle] runs on one population after the other
    (selection, breeding, statistics, the generation counter), and one turn of
    the breeding loop. *)
Inductive Phase :=
| PhaseSelection (i : nat)
| PhaseBreeding (i : nat)
| PhaseSlot (i : nat) (elite : list loc) (rate : Q)
| PhaseStatistics (i : nat)
| PhaseGeneration (i : nat).

Definition runPhase (E : Env) (ph : Phase) : M unit :=
  match ph with
  | PhaseSelection i => performSelection i
  | PhaseBreeding i => performBreeding E i
  | PhaseSlot i elite rate => growSlot E i elite rate
  | PhaseStatistics i => updatePopulationStatistics E i
  | PhaseGeneration i => advanceGeneration i
  end.

(** The states the engine passes through: those reachable by whole
    operations, followed by any number of phases. *)
Inductive inCycle (E : Env) : State -> Prop :=
| inCycle_reachable (s : State) : reachable E s -> inCycle E s
| inCycle_phase (s s' : State) (ph : Phase) :
    inCycle E s -> finalState (runPhase E ph s) = Some s' -> inCycle E s'.

(** Running operations and phases on concrete states. *)
Definition afterOps (E : Env) (ops : list Op) (s : State) : State :=
  match runOps E ops s with Some s' => s' | None => s end.

Definition afterPhase (E : Env) (ph : Phase) (s : State) : State :=
  match finalState (runPhase E ph s) with Some s' => s' | None => s end.

(** Sample inputs: the engine started with the default configuration under
    [sampleEnv], and the all-zero scores. *)
Definition zeroScores : PartialScores :=
  mkScores (Some 0%Q) (Some 0%Q) (Some 0%Q) (Some 0%Q) (Some 0%Q).

Definition founderId (n : Z) : string :=
  ("kernel-" ++ Js.showZ (1700000000000 + 3 * n) ++ "-i")%string.

Definition founded : State :=
  afterOps sampleEnv [OpStartEvolution] (createInitialState DEFAULT_EVOLUTION_CONFIG).

(** Founded, then the first founder of the first population evaluated with
    all-zero scores. *)
Definition oneEvaluated : State :=
  afterOps sampleEnv [OpStartEvolution; OpEvaluateFitness (founderId 0) zeroScores]
    (createInitialState DEFAULT_EVOLUTION_CONFIG).

(** ... and one generation later: that founder is in the archive. *)
Definition oneArchived : State :=
  afterOps sampleEnv
    [OpStartEvolution; OpEvaluateFitness (founderId 0) zeroScores; OpTick]
    (createInitialState DEFAULT_EVOLUTION_CONFIG).

(** Further operations on [oneArchived]. *)
Definition laterOps : list Op :=
  [OpActivateKernel (founderId 0); OpEvaluateFitness (founderId 0) zeroScores;
   OpTick; OpBreed (mkRequest [founderId 0] Asexual None 1); OpTick].

(** [l] is held by the archive or by a population. *)
Definition held (s : State) (l : loc) : Prop :=
  In l (archive s) \/ exists i, In l (kernelsOf s i).

(** A decidable form of "no other kernel object carries the id of [l]". *)
Definition idUnique (h : list CognitiveKernel) (l : loc) : bool :=
  forallb (fun l' => (l' =? l)%nat
                     || negb (String.eqb (k_id (kernelAt h l')) (k_id (kernelAt h l))))
    (seq 0 (List.length h)).

(** The id/value pair of a gene: what the checksum reads. *)
Definition entry (g : Gene) : string * GeneValue := (g_id g, g_value g).










Definition overallOf (s : State) (l : loc) : Q :=
  overall (fitness (kernelAt (kernelHeap s) l)).








(** The last [n] elements of a list. *)
Definition lastN {A : Type} (n : nat) (l : list A) : list A :=
  skipn (List.length l - n) l.

Definition statisticsOf (s : State) (i : nat) : PopulationStatistics :=
  statistics (populationAt (populations s) i).




(** Founded with the default configuration, then all five founders of the
    first population evaluated with all-zero scores. *)
Definition allFailed : State :=
  afterOps sampleEnv
    [OpStartEvolution;
     OpEvaluateFitness (founderId 0) zeroScores;
     OpEvaluateFitness (founderId 1) zeroScores;
     OpEvaluateFitness (founderId 2) zeroScores;
     OpEvaluateFitness (founderId 3) zeroScores;
     OpEvaluateFitness (founderId 4) zeroScores]
    (createInitialState DEFAULT_EVOLUTION_CONFIG).

(** [KERNEL_TEMPLATES[0]]. *)
Definition inferenceTemplate : KernelTemplate :=
  mkTemplate "Basic Inference" Inference (templateGenome [0; 1; 2]%nat)
    "Basic LLM inference kernel".

(** Two kernels made from the inference template, then [mutateGene] on the
    first core gene of the first one. The result lists: the first core gene
    of each kernel, and the value of the second kernel's first core gene and
    of the template's [temperature] gene before and after the mutation. *)
Definition sharedGeneRun
  : option (option loc * option loc * (GeneValue * GeneValue) * (GeneValue * GeneValue)) :=
  let s0 := createInitialState DEFAULT_EVOLUTION_CONFIG in
  match createKernel sampleEnv inferenceTemplate None s0 with
  | Ret k1 s1 =>
      match createKernel sampleEnv inferenceTemplate None s1 with
      | Ret k2 s2 =>
          let g1 := nth 0 (coreGenes (genome (kernelAt (kernelHeap s2) k1))) 0%nat in
          let g2 := nth 0 (coreGenes (genome (kernelAt (kernelHeap s2) k2))) 0%nat in
          match mutateGene sampleEnv g1 s2 with
          | Ret _ s3 =>
              Some (nth_error (coreGenes (genome (kernelAt (kernelHeap s2) k1))) 0,
                    nth_error (coreGenes (genome (kernelAt (kernelHeap s2) k2))) 0,
                    (g_value (geneAt (geneHeap s2) g2), g_value (geneAt (geneHeap s3) g2)),
                    (g_value (geneAt (geneHeap s2) 0%nat), g_value (geneAt (geneHeap s3) 0%nat)))
          | _ => None
          end
      | _ => None
      end
  | _ => None
  end.

(** The same experiment on the sibling path: an asexual copy of the first
    kernel's genome, then [mutateGene] on the first core gene of the copy. The
    result lists the first core gene of the copy, and the value of the
    template's [temperature] gene before and after the mutation. *)
Definition clonedGeneRun : option (option loc * (GeneValue * GeneValue)) :=
  let s0 := createInitialState DEFAULT_EVOLUTION_CONFIG in
  match createKernel sampleEnv inferenceTemplate None s0 with
  | Ret k1 s1 =>
      match asexualReproduction (genome (kernelAt (kernelHeap s1) k1)) s1 with
      | Ret child s2 =>
          match mutateGene sampleEnv (nth 0 (coreGenes child) 0%nat) s2 with
          | Ret _ s3 =>
              Some (nth_error (coreGenes child) 0,
                    (g_value (geneAt (geneHeap s2) 0%nat),
                     g_value (geneAt (geneHeap s3) 0%nat)))
          | _ => None
          end
      | _ => None
      end
  | _ => None
  end.

(** [returns m]: [m] comes back normally from every state. *)
Definition returns {A : Type} (m : M A) : Prop :=
  forall s, exists a s', m s = Ret a s'.

(** The draws of an environment are those of [Math.random()]: doubles in
    [0,1), so at most [1 - 2^-53]; and never [patience] zeros in a row. *)
Definition drawsInRange (E : Env) : Prop :=
  forall n, (0 <= random E n /\ random E n <= Js.belowOne)%Q.

Definition drawsNotStuck (E : Env) : Prop :=
  forall n, exists k, (k < patience E)%nat /\ ~ (random E (n + k) == 0)%Q.

(** Descending in [fitness.overall], as the comparator of [performSelection]
    orders kernels. *)
Definition fitterFirst (s : State) (a b : loc) : Prop :=
  (overallOf s b <= overallOf s a)%Q.

(** A population after [n] of its kernels have been archived: the counter of
    its statistics is [n] higher. *)
Definition archivedMore (n : nat) (p : KernelPopulation) : KernelPopulation :=
  withStatistics
    (withArchivedCount (archivedCount (statistics p) + n) (statistics p)) p.

(** The gene objects behind a list of references. *)
Definition genesAt (s : State) (ls : list loc) : list Gene :=
  map (geneAt (geneHeap s)) ls.

(** All references of [ls] are to gene objects of [s]. *)
Definition genesIn (s : State) (ls : list loc) : Prop :=
  Forall (fun l => (l < List.length (geneHeap s))%nat) ls.

(** The references of [ls] are to gene objects made between [s] and [s']. *)
Definition freshGenes (s s' : State) (ls : list loc) : Prop :=
  Forall (fun l => (List.length (geneHeap s) <= l < List.length (geneHeap s'))%nat) ls.

(** Gene [g'] is gene [g] after the mutation pass: nothing but its value may
    differ, and nothing at all when the gene is not mutable. *)
Definition mutationOf (g g' : Gene) : Prop :=
  g' = withValue (g_value g') g /\ (g_mutable g = false -> g' = g).

(** The gene [applyMutations] may insert. *)
Definition novelGene (g : Gene) : Prop :=
  g_name g = "Novel Gene" /\ g_type g = GParameter /\ g_mutable g = true /\
  g_expressionLevel g = (1 # 2)%Q /\ exists v, g_value g = VNumber v.

(** The genome [c], read in [s'], is what [breed] makes of the genome [p],
    read in [s], when it crosses [p] with itself: the core genes are
    copies of all core genes of [p] in their order, each after the mutation
    pass, followed by at most one inserted gene; the regulatory genes are
    copies of those of [p]; the expression modifiers are those of [p]; the
    checksum is that of the genes of [c]; every gene of [c] is a new object,
    and the genes of [p] are as they were. *)
Definition selfCrossed (s s' : State) (p c : KernelGenome) : Prop :=
  exists inherited novel,
    coreGenes c = inherited ++ novel /\
    Forall2 mutationOf (genesAt s (coreGenes p)) (genesAt s' inherited) /\
    (List.length novel <= 1)%nat /\
    Forall novelGene (genesAt s' novel) /\
    genesAt s' (regulatoryGenes c) = genesAt s (regulatoryGenes p) /\
    expressionModifiers c = expressionModifiers p /\
    checksum c = calculateChecksum (geneHeap s') (coreGenes c) (regulatoryGenes c) /\
    freshGenes s s' (coreGenes c ++ regulatoryGenes c) /\
    genesAt s' (coreGenes p ++ regulatoryGenes p)
    = genesAt s (coreGenes p ++ regulatoryGenes p).

(** What the mutation pass over the references [ls] does to a gene heap:
    no gene is made, every gene is as it was up to its value, and the genes
    that [ls] does not reach are as they were. *)
Definition mutatedAt (ls : list loc) (h h' : list Gene) : Prop :=
  List.length h' = List.length h /\
  forall l, mutationOf (geneAt h l) (geneAt h' l) /\
            (~ In l ls -> geneAt h' l = geneAt h l).

(** The gene heap has only grown: every gene object of [s] is in [s'] as it
    was. *)
Definition genesGrow (s s' : State) : Prop :=
  exists ext, geneHeap s' = geneHeap s ++ ext.

(** [respects R m]: whatever [m] does, the state it leaves is related by [R]
    to the state it started from. *)
Definition respects {A : Type} (R : State -> State -> Prop) (m : M A) : Prop :=
  forall s,
    match m s with
    | Ret _ s' => R s s'
    | Throw _ s' => R s s'
    | Hang => True
    end.

(** The gene objects below [n] are kept as they are, and the heap does not
    shrink. *)
Definition genesKept (n : nat) (s s' : State) : Prop :=
  (n <= List.length (geneHeap s))%nat ->
  (List.length (geneHeap s) <= List.length (geneHeap s'))%nat /\
  firstn n (geneHeap s') = firstn n (geneHeap s).

(** The genome a breeding method returns is made of gene objects that did
    not exist before. *)
Definition makesFresh (m : M KernelGenome) : Prop :=
  forall s,
    match m s with
    | Ret g s' => freshGenes s s' (coreGenes g ++ regulatoryGenes g)
    | _ => True
    end.

(** What is fixed when a kernel is made: everything but its fitness, its
    state and [lastActivated]. *)
Definition identity (k : CognitiveKernel)
  : string * string * string * KernelType * KernelLineage * KernelGenome * Z :=
  (k_id k, k_name k, k_version k, k_type k, lineage k, genome k, created k).

(** Between [s] and [s'] the kernel objects of [s] kept their identity, the
    kernels made were counted by [totalKernelsCreated], and the configuration
    stayed. *)
Record kernelsKept (s s' : State) : Prop := mkKernelsKept {
  kk_length : (List.length (kernelHeap s) <= List.length (kernelHeap s'))%nat;
  kk_identity : forall l,
      (l < List.length (kernelHeap s))%nat ->
      identity (kernelAt (kernelHeap s') l) = identity (kernelAt (kernelHeap s) l);
  kk_counted :
    (totalKernelsCreated s' + List.length (kernelHeap s)
     = totalKernelsCreated s + List.length (kernelHeap s'))%nat;
  kk_config : config s' = config s
}.

(** The checksum of kernel [l] is the checksum of the current contents of
    its genes, all of which exist. *)
Definition sealed (s : State) (l : loc) : Prop :=
  let g := genome (kernelAt (kernelHeap s) l) in
  genesIn s (coreGenes g ++ regulatoryGenes g) /\
  checksum g = calculateChecksum (geneHeap s) (coreGenes g) (regulatoryGenes g).

(** The kernels made between [s] and [s'] are sealed in [s']. *)
Definition bornSealed (s s' : State) : Prop :=
  forall l, (List.length (kernelHeap s) <= l < List.length (kernelHeap s'))%nat ->
            sealed s' l.

(** The gene objects of [KERNEL_TEMPLATES] are in the heap. *)
Definition templatesIn (s : State) : Prop :=
  (List.length templateGenes <= List.length (geneHeap s))%nat.

(** What every operation keeps, on the way to sealed checksums. *)
Definition sealing (s s' : State) : Prop :=
  kernelsKept s s' /\ genesGrow s s' /\ (templatesIn s -> bornSealed s s').

(** The core and the regulatory genes a call
    [createKernel(template, customGenome)] puts into the new kernel. *)
Definition coreOfCall (t : KernelTemplate) (c : option PartialGenome) : list loc :=
  match c with
  | Some g =>
      match pg_coreGenes g with
      | Some extra => orEmpty (pg_coreGenes (baseGenome t)) ++ extra
      | None => orEmpty (pg_coreGenes (baseGenome t))
      end
  | None => orEmpty (pg_coreGenes (baseGenome t))
  end.

Definition regulatoryOfCall (t : KernelTemplate) (c : option PartialGenome) : list loc :=
  match c with
  | Some g =>
      match pg_regulatoryGenes g with
      | Some extra => orEmpty (pg_regulatoryGenes (baseGenome t)) ++ extra
      | None => orEmpty (pg_regulatoryGenes (baseGenome t))
      end
  | None => orEmpty (pg_regulatoryGenes (baseGenome t))
  end.

Definition genesOfCall (t : KernelTemplate) (c : option PartialGenome) : list loc :=
  coreOfCall t c ++ regulatoryOfCall t c.

(** Operations whose [createKernel] calls only use genes of
    [KERNEL_TEMPLATES]. *)
Definition templateGenesOnly (op : Op) : Prop :=
  match op with
  | OpCreateKernel t c =>
      Forall (fun l => (l < List.length templateGenes)%nat) (genesOfCall t c)
  | _ => True
  end.

(** A computation that only makes or writes genes and reads the clock and
    the random source leaves the rest of the state alone. *)
Definition genesOnly (s s' : State) : Prop :=
  kernelHeap s' = kernelHeap s /\ populations s' = populations s /\
  archive s' = archive s /\ config s' = config s /\
  totalKernelsCreated s' = totalKernelsCreated s /\
  globalGeneration s' = globalGeneration s /\ emitted s' = emitted s.

(** The kernel heap has only gained newly made kernels at its end. *)
Definition kernelsGrow (s s' : State) : Prop :=
  exists ext, kernelHeap s' = kernelHeap s ++ ext /\ Forall newborn ext.

(** The bookkeeping of one population adds up: every kernel it was given is
    still in it or was archived from it; and its fitness trend is bounded. *)
Definition balanced (p : KernelPopulation) : Prop :=
  totalCreated (statistics p)
  = (List.length (kernels p) + archivedCount (statistics p))%nat /\
  (List.length (fitnessTrend (statistics p)) <= 20)%nat.

Definition archivedTotal (ps : list KernelPopulation) : nat :=
  fold_right (fun p n => (archivedCount (statistics p) + n)%nat) 0%nat ps.

Record accounted (s : State) : Prop := mkAccounted {
  acc_balanced : Forall balanced (populations s);
  acc_archive : List.length (archive s) = archivedTotal (populations s)
}.

(** What every phase of a cycle and every operation keeps: the state
    evolves, and the bookkeeping of a well-owned state stays right. *)
Definition accounting (s s' : State) : Prop :=
  evolves s s' /\ (wellOwned s -> accounted s -> accounted s').

(** The kernel object [breed] makes for the parents [ps] (the first of them
    [p0]) in a heap [h]: what is fixed by the request and the parents. *)
Definition offspringOf (h : list CognitiveKernel) (rq : BreedingRequest)
  (ps : list loc) (p0 : loc) (k : CognitiveKernel) : Prop :=
  k_version k = "1.0.0" /\
  k_type k = k_type (kernelAt h p0) /\
  generation (lineage k)
  = (maxNat (map (fun p => generation (lineage (kernelAt h p))) ps) + 1)%nat /\
  parents (lineage k) = map (fun p => k_id (kernelAt h p)) ps /\
  ancestors (lineage k) = buildAncestorChain h ps /\
  breedingMethod (lineage k) = rq_method rq /\
  fitness k = createInitialFitness /\
  k_state k = DORMANT /\
  lastActivated k = 0.

(** What the offspring loop of [breed] adds up. *)
Definition mutationCount (ks : list CognitiveKernel) : nat :=
  list_sum (map (fun k => List.length (mutations (lineage k))) ks).

Definition insertionCount (ks : list CognitiveKernel) : nat :=
  list_sum (map (fun k => List.length (filter isInsertion (mutations (lineage k)))) ks).

(** The template [initializePopulations] uses for a kernel type. *)
Definition templateOf (type : KernelType) : option KernelTemplate :=
  find (fun t => kernelType_eqb (t_type t) type) KERNEL_TEMPLATES.

(** A kernel as [createKernel] makes it from template [t] without a custom
    genome. *)
Definition founder (t : KernelTemplate) (k : CognitiveKernel) : Prop :=
  k_type k = t_type t /\ k_version k = "1.0.0" /\
  lineage k = mkLineage 0 [] [] Synthetic [] /\
  coreGenes (genome k) = orEmpty (pg_coreGenes (baseGenome t)) /\
  regulatoryGenes (genome k) = orEmpty (pg_regulatoryGenes (baseGenome t)) /\
  fitness k = createInitialFitness /\ k_state k = DORMANT /\ lastActivated k = 0.

(** A population as [initializePopulations] makes it. *)
Definition foundedPopulation (cfg : EvolutionConfig) (type : KernelType)
  (ks : list loc) : KernelPopulation :=
  mkPopulation ("pop-" ++ kernelTypeName type) type 0 ks
    (mkStatistics (List.length ks) 0 0 0 0 [] 0)
    (cfg_selectionPressure cfg) (baseMutationRate cfg)
    (Qfloor (Js.div (populationCapacity cfg) 4)).

(** The parent [multiParentBreeding] picks with its [k]-th draw:
    [genomes[Math.floor(Math.random() * genomes.length)]]. *)
Definition parentPick (E : Env) (genomes : list KernelGenome) (s : State) (k : nat)
  : option KernelGenome :=
  Js.index genomes (floorTimes (random E (randomCalls s + k)) (List.length genomes)).

(** The core gene at position [i] of the parent picked for that position, if
    that parent has one. *)
Definition pickedGene (E : Env) (genomes : list KernelGenome) (s : State) (i : nat)
  : list Gene :=
  match parentPick E genomes s i with
  | Some g => match nth_error (coreGenes g) i with
              | Some l => [geneAt (geneHeap s) l]
              | None => []
              end
  | None => []
  end.

(** The hash of [calculateChecksum] before it is cut to 32 bits: the
    polynomial in 31 whose coefficients are the code units,
    [c0 * 31^(n-1) + ... + c(n-1)]. *)
Definition polyHash (units : list Z) : Z :=
  fold_left (fun h c => 31 * h + c) units 0.

(** * Reasoning principles *)

(** ** Double arithmetic *)

Section DoubleArithmetic.

Local Open Scope Q_scope.


Lemma pow2_pos e : 0 < Js.pow2 e.
Proof. apply Qpower_0_lt. reflexivity. Qed.

Lemma pow2_plus a b : Js.pow2 (a + b) == Js.pow2 a * Js.pow2 b.
Proof. apply Qpower_plus. discriminate. Qed.


Lemma pow2_lt a b : (a < b)%Z -> Js.pow2 a < Js.pow2 b.
Proof. intros H. apply Qpower_lt_compat_l; [exact H|reflexivity]. Qed.

Lemma pow2_Z e : (0 <= e)%Z -> Js.pow2 e == inject_Z (2 ^ e).
Proof. intros H. unfold Js.pow2. now rewrite Zpower_Qpower. Qed.

Lemma pow2_opp e : Js.pow2 (- e) == / Js.pow2 e.
Proof. apply Qpower_opp. Qed.

Lemma Qinv_le_anti a b : 0 < a -> a <= b -> / b <= / a.
Proof.
  intros Ha Hab.
  assert (Hb : 0 < b) by (eapply Qlt_le_trans; eauto).
  apply Qle_shift_inv_l; [exact Ha|].
  setoid_replace (/ b * a) with (a / b) by (unfold Qdiv; ring).
  apply Qle_shift_div_r; [exact Hb|]. now rewrite Qmult_1_l.
Qed.

(** [ilog2 v] is the binary exponent of [v]. *)
Lemma ilog2_spec v :
  0 < v -> Js.pow2 (Js.ilog2 v) <= v /\ v < Js.pow2 (Js.ilog2 v + 1).
Proof.
  intros Hv. unfold Js.ilog2. destruct (Qle_bool 1 v) eqn:H1.
  - apply Qle_bool_iff in H1.
    assert (Hf : (1 <= Qfloor v)%Z).
    { change 1%Z with (Qfloor 1). now apply Qfloor_resp_le. }
    destruct (Z.log2_spec (Qfloor v)) as [Hlo Hhi]; [lia|].
    pose proof (Z.log2_nonneg (Qfloor v)) as Hk.
    rewrite !pow2_Z by lia. split.
    + eapply Qle_trans; [|apply Qfloor_le]. now rewrite <- Zle_Qle.
    + eapply Qlt_le_trans; [apply Qlt_floor|]. rewrite <- Zle_Qle.
      change (Z.log2 (Qfloor v) + 1)%Z with (Z.succ (Z.log2 (Qfloor v))). lia.
  - assert (Hlt : v < 1).
    { apply Qnot_le_lt. intros H. apply Qle_bool_iff in H. congruence. }
    assert (Hw : 1 < / v).
    { apply Qlt_shift_inv_l; [exact Hv|]. now rewrite Qmult_1_l. }
    set (w := / v) in *.
    assert (Hc : (1 < Qceiling w)%Z).
    { rewrite Zlt_Qlt. eapply Qlt_le_trans; [exact Hw|apply Qle_ceiling]. }
    destruct (Z.log2_up_spec (Qceiling w) Hc) as [Hlo Hhi].
    pose proof (Z.log2_up_pos _ Hc) as Hj.
    set (j := Z.log2_up (Qceiling w)) in *.
    assert (Hwv : v == / w) by (unfold w; now rewrite Qinv_involutive).
    assert (Hwpos : 0 < w) by (eapply Qlt_trans; [|exact Hw]; reflexivity).
    split.
    + rewrite pow2_opp, Hwv.
      apply Qinv_le_anti; [exact Hwpos|].
      rewrite pow2_Z by lia.
      eapply Qle_trans; [apply Qle_ceiling|]. now rewrite <- Zle_Qle.
    + replace (- j + 1)%Z with (- (j - 1))%Z by lia.
      rewrite pow2_opp, Hwv.
      apply (proj1 (Qinv_lt_contravar _ _ (pow2_pos _) Hwpos)).
      rewrite pow2_Z by lia.
      eapply Qle_lt_trans; [|apply Qceiling_lt]. rewrite <- Zle_Qle.
      change (Z.pred j) with (j - 1)%Z in Hlo. lia.
Qed.

Lemma ilog2_comp v w : v == w -> Js.ilog2 v = Js.ilog2 w.
Proof.
  intros H. unfold Js.ilog2.
  rewrite (Qleb_comp 1 1 (Qeq_refl 1) v w H), (Qfloor_comp v w H).
  rewrite (Qceiling_comp (/ v) (/ w)) by now rewrite H.
  reflexivity.
Qed.

(** The exponent is the only one that brackets [v]. *)
Lemma ilog2_unique v k :
  Js.pow2 k <= v -> v < Js.pow2 (k + 1) -> Js.ilog2 v = k.
Proof.
  intros Hlo Hhi.
  assert (Hv : 0 < v) by (eapply Qlt_le_trans; [apply pow2_pos|exact Hlo]).
  destruct (ilog2_spec v Hv) as [Hlo' Hhi'].
  assert (H1 : (Js.ilog2 v < k + 1)%Z).
  { apply (Qpower_lt_compat_l_inv 2); [|reflexivity].
    eapply Qle_lt_trans; [exact Hlo'|exact Hhi]. }
  assert (H2 : (k < Js.ilog2 v + 1)%Z).
  { apply (Qpower_lt_compat_l_inv 2); [|reflexivity].
    eapply Qle_lt_trans; [exact Hlo|exact Hhi']. }
  lia.
Qed.


(** Rounding to the nearest integer. *)
Lemma roundHalfEven_cases v :
  (Js.roundHalfEven v = Qfloor v /\ v - inject_Z (Qfloor v) <= 1 # 2) \/
  (Js.roundHalfEven v = (Qfloor v + 1)%Z /\ 1 # 2 <= v - inject_Z (Qfloor v)).
Proof.
  unfold Js.roundHalfEven.
  destruct (Qcompare (v - inject_Z (Qfloor v)) (1 # 2)) eqn:Hc.
  - apply Qeq_alt in Hc. destruct (Z.even (Qfloor v)).
    + left. split; [reflexivity|]. rewrite Hc. apply Qle_refl.
    + right. split; [reflexivity|]. rewrite Hc. apply Qle_refl.
  - apply Qlt_alt in Hc. left. split; [reflexivity|]. now apply Qlt_le_weak.
  - apply Qgt_alt in Hc. right. split; [reflexivity|]. now apply Qlt_le_weak.
Qed.

Lemma roundHalfEven_error v :
  - (1 # 2) <= inject_Z (Js.roundHalfEven v) - v <= 1 # 2.
Proof.
  pose proof (Qfloor_le v) as Hlo. pose proof (Qlt_floor v) as Hhi.
  rewrite inject_Z_plus in Hhi. change (inject_Z 1) with 1 in Hhi.
  destruct (roundHalfEven_cases v) as [[-> H]|[-> H]].
  - split; lra.
  - rewrite inject_Z_plus. change (inject_Z 1) with 1. split; lra.
Qed.

Lemma roundHalfEven_comp v w : v == w -> Js.roundHalfEven v = Js.roundHalfEven w.
Proof.
  intros H. unfold Js.roundHalfEven. rewrite (Qfloor_comp v w H).
  rewrite (Qcompare_comp (v - inject_Z (Qfloor w)) (w - inject_Z (Qfloor w))
             ltac:(now rewrite H) (1 # 2) (1 # 2) (Qeq_refl _)).
  reflexivity.
Qed.




(** Rounding a positive number to 53 significant bits. *)
Lemma round53_value v :
  Js.round53 v
  == inject_Z (Js.roundHalfEven (v / Js.pow2 (Js.ilog2 v - 52))) * Js.pow2 (Js.ilog2 v - 52).
Proof. unfold Js.round53. apply Qred_correct. Qed.

Lemma round53_comp v w : v == w -> Js.round53 v = Js.round53 w.
Proof.
  intros H. unfold Js.round53. apply Qred_complete.
  rewrite (ilog2_comp _ _ H).
  now rewrite (roundHalfEven_comp (v / _) (w / Js.pow2 (Js.ilog2 w - 52))) by now rewrite H.
Qed.

Lemma pow2_53 : Js.pow2 (-53) == 1 # 9007199254740992.
Proof. reflexivity. Qed.

Lemma round53_error v :
  0 < v -> Qabs (Js.round53 v - v) <= v * Js.pow2 (-53).
Proof.
  intros Hv. rewrite round53_value.
  set (e := (Js.ilog2 v - 52)%Z).
  pose proof (pow2_pos e) as He.
  destruct (ilog2_spec v Hv) as [Hlo _].
  pose proof (roundHalfEven_error (v / Js.pow2 e)) as [H1 H2].
  set (m := inject_Z (Js.roundHalfEven (v / Js.pow2 e))) in *.
  assert (Hdiv : v / Js.pow2 e * Js.pow2 e == v).
  { field. intros H. rewrite H in He. discriminate. }
  assert (Hhalf : Js.pow2 e * (1 # 2) <= v * Js.pow2 (-53)).
  { replace (Js.ilog2 v) with (e + 52)%Z in Hlo by (unfold e; lia).
    rewrite pow2_plus in Hlo.
    assert (H52 : Js.pow2 52 * Js.pow2 (-53) == 1 # 2) by reflexivity.
    apply Qle_trans with (Js.pow2 e * Js.pow2 52 * Js.pow2 (-53)).
    - rewrite <- Qmult_assoc, H52. apply Qle_refl.
    - apply Qmult_le_compat_r; [exact Hlo|]. apply Qlt_le_weak, pow2_pos. }
  apply Qabs_Qle_condition. split.
  - apply Qle_trans with (- (Js.pow2 e * (1 # 2))); [lra|].
    setoid_replace (m * Js.pow2 e - v) with ((m - v / Js.pow2 e) * Js.pow2 e)
      by (rewrite <- Hdiv at 1; ring).
    setoid_replace (- (Js.pow2 e * (1 # 2))) with (- (1 # 2) * Js.pow2 e) by ring.
    apply Qmult_le_compat_r; [exact H1|now apply Qlt_le_weak].
  - apply Qle_trans with (Js.pow2 e * (1 # 2)); [|exact Hhalf].
    setoid_replace (m * Js.pow2 e - v) with ((m - v / Js.pow2 e) * Js.pow2 e)
      by (rewrite <- Hdiv at 1; ring).
    setoid_replace (Js.pow2 e * (1 # 2)) with ((1 # 2) * Js.pow2 e) by ring.
    apply Qmult_le_compat_r; [exact H2|now apply Qlt_le_weak].
Qed.

Lemma round53_pos v : 0 < v -> 0 < Js.round53 v.
Proof.
  intros Hv. pose proof (round53_error v Hv) as H.
  apply Qabs_Qle_condition in H. destruct H as [H _].
  assert (Hs : v * Js.pow2 (-53) < v).
  { rewrite pow2_53. rewrite <- (Qmult_1_r v) at 2.
    apply Qmult_lt_l; [exact Hv|reflexivity]. }
  lra.
Qed.






(** ** Properties of [Js.double] *)

Lemma double_comp x y : x == y -> Js.double x = Js.double y.
Proof.
  intros H. unfold Js.double.
  rewrite (Qcompare_comp x y H 0 0 (Qeq_refl 0)).
  destruct (Qcompare y 0).
  - reflexivity.
  - f_equal. apply round53_comp. now rewrite H.
  - now apply round53_comp.
Qed.

Lemma double_pos x : 0 < x -> Js.double x = Js.round53 x.
Proof.
  intros H. unfold Js.double. destruct (Qcompare x 0) eqn:Hc; [| |reflexivity].
  - apply Qeq_alt in Hc. exfalso. lra.
  - apply Qlt_alt in Hc. exfalso. lra.
Qed.

Lemma double_neg x : x < 0 -> Js.double x = (- Js.round53 (- x))%Q.
Proof.
  intros H. unfold Js.double. destruct (Qcompare x 0) eqn:Hc; [|reflexivity|].
  - apply Qeq_alt in Hc. exfalso. lra.
  - apply Qgt_alt in Hc. exfalso. lra.
Qed.

Lemma double_zero x : x == 0 -> Js.double x = 0.
Proof.
  intros H. unfold Js.double. destruct (Qcompare x 0) eqn:Hc; [reflexivity| |].
  - apply Qlt_alt in Hc. exfalso. lra.
  - apply Qgt_alt in Hc. exfalso. lra.
Qed.

Lemma Qtrichotomy x : x < 0 \/ x == 0 \/ 0 < x.
Proof.
  destruct (Q_dec x 0) as [[H|H]|H]; auto.
Qed.


(** The relative error of rounding is at most [2^-53]. *)
Lemma double_error x : Qabs (Js.double x - x) <= Qabs x * Js.pow2 (-53).
Proof.
  destruct (Qtrichotomy x) as [Hx|[Hx|Hx]].
  - rewrite (double_neg x Hx). rewrite (Qabs_neg x) by lra.
    pose proof (round53_error (- x) ltac:(lra)) as H.
    apply Qabs_Qle_condition in H. apply Qabs_Qle_condition. lra.
  - rewrite (double_zero x Hx), Hx. unfold Qle. simpl. lia.
  - rewrite (double_pos x Hx), (Qabs_pos x) by lra. now apply round53_error.
Qed.

Lemma double_sign x :
  (0 < x -> 0 < Js.double x) /\ (x < 0 -> Js.double x < 0) /\
  (0 <= x -> 0 <= Js.double x) /\ (x <= 0 -> Js.double x <= 0).
Proof.
  assert (P : forall x, 0 < x -> 0 < Js.double x).
  { intros y Hy. rewrite (double_pos y Hy). now apply round53_pos. }
  assert (N : forall x, x < 0 -> Js.double x < 0).
  { intros y Hy. rewrite (double_neg y Hy).
    pose proof (round53_pos (- y) ltac:(lra)). lra. }
  repeat split; auto.
  - intros H. destruct (Qtrichotomy x) as [Hx|[Hx|Hx]]; [lra| |].
    + rewrite (double_zero x Hx). apply Qle_refl.
    + apply Qlt_le_weak. auto.
  - intros H. destruct (Qtrichotomy x) as [Hx|[Hx|Hx]]; [| |lra].
    + apply Qlt_le_weak. auto.
    + rewrite (double_zero x Hx). apply Qle_refl.
Qed.

(** What lies between bounds is rounded with an error of at most [2^-53]
    times the bound. *)
Lemma double_within x b :
  - b <= x <= b ->
  x - b * Js.pow2 (-53) <= Js.double x <= x + b * Js.pow2 (-53).
Proof.
  intros Hb. pose proof (double_error x) as H.
  apply Qabs_Qle_condition in H.
  assert (Ha : Qabs x <= b) by now apply Qabs_Qle_condition.
  assert (Hm : Qabs x * Js.pow2 (-53) <= b * Js.pow2 (-53)).
  { apply Qmult_le_compat_r; [exact Ha|]. apply Qlt_le_weak, pow2_pos. }
  lra.
Qed.

Lemma double_within_53 (x b : Q) :
  - b <= x <= b ->
  x - b * (1 # 9007199254740992) <= Js.double x <= x + b * (1 # 9007199254740992).
Proof.
  intros H. pose proof (double_within x b H) as Hw.
  pose proof pow2_53 as Hu. unfold Js.pow2 in *.
  setoid_replace (1 # 9007199254740992) with (2 ^ (-53)) by (symmetry; exact Hu).
  exact Hw.
Qed.

(** [Math.random() * n] is below [n]: a draw is at most [1 - 2^-53]. *)
Lemma mul_below r n :
  0 <= r /\ r <= Js.belowOne -> 0 <= n ->
  0 <= Js.mul r n /\ (0 < n -> Js.mul r n < n).
Proof.
  intros [Hlo Hhi] Hn. unfold Js.mul.
  assert (Hb : Js.belowOne == 9007199254740991 # 9007199254740992) by reflexivity.
  assert (H0 : 0 <= r * n) by now apply Qmult_le_0_compat.
  assert (H1 : r * n <= (9007199254740991 # 9007199254740992) * n).
  { apply Qmult_le_compat_r; [|exact Hn]. now rewrite <- Hb. }
  split.
  - now apply double_sign.
  - intros Hpos.
    pose proof (double_within_53 (r * n) ((9007199254740991 # 9007199254740992) * n)
                  ltac:(split; lra)) as Hd.
    set (x := r * n) in *. lra.
Qed.

End DoubleArithmetic.

Lemma hoare_ret {A : Type} (P : State -> Prop) (a : A) Q X :
  (forall s, P s -> Q a s) -> hoare P (ret a) Q X.
Proof. intros H s Hs. simpl. auto. Qed.

Lemma hoare_bind {A B : Type} P (m : M A) (k : A -> M B) R Q X :
  hoare P m R X -> (forall a, hoare (R a) (k a) Q X) -> hoare P (bind m k) Q X.
Proof.
  intros Hm Hk s Hs. unfold bind. specialize (Hm s Hs).
  destruct (m s) as [a s1|e s1|]; auto. apply (Hk a s1 Hm).
Qed.

Lemma hoare_weaken {A : Type} (P P' : State -> Prop) (m : M A)
  (Q Q' : A -> State -> Prop) (X X' : State -> Prop) :
  hoare P m Q X -> (forall s, P' s -> P s) -> (forall a s, Q a s -> Q' a s) ->
  (forall s, X s -> X' s) -> hoare P' m Q' X'.
Proof.
  intros H HP HQ HX s Hs. specialize (H s (HP s Hs)).
  destruct (m s); auto.
Qed.

Lemma extends_refl s : extends s s.
Proof.
  repeat split. exists []. split; [now rewrite app_nil_r | constructor].
Qed.

Lemma extends_trans s0 s1 s2 : extends s0 s1 -> extends s1 s2 -> extends s0 s2.
Proof.
  intros (Hp & Ha & Hc & Ht & e1 & Hh & Hn) (Hp' & Ha' & Hc' & Ht' & e2 & Hh' & Hn').
  repeat split; try congruence.
  exists (e1 ++ e2). split.
  - rewrite Hh', Hh, app_assoc. reflexivity.
  - apply Forall_app. auto.
Qed.

Lemma frames_run {A : Type} (m : M A) (s : State) :
  frames m ->
  match m s with
  | Ret _ s' => extends s s'
  | Throw _ s' => extends s s'
  | Hang => True
  end.
Proof. intros H. apply (H s s (extends_refl s)). Qed.

Lemma frames_ret {A : Type} (a : A) : frames (ret a).
Proof. intros s0 s H. exact H. Qed.

Lemma frames_bind {A B : Type} (m : M A) (k : A -> M B) :
  frames m -> (forall a, frames (k a)) -> frames (bind m k).
Proof.
  intros Hm Hk s0. eapply hoare_bind; [apply Hm | intros a; apply Hk].
Qed.

Lemma frames_get : frames get.
Proof. intros s0 s H. exact H. Qed.

Lemma frames_throw {A : Type} (e : Exn) : frames (@throw A e).
Proof. intros s0 s H. exact H. Qed.

Lemma frames_hang {A : Type} : frames (@hang A).
Proof. intros s0 s H. exact I. Qed.

Lemma frames_modify (f : State -> State) :
  (forall s, extends s (f s)) -> frames (modify f).
Proof. intros Hf s0 s H. simpl. eapply extends_trans; eauto. Qed.

Lemma frames_forEach {A : Type} (l : list A) (body : A -> M unit) :
  (forall x, frames (body x)) -> frames (forEach l body).
Proof.
  intros H. induction l as [|x l IH]; simpl.
  - apply frames_ret.
  - apply frames_bind; auto.
Qed.

Lemma frames_mapM {A B : Type} (f : A -> M B) (l : list A) :
  (forall x, frames (f x)) -> frames (mapM f l).
Proof.
  intros H. induction l as [|x l IH]; simpl.
  - apply frames_ret.
  - apply frames_bind; auto. intros y.
    apply frames_bind; auto. intros ys. apply frames_ret.
Qed.

Lemma extends_same (s s' : State) :
  populations s' = populations s -> archive s' = archive s ->
  config s' = config s -> evolutionInterval s' = evolutionInterval s ->
  kernelHeap s' = kernelHeap s -> extends s s'.
Proof.
  intros Hp Ha Hc Ht Hh. repeat split; auto.
  exists []. rewrite app_nil_r. split; [assumption | constructor].
Qed.

Lemma frames_readGene l : frames (readGene l).
Proof. intros s0 s H. exact H. Qed.

Lemma frames_readKernel l : frames (readKernel l).
Proof. intros s0 s H. exact H. Qed.

Lemma frames_readPopulation i : frames (readPopulation i).
Proof. intros s0 s H. exact H. Qed.

Lemma frames_writeGene l g : frames (writeGene l g).
Proof. apply frames_modify. intros s. now apply extends_same. Qed.

Lemma frames_allocGene g : frames (allocGene g).
Proof.
  intros s0 s H. simpl. eapply extends_trans; [exact H|]. now apply extends_same.
Qed.

Lemma frames_allocKernel k : newborn k -> frames (allocKernel k).
Proof.
  intros Hk s0 s H. simpl. eapply extends_trans; [exact H|].
  repeat split. exists [k]. split; [reflexivity | repeat constructor; apply Hk].
Qed.

Section Frames.

Variable E : Env.

Lemma frames_mathRandom : frames (mathRandom E).
Proof.
  intros s0 s H. simpl. eapply extends_trans; [exact H|]. now apply extends_same.
Qed.

Lemma frames_dateNow : frames (dateNow E).
Proof.
  intros s0 s H. simpl. eapply extends_trans; [exact H|]. now apply extends_same.
Qed.

Lemma frames_emitEvent d : frames (emitEvent E d).
Proof.
  apply frames_bind; [apply frames_dateNow | intros t].
  apply frames_modify. intros s. now apply extends_same.
Qed.

Lemma frames_bumpTotalKernelsCreated : frames bumpTotalKernelsCreated.
Proof. apply frames_modify. intros s. now apply extends_same. Qed.

End Frames.

Create HintDb frames.

#[local] Hint Resolve frames_ret frames_get frames_throw frames_hang
  frames_readGene frames_readKernel frames_readPopulation frames_writeGene
  frames_allocGene frames_mathRandom frames_dateNow frames_emitEvent
  frames_bumpTotalKernelsCreated : frames.

(** Decomposes a goal [frames m] along the structure of [m]. *)
Ltac frames_step :=
  match goal with
  | |- frames (bind _ _) => apply frames_bind; [ | intros ? ]
  | |- frames (mapM _ _) => apply frames_mapM; intros ?
  | |- frames (forEach _ _) => apply frames_forEach; intros ?
  | |- frames (allocKernel _) => apply frames_allocKernel; split; reflexivity
  | |- frames (if ?b then _ else _) => destruct b
  | |- frames (match ?x with _ => _ end) => destruct x
  | |- frames _ => solve [ auto with frames ]
  end.

Ltac frames_auto := repeat frames_step.

Section FramesOfBreeding.

Variable E : Env.

Lemma frames_generateKernelId : frames (generateKernelId E).
Proof. unfold generateKernelId. frames_auto. Qed.

Lemma frames_createKernel t c : frames (createKernel E t c).
Proof.
  unfold createKernel. pose proof frames_generateKernelId.
  frames_auto.
Qed.

Lemma frames_cloneGenes ls : frames (cloneGenes ls).
Proof. unfold cloneGenes. frames_auto. Qed.

Lemma frames_asexualReproduction g : frames (asexualReproduction g).
Proof. unfold asexualReproduction. pose proof frames_cloneGenes. frames_auto. Qed.

Lemma frames_crossover g1 g2 : frames (crossover E g1 g2).
Proof. unfold crossover. pose proof frames_cloneGenes. frames_auto. Qed.

Lemma frames_multiParentCore gs idxs acc : frames (multiParentCore E gs idxs acc).
Proof.
  revert acc. induction idxs as [|i idxs IH]; intros acc; simpl; frames_auto.
Qed.

Lemma frames_multiParentBreeding gs : frames (multiParentBreeding E gs).
Proof.
  unfold multiParentBreeding.
  pose proof frames_cloneGenes. pose proof frames_multiParentCore.
  frames_auto.
Qed.

Lemma frames_drawNonZero fuel : frames (drawNonZero E fuel).
Proof. induction fuel as [|fuel IH]; simpl; frames_auto. Qed.

Lemma frames_gaussianRandom : frames (gaussianRandom E).
Proof. unfold gaussianRandom. pose proof frames_drawNonZero. frames_auto. Qed.

Lemma frames_mutateGene l : frames (mutateGene E l).
Proof. unfold mutateGene. pose proof frames_gaussianRandom. frames_auto. Qed.

Lemma frames_mutateCoreGenes ls rate acc : frames (mutateCoreGenes E ls rate acc).
Proof.
  revert acc. pose proof frames_mutateGene.
  induction ls as [|l ls IH]; intros acc; simpl; frames_auto.
Qed.

Lemma frames_applyMutations g rate : frames (applyMutations E g rate).
Proof. unfold applyMutations. pose proof frames_mutateCoreGenes. frames_auto. Qed.

End FramesOfBreeding.

(** ** What [breed] leaves behind *)

Lemma extends_length s s' :
  extends s s' -> (List.length (kernelHeap s) <= List.length (kernelHeap s'))%nat.
Proof.
  intros (_ & _ & _ & _ & ext & Hh & _). rewrite Hh, length_app. lia.
Qed.

Lemma extends_kernelAt s s' l :
  extends s s' -> (l < List.length (kernelHeap s))%nat ->
  kernelAt (kernelHeap s') l = kernelAt (kernelHeap s) l.
Proof.
  intros (_ & _ & _ & _ & ext & Hh & _) Hl. unfold kernelAt.
  rewrite Hh. now apply app_nth1.
Qed.

Lemma extends_newborn s s' c :
  extends s s' -> bornBetween s s' c -> newborn (kernelAt (kernelHeap s') c).
Proof.
  intros (_ & _ & _ & _ & ext & Hh & Hn) [Hlo Hhi]. unfold kernelAt.
  rewrite Hh in *. rewrite length_app in Hhi.
  rewrite app_nth2 by lia.
  rewrite Forall_forall in Hn. apply Hn. apply nth_In. lia.
Qed.

Lemma bornBetween_widen s0 s1 s2 s3 c :
  extends s0 s1 -> extends s2 s3 -> bornBetween s1 s2 c -> bornBetween s0 s3 c.
Proof.
  intros H01 H23 [Hlo Hhi].
  apply extends_length in H01. apply extends_length in H23.
  unfold bornBetween. lia.
Qed.

Section BreedSpec.

Variable E : Env.

(** Skips a prefix of a computation that only extends the state. *)
Ltac skip_frames s0 :=
  match goal with
  | |- hoare (extends s0) (bind ?m _) _ _ =>
      eapply (hoare_bind (extends s0) m _ (fun _ => extends s0));
      [ let F := fresh "F" in
        assert (F : frames m)
          by (pose proof (frames_asexualReproduction);
              pose proof (frames_crossover E);
              pose proof (frames_multiParentBreeding E);
              pose proof (frames_applyMutations E);
              pose proof (frames_generateKernelId E);
              frames_auto);
        exact (F s0)
      | intros ? ]
  end.

Lemma breedOne_spec rq ps p0 i s :
  match breedOne E rq ps p0 i s with
  | Ret r s' => extends s s' /\ bornBetween s s' (fst r)
  | Throw _ s' => extends s s'
  | Hang => True
  end.
Proof.
  assert (H : hoare (extends s) (breedOne E rq ps p0 i)
                (fun r s' => extends s s' /\ bornBetween s s' (fst r)) (extends s)).
  { unfold breedOne.
    skip_frames s. skip_frames s. skip_frames s. skip_frames s.
    destruct a2 as [mutatedGenome muts].
    skip_frames s. skip_frames s. skip_frames s.
    eapply hoare_bind with
      (R := fun c s' => extends s s' /\ bornBetween s s' c).
    - intros s1 H1. simpl. split.
      + eapply extends_trans; [exact H1|].
        repeat split. eexists. split; [reflexivity|].
        repeat constructor.
      + apply extends_length in H1. unfold bornBetween. simpl.
        rewrite length_app. simpl. lia.
    - intros c. eapply hoare_bind with
        (R := fun _ s' => extends s s' /\ bornBetween s s' c).
      + intros s1 [H1 H2]. simpl. split.
        * eapply extends_trans; [exact H1|]. now apply extends_same.
        * exact H2.
      + intros _. apply hoare_ret. intros s1 H1. exact H1. }
  apply (H s (extends_refl s)).
Qed.

Lemma breedLoop_spec rq ps p0 idxs acc s :
  match breedLoop E rq ps p0 idxs acc s with
  | Ret r s' =>
      extends s s' /\
      forall c, In c (fst (fst r)) -> In c (fst (fst acc)) \/ bornBetween s s' c
  | Throw _ s' => extends s s'
  | Hang => True
  end.
Proof.
  revert acc s. induction idxs as [|i idxs IH]; intros acc s; simpl.
  - split; [apply extends_refl | auto].
  - unfold bind. pose proof (breedOne_spec rq ps p0 i s) as H1.
    destruct (breedOne E rq ps p0 i s) as [[child muts] s1|e s1|]; auto.
    destruct H1 as [He Hb]. simpl in Hb.
    destruct acc as [[children total] novel].
    match goal with
    | |- match breedLoop E rq ps p0 idxs ?acc' s1 with _ => _ end =>
        specialize (IH acc' s1);
        destruct (breedLoop E rq ps p0 idxs acc' s1) as [r s2|e s2|]; auto
    end.
    + destruct IH as [He' Hc]. split; [eapply extends_trans; eauto|].
      intros c Hin. specialize (Hc c Hin). simpl in Hc.
      destruct Hc as [Hc|Hc].
      * apply in_app_or in Hc. destruct Hc as [Hc|[Hc|[]]]; [now left|].
        subst c. right.
        eapply bornBetween_widen; [apply extends_refl | exact He' | exact Hb].
      * right.
        eapply bornBetween_widen; [exact He | apply extends_refl | exact Hc].
    + eapply extends_trans; eauto.
Qed.

(** [breed] only extends the state, and every offspring it returns is a
    kernel object made during the call. *)
Lemma breed_spec rq s :
  match breed E rq s with
  | Ret r s' => extends s s' /\ forall c, In c (offspring r) -> bornBetween s s' c
  | Throw _ s' => extends s s'
  | Hang => True
  end.
Proof.
  unfold breed, bind. simpl.
  destruct (resolveParents s (rq_parents rq)) as [|p0 rest].
  - simpl. split; [apply extends_refl | intros c []].
  - pose proof (breedLoop_spec rq (p0 :: rest) p0 (seq 0 (rq_offspringCount rq))
                  ([], 0%nat, 0%nat) s) as H.
    destruct (breedLoop E rq (p0 :: rest) p0 (seq 0 (rq_offspringCount rq))
                ([], 0%nat, 0%nat) s) as [[[children total] novel] s1|e s1|]; auto.
    destruct H as [He Hc]. simpl in Hc.
    pose proof (frames_run (emitEvent E
                  (BreedingComplete
                     (map (fun p => k_id (kernelAt (kernelHeap s1) p)) (p0 :: rest))
                     (map (fun c => k_id (kernelAt (kernelHeap s1) c)) children)
                     (rq_method rq))) s1 (frames_emitEvent E _)) as Hem.
    simpl in Hem. simpl.
    split; [eapply extends_trans; eauto|].
    intros c Hin. destruct (Hc c Hin) as [[]|Hb].
    eapply bornBetween_widen; [apply extends_refl | exact Hem | exact Hb].
Qed.

Lemma frames_breed rq : frames (breed E rq).
Proof.
  intros s0 s H. pose proof (breed_spec rq s) as Hs.
  destruct (breed E rq s) as [r s'|e s'|]; auto.
  - destruct Hs as [Hs _]. eapply extends_trans; eauto.
  - eapply extends_trans; eauto.
Qed.

End BreedSpec.

(** ** Lists updated by index *)

Lemma length_replaceAt {A : Type} (n : nat) (x : A) (l : list A) :
  List.length (replaceAt n x l) = List.length l.
Proof.
  revert n. induction l as [|y l IH]; intros [|n]; simpl; auto.
Qed.

Lemma nth_replaceAt_same {A : Type} (n : nat) (x d : A) (l : list A) :
  (n < List.length l)%nat -> nth n (replaceAt n x l) d = x.
Proof.
  revert n. induction l as [|y l IH]; intros [|n] H; simpl in *; try lia; auto.
  apply IH. lia.
Qed.

Lemma nth_replaceAt_other {A : Type} (m n : nat) (x d : A) (l : list A) :
  m <> n -> nth m (replaceAt n x l) d = nth m l d.
Proof.
  revert m n. induction l as [|y l IH]; intros [|m] [|n] H; simpl; auto;
    contradiction.
Qed.

Lemma replaceAt_beyond {A : Type} (n : nat) (x : A) (l : list A) :
  (List.length l <= n)%nat -> replaceAt n x l = l.
Proof.
  revert n. induction l as [|y l IH]; intros [|n] H; simpl in *; auto; try lia.
  f_equal. apply IH. lia.
Qed.

Lemma nth_beyond {A : Type} (n : nat) (d : A) (l : list A) :
  (List.length l <= n)%nat -> nth n l d = d.
Proof. intros H. now apply nth_overflow. Qed.

(** ** Ownership of kernel objects *)

Lemma kernelsOf_beyond s i :
  (List.length (populations s) <= i)%nat -> kernelsOf s i = [].
Proof.
  intros H. unfold kernelsOf, populationAt. now rewrite nth_beyond.
Qed.

Lemma In_kernelsOf s p l :
  In p (populations s) -> In l (kernels p) -> exists i, In l (kernelsOf s i).
Proof.
  intros Hp Hl. destruct (In_nth _ _ dummyPopulation Hp) as (i & _ & Hi).
  exists i. unfold kernelsOf, populationAt. now rewrite Hi.
Qed.

Lemma wellOwned_init cfg : wellOwned (createInitialState cfg).
Proof.
  assert (H : forall i, kernelsOf (createInitialState cfg) i = []).
  { intros i. apply kernelsOf_beyond. simpl. lia. }
  constructor.
  - intros i l Hl. rewrite H in Hl. contradiction.
  - intros l [].
  - intros i l Hl. rewrite H in Hl. contradiction.
  - intros i j l _ Hl. rewrite H in Hl. contradiction.
  - intros i l Hl. rewrite H in Hl. contradiction.
Qed.

(** A change that keeps who holds what, the heap's size and every kernel's
    state keeps ownership intact. *)
Lemma wellOwned_congr s s' :
  (forall i, kernelsOf s' i = kernelsOf s i) ->
  archive s' = archive s ->
  List.length (kernelHeap s') = List.length (kernelHeap s) ->
  (forall l, k_state (kernelAt (kernelHeap s') l) = k_state (kernelAt (kernelHeap s) l)) ->
  wellOwned s -> wellOwned s'.
Proof.
  intros Hk Ha Hl Hs [B BA A D S].
  constructor.
  - intros i l. rewrite Hk, Hl. apply B.
  - intros l. rewrite Ha, Hl. apply BA.
  - intros i l. rewrite Hk, Ha. apply A.
  - intros i j l. rewrite !Hk. apply D.
  - intros i l. rewrite Hk, Hs. apply S.
Qed.

Lemma wellOwned_extends s s' : wellOwned s -> extends s s' -> wellOwned s'.
Proof.
  intros [B BA A D S] He.
  pose proof (extends_length _ _ He) as Hlen.
  destruct He as (Hp & Ha & Hc & Ht & ext & Hh & Hn).
  assert (Hk : forall i, kernelsOf s' i = kernelsOf s i)
    by (intros i; unfold kernelsOf; now rewrite Hp).
  constructor.
  - intros i l Hl. rewrite Hk in Hl. specialize (B i l Hl). lia.
  - intros l Hl. rewrite Ha in Hl. specialize (BA l Hl). lia.
  - intros i l. rewrite Hk, Ha. apply A.
  - intros i j l. rewrite !Hk. apply D.
  - intros i l Hl. rewrite Hk in Hl. unfold kernelAt. rewrite Hh.
    rewrite app_nth1 by (apply (B i l Hl)). apply (S i l Hl).
Qed.

(** Writing a kernel whose new state is not ARCHIVED. *)
Lemma kernelAt_replaceAt h l k l' :
  kernelAt (replaceAt l k h) l' =
  if ((l' =? l) && (l <? List.length h))%nat then k else kernelAt h l'.
Proof.
  unfold kernelAt. destruct (Nat.eqb_spec l' l) as [->|Hne]; simpl.
  - destruct (Nat.ltb_spec l (List.length h)).
    + now apply nth_replaceAt_same.
    + now rewrite replaceAt_beyond.
  - now apply nth_replaceAt_other.
Qed.

Lemma wellOwned_writeKernel s l k :
  k_state k <> ARCHIVED -> wellOwned s ->
  wellOwned (set_kernelHeap (replaceAt l k (kernelHeap s)) s).
Proof.
  intros Hk [B BA A D S].
  constructor; simpl; try rewrite length_replaceAt; auto.
  intros i l' Hl'. change (kernelsOf _ i) with (kernelsOf s i) in Hl'.
  rewrite kernelAt_replaceAt.
  destruct ((l' =? l) && (l <? List.length (kernelHeap s)))%nat; auto.
  apply (S i l' Hl').
Qed.

Lemma populationAt_replaceAt ps i x j :
  populationAt (replaceAt i x ps) j =
  if ((j =? i) && (i <? List.length ps))%nat then x else populationAt ps j.
Proof.
  unfold populationAt. destruct (Nat.eqb_spec j i) as [->|Hne]; simpl.
  - destruct (Nat.ltb_spec i (List.length ps)).
    + now apply nth_replaceAt_same.
    + now rewrite replaceAt_beyond.
  - now apply nth_replaceAt_other.
Qed.

(** Replacing population [i] by one with the same kernels changes nobody's
    kernels. *)
Lemma kernels_replaceAt_same ps i x j :
  kernels x = kernels (populationAt ps i) ->
  kernels (populationAt (replaceAt i x ps) j) = kernels (populationAt ps j).
Proof.
  intros H. rewrite populationAt_replaceAt.
  destruct (Nat.eqb_spec j i) as [->|Hne]; simpl; auto.
  destruct (i <? List.length ps)%nat; auto.
Qed.

(** Replacing the kernels of population [i]. *)
Lemma kernels_replaceAt_kernels ps i ks j :
  (ks = [] \/ (i < List.length ps)%nat) ->
  kernels (populationAt (replaceAt i (withKernels ks (populationAt ps i)) ps) j) =
  if (j =? i)%nat then ks else kernels (populationAt ps j).
Proof.
  intros H. rewrite populationAt_replaceAt.
  destruct (Nat.eqb_spec j i) as [->|Hne]; simpl; auto.
  destruct (Nat.ltb_spec i (List.length ps)) as [Hlt|Hge]; simpl; auto.
  destruct H as [->|H]; [|lia].
  unfold populationAt. now rewrite nth_beyond.
Qed.

(** ** Selection *)

Lemma In_insertByFitness h x l y :
  In y (insertByFitness h x l) <-> y = x \/ In y l.
Proof.
  induction l as [|z l IH]; simpl.
  - intuition.
  - destruct (Js.Qltb _ _); simpl; rewrite ?IH; intuition.
Qed.

Lemma In_sortByFitness h l y : In y (sortByFitness h l) <-> In y l.
Proof.
  induction l as [|x l IH]; simpl.
  - tauto.
  - rewrite In_insertByFitness, IH. intuition.
Qed.

Lemma withState_inj st k1 k2 :
  withState st k1 = withState st k2 -> k_state k1 = k_state k2 -> k1 = k2.
Proof.
  destruct k1, k2. unfold withState. simpl. intros H Hs.
  injection H as -> -> -> -> -> -> -> -> ->. now subst.
Qed.

Lemma marked_unchanged ls s s' l :
  marked ls s s' -> ~ In l ls ->
  kernelAt (kernelHeap s') l = kernelAt (kernelHeap s) l.
Proof.
  intros H Hl. apply (withState_inj ARCHIVED).
  - apply (mk_rest _ _ _ H).
  - now apply (mk_out _ _ _ H).
Qed.

Lemma marked_fitness ls s s' l :
  marked ls s s' ->
  fitness (kernelAt (kernelHeap s') l) = fitness (kernelAt (kernelHeap s) l).
Proof.
  intros H. pose proof (mk_rest _ _ _ H l) as Hr.
  change (fitness (withState ARCHIVED (kernelAt (kernelHeap s') l)) =
          fitness (withState ARCHIVED (kernelAt (kernelHeap s) l))).
  now rewrite Hr.
Qed.

Lemma archiveLoop_spec i ls s :
  exists s', forEach ls (archiveKernel i) s = Ret tt s' /\ marked ls s s' /\
             forall j, kernelsOf s' j = kernelsOf s j.
Proof.
  revert s. induction ls as [|l0 ls IH]; intros s.
  - exists s. split; [reflexivity|]. split.
    + constructor; auto.
      * now rewrite app_nil_r.
      * intros l [].
    + auto.
  - simpl forEach.
    set (s1 := set_populations
                 (replaceAt i
                    (withStatistics
                       (withArchivedCount
                          (S (archivedCount (statistics (populationAt (populations s) i))))
                          (statistics (populationAt (populations s) i)))
                       (populationAt (populations s) i))
                    (populations s))
                 (set_archive (archive s ++ [l0])
                    (set_kernelHeap
                       (replaceAt l0 (withState ARCHIVED (kernelAt (kernelHeap s) l0))
                          (kernelHeap s)) s))).
    assert (H1 : archiveKernel i l0 s = Ret tt s1) by reflexivity.
    destruct (IH s1) as (s2 & Hrun & Hm & Hk).
    exists s2. split; [unfold bind; rewrite H1; exact Hrun|].
    assert (Hat : forall l,
               kernelAt (kernelHeap s1) l =
               if ((l =? l0) && (l0 <? List.length (kernelHeap s)))%nat
               then withState ARCHIVED (kernelAt (kernelHeap s) l0)
               else kernelAt (kernelHeap s) l).
    { intros l. apply kernelAt_replaceAt. }
    assert (Hlen1 : List.length (kernelHeap s1) = List.length (kernelHeap s)).
    { apply length_replaceAt. }
    destruct Hm as [Ma Ml Mr Mo Mi Mp]. split.
    + constructor.
      * rewrite Ma. simpl. now rewrite <- app_assoc.
      * now rewrite Ml.
      * intros l. rewrite Mr, Hat.
        destruct (Nat.eqb_spec l l0) as [->|Hne]; simpl; auto.
        destruct (l0 <? List.length (kernelHeap s))%nat; reflexivity.
      * intros l Hl. rewrite Mo by (intros Hin; apply Hl; now right).
        rewrite Hat. destruct (Nat.eqb_spec l l0) as [->|Hne]; simpl; auto.
        exfalso. apply Hl. now left.
      * intros l Hl Hlt.
        destruct (in_dec Nat.eq_dec l ls) as [Hin|Hnin].
        -- apply Mi; [assumption | now rewrite Hlen1].
        -- destruct Hl as [->|Hl]; [|contradiction].
           rewrite Mo by assumption. rewrite Hat.
           rewrite Nat.eqb_refl.
           destruct (Nat.ltb_spec l (List.length (kernelHeap s))); [reflexivity|lia].
      * rewrite Mp. apply length_replaceAt.
    + intros j. rewrite Hk. unfold kernelsOf.
      apply kernels_replaceAt_same. reflexivity.
Qed.

Lemma performSelection_spec i s :
  exists s', performSelection i s = Ret tt s' /\ selected i s s'.
Proof.
  set (p := populationAt (populations s) i).
  set (sorted := sortByFitness (kernelHeap s) (kernels p)).
  set (s1 := set_populations (replaceAt i (withKernels sorted p) (populations s)) s).
  destruct (archiveLoop_spec i (filter (archivable s) sorted) s1) as (s2 & Hrun & Hm & Hk).
  unfold performSelection, bind, get, readPopulation, writePopulation, modify.
  cbv beta. fold p. fold sorted. fold s1. rewrite Hrun.
  eexists. split; [reflexivity|].
  assert (Hcase : sorted = [] \/ (i < List.length (populations s))%nat).
  { destruct (Nat.ltb_spec i (List.length (populations s))) as [Hlt|Hge]; [now right|left].
    unfold sorted, p, populationAt. now rewrite nth_beyond. }
  assert (Hk1 : forall j, kernelsOf s1 j = if (j =? i)%nat then sorted else kernelsOf s j).
  { intros j. unfold kernelsOf, s1. simpl populations.
    now apply kernels_replaceAt_kernels. }
  assert (Hlen2 : List.length (populations s2) = List.length (populations s)).
  { rewrite (mk_populations _ _ _ Hm). unfold s1. simpl. apply length_replaceAt. }
  set (F := filter
              (fun l => negb (isArchived (k_state (kernelAt (kernelHeap s2) l))))
              (kernels (populationAt (populations s2) i))).
  assert (HF : F = filter
                     (fun l => negb (isArchived (k_state (kernelAt (kernelHeap s2) l))))
                     sorted).
  { unfold F. change (kernels (populationAt (populations s2) i)) with (kernelsOf s2 i).
    rewrite Hk, Hk1, Nat.eqb_refl. reflexivity. }
  assert (Hk3 : forall j,
             kernels (populationAt
                        (replaceAt i (withKernels F (populationAt (populations s2) i))
                           (populations s2)) j) =
             if (j =? i)%nat then F else kernelsOf s j).
  { intros j. rewrite kernels_replaceAt_kernels.
    - destruct (Nat.eqb_spec j i) as [->|Hne]; auto.
      change (kernels (populationAt (populations s2) j)) with (kernelsOf s2 j).
      rewrite Hk, Hk1. destruct (Nat.eqb_spec j i); [contradiction|reflexivity].
    - destruct Hcase as [Hs|Hlt]; [left|right; lia].
      rewrite HF, Hs. reflexivity. }
  destruct Hm as [Ma Ml Mr Mo Mi Mp].
  constructor.
  - constructor; simpl; auto.
    rewrite length_replaceAt. exact Hlen2.
  - intros j Hj. unfold kernelsOf at 1. simpl populations. rewrite Hk3.
    destruct (Nat.eqb_spec j i); [contradiction|reflexivity].
  - unfold kernelsOf at 1. simpl populations. rewrite Hk3, Nat.eqb_refl.
    exact HF.
Qed.

Lemma selected_subset i s s' j l :
  selected i s s' -> In l (kernelsOf s' j) -> In l (kernelsOf s j).
Proof.
  intros [Hm Ho Hk] Hl. destruct (Nat.eq_dec j i) as [->|Hne].
  - rewrite Hk in Hl. apply filter_In in Hl. destruct Hl as [Hl _].
    now apply In_sortByFitness in Hl.
  - now rewrite Ho in Hl.
Qed.

Lemma toArchive_subset s i l : In l (toArchive s i) -> In l (kernelsOf s i).
Proof.
  unfold toArchive. intros H. apply filter_In in H. destruct H as [H _].
  now apply In_sortByFitness in H.
Qed.

Lemma selected_wellOwned i s s' : wellOwned s -> selected i s s' -> wellOwned s'.
Proof.
  intros [B BA A D S] Hsel.
  pose proof (selected_subset i s s') as Hsub.
  destruct Hsel as [Hm Ho Hk]. pose proof Hm as [Ma Ml Mr Mo Mi Mp].
  assert (Hsel : selected i s s') by (constructor; assumption).
  constructor.
  - intros j l Hl. rewrite Ml. eapply B, Hsub; eauto.
  - intros l Hl. rewrite Ml. rewrite Ma in Hl. apply in_app_or in Hl.
    destruct Hl as [Hl|Hl]; [now apply BA|].
    eapply B, toArchive_subset; eauto.
  - intros j l Hl Harch. rewrite Ma in Harch. apply in_app_or in Harch.
    pose proof (Hsub j l Hsel Hl) as Hl0.
    destruct Harch as [Harch|Harch]; [exact (A j l Hl0 Harch)|].
    pose proof (toArchive_subset _ _ _ Harch) as Hli.
    destruct (Nat.eq_dec j i) as [->|Hne].
    + rewrite Hk in Hl. apply filter_In in Hl. destruct Hl as [_ Hst].
      rewrite (Mi l Harch (B i l Hli)) in Hst. discriminate.
    + exact (D j i l Hne Hl0 Hli).
  - intros j k l Hjk Hj Hk'. exact (D j k l Hjk (Hsub j l Hsel Hj) (Hsub k l Hsel Hk')).
  - intros j l Hl. destruct (Nat.eq_dec j i) as [->|Hne].
    + rewrite Hk in Hl. apply filter_In in Hl. destruct Hl as [_ Hst].
      intros Heq. rewrite Heq in Hst. discriminate.
    + pose proof (Hsub j l Hsel Hl) as Hl0.
      rewrite Mo; [exact (S j l Hl0)|].
      intros Hin. exact (D j i l Hne Hl0 (toArchive_subset _ _ _ Hin)).
Qed.

(** ** How the state evolves *)

Lemma evolves_refl s : evolves s s.
Proof. constructor; auto. apply incl_refl. Qed.

Lemma evolves_trans s0 s1 s2 : evolves s0 s1 -> evolves s1 s2 -> evolves s0 s2.
Proof.
  intros [O1 A1 F1] [O2 A2 F2]. constructor; auto.
  - eapply incl_tran; eauto.
  - intros l. destruct (F2 l) as [H|H]; [|now right].
    rewrite H. apply F1.
Qed.

Lemma extends_evolves s s' : extends s s' -> evolves s s'.
Proof.
  intros He. constructor.
  - intros H. eapply wellOwned_extends; eauto.
  - destruct He as (_ & Ha & _). rewrite Ha. apply incl_refl.
  - intros l. destruct (Nat.lt_ge_cases l (List.length (kernelHeap s))) as [Hlt|Hge].
    + left. now rewrite (extends_kernelAt _ _ _ He Hlt).
    + right. destruct (Nat.lt_ge_cases l (List.length (kernelHeap s'))) as [Hlt'|Hge'].
      * apply (extends_newborn s s' l He). split; assumption.
      * unfold kernelAt. now rewrite nth_beyond.
Qed.

Lemma selected_evolves i s s' : selected i s s' -> evolves s s'.
Proof.
  intros Hsel. constructor.
  - intros H. eapply selected_wellOwned; eauto.
  - rewrite (mk_archive _ _ _ (sel_marked _ _ _ Hsel)). apply incl_appl, incl_refl.
  - intros l. left. eapply marked_fitness. apply (sel_marked _ _ _ Hsel).
Qed.

(** A change that keeps who holds what and every kernel's state and fitness. *)
Lemma evolves_congr s s' :
  (forall i, kernelsOf s' i = kernelsOf s i) ->
  archive s' = archive s ->
  List.length (kernelHeap s') = List.length (kernelHeap s) ->
  (forall l, k_state (kernelAt (kernelHeap s') l) = k_state (kernelAt (kernelHeap s) l)) ->
  (forall l, fitness (kernelAt (kernelHeap s') l) = fitness (kernelAt (kernelHeap s) l)) ->
  evolves s s'.
Proof.
  intros Hk Ha Hl Hs Hf. constructor.
  - now apply wellOwned_congr.
  - rewrite Ha. apply incl_refl.
  - intros l. left. apply Hf.
Qed.

Lemma evolving_intro {A : Type} (m : M A) :
  (forall s, match m s with
             | Ret _ s' => evolves s s'
             | Throw _ s' => evolves s s'
             | Hang => True
             end) ->
  evolving m.
Proof.
  intros H s0 s Hs. specialize (H s).
  destruct (m s); auto; eapply evolves_trans; eauto.
Qed.

Lemma evolving_run {A : Type} (m : M A) (s : State) :
  evolving m ->
  match m s with
  | Ret _ s' => evolves s s'
  | Throw _ s' => evolves s s'
  | Hang => True
  end.
Proof. intros H. apply (H s s (evolves_refl s)). Qed.

Lemma evolving_of_frames {A : Type} (m : M A) : frames m -> evolving m.
Proof.
  intros H. apply evolving_intro. intros s.
  pose proof (frames_run m s H) as Hr.
  destruct (m s); auto using extends_evolves.
Qed.

Lemma evolving_ret {A : Type} (a : A) : evolving (ret a).
Proof. intros s0 s H. exact H. Qed.

Lemma evolving_bind {A B : Type} (m : M A) (k : A -> M B) :
  evolving m -> (forall a, evolving (k a)) -> evolving (bind m k).
Proof.
  intros Hm Hk s0. eapply hoare_bind; [apply Hm | intros a; apply Hk].
Qed.

Lemma evolving_forEach {A : Type} (l : list A) (body : A -> M unit) :
  (forall x, evolving (body x)) -> evolving (forEach l body).
Proof.
  intros H. induction l as [|x l IH]; simpl.
  - apply evolving_ret.
  - apply evolving_bind; auto.
Qed.

Lemma evolving_modify (f : State -> State) :
  (forall s, evolves s (f s)) -> evolving (modify f).
Proof. intros Hf. apply evolving_intro. intros s. apply Hf. Qed.

Lemma evolves_writePopulation s i x :
  kernels x = kernelsOf s i ->
  evolves s (set_populations (replaceAt i x (populations s)) s).
Proof.
  intros H. apply evolves_congr; auto.
  intros j. unfold kernelsOf. simpl. now apply kernels_replaceAt_same.
Qed.

Lemma evolving_writePopulation_same i (f : KernelPopulation -> KernelPopulation) :
  (forall p, kernels (f p) = kernels p) ->
  evolving (p <- readPopulation i ;; writePopulation i (f p)).
Proof.
  intros Hf. apply evolving_intro. intros s.
  unfold bind, readPopulation, writePopulation, modify.
  apply evolves_writePopulation. apply Hf.
Qed.

(** Appending a newly made kernel to population [i]. *)
Lemma wellOwned_push s1 s2 i child x :
  wellOwned s1 -> extends s1 s2 -> bornBetween s1 s2 child ->
  kernels x = kernelsOf s2 i ++ [child] ->
  wellOwned (set_populations (replaceAt i x (populations s2)) s2).
Proof.
  intros H1 He Hb Hx.
  pose proof (wellOwned_extends _ _ H1 He) as [B BA A D S].
  destruct H1 as [B1 BA1 _ _ _].
  assert (Hsame : forall j, kernelsOf s2 j = kernelsOf s1 j).
  { intros j. unfold kernelsOf. destruct He as (Hp & _). now rewrite Hp. }
  assert (Harch : archive s2 = archive s1) by (destruct He as (_ & Ha & _); exact Ha).
  set (s3 := set_populations (replaceAt i x (populations s2)) s2).
  assert (Hin : forall j l, In l (kernelsOf s3 j) ->
                            In l (kernelsOf s2 j) \/ (l = child /\ j = i)).
  { intros j l. unfold kernelsOf, s3. simpl. rewrite populationAt_replaceAt.
    destruct (Nat.eqb_spec j i) as [->|Hne]; simpl; auto.
    destruct (i <? List.length (populations s2))%nat; auto.
    rewrite Hx. intros H. apply in_app_or in H.
    destruct H as [H|[H|[]]]; auto. }
  assert (Hfresh : forall j, ~ In child (kernelsOf s2 j)).
  { intros j H. rewrite Hsame in H. apply B1 in H. destruct Hb. lia. }
  destruct Hb as [Hlo Hhi].
  constructor.
  - intros j l Hl. destruct (Hin j l Hl) as [H|[-> _]]; [exact (B j l H)|exact Hhi].
  - exact BA.
  - intros j l Hl Ha. destruct (Hin j l Hl) as [H|[-> _]].
    + exact (A j l H Ha).
    + change (archive s3) with (archive s2) in Ha. rewrite Harch in Ha.
      apply BA1 in Ha. lia.
  - intros j k l Hjk Hj Hk.
    destruct (Hin j l Hj) as [Hj'|[Hc Hji]]; destruct (Hin k l Hk) as [Hk'|[Hc' Hki]].
    + exact (D j k l Hjk Hj' Hk').
    + subst l. exact (Hfresh j Hj').
    + subst l. exact (Hfresh k Hk').
    + subst j k. now apply Hjk.
  - intros j l Hl. destruct (Hin j l Hl) as [H|[-> _]]; [exact (S j l H)|].
    change (kernelHeap s3) with (kernelHeap s2).
    destruct (extends_newborn s1 s2 child He (conj Hlo Hhi)) as [_ Hst].
    rewrite Hst. discriminate.
Qed.

Section Phases.

Variable E : Env.

Lemma evolving_performSelection i : evolving (performSelection i).
Proof.
  apply evolving_intro. intros s.
  destruct (performSelection_spec i s) as (s' & Hrun & Hsel).
  rewrite Hrun. eapply selected_evolves; eauto.
Qed.

Lemma frames_pickElite elite : frames (pickElite E elite).
Proof. unfold pickElite. frames_auto. Qed.

Lemma evolving_breedInto i rq : evolving (breedInto E i rq).
Proof.
  apply evolving_intro. intros s. unfold breedInto, bind.
  pose proof (breed_spec E rq s) as Hb.
  destruct (breed E rq s) as [r s1|e s1|]; auto.
  - destruct Hb as [He Hborn].
    destruct (offspring r) as [|child rest] eqn:Ho.
    + simpl. now apply extends_evolves.
    + unfold readPopulation, writePopulation, modify.
      assert (Hc : bornBetween s s1 child) by (apply Hborn; now left).
      constructor.
      * intros Hw. eapply wellOwned_push; eauto.
      * simpl. destruct He as (_ & Ha & _). rewrite Ha. apply incl_refl.
      * intros l. simpl. apply (ev_fitness _ _ (extends_evolves _ _ He)).
  - now apply extends_evolves.
Qed.

Lemma evolving_growSlot i elite rate : evolving (growSlot E i elite rate).
Proof.
  unfold growSlot.
  apply evolving_bind; [apply evolving_of_frames, frames_mathRandom|intros r].
  apply evolving_bind.
  - apply evolving_of_frames. pose proof (frames_pickElite). frames_auto.
  - intros ids. apply (evolving_breedInto i).
Qed.

Lemma evolving_performBreeding i : evolving (performBreeding E i).
Proof.
  unfold performBreeding.
  apply evolving_bind; [apply evolving_of_frames, frames_get|intros s].
  apply evolving_bind; [apply evolving_of_frames, frames_readPopulation|intros p].
  cbv zeta.
  destruct (Z.max 0 (capacity p - Z.of_nat (List.length (kernels p))) =? 0)%Z.
  - apply evolving_ret.
  - apply evolving_forEach. intros _. apply evolving_growSlot.
Qed.

Lemma evolving_updatePopulationStatistics i :
  evolving (updatePopulationStatistics E i).
Proof.
  apply evolving_intro. intros s.
  unfold updatePopulationStatistics, bind, get, readPopulation.
  destruct (kernels (populationAt (populations s) i)) as [|k0 rest] eqn:Hk.
  - unfold writePopulation, modify. apply evolves_writePopulation.
    unfold kernelsOf. simpl. now rewrite Hk.
  - unfold writePopulation, modify.
    match goal with
    | |- match emitEvent E ?d ?s1 with _ => _ end =>
        pose proof (frames_run (emitEvent E d) s1 (frames_emitEvent E d)) as Hem;
        destruct (emitEvent E d s1) as [u s2|e s2|] eqn:Hrun; auto;
        (eapply evolves_trans; [|apply extends_evolves; exact Hem])
    end; apply evolves_writePopulation; unfold kernelsOf; simpl; now rewrite Hk.
Qed.

Lemma frames_checkForEmergence : frames (checkForEmergence E).
Proof.
  unfold checkForEmergence.
  apply frames_bind; [apply frames_get|intros s].
  apply frames_forEach. intros p. cbv zeta.
  repeat match goal with
         | |- frames (if ?b then _ else _) => destruct b
         | |- frames (ret _) => apply frames_ret
         end.
  apply frames_bind; [apply frames_dateNow|intros t1].
  apply frames_bind; [apply frames_dateNow|intros t2].
  apply frames_bind; [|intros _; apply frames_emitEvent].
  apply frames_modify. intros s'. now apply extends_same.
Qed.

Lemma evolving_advanceGeneration i : evolving (advanceGeneration i).
Proof.
  unfold advanceGeneration.
  apply (evolving_writePopulation_same i (fun p => withGeneration (S (p_generation p)) p)).
  reflexivity.
Qed.

Lemma evolving_evolutionCycle : evolving (evolutionCycle E).
Proof.
  unfold evolutionCycle.
  apply evolving_bind; [apply evolving_of_frames, frames_get|intros s].
  apply evolving_bind.
  { apply evolving_forEach. intros i.
    apply evolving_bind; [apply evolving_performSelection|intros _].
    apply evolving_bind; [apply evolving_performBreeding|intros _].
    apply evolving_bind; [apply evolving_updatePopulationStatistics|intros _].
    apply evolving_advanceGeneration. }
  intros _. apply evolving_of_frames.
  apply frames_bind.
  { destruct (enableEmergence (config s)); [apply frames_checkForEmergence|apply frames_ret]. }
  intros _.
  apply frames_bind; [apply frames_modify; intros s'; now apply extends_same|intros _].
  apply frames_bind; [apply frames_dateNow|intros t].
  apply frames_bind; [apply frames_modify; intros s'; now apply extends_same|intros _].
  apply frames_bind; [apply frames_get|intros s1].
  apply frames_emitEvent.
Qed.

End Phases.

(** ** Founding the populations *)

Lemma populationAt_app ps q j :
  populationAt (ps ++ [q]) j =
  if (j <? List.length ps)%nat then populationAt ps j
  else if (j =? List.length ps)%nat then q else dummyPopulation.
Proof.
  unfold populationAt. destruct (Nat.ltb_spec j (List.length ps)) as [Hlt|Hge].
  - now apply app_nth1.
  - rewrite app_nth2 by assumption.
    destruct (Nat.eqb_spec j (List.length ps)) as [->|Hne].
    + now rewrite Nat.sub_diag.
    + destruct (j - List.length ps)%nat as [|[|n]] eqn:Hd; simpl; auto. lia.
Qed.

Lemma wellOwned_addPopulation s1 s2 q :
  wellOwned s1 -> extends s1 s2 ->
  (forall l, In l (kernels q) -> bornBetween s1 s2 l) ->
  wellOwned (set_populations (populations s2 ++ [q]) s2).
Proof.
  intros H1 He Hq.
  pose proof (wellOwned_extends _ _ H1 He) as [B BA A D S].
  destruct H1 as [B1 BA1 _ _ _].
  assert (Hsame : forall j, kernelsOf s2 j = kernelsOf s1 j).
  { intros j. unfold kernelsOf. destruct He as (Hp & _). now rewrite Hp. }
  assert (Harch : archive s2 = archive s1) by (destruct He as (_ & Ha & _); exact Ha).
  set (s3 := set_populations (populations s2 ++ [q]) s2).
  set (n := List.length (populations s2)).
  assert (Hin : forall j l, In l (kernelsOf s3 j) ->
                            (In l (kernelsOf s2 j) /\ j <> n) \/ (In l (kernels q) /\ j = n)).
  { intros j l. unfold kernelsOf, s3. simpl. rewrite populationAt_app. fold n.
    destruct (Nat.ltb_spec j n) as [Hlt|Hge].
    - intros H. left. split; [assumption|lia].
    - destruct (Nat.eqb_spec j n) as [->|Hne]; [now right|intros []]. }
  assert (Hold : forall j l, In l (kernelsOf s2 j) -> (l < List.length (kernelHeap s1))%nat).
  { intros j l H. rewrite Hsame in H. now apply B1 in H. }
  constructor.
  - intros j l Hl. destruct (Hin j l Hl) as [[H _]|[H _]]; [exact (B j l H)|].
    apply Hq in H. apply H.
  - exact BA.
  - intros j l Hl Ha. destruct (Hin j l Hl) as [[H _]|[H _]].
    + exact (A j l H Ha).
    + change (archive s3) with (archive s2) in Ha. rewrite Harch in Ha.
      apply BA1 in Ha. apply Hq in H. destruct H. lia.
  - intros j k l Hjk Hj Hk.
    destruct (Hin j l Hj) as [[Hj' Hjn]|[Hj' Hjn]];
      destruct (Hin k l Hk) as [[Hk' Hkn]|[Hk' Hkn]].
    + exact (D j k l Hjk Hj' Hk').
    + apply Hold in Hj'. apply Hq in Hk'. destruct Hk'. lia.
    + apply Hold in Hk'. apply Hq in Hj'. destruct Hj'. lia.
    + subst j k. now apply Hjk.
  - intros j l Hl. destruct (Hin j l Hl) as [[H _]|[H _]]; [exact (S j l H)|].
    change (kernelHeap s3) with (kernelHeap s2).
    destruct (extends_newborn s1 s2 l He (Hq l H)) as [_ Hst].
    rewrite Hst. discriminate.
Qed.

Section Founding.

Variable E : Env.

(** [createKernel] always returns; the kernel is a new object. *)
Lemma createKernel_spec t c s :
  exists l s', createKernel E t c s = Ret l s' /\ extends s s' /\ bornBetween s s' l.
Proof.
  eexists. eexists. split.
  { unfold createKernel, generateKernelId, bumpTotalKernelsCreated, emitEvent,
      bind, dateNow, mathRandom, get, allocKernel, modify, ret.
    cbv beta iota zeta. reflexivity. }
  split.
  - repeat split. eexists. split; [reflexivity|]. repeat constructor.
  - unfold bornBetween. simpl. rewrite length_app. simpl. lia.
Qed.

Lemma createKernels_spec t (idxs : list nat) s :
  exists ls s', mapM (fun _ => createKernel E t None) idxs s = Ret ls s' /\
                extends s s' /\ forall l, In l ls -> bornBetween s s' l.
Proof.
  revert s. induction idxs as [|i idxs IH]; intros s; simpl.
  - exists [], s. split; [reflexivity|]. split; [apply extends_refl|intros l []].
  - destruct (createKernel_spec t None s) as (l & s1 & Hrun & He & Hb).
    destruct (IH s1) as (ls & s2 & Hrun2 & He2 & Hb2).
    exists (l :: ls), s2. unfold bind. rewrite Hrun, Hrun2. split; [reflexivity|].
    split; [eapply extends_trans; eauto|].
    intros l' [<-|Hin].
    + eapply bornBetween_widen; [apply extends_refl|exact He2|exact Hb].
    + eapply bornBetween_widen; [exact He|apply extends_refl|exact (Hb2 l' Hin)].
Qed.

Lemma evolving_initializePopulations : evolving (initializePopulations E).
Proof.
  unfold initializePopulations. apply evolving_forEach. intros type.
  apply evolving_intro. intros s. unfold bind, get.
  destruct (find (fun t => kernelType_eqb (t_type t) type) KERNEL_TEMPLATES)
    as [template|].
  - destruct (createKernels_spec template (seq 0 5) s) as (ls & s1 & Hrun & He & Hb).
    rewrite Hrun. unfold modify. constructor.
    + intros Hw. eapply wellOwned_addPopulation; eauto.
    + simpl. destruct He as (_ & Ha & _). rewrite Ha. apply incl_refl.
    + intros l. simpl. apply (ev_fitness _ _ (extends_evolves _ _ He)).
  - simpl. constructor.
    + intros Hw. apply (wellOwned_addPopulation s s); auto using extends_refl.
      intros l [].
    + apply incl_refl.
    + intros l. now left.
Qed.

Lemma evolves_flags s s' :
  populations s' = populations s -> archive s' = archive s ->
  kernelHeap s' = kernelHeap s -> evolves s s'.
Proof.
  intros Hp Ha Hh. apply evolves_congr; try congruence.
  intros i. unfold kernelsOf. now rewrite Hp.
Qed.

Lemma evolving_startEvolution : evolving (startEvolution E).
Proof.
  unfold startEvolution.
  apply evolving_bind; [apply evolving_of_frames, frames_get|intros s].
  destruct (isEvolving s); [apply evolving_ret|].
  apply evolving_bind; [apply evolving_modify; intros s'; now apply evolves_flags|intros _].
  apply evolving_bind; [apply evolving_of_frames, frames_get|intros s1].
  apply evolving_bind.
  - destruct (List.length (populations s1) =? 0)%nat;
      [apply evolving_initializePopulations|apply evolving_ret].
  - intros _. apply evolving_modify. intros s'. now apply evolves_flags.
Qed.

Lemma evolving_stopEvolution : evolving stopEvolution.
Proof. apply evolving_modify. intros s. now apply evolves_flags. Qed.

(** Writing the kernel that [findKernel] resolved, with a state that is not
    ARCHIVED and the same fitness. *)
Lemma evolves_writeKernel s l k :
  k_state k <> ARCHIVED -> fitness k = fitness (kernelAt (kernelHeap s) l) ->
  evolves s (set_kernelHeap (replaceAt l k (kernelHeap s)) s).
Proof.
  intros Hst Hf. constructor.
  - now apply wellOwned_writeKernel.
  - apply incl_refl.
  - intros l'. left. simpl. rewrite kernelAt_replaceAt.
    destruct (Nat.eqb_spec l' l) as [->|Hne]; simpl; auto.
    destruct (l <? List.length (kernelHeap s))%nat; auto.
Qed.

Lemma evolves_rewriteKernel s s' l k :
  populations s' = populations s -> archive s' = archive s ->
  kernelHeap s' = replaceAt l k (kernelHeap s) ->
  k_state k <> ARCHIVED -> fitness k = fitness (kernelAt (kernelHeap s) l) ->
  evolves s s'.
Proof.
  intros Hp Ha Hh Hst Hf.
  apply (evolves_trans _ _ _ (evolves_writeKernel s l k Hst Hf)).
  apply evolves_flags; auto.
Qed.

Lemma evolving_activateKernel id : evolving (activateKernel E id).
Proof.
  apply evolving_intro. intros s. unfold activateKernel, bind, get.
  destruct (findKernel s id) as [l|]; [|apply evolves_refl].
  unfold readKernel.
  destruct (isDeprecated (k_state (kernelAt (kernelHeap s) l))); [apply evolves_refl|].
  simpl.
  eapply (evolves_rewriteKernel _ _ l); try reflexivity. simpl. discriminate.
Qed.

Lemma evolving_deprecateKernel id : evolving (deprecateKernel E id).
Proof.
  apply evolving_intro. intros s. unfold deprecateKernel, bind, get.
  destruct (findKernel s id) as [l|]; [|apply evolves_refl].
  simpl.
  eapply (evolves_rewriteKernel _ _ l); try reflexivity. simpl. discriminate.
Qed.

(** [evaluateFitness] rewrites a fitness record and nothing else. *)
Lemma evaluateFitness_owned id scores s :
  exists r s', evaluateFitness E id scores s = Ret r s' /\
               (wellOwned s -> wellOwned s') /\ archive s' = archive s.
Proof.
  unfold evaluateFitness, bind, get.
  destruct (findKernel s id) as [l|].
  - eexists. eexists. split; [reflexivity|]. split; [|reflexivity].
    apply wellOwned_congr; simpl; auto.
    + now rewrite length_replaceAt.
    + intros l'. rewrite kernelAt_replaceAt.
      destruct (Nat.eqb_spec l' l) as [->|Hne]; simpl; auto.
      destruct (l <? List.length (kernelHeap s))%nat; reflexivity.
  - eexists. eexists. split; [reflexivity|]. auto.
Qed.

End Founding.

(** ** Every operation keeps ownership and the archive *)

Lemma evolving_runOp E op : isEvaluate op = false -> evolving (runOp E op).
Proof.
  destruct op; cbn [runOp isEvaluate]; intros Hop; try discriminate.
  - apply evolving_startEvolution.
  - apply evolving_stopEvolution.
  - apply evolving_evolutionCycle.
  - apply evolving_of_frames.
    apply frames_bind; [apply frames_createKernel|intros; apply frames_ret].
  - apply evolving_of_frames.
    apply frames_bind; [apply frames_breed|intros; apply frames_ret].
  - apply evolving_bind; [apply evolving_activateKernel|intros; apply evolving_ret].
  - apply evolving_bind; [apply evolving_deprecateKernel|intros; apply evolving_ret].
Qed.

Lemma evolving_final {A : Type} (m : M A) s s' :
  evolving m -> finalState (m s) = Some s' -> evolves s s'.
Proof.
  intros Hm Hfin. pose proof (evolving_run m s Hm) as H.
  destruct (m s) as [u s1|e s1|]; simpl in Hfin; try discriminate;
    injection Hfin as <-; exact H.
Qed.

Lemma step_evolves E op s s' :
  isEvaluate op = false -> stepTo E op s s' -> evolves s s'.
Proof.
  intros Hop [_ Hrun]. eapply evolving_final; [apply evolving_runOp|]; eauto.
Qed.

Lemma step_owned E op s s' :
  stepTo E op s s' -> (wellOwned s -> wellOwned s') /\ incl (archive s) (archive s').
Proof.
  intros Hstep. destruct (isEvaluate op) eqn:Hop.
  - destruct op; try discriminate. destruct Hstep as [_ Hrun].
    cbn [runOp] in Hrun. unfold bind in Hrun.
    destruct (evaluateFitness_owned E kernelId scores s) as (r & s1 & Hr & Hw & Ha).
    rewrite Hr in Hrun. simpl in Hrun. injection Hrun as <-.
    split; [exact Hw|]. rewrite Ha. apply incl_refl.
  - pose proof (step_evolves E op s s' Hop Hstep) as H. split; apply H.
Qed.

Lemma reachable_wellOwned E allowed s : reachableVia E allowed s -> wellOwned s.
Proof.
  induction 1 as [cfg|s s' op Hr IH Hop Hstep].
  - apply wellOwned_init.
  - apply (step_owned E op s s' Hstep). exact IH.
Qed.

Lemma reachable_steps E s s' : reachable E s -> stepsTo E s s' -> reachable E s'.
Proof.
  intros Hr Hs. induction Hs as [s|s s1 s2 op Hstep Hs IH]; auto.
  apply IH. eapply reach_step; eauto.
Qed.

Lemma steps_archive E s s' : stepsTo E s s' -> incl (archive s) (archive s').
Proof.
  induction 1 as [s|s s1 s2 op Hstep Hs IH].
  - apply incl_refl.
  - eapply incl_tran; [apply (step_owned E op s s1 Hstep)|exact IH].
Qed.

(** ** States inside a cycle *)

Lemma evolving_runPhase E ph : evolving (runPhase E ph).
Proof.
  destruct ph; simpl.
  - apply evolving_performSelection.
  - apply evolving_performBreeding.
  - apply evolving_growSlot.
  - apply evolving_updatePopulationStatistics.
  - apply evolving_advanceGeneration.
Qed.

Lemma inCycle_wellOwned E s : inCycle E s -> wellOwned s.
Proof.
  induction 1 as [s Hr|s s' ph Hc IH Hfin].
  - eapply reachable_wellOwned; eauto.
  - apply (ev_owned _ _ (evolving_final _ s s' (evolving_runPhase E ph) Hfin)). exact IH.
Qed.

Lemma runOps_stepsTo E ops s s' : runOps E ops s = Some s' -> stepsTo E s s'.
Proof.
  revert s. induction ops as [|op ops IH]; intros s; simpl.
  - intros [= <-]. constructor.
  - destruct (enabled op s) eqn:Hen; [|apply IH].
    destruct (finalState (runOp E op s)) as [s1|] eqn:Hfin; [|discriminate].
    intros Hrest. eapply steps_cons; [split; eassumption|apply IH; exact Hrest].
Qed.

Lemma afterOps_reachable E ops cfg :
  runOps E ops (createInitialState cfg) <> None ->
  reachable E (afterOps E ops (createInitialState cfg)).
Proof.
  unfold afterOps. intros H.
  destruct (runOps E ops (createInitialState cfg)) as [s'|] eqn:Hrun; [|congruence].
  apply (reachable_steps E (createInitialState cfg));
    [apply reach_init | apply (runOps_stepsTo E ops); exact Hrun].
Qed.


(** ** Gene objects, slices and draws *)

Lemma bind_Ret_inv {A B : Type} (m : M A) (k : A -> M B) s b s' :
  bind m k s = Ret b s' -> exists a s1, m s = Ret a s1 /\ k a s1 = Ret b s'.
Proof.
  unfold bind. destruct (m s) as [a s1|e s1|]; try discriminate.
  intros H. now exists a, s1.
Qed.

Lemma slice_prefix {A : Type} (l : list A) (n : nat) :
  Js.slice l 0 (Some (Z.of_nat n)) = firstn n l.
Proof.
  unfold Js.slice, Js.relIndex.
  change (0 <? 0) with false. cbv iota.
  destruct (Z.ltb_spec (Z.of_nat n) 0) as [Hn|Hn]; [lia|].
  replace (Z.to_nat (Z.min 0 (Z.of_nat (List.length l)))) with 0%nat by lia.
  cbn [skipn].
  destruct (Nat.le_gt_cases n (List.length l)) as [Hle|Hgt].
  - f_equal. lia.
  - rewrite firstn_all2 by lia. rewrite firstn_all2 by lia. reflexivity.
Qed.

Lemma slice_firstn {A : Type} (l : list A) (p : Z) :
  0 <= p -> Js.slice l 0 (Some p) = firstn (Z.to_nat p) l.
Proof.
  intros Hp. rewrite <- (Z2Nat.id p Hp) at 1. apply slice_prefix.
Qed.

Lemma slice_skipn {A : Type} (l : list A) (p : Z) :
  0 <= p -> Js.slice l p None = skipn (Z.to_nat p) l.
Proof.
  intros Hp. unfold Js.slice, Js.relIndex.
  destruct (Z.ltb_spec p 0) as [H|_]; [lia|].
  destruct (Z.le_gt_cases p (Z.of_nat (List.length l))) as [Hle|Hgt].
  - rewrite Z.min_l by exact Hle.
    apply firstn_all2. rewrite length_skipn. lia.
  - rewrite Z.min_r by lia. rewrite Nat2Z.id.
    rewrite skipn_all. rewrite skipn_all2 by lia. now destruct (Z.to_nat _).
Qed.

(** The index [Math.floor(Math.random() * n)] is below [n]. *)
Lemma floorTimes_range r n :
  (0 <= r /\ r <= Js.belowOne)%Q ->
  0 <= floorTimes r n /\ ((0 < n)%nat -> floorTimes r n < Z.of_nat n).
Proof.
  intros Hr. unfold floorTimes, QofNat.
  assert (Hn : (0 <= inject_Z (Z.of_nat n))%Q).
  { change 0%Q with (inject_Z 0). rewrite <- Zle_Qle. lia. }
  destruct (mul_below r (inject_Z (Z.of_nat n)) Hr Hn) as [Hlo Hhi].
  split.
  - change 0 with (Qfloor 0). now apply Qfloor_resp_le.
  - intros Hpos.
    assert (Hlt : (Js.mul r (inject_Z (Z.of_nat n)) < inject_Z (Z.of_nat n))%Q).
    { apply Hhi. change 0%Q with (inject_Z 0). rewrite <- Zlt_Qlt. lia. }
    pose proof (Qfloor_le (Js.mul r (inject_Z (Z.of_nat n)))) as Hfl.
    assert (H : (inject_Z (Qfloor (Js.mul r (inject_Z (Z.of_nat n))))
                 < inject_Z (Z.of_nat n))%Q) by (eapply Qle_lt_trans; eauto).
    now rewrite <- Zlt_Qlt in H.
Qed.

Lemma drawNonZero_state E fuel s u s1 :
  drawNonZero E fuel s = Ret u s1 -> exists n, s1 = set_randomCalls n s.
Proof.
  revert s. induction fuel as [|fuel IH]; intros s H; [discriminate|].
  simpl in H. unfold bind, mathRandom in H.
  destruct (Qeq_bool (random E (randomCalls s)) 0).
  - apply IH in H. destruct H as [n ->]. now exists n.
  - injection H as _ <-. now eexists.
Qed.

Lemma gaussianRandom_state E s z s1 :
  gaussianRandom E s = Ret z s1 -> exists n, s1 = set_randomCalls n s.
Proof.
  unfold gaussianRandom. intros H.
  apply bind_Ret_inv in H. destruct H as (u & s2 & Hu & H).
  apply bind_Ret_inv in H. destruct H as (v & s3 & Hv & H).
  injection H as _ <-.
  apply drawNonZero_state in Hu. destruct Hu as [n ->].
  apply drawNonZero_state in Hv. destruct Hv as [m ->]. now exists m.
Qed.

Lemma geneAt_replaceAt h l g l' :
  geneAt (replaceAt l g h) l' =
  if ((l' =? l) && (l <? List.length h))%nat then g else geneAt h l'.
Proof.
  unfold geneAt. destruct (Nat.eqb_spec l' l) as [->|Hne]; simpl.
  - destruct (Nat.ltb_spec l (List.length h)) as [Hlt|Hge].
    + now apply nth_replaceAt_same.
    + now rewrite replaceAt_beyond.
  - now apply nth_replaceAt_other.
Qed.

Lemma geneAt_dummy h l : (List.length h <= l)%nat -> geneAt h l = dummyGene.
Proof. intros H. unfold geneAt. now apply nth_beyond. Qed.

Lemma withValue_same g : withValue (g_value g) g = g.
Proof. now destruct g. Qed.

Lemma geneAt_app h ext l : (l < List.length h)%nat -> geneAt (h ++ ext) l = geneAt h l.
Proof. intros H. unfold geneAt. now apply app_nth1. Qed.

Lemma map_geneAt_app h ext ls :
  Forall (fun l => (l < List.length h)%nat) ls ->
  map (geneAt (h ++ ext)) ls = map (geneAt h) ls.
Proof.
  intros H. apply map_ext_in. intros l Hl. rewrite Forall_forall in H.
  apply geneAt_app. now apply H.
Qed.

Lemma map_geneAt_seq h c r :
  map (geneAt (h ++ c ++ r)) (seq (List.length h) (List.length c)) = c.
Proof.
  revert h. induction c as [|x c IH]; intros h; [reflexivity|].
  cbn [List.length seq map app]. f_equal.
  - unfold geneAt. now rewrite nth_middle.
  - specialize (IH (h ++ [x])). rewrite length_app in IH. cbn [List.length] in IH.
    rewrite Nat.add_1_r in IH. rewrite <- app_assoc in IH. exact IH.
Qed.

Lemma map_geneAt_seq_end h c :
  map (geneAt (h ++ c)) (seq (List.length h) (List.length c)) = c.
Proof.
  pose proof (map_geneAt_seq h c []) as H. now rewrite app_nil_r in H.
Qed.

(** [cloneGenes] allocates one gene object per reference, at the end of the
    heap, and changes nothing else. *)
Lemma cloneGenes_run ls s :
  exists clones,
    cloneGenes ls s
    = Ret (seq (List.length (geneHeap s)) (List.length ls))
        (set_geneHeap (geneHeap s ++ clones) s) /\
    List.length clones = List.length ls /\
    (genesIn s ls -> clones = genesAt s ls).
Proof.
  revert s. induction ls as [|l ls IH]; intros s.
  - exists []. split; [|split; auto].
    unfold cloneGenes. cbn [mapM List.length seq ret]. rewrite app_nil_r.
    now destruct s.
  - destruct (IH (set_geneHeap (geneHeap s ++ [geneAt (geneHeap s) l]) s))
      as (clones & Hrun & Hlen & Hin).
    exists (geneAt (geneHeap s) l :: clones). split; [|split].
    + unfold cloneGenes in *. cbn [mapM]. unfold bind at 1. unfold bind at 1.
      unfold readGene at 1. unfold allocGene at 1. unfold bind at 1.
      rewrite Hrun. cbn [geneHeap set_geneHeap]. unfold ret.
      rewrite length_app. cbn [List.length]. rewrite Nat.add_1_r.
      rewrite <- app_assoc. reflexivity.
    + cbn [List.length]. now rewrite Hlen.
    + intros Hall. inversion Hall as [|? ? Hl Hls]; subst.
      unfold genesAt. cbn [map]. f_equal.
      rewrite Hin.
      * unfold genesAt. cbn [geneHeap set_geneHeap]. now apply map_geneAt_app.
      * unfold genesIn. cbn [geneHeap set_geneHeap]. rewrite length_app.
        eapply Forall_impl; [|exact Hls]. cbn. intros; lia.
Qed.

Lemma seq_fresh (n a b m : nat) :
  (n <= a)%nat -> (a + b <= m)%nat ->
  Forall (fun l => (n <= l < m)%nat) (seq a b).
Proof.
  intros H1 H2. apply Forall_forall. intros l Hl. apply in_seq in Hl. lia.
Qed.

Lemma genesIn_grow s ext ls :
  genesIn s ls -> genesIn (set_geneHeap (geneHeap s ++ ext) s) ls.
Proof.
  unfold genesIn. cbn [geneHeap set_geneHeap]. rewrite length_app.
  intros H. eapply Forall_impl; [|exact H]. cbn. intros; lia.
Qed.

Lemma genesAt_grow s ext ls :
  genesIn s ls -> genesAt (set_geneHeap (geneHeap s ++ ext) s) ls = genesAt s ls.
Proof. intros H. unfold genesAt. cbn [geneHeap set_geneHeap]. now apply map_geneAt_app. Qed.

Lemma In_firstn_list {A : Type} (n : nat) (l : list A) (x : A) :
  In x (firstn n l) -> In x l.
Proof.
  intros H. rewrite <- (firstn_skipn n l). apply in_or_app. now left.
Qed.

Lemma genesIn_firstn s n ls : genesIn s ls -> genesIn s (firstn n ls).
Proof.
  unfold genesIn. rewrite !Forall_forall. intros H l Hl.
  apply H. eapply In_firstn_list; eauto.
Qed.

Lemma genesIn_skipn s n ls : genesIn s ls -> genesIn s (skipn n ls).
Proof.
  unfold genesIn. rewrite !Forall_forall. intros H l Hl.
  apply H. rewrite <- (firstn_skipn n ls). apply in_or_app. now right.
Qed.

(** * The claims *)

Lemma founded_reachable : reachable sampleEnv founded.
Proof. apply afterOps_reachable. vm_compute. discriminate. Defined.

Lemma oneEvaluated_reachable : reachable sampleEnv oneEvaluated.
Proof. apply afterOps_reachable. vm_compute. discriminate. Defined.

Lemma oneArchived_reachable : reachable sampleEnv oneArchived.
Proof. apply afterOps_reachable. vm_compute. discriminate. Defined.

(** ** C3: selection spares kernels that were never evaluated *)

Lemma not_archivable_unevaluated s l :
  evaluations (fitness (kernelAt (kernelHeap s) l)) = 0%nat -> archivable s l = false.
Proof.
  intros H. unfold archivable. rewrite H. apply andb_false_r.
Qed.

(** C3. In every state the engine passes through, a kernel of a population
    whose [fitness.evaluations] is 0 survives [performSelection] on that
    population, whatever its [fitness.overall]: selection returns, the kernel
    is still in the population's [kernels], the kernel object (its state
    included) is unchanged, and it is not in the archive. *)
Theorem selection_spares_unevaluated (E : Env) (s : State) (i : nat)
  (p : KernelPopulation) (l : loc) :
  inCycle E s ->
  nth_error (populations s) i = Some p ->
  In l (kernels p) ->
  evaluations (fitness (kernelAt (kernelHeap s) l)) = 0%nat ->
  exists s' p',
    performSelection i s = Ret tt s' /\
    nth_error (populations s') i = Some p' /\
    In l (kernels p') /\
    kernelAt (kernelHeap s') l = kernelAt (kernelHeap s) l /\
    ~ In l (archive s').
Proof.
  intros Hc Hp Hl Hev.
  pose proof (inCycle_wellOwned E s Hc) as [B BA A D S].
  assert (Hli : In l (kernelsOf s i)).
  { unfold kernelsOf, populationAt. now rewrite (nth_error_nth _ _ _ Hp). }
  destruct (performSelection_spec i s) as (s' & Hrun & [Hm Ho Hk]).
  assert (Hnot : ~ In l (toArchive s i)).
  { unfold toArchive. intros Hin. apply filter_In in Hin. destruct Hin as [_ Hin].
    rewrite (not_archivable_unevaluated s l Hev) in Hin. discriminate. }
  pose proof (marked_unchanged _ _ _ l Hm Hnot) as Hsame.
  exists s', (populationAt (populations s') i).
  split; [exact Hrun|]. split; [|split; [|split]].
  - apply nth_error_nth'. rewrite (mk_populations _ _ _ Hm).
    apply nth_error_Some. congruence.
  - change (In l (kernelsOf s' i)). rewrite Hk. apply filter_In. split.
    + now apply In_sortByFitness.
    + rewrite Hsame. specialize (S i l Hli).
      destruct (k_state (kernelAt (kernelHeap s) l)); simpl; congruence.
  - exact Hsame.
  - rewrite (mk_archive _ _ _ Hm). intros Hin. apply in_app_or in Hin.
    destruct Hin as [Hin|Hin]; [exact (A i l Hli Hin)|exact (Hnot Hin)].
Qed.

Lemma selection_spares_unevaluated_witness :
  exists s' p',
    performSelection 0 oneEvaluated = Ret tt s' /\
    nth_error (populations s') 0 = Some p' /\
    In 1%nat (kernels p') /\
    kernelAt (kernelHeap s') 1%nat = kernelAt (kernelHeap oneEvaluated) 1%nat /\
    ~ In 1%nat (archive s').
Proof.
  apply (selection_spares_unevaluated sampleEnv oneEvaluated 0%nat
           (populationAt (populations oneEvaluated) 0%nat) 1%nat).
  - apply inCycle_reachable. exact oneEvaluated_reachable.
  - vm_compute. reflexivity.
  - vm_compute. auto.
  - vm_compute. reflexivity.
Defined.

(** ** C4: archiving is monotonic *)

(** C4. Once a kernel object is in the archive of a reachable state, no
    sequence of engine operations (start, stop, generation cycles,
    createKernel, breed, evaluateFitness, activateKernel, deprecateKernel)
    takes it out of the archive or puts it into the [kernels] of any
    population. *)
Theorem archiving_is_monotonic (E : Env) (s s' : State) (l : loc) :
  reachable E s ->
  In l (archive s) ->
  stepsTo E s s' ->
  In l (archive s') /\ forall p, In p (populations s') -> ~ In l (kernels p).
Proof.
  intros Hr Hl Hsteps.
  pose proof (steps_archive E s s' Hsteps l Hl) as Hl'.
  split; [exact Hl'|].
  intros p Hp Hin.
  pose proof (reachable_wellOwned E _ s' (reachable_steps E s s' Hr Hsteps)) as Hw.
  destruct (In_kernelsOf s' p l Hp Hin) as (i & Hi).
  exact (wo_archive s' Hw i l Hi Hl').
Qed.

Lemma archiving_is_monotonic_witness :
  In 0%nat (archive (afterOps sampleEnv laterOps oneArchived)) /\
  forall p, In p (populations (afterOps sampleEnv laterOps oneArchived)) ->
            ~ In 0%nat (kernels p).
Proof.
  apply (archiving_is_monotonic sampleEnv oneArchived).
  - exact oneArchived_reachable.
  - vm_compute. auto.
  - apply (runOps_stepsTo sampleEnv laterOps). vm_compute. reflexivity.
Defined.

(** ** C7: breeding with no resolvable parent *)

Lemma resolveParents_none s ids :
  (forall id, In id ids -> findKernel s id = None) -> resolveParents s ids = [].
Proof.
  intros H. unfold resolveParents. induction ids as [|id ids IH]; simpl; auto.
  rewrite (H id) by now left. simpl. apply IH. intros id' Hin. apply H. now right.
Qed.

(** C7. When none of the parent ids of a breeding request resolves against
    the populations and the archive, [breed] returns normally with
    [{offspring: [], successRate: 0, mutationsApplied: 0, novelGenes: 0}] and
    leaves the whole engine state as it was: no counter is incremented, no
    population or archive entry changes and no event is emitted. *)
Theorem breed_without_parents (E : Env) (s : State) (request : BreedingRequest) :
  (forall id, In id (rq_parents request) -> findKernel s id = None) ->
  breed E request s = Ret (mkResult [] (Some 0%Q) 0 0) s.
Proof.
  intros H. unfold breed, bind, get.
  rewrite (resolveParents_none s _ H). reflexivity.
Qed.

Lemma breed_without_parents_witness :
  breed sampleEnv (mkRequest ["kernel-0-none"; "kernel-1-none"] Crossover None 3) founded
  = Ret (mkResult [] (Some 0%Q) 0 0) founded.
Proof.
  apply (breed_without_parents sampleEnv founded).
  intros id Hin. simpl in Hin.
  destruct Hin as [<-|[<-|[]]]; vm_compute; reflexivity.
Defined.

(** ** C10: activating an archived kernel *)

Lemma findIn_Some h id ls l :
  findIn h id ls = Some l -> In l ls /\ k_id (kernelAt h l) = id.
Proof.
  unfold findIn. intros H. apply find_some in H. destruct H as [Hin Heq].
  split; [exact Hin|]. now apply String.eqb_eq.
Qed.

Lemma findIn_None h id ls l :
  findIn h id ls = None -> In l ls -> k_id (kernelAt h l) <> id.
Proof.
  unfold findIn. intros H Hin Heq.
  pose proof (find_none _ _ H l Hin) as Hf. simpl in Hf.
  apply String.eqb_neq in Hf. contradiction.
Qed.

Lemma findInPopulations_Some h id ps l :
  findInPopulations h id ps = Some l ->
  (exists p, In p ps /\ In l (kernels p)) /\ k_id (kernelAt h l) = id.
Proof.
  induction ps as [|p ps IH]; simpl; [discriminate|].
  destruct (findIn h id (kernels p)) as [l'|] eqn:Hf.
  - intros [= ->]. apply findIn_Some in Hf. destruct Hf as [Hin Heq].
    split; [exists p; auto|exact Heq].
  - intros H. destruct (IH H) as [(q & Hq & Hl) Heq].
    split; [exists q; auto|exact Heq].
Qed.

(** An id carried by one held kernel only resolves to that kernel. *)
Lemma findKernel_unique s l :
  held s l ->
  (forall l', held s l' ->
              k_id (kernelAt (kernelHeap s) l') = k_id (kernelAt (kernelHeap s) l) ->
              l' = l) ->
  In l (archive s) ->
  findKernel s (k_id (kernelAt (kernelHeap s) l)) = Some l.
Proof.
  intros Hheld Huniq Harch. unfold findKernel.
  destruct (findInPopulations (kernelHeap s) _ (populations s)) as [l'|] eqn:Hf.
  - apply findInPopulations_Some in Hf. destruct Hf as [(p & Hp & Hl) Heq].
    f_equal. apply Huniq; [|exact Heq].
    right. eapply In_kernelsOf; eauto.
  - destruct (findIn (kernelHeap s) _ (archive s)) as [l'|] eqn:Ha.
    + apply findIn_Some in Ha. destruct Ha as [Hin Heq].
      f_equal. apply Huniq; [now left|exact Heq].
    + exfalso. exact (findIn_None _ _ _ l Ha Harch eq_refl).
Qed.

(** C10. In a reachable state, for a kernel held by the archive that is not
    DEPRECATED and whose id no other held kernel carries, [activateKernel] on
    its id returns [true], sets its state to ACTIVE and its [lastActivated] to
    the clock reading, and changes neither the archive nor the populations:
    the kernel stays in the archive and in no population. And in any state
    [activateKernel] returns [false] exactly for an id that does not resolve
    or that resolves to a DEPRECATED kernel. *)
Theorem activateKernel_on_archived (E : Env) (s : State) (l : loc) :
  reachable E s ->
  In l (archive s) ->
  k_state (kernelAt (kernelHeap s) l) <> DEPRECATED ->
  (forall l', held s l' ->
              k_id (kernelAt (kernelHeap s) l') = k_id (kernelAt (kernelHeap s) l) ->
              l' = l) ->
  (exists s',
      activateKernel E (k_id (kernelAt (kernelHeap s) l)) s = Ret true s' /\
      k_state (kernelAt (kernelHeap s') l) = ACTIVE /\
      lastActivated (kernelAt (kernelHeap s') l) = now E (nowCalls s) /\
      archive s' = archive s /\
      populations s' = populations s /\
      In l (archive s') /\
      forall p, In p (populations s') -> ~ In l (kernels p)) /\
  (forall s0 id,
      exists b s1,
        activateKernel E id s0 = Ret b s1 /\
        (b = false <->
         findKernel s0 id = None \/
         exists l0, findKernel s0 id = Some l0 /\
                    k_state (kernelAt (kernelHeap s0) l0) = DEPRECATED)).
Proof.
  intros Hr Harch Hst Huniq. split.
  - pose proof (reachable_wellOwned E _ s Hr) as Hw.
    pose proof (findKernel_unique s l (or_introl Harch) Huniq Harch) as Hfind.
    unfold activateKernel, bind, get, readKernel. rewrite Hfind.
    destruct (isDeprecated (k_state (kernelAt (kernelHeap s) l))) eqn:Hd.
    { destruct (k_state (kernelAt (kernelHeap s) l)); try discriminate.
      now contradiction Hst. }
    eexists. split; [reflexivity|]. simpl.
    pose proof (wo_bound_archive s Hw l Harch) as Hlt.
    rewrite kernelAt_replaceAt, Nat.eqb_refl.
    destruct (Nat.ltb_spec l (List.length (kernelHeap s))) as [_|Hge]; [|lia].
    simpl. repeat split; auto.
    intros p Hp Hin. destruct (In_kernelsOf s p l Hp Hin) as (i & Hi).
    exact (wo_archive s Hw i l Hi Harch).
  - intros s0 id. unfold activateKernel, bind, get, readKernel.
    destruct (findKernel s0 id) as [l0|] eqn:Hf.
    + destruct (k_state (kernelAt (kernelHeap s0) l0)) eqn:Hk; simpl;
        eexists; eexists; (split; [reflexivity|]);
        split; try discriminate; try (intros [H|(l1 & H1 & H2)]; [discriminate|]);
        try (injection H1 as <-; congruence).
      intros _. right. exists l0. auto.
    + exists false, s0. split; [reflexivity|]. split; auto.
Qed.

Lemma idUnique_held s l :
  wellOwned s -> idUnique (kernelHeap s) l = true ->
  forall l', held s l' ->
             k_id (kernelAt (kernelHeap s) l') = k_id (kernelAt (kernelHeap s) l) ->
             l' = l.
Proof.
  intros Hw Hu l' Hheld Hid.
  assert (Hlt : (l' < List.length (kernelHeap s))%nat).
  { destruct Hheld as [Ha|(i & Hi)].
    - exact (wo_bound_archive s Hw l' Ha).
    - exact (wo_bound s Hw i l' Hi). }
  unfold idUnique in Hu. rewrite forallb_forall in Hu.
  specialize (Hu l'). rewrite in_seq in Hu. specialize (Hu (conj (Nat.le_0_l _) Hlt)).
  apply orb_true_iff in Hu. destruct Hu as [Hu|Hu].
  - now apply Nat.eqb_eq.
  - rewrite Hid, String.eqb_refl in Hu. discriminate.
Qed.

Lemma activateKernel_on_archived_witness :
  exists s',
    activateKernel sampleEnv (k_id (kernelAt (kernelHeap oneArchived) 0%nat)) oneArchived
    = Ret true s' /\
    k_state (kernelAt (kernelHeap s') 0%nat) = ACTIVE /\
    lastActivated (kernelAt (kernelHeap s') 0%nat) = now sampleEnv (nowCalls oneArchived) /\
    archive s' = archive oneArchived /\
    populations s' = populations oneArchived /\
    In 0%nat (archive s') /\
    forall p, In p (populations s') -> ~ In 0%nat (kernels p).
Proof.
  refine (proj1 (activateKernel_on_archived sampleEnv oneArchived 0%nat
                   oneArchived_reachable _ _ _)).
  - vm_compute. auto.
  - vm_compute. discriminate.
  - apply idUnique_held.
    + exact (reachable_wellOwned _ _ _ oneArchived_reachable).
    + vm_compute. reflexivity.
Defined.

(** ** C8: the genome checksum *)

Lemma stringifyEntry_entry g g' :
  entry g = entry g' -> Checksum.stringifyEntry g = Checksum.stringifyEntry g'.
Proof.
  unfold entry, Checksum.stringifyEntry. intros [= Hid Hv]. now rewrite Hid, Hv.
Qed.

Lemma map_stringifyEntry gs gs' :
  map entry gs = map entry gs' ->
  map Checksum.stringifyEntry gs = map Checksum.stringifyEntry gs'.
Proof.
  revert gs'. induction gs as [|g gs IH]; intros [|g' gs']; cbn [map];
    try discriminate; auto.
  intros H. injection H as Hid Hv Hrest.
  f_equal; [apply stringifyEntry_entry; unfold entry; congruence|now apply IH].
Qed.

(** [ToInt32] keeps the number modulo [2^32]. *)
Lemma wrap32_mod z : (Js.wrap32 z - z) mod 2 ^ 32 = 0.
Proof.
  unfold Js.wrap32. change (2 ^ 31) with 2147483648. change (2 ^ 32) with 4294967296.
  pose proof (Z.div_mod (z + 2147483648) 4294967296 ltac:(lia)) as H.
  replace ((z + 2147483648) mod 4294967296 - 2147483648 - z)
    with (- ((z + 2147483648) / 4294967296) * 4294967296) by lia.
  apply Z.mod_mul. lia.
Qed.

Lemma wrap32_congr a b : (a - b) mod 2 ^ 32 = 0 -> Js.wrap32 a = Js.wrap32 b.
Proof.
  intros H. unfold Js.wrap32. f_equal.
  apply Z.mod_divide in H; [|discriminate]. destruct H as [k Hk].
  replace (a + 2 ^ 31) with (b + 2 ^ 31 + k * 2 ^ 32) by lia.
  apply Z.mod_add. discriminate.
Qed.

Lemma wrap32_inj a b : Js.wrap32 a = Js.wrap32 b -> (a - b) mod 2 ^ 32 = 0.
Proof.
  intros H. pose proof (wrap32_mod a) as Ha. pose proof (wrap32_mod b) as Hb.
  rewrite H in Ha.
  apply Z.mod_divide in Ha; [|discriminate]. apply Z.mod_divide in Hb; [|discriminate].
  apply Z.mod_divide; [discriminate|].
  replace (a - b) with ((Js.wrap32 b - b) - (Js.wrap32 b - a)) by lia.
  now apply Z.divide_sub_r.
Qed.

(** The hashing loop computes the polynomial hash modulo [2^32]. *)
Lemma hashFrom_fold units : forall h h',
  (h - h') mod 2 ^ 32 = 0 ->
  (Checksum.hashFrom h units - fold_left (fun x c => 31 * x + c) units h') mod 2 ^ 32 = 0.
Proof.
  induction units as [|c units IH]; intros h h' Hh; cbn [Checksum.hashFrom fold_left].
  - exact Hh.
  - apply IH. unfold Checksum.hashStep.
    apply Z.mod_divide; [discriminate|]. apply Z.mod_divide in Hh; [|discriminate].
    pose proof (wrap32_mod (Js.wrap32 (Z.shiftl h 5) - h + c)) as H1.
    pose proof (wrap32_mod (Z.shiftl h 5)) as H2.
    apply Z.mod_divide in H1; [|discriminate]. apply Z.mod_divide in H2; [|discriminate].
    rewrite Z.shiftl_mul_pow2 in * by lia. change (2 ^ 5) with 32 in *.
    destruct Hh as [k Hk]. destruct H1 as [k1 Hk1]. destruct H2 as [k2 Hk2].
    exists (k1 + k2 + 31 * k). lia.
Qed.

Lemma hashFrom_poly units :
  Checksum.hashFrom 0 units = Js.wrap32 (Checksum.hashFrom 0 units) ->
  Checksum.hashFrom 0 units = Js.wrap32 (polyHash units).
Proof.
  intros H. rewrite H. apply wrap32_congr. apply (hashFrom_fold units 0 0). reflexivity.
Qed.

Lemma wrap32_idem z : Js.wrap32 (Js.wrap32 z) = Js.wrap32 z.
Proof. apply wrap32_congr, wrap32_mod. Qed.

Lemma hashFrom_wrapped units h :
  h = Js.wrap32 h -> Checksum.hashFrom h units = Js.wrap32 (Checksum.hashFrom h units).
Proof.
  revert h. induction units as [|c units IH]; intros h Hh; cbn [Checksum.hashFrom].
  - exact Hh.
  - apply IH. unfold Checksum.hashStep. now rewrite wrap32_idem.
Qed.

Lemma hashFrom_polyHash units : Checksum.hashFrom 0 units = Js.wrap32 (polyHash units).
Proof. apply hashFrom_poly, hashFrom_wrapped. reflexivity. Qed.

(** The polynomial hash of a text cut in two. *)
Lemma fold_poly_shift post : forall h,
  fold_left (fun x c => 31 * x + c) post h
  = h * 31 ^ Z.of_nat (List.length post) + fold_left (fun x c => 31 * x + c) post 0.
Proof.
  induction post as [|c post IH]; intros h; cbn [fold_left List.length].
  - cbn. lia.
  - rewrite (IH (31 * h + c)), (IH (31 * 0 + c)).
    rewrite Nat2Z.inj_succ, Z.pow_succ_r by lia. lia.
Qed.

Lemma polyHash_one_unit pre post c c' :
  polyHash (pre ++ c :: post) - polyHash (pre ++ c' :: post)
  = (c - c') * 31 ^ Z.of_nat (List.length post).
Proof.
  unfold polyHash. rewrite !fold_left_app. cbn [fold_left].
  rewrite (fold_poly_shift post (31 * _ + c)), (fold_poly_shift post (31 * _ + c')).
  lia.
Qed.

(** Two texts that differ in one code unit have different hashes. *)
Lemma hashFrom_one_unit pre post c c' :
  0 <= c < 65536 -> 0 <= c' < 65536 -> c <> c' ->
  Checksum.hashFrom 0 (pre ++ c :: post) <> Checksum.hashFrom 0 (pre ++ c' :: post).
Proof.
  intros Hc Hc' Hne Heq. rewrite !hashFrom_polyHash in Heq.
  apply wrap32_inj in Heq. rewrite polyHash_one_unit in Heq.
  apply Z.mod_divide in Heq; [|discriminate].
  rewrite Z.mul_comm in Heq. apply Z.gauss in Heq.
  - destruct Heq as [k Hk]. change (2 ^ 32) with 4294967296 in Hk. lia.
  - apply Z.coprime_pow_l; [lia|]. unfold Z.coprime. rewrite Z.gcd_comm.
    apply Z.coprime_pow_l; [lia|]. reflexivity.
Qed.

(** The hexadecimal rendering is one to one. *)
Lemma toHex_inj a b : 0 <= a -> 0 <= b -> Js.toHex a = Js.toHex b -> a = b.
Proof.
  intros Ha Hb H. unfold Js.toHex in H.
  assert (Hn : forall n, N.to_hex_uint n <> Hexadecimal.Nil).
  { intros n Hnil. pose proof (HexadecimalN.Unsigned.of_to n) as Hof.
    rewrite Hnil in Hof. cbn in Hof. subst n. discriminate. }
  pose proof (HexadecimalString.NilZero.usu _ (Hn (Z.to_N a))) as H1.
  pose proof (HexadecimalString.NilZero.usu _ (Hn (Z.to_N b))) as H2.
  rewrite H in H1. rewrite H1 in H2. injection H2 as H2.
  apply HexadecimalN.Unsigned.to_uint_inj in H2. lia.
Qed.

(** The code units of a string are 16-bit numbers. *)
Lemma utf16_range fuel : forall bytes,
  Forall (fun b => 0 <= b < 256) bytes ->
  Forall (fun c => 0 <= c < 65536) (Js.utf16 fuel bytes).
Proof.
  induction fuel as [|fuel IH]; intros bytes Hb; [constructor|].
  cbn [Js.utf16]. destruct bytes as [|b0 rest]; [constructor|].
  inversion Hb as [|? ? H0 Hrest]; subst.
  assert (Hone : Forall (fun c => 0 <= c < 65536) (b0 :: Js.utf16 fuel rest)).
  { constructor; [lia|now apply IH]. }
  destruct rest as [|b1 rest1]; [constructor; [lia|constructor]|].
  inversion Hrest as [|? ? H1 Hrest1]; subst.
  unfold Js.isContinuation.
  destruct rest1 as [|b2 rest2].
  { destruct ((192 <=? b0) && (b0 <? 224) && ((128 <=? b1) && (b1 <? 192))) eqn:C2;
      [|exact Hone].
    repeat (rewrite ?andb_true_iff, ?Z.leb_le, ?Z.ltb_lt in C2).
    constructor; [lia|]. apply IH. constructor. }
  inversion Hrest1 as [|? ? H2 Hrest2]; subst.
  destruct rest2 as [|b3 rest3].
  { destruct ((224 <=? b0) && (b0 <? 240) && ((128 <=? b1) && (b1 <? 192))
              && ((128 <=? b2) && (b2 <? 192))) eqn:C3.
    - repeat (rewrite ?andb_true_iff, ?Z.leb_le, ?Z.ltb_lt in C3).
      constructor; [lia|]. apply IH. constructor.
    - destruct ((192 <=? b0) && (b0 <? 224) && ((128 <=? b1) && (b1 <? 192))) eqn:C2;
        [|exact Hone].
      repeat (rewrite ?andb_true_iff, ?Z.leb_le, ?Z.ltb_lt in C2).
      constructor; [lia|]. apply IH. exact Hrest1. }
  inversion Hrest2 as [|? ? H3 Hrest3]; subst.
  destruct ((240 <=? b0) && (b0 <? 248) && ((128 <=? b1) && (b1 <? 192))
            && ((128 <=? b2) && (b2 <? 192)) && ((128 <=? b3) && (b3 <? 192))) eqn:C4.
  { repeat (rewrite ?andb_true_iff, ?Z.leb_le, ?Z.ltb_lt in C4).
    set (cp := (b0 - 240) * 262144 + (b1 - 128) * 4096 + (b2 - 128) * 64 + (b3 - 128)).
    assert (Hcp : 0 <= cp <= 2097151) by (unfold cp; lia).
    pose proof (Z.div_mod (cp - 65536) 1024 ltac:(lia)) as Hd.
    pose proof (Z.mod_pos_bound (cp - 65536) 1024 ltac:(lia)) as Hm.
    constructor; [lia|]. constructor; [lia|]. now apply IH. }
  destruct ((224 <=? b0) && (b0 <? 240) && ((128 <=? b1) && (b1 <? 192))
            && ((128 <=? b2) && (b2 <? 192))) eqn:C3.
  { repeat (rewrite ?andb_true_iff, ?Z.leb_le, ?Z.ltb_lt in C3).
    constructor; [lia|]. apply IH. exact Hrest2. }
  destruct ((192 <=? b0) && (b0 <? 224) && ((128 <=? b1) && (b1 <? 192))) eqn:C2;
    [|exact Hone].
  repeat (rewrite ?andb_true_iff, ?Z.leb_le, ?Z.ltb_lt in C2).
  constructor; [lia|]. apply IH. exact Hrest1.
Qed.

Lemma codeUnits_range s : Forall (fun c => 0 <= c < 65536) (Js.codeUnits s).
Proof.
  unfold Js.codeUnits. apply utf16_range. apply Forall_forall.
  intros b Hb. apply in_map_iff in Hb. destruct Hb as (c & <- & _).
  pose proof (nat_ascii_bounded c). lia.
Qed.

(** C8 as stated fails: a 32-bit hash cannot separate all values. The
    parameter values 81100810 and 10821106 of a gene [temperature] give the
    same checksum. *)
Lemma checksum_collision :
  ~ (forall (h : list Gene) (core reg : list loc) (l : loc) (v : GeneValue),
        In l core -> v <> g_value (geneAt h l) ->
        calculateChecksum (replaceAt l (withValue v (geneAt h l)) h) core reg
        <> calculateChecksum h core reg).
Proof.
  intros H.
  apply (H [templateGene "temperature" "Temperature" 81100810] [0%nat] [] 0%nat
           (VNumber 10821106)).
  - now left.
  - vm_compute. discriminate.
  - vm_compute. reflexivity.
Qed.

(** C8 (amended). The checksum is a function of the id/value pairs of the
    core and regulatory genes, in order: two genomes whose genes carry the
    same ids and values, whatever heaps they live in and whatever their other
    fields, have the same checksum. It is the hexadecimal rendering of the
    absolute value of the polynomial hash in 31 of the code units of the JSON
    text of those pairs, cut to 32 bits. Two texts of the same length that
    differ in exactly one code unit have different 32-bit hashes, so their
    checksums differ unless the two hashes are opposite numbers. The order of
    the genes counts: the first two inference genes in the other order give
    another checksum. (That texts differing in more places can have the same
    checksum is the collision above.) *)
Theorem checksum_function_of_entries :
  (forall (h h' : list Gene) (core reg core' reg' : list loc),
      map entry (map (geneAt h) core) = map entry (map (geneAt h') core') ->
      map entry (map (geneAt h) reg) = map entry (map (geneAt h') reg') ->
      calculateChecksum h core reg = calculateChecksum h' core' reg') /\
  (forall data : string,
      Checksum.hashString data
      = Js.toHex (Z.abs (Js.wrap32 (polyHash (Js.codeUnits data))))) /\
  (forall (data data' : string) (pre post : list Z) (c c' : Z),
      Js.codeUnits data = pre ++ c :: post ->
      Js.codeUnits data' = pre ++ c' :: post ->
      c <> c' ->
      Checksum.hashFrom 0 (Js.codeUnits data) <> Checksum.hashFrom 0 (Js.codeUnits data') /\
      (Checksum.hashString data = Checksum.hashString data' ->
       Checksum.hashFrom 0 (Js.codeUnits data)
       = - Checksum.hashFrom 0 (Js.codeUnits data'))) /\
  calculateChecksum templateGenes [0; 1]%nat [] <> calculateChecksum templateGenes [1; 0]%nat [].
Proof.
  split; [|split; [|split]].
  - intros h h' core reg core' reg' Hc Hr.
    unfold calculateChecksum, Checksum.ofGenes, Checksum.stringify, Checksum.stringifyArray.
    now rewrite (map_stringifyEntry _ _ Hc), (map_stringifyEntry _ _ Hr).
  - intros data. unfold Checksum.hashString. now rewrite hashFrom_polyHash.
  - intros data data' pre post c c' Hd Hd' Hne.
    pose proof (codeUnits_range data) as R. pose proof (codeUnits_range data') as R'.
    rewrite Hd in R. rewrite Hd' in R'.
    apply Forall_app in R. destruct R as [_ R]. inversion R as [|? ? Rc _]; subst.
    apply Forall_app in R'. destruct R' as [_ R']. inversion R' as [|? ? Rc' _]; subst.
    assert (Hdiff : Checksum.hashFrom 0 (Js.codeUnits data)
                    <> Checksum.hashFrom 0 (Js.codeUnits data')).
    { rewrite Hd, Hd'. now apply hashFrom_one_unit. }
    split; [exact Hdiff|].
    intros Heq. unfold Checksum.hashString in Heq.
    apply toHex_inj in Heq; lia.
  - vm_compute. discriminate.
Qed.

Lemma checksum_function_of_entries_witness :
  calculateChecksum templateGenes [0; 1; 2]%nat [] =
  calculateChecksum
    [mkGene "topP" "renamed" GSelector (VNumber (Js.double (9 # 10))) false 0;
     mkGene "maxTokens" "renamed" GSelector (VNumber 2048) false 0;
     mkGene "temperature" "renamed" GSelector (VNumber (Js.double (7 # 10))) false 0]
    [2; 1; 0]%nat [].
Proof.
  apply (proj1 checksum_function_of_entries); vm_compute; reflexivity.
Defined.

(** ** C5: fitness scores *)













Lemma runOps_reachableVia E (allowed : Op -> Prop) ops s s' :
  Forall allowed ops -> reachableVia E allowed s -> runOps E ops s = Some s' ->
  reachableVia E allowed s'.
Proof.
  intros Hall. revert s. induction Hall as [|op ops Hop Hall IH]; intros s Hr; simpl.
  - now intros [= <-].
  - destruct (enabled op s) eqn:Hen; [|now apply IH].
    destruct (finalState (runOp E op s)) as [s1|] eqn:Hfin; [|discriminate].
    apply IH. eapply reach_step; [exact Hr|exact Hop|split; assumption].
Qed.





(** ** The mean in double arithmetic *)

Section MeanError.

Local Open Scope Q_scope.









End MeanError.

(** ** C9: refreshing the statistics of a population *)

Lemma slice_last20 {A : Type} (l : list A) :
  (20 < List.length l)%nat -> Js.slice l (-20) None = lastN 20 l.
Proof.
  intros H. unfold Js.slice, Js.relIndex, lastN. simpl.
  replace (Z.to_nat (Z.max (Z.of_nat (List.length l) + -20) 0))
    with (List.length l - 20)%nat by lia.
  apply firstn_all2. rewrite length_skipn. lia.
Qed.











(** ** C1: exceptions in the per-generation processing *)

Lemma pickElite_empty (E : Env) (s : State) :
  pickElite E [] s = Throw TypeError (set_randomCalls (S (randomCalls s)) s).
Proof.
  unfold pickElite, bind, mathRandom, get, Js.index.
  destruct (floorTimes _ _ <? 0); [reflexivity|].
  now rewrite nth_error_nil.
Qed.

Lemma growSlot_empty_elite (E : Env) (i : nat) (rate : Q) (s : State) :
  growSlot E i [] rate s = Throw TypeError (set_randomCalls (2 + randomCalls s) s).
Proof.
  unfold growSlot, bind, mathRandom.
  destruct (Js.Qltb (random E (randomCalls s)) rate);
    cbn [isCrossover andb List.length Nat.leb]; unfold bind;
    rewrite pickElite_empty; reflexivity.
Qed.

(** With no kernel in the population and a positive capacity, the elite slice
    is empty and the first turn of the breeding loop reads [id] of
    [undefined]. *)
Lemma performBreeding_empty_throws (E : Env) (s : State) (i : nat) :
  kernelsOf s i = [] ->
  0 < capacity (populationAt (populations s) i) ->
  performBreeding E i s = Throw TypeError (set_randomCalls (2 + randomCalls s) s).
Proof.
  unfold kernelsOf. intros Hk Hcap.
  unfold performBreeding, bind, get, readPopulation. rewrite Hk.
  set (c := capacity (populationAt (populations s) i)) in *.
  cbn [List.length Z.of_nat].
  replace (Z.max 0 (c - 0)) with c by lia.
  destruct (Z.eqb_spec c 0) as [Hz|Hz]; [lia|].
  destruct (Z.to_nat c) as [|n] eqn:Hn; [lia|].
  cbn [seq forEach]. unfold bind.
  assert (Hslice : forall e, Js.slice (@nil loc) 0 (Some e) = []).
  { intros e. unfold Js.slice. simpl. now rewrite firstn_nil. }
  rewrite Hslice, growSlot_empty_elite. reflexivity.
Qed.

(** C1 (the code throws). [allFailed] is reachable and its timer is
    installed; the generation cycle run from it archives the five kernels of
    the first population and then throws a [TypeError] out of
    [performBreeding], leaving that population empty and the later
    populations unprocessed. *)
Theorem evolutionCycle_throws :
  reachable sampleEnv allFailed /\
  enabled OpTick allFailed = true /\
  exists s',
    evolutionCycle sampleEnv allFailed = Throw TypeError s' /\
    kernelsOf s' 0 = [] /\
    archive s' = [0; 1; 2; 3; 4]%nat /\
    globalGeneration s' = globalGeneration allFailed.
Proof.
  split; [|split].
  - apply afterOps_reachable. vm_compute. discriminate.
  - vm_compute. reflexivity.
  - eexists. split; [vm_compute; reflexivity|]. vm_compute. auto.
Qed.

(** ** C2: the genes of a created kernel *)

(** [createKernel] allocates no gene object: the gene arrays of the new
    kernel hold the gene objects of the template (and of the custom genome). *)
Lemma createKernel_shares_genes (E : Env) (t : KernelTemplate) (s : State) :
  exists l s',
    createKernel E t None s = Ret l s' /\
    geneHeap s' = geneHeap s /\
    coreGenes (genome (kernelAt (kernelHeap s') l)) = orEmpty (pg_coreGenes (baseGenome t)) /\
    regulatoryGenes (genome (kernelAt (kernelHeap s') l))
    = orEmpty (pg_regulatoryGenes (baseGenome t)).
Proof.
  eexists. eexists. split.
  { unfold createKernel, generateKernelId, bumpTotalKernelsCreated, emitEvent,
      bind, dateNow, mathRandom, get, allocKernel, modify, ret.
    cbv beta iota zeta. reflexivity. }
  split; [reflexivity|]. simpl. unfold kernelAt.
  rewrite app_nth2 by lia. rewrite Nat.sub_diag. simpl. auto.
Qed.

(** C2 (the code shares the genes). Two kernels created from the inference
    template hold the same gene object (location 0, the template's
    [temperature] gene) as their first core gene; the in-place mutation of
    that gene through the first kernel changes the value seen through the
    second kernel and through the template from 0.7 to 0.58226. The genome
    copy made by [asexualReproduction] holds a new gene object (location 12),
    and mutating it leaves the template's gene at 0.7. *)
Theorem createKernel_genes_are_shared :
  sharedGeneRun =
  Some (Some 0%nat, Some 0%nat,
        (VNumber (Js.double (7 # 10)), VNumber (Js.double (582260 # 1000000))),
        (VNumber (Js.double (7 # 10)), VNumber (Js.double (582260 # 1000000)))) /\
  clonedGeneRun
  = Some (Some 12%nat, (VNumber (Js.double (7 # 10)), VNumber (Js.double (7 # 10)))).
Proof. split; vm_compute; reflexivity. Qed.

(** ** C6: a crossover slot with a single elite member *)

Lemma returns_ret {A : Type} (a : A) : returns (ret a).
Proof. intros s. now exists a, s. Qed.

Lemma returns_bind {A B : Type} (m : M A) (k : A -> M B) :
  returns m -> (forall a, returns (k a)) -> returns (bind m k).
Proof.
  intros Hm Hk s. destruct (Hm s) as (a & s1 & H1).
  destruct (Hk a s1) as (b & s2 & H2).
  exists b, s2. unfold bind. now rewrite H1.
Qed.

Lemma returns_get : returns get.
Proof. intros s. now exists s, s. Qed.

Lemma returns_modify f : returns (modify f).
Proof. intros s. now exists tt, (f s). Qed.

Lemma returns_mapM {A B : Type} (f : A -> M B) (l : list A) :
  (forall x, returns (f x)) -> returns (mapM f l).
Proof.
  intros H. induction l as [|x l IH]; simpl.
  - apply returns_ret.
  - apply returns_bind; auto. intros y.
    apply returns_bind; auto. intros ys. apply returns_ret.
Qed.

Lemma returns_readGene l : returns (readGene l).
Proof. intros s. eexists. eexists. reflexivity. Qed.

Lemma returns_writeGene l g : returns (writeGene l g).
Proof. apply returns_modify. Qed.

Lemma returns_allocGene g : returns (allocGene g).
Proof. intros s. eexists. eexists. reflexivity. Qed.

Lemma returns_allocKernel k : returns (allocKernel k).
Proof. intros s. eexists. eexists. reflexivity. Qed.

Section Returns.

Variable E : Env.
Hypothesis notStuck : drawsNotStuck E.

Lemma returns_mathRandom : returns (mathRandom E).
Proof. intros s. eexists. eexists. reflexivity. Qed.

Lemma returns_dateNow : returns (dateNow E).
Proof. intros s. eexists. eexists. reflexivity. Qed.

Lemma returns_emitEvent d : returns (emitEvent E d).
Proof. intros s. eexists. eexists. reflexivity. Qed.

Lemma returns_generateKernelId : returns (generateKernelId E).
Proof. intros s. eexists. eexists. reflexivity. Qed.

Lemma returns_cloneGenes ls : returns (cloneGenes ls).
Proof.
  apply returns_mapM. intros l.
  apply returns_bind; [apply returns_readGene|intros g; apply returns_allocGene].
Qed.

Lemma returns_crossover g1 g2 : returns (crossover E g1 g2).
Proof.
  unfold crossover.
  apply returns_bind; [apply returns_mathRandom|intros r].
  apply returns_bind; [apply returns_cloneGenes|intros front].
  apply returns_bind; [apply returns_cloneGenes|intros back].
  apply returns_bind; [apply returns_mathRandom|intros r2].
  apply returns_bind; [destruct (Js.Qltb r2 (1 # 2)); apply returns_cloneGenes|intros reg].
  apply returns_ret.
Qed.

Lemma drawNonZero_returns fuel s :
  (exists k, (k < fuel)%nat /\ ~ (random E (randomCalls s + k) == 0)%Q) ->
  exists u s', drawNonZero E fuel s = Ret u s'.
Proof.
  revert s. induction fuel as [|fuel IH]; intros s (k & Hk & Hnz); [lia|].
  simpl. unfold bind, mathRandom.
  destruct (Qeq_bool (random E (randomCalls s)) 0) eqn:Hz.
  - apply Qeq_bool_eq in Hz. destruct k as [|k].
    + rewrite Nat.add_0_r in Hnz. contradiction.
    + apply IH. exists k. split; [lia|]. simpl.
      now replace (S (randomCalls s + k)) with (randomCalls s + S k)%nat by lia.
  - eexists. eexists. reflexivity.
Qed.

Lemma returns_gaussianRandom : returns (gaussianRandom E).
Proof.
  unfold gaussianRandom.
  apply returns_bind; [intros s; apply drawNonZero_returns, notStuck|intros u].
  apply returns_bind; [intros s; apply drawNonZero_returns, notStuck|intros v].
  apply returns_ret.
Qed.

Lemma returns_mutateGene l : returns (mutateGene E l).
Proof.
  unfold mutateGene.
  apply returns_bind; [apply returns_readGene|intros gene].
  apply returns_bind.
  - destruct (g_type gene), (g_value gene); try apply returns_ret.
    + apply returns_bind; [apply returns_gaussianRandom|intros z].
      apply returns_bind; [apply returns_writeGene|intros _; apply returns_ret].
    + apply returns_bind; [apply returns_writeGene|intros _; apply returns_ret].
  - intros magnitude. destruct (Js.Qltb 0 magnitude); [|apply returns_ret].
    apply returns_bind; [apply returns_dateNow|intros t1].
    apply returns_bind; [apply returns_mathRandom|intros r].
    apply returns_bind; [apply returns_dateNow|intros t2].
    apply returns_ret.
Qed.

Lemma returns_mutateCoreGenes ls rate acc : returns (mutateCoreGenes E ls rate acc).
Proof.
  revert acc. induction ls as [|l ls IH]; intros acc; simpl.
  - apply returns_ret.
  - apply returns_bind; [apply returns_readGene|intros gene].
    destruct (g_mutable gene); [|apply IH].
    apply returns_bind; [apply returns_mathRandom|intros r].
    destruct (Js.Qltb r rate); [|apply IH].
    apply returns_bind; [apply returns_mutateGene|intros m].
    destruct m; apply IH.
Qed.

Lemma returns_applyMutations g rate : returns (applyMutations E g rate).
Proof.
  unfold applyMutations.
  apply returns_bind; [apply returns_mutateCoreGenes|intros muts].
  apply returns_bind; [apply returns_mathRandom|intros r].
  apply returns_bind.
  - destruct (Js.Qltb r (Js.mul rate (Js.double (1 # 10)))); [|apply returns_ret].
    apply returns_bind; [apply returns_dateNow|intros t1].
    apply returns_bind; [apply returns_mathRandom|intros v].
    apply returns_bind; [apply returns_allocGene|intros l].
    apply returns_bind; [apply returns_dateNow|intros t2].
    apply returns_bind; [apply returns_dateNow|intros t3].
    apply returns_ret.
  - intros [core muts']. apply returns_bind; [apply returns_get|intros s].
    apply returns_ret.
Qed.

(** [breedOne] comes back when the method is asexual or crossover. *)
Lemma returns_breedOne rq ps p0 i :
  rq_method rq <> MultiParent -> returns (breedOne E rq ps p0 i).
Proof.
  intros Hm. unfold breedOne.
  apply returns_bind; [apply returns_get|intros s].
  apply returns_bind.
  { destruct (rq_method rq); try contradiction;
      try apply returns_crossover;
      (apply returns_bind; [apply returns_cloneGenes|intros core];
       apply returns_bind; [apply returns_cloneGenes|intros reg];
       apply returns_ret). }
  intros childGenome.
  apply returns_bind; [apply returns_get|intros s1].
  apply returns_bind; [apply returns_applyMutations|intros [mutated muts]].
  apply returns_bind; [apply returns_generateKernelId|intros id].
  apply returns_bind; [apply returns_get|intros s2].
  apply returns_bind; [apply returns_dateNow|intros t].
  apply returns_bind; [apply returns_allocKernel|intros child].
  apply returns_bind; [apply returns_modify|intros _].
  apply returns_ret.
Qed.

End Returns.

Lemma frames_Ret {A : Type} (m : M A) s a s' :
  frames m -> m s = Ret a s' -> extends s s'.
Proof. intros F H. pose proof (frames_run m s F) as Hr. now rewrite H in Hr. Qed.

(** The lineage [breedOne] writes into the child. *)
Lemma breedOne_lineage E rq ps p0 i s r s' :
  breedOne E rq ps p0 i s = Ret r s' ->
  Forall (fun p => (p < List.length (kernelHeap s))%nat) ps ->
  extends s s' /\ bornBetween s s' (fst r) /\
  breedingMethod (lineage (kernelAt (kernelHeap s') (fst r))) = rq_method rq /\
  parents (lineage (kernelAt (kernelHeap s') (fst r)))
  = map (fun p => k_id (kernelAt (kernelHeap s) p)) ps.
Proof.
  intros H Hps. unfold breedOne in H.
  apply bind_Ret_inv in H. destruct H as (sa & s0 & Hget & H).
  injection Hget as <- <-.
  apply bind_Ret_inv in H. destruct H as (cg & s1 & Hchild & H).
  assert (E1 : extends s s1).
  { refine (frames_Ret _ s cg s1 _ Hchild).
    destruct (rq_method rq);
      auto using frames_asexualReproduction, frames_crossover,
        frames_multiParentBreeding. }
  apply bind_Ret_inv in H. destruct H as (sb & s1' & Hget & H).
  injection Hget as <- <-.
  apply bind_Ret_inv in H. destruct H as ([mg muts] & s2 & Hmut & H).
  assert (E2 : extends s1 s2) by (exact (frames_Ret _ _ _ _ (frames_applyMutations E _ _) Hmut)).
  pose proof (extends_trans _ _ _ E1 E2) as E12.
  cbv [bind generateKernelId dateNow mathRandom get allocKernel
         bumpTotalKernelsCreated modify ret] in H.
  injection H as <- <-.
  cbn [fst kernelHeap set_totalKernelsCreated set_kernelHeap set_nowCalls set_randomCalls].
  assert (Hat : forall k, kernelAt (kernelHeap s2 ++ [k]) (List.length (kernelHeap s2)) = k).
  { intros k. unfold kernelAt. rewrite app_nth2 by lia. now rewrite Nat.sub_diag. }
  rewrite Hat. cbn [lineage breedingMethod parents].
  split; [|split; [|split]].
  - eapply extends_trans; [exact E12|].
    repeat split. eexists. split; [reflexivity|]. repeat constructor.
  - apply extends_length in E12. unfold bornBetween.
    cbn [kernelHeap set_totalKernelsCreated set_kernelHeap set_nowCalls set_randomCalls].
    rewrite length_app. simpl. lia.
  - reflexivity.
  - apply map_ext_in. intros p Hp. rewrite Forall_forall in Hps.
    now rewrite (extends_kernelAt _ _ _ E12 (Hps p Hp)).
Qed.

(** *** A genome crossed with itself *)

(** Crossing a genome with itself copies it: whatever the crossover point,
    the two slices make up the whole list of core genes. *)
Lemma crossover_self E g s :
  drawsInRange E ->
  genesIn s (coreGenes g ++ regulatoryGenes g) ->
  exists child s1,
    crossover E g g s = Ret child s1 /\
    geneHeap s1
    = geneHeap s ++ genesAt s (coreGenes g) ++ genesAt s (regulatoryGenes g) /\
    coreGenes child = seq (List.length (geneHeap s)) (List.length (coreGenes g)) /\
    regulatoryGenes child
    = seq (List.length (geneHeap s) + List.length (coreGenes g))
        (List.length (regulatoryGenes g)) /\
    expressionModifiers child = expressionModifiers g.
Proof.
  intros Hrange Hin. apply Forall_app in Hin. destruct Hin as [Hc Hr].
  destruct (floorTimes_range (random E (randomCalls s)) (List.length (coreGenes g))
              (Hrange _)) as [Hp0 _].
  set (pz := floorTimes (random E (randomCalls s)) (List.length (coreGenes g))) in *.
  set (p := Z.to_nat pz).
  set (sa := set_randomCalls (S (randomCalls s)) s).
  set (front := firstn p (coreGenes g)).
  set (back := skipn p (coreGenes g)).
  assert (Hf : genesIn s front) by now apply genesIn_firstn.
  assert (Hb : genesIn s back) by now apply genesIn_skipn.
  destruct (cloneGenes_run front sa) as (c1 & Hrun1 & Hlen1 & Hin1).
  rewrite (Hin1 Hf) in *. clear Hin1.
  change (genesAt sa front) with (genesAt s front) in *.
  change (geneHeap sa) with (geneHeap s) in *.
  set (s1 := set_geneHeap (geneHeap s ++ genesAt s front) sa) in *.
  destruct (cloneGenes_run back s1) as (c2 & Hrun2 & Hlen2 & Hin2).
  assert (Hc2 : c2 = genesAt s back).
  { rewrite Hin2; [apply (genesAt_grow sa); exact Hb|apply (genesIn_grow sa); exact Hb]. }
  subst c2. clear Hin2.
  set (s2 := set_geneHeap (geneHeap s1 ++ genesAt s back) s1) in *.
  set (sb := set_randomCalls (S (randomCalls s2)) s2).
  destruct (cloneGenes_run (regulatoryGenes g) sb) as (c3 & Hrun3 & Hlen3 & Hin3).
  assert (Hc3 : c3 = genesAt s (regulatoryGenes g)).
  { rewrite Hin3.
    - unfold genesAt, sb, s2, s1. cbn [geneHeap set_geneHeap set_randomCalls].
      rewrite <- app_assoc. now apply map_geneAt_app.
    - unfold genesIn, sb, s2, s1. cbn [geneHeap set_geneHeap set_randomCalls].
      rewrite !length_app. eapply Forall_impl; [|exact Hr]. cbn. intros; lia. }
  subst c3. clear Hin3.
  assert (Hwhole : front ++ back = coreGenes g) by apply firstn_skipn.
  assert (Hheap : geneHeap sb = geneHeap s ++ genesAt s (coreGenes g)).
  { unfold sb, s2, s1. cbn [geneHeap set_geneHeap set_randomCalls].
    rewrite <- app_assoc. f_equal. unfold genesAt. now rewrite <- map_app, Hwhole. }
  exists (mkGenome
            (seq (List.length (geneHeap s)) (List.length front)
             ++ seq (List.length (geneHeap s1)) (List.length back))
            (seq (List.length (geneHeap sb)) (List.length (regulatoryGenes g)))
            (Js.slice (expressionModifiers g) 0
               (Some (Z.of_nat (List.length (expressionModifiers g) / 2)))
             ++ Js.slice (expressionModifiers g)
                  (Z.of_nat (List.length (expressionModifiers g) / 2)) None)
            EmptyString).
  exists (set_geneHeap (geneHeap sb ++ genesAt s (regulatoryGenes g)) sb).
  split.
  { unfold crossover. unfold bind at 1. unfold mathRandom at 1. fold sa. fold pz.
    rewrite (slice_firstn _ pz Hp0), (slice_skipn _ pz Hp0). fold p. fold front. fold back.
    unfold bind at 1. rewrite Hrun1. fold s1.
    unfold bind at 1. rewrite Hrun2. fold s2.
    unfold bind at 1. unfold mathRandom at 1. fold sb.
    unfold bind at 1.
    replace (if Js.Qltb (random E (randomCalls s2)) (1 # 2)
             then cloneGenes (regulatoryGenes g) else cloneGenes (regulatoryGenes g))
      with (cloneGenes (regulatoryGenes g)) by (now destruct (Js.Qltb _ _)).
    rewrite Hrun3. reflexivity. }
  cbn [coreGenes regulatoryGenes expressionModifiers geneHeap set_geneHeap].
  split; [rewrite Hheap; now rewrite <- app_assoc|].
  split.
  { unfold s1. cbn [geneHeap set_geneHeap]. rewrite length_app.
    unfold genesAt. rewrite length_map, <- seq_app. now rewrite <- length_app, Hwhole. }
  split.
  { rewrite Hheap, length_app. unfold genesAt. now rewrite length_map. }
  rewrite slice_firstn, slice_skipn by lia. rewrite !Nat2Z.id. apply firstn_skipn.
Qed.

Lemma mutationOf_refl g : mutationOf g g.
Proof. split; [now rewrite withValue_same|reflexivity]. Qed.

Lemma mutationOf_trans g g' g'' :
  mutationOf g g' -> mutationOf g' g'' -> mutationOf g g''.
Proof.
  intros [H1 F1] [H2 F2]. split.
  - rewrite H2 at 1. rewrite H1. reflexivity.
  - intros Hm. pose proof (F1 Hm) as E1. subst g'. now apply F2.
Qed.

Lemma mutatedAt_refl ls h : mutatedAt ls h h.
Proof. split; [reflexivity|]. intros l. split; [apply mutationOf_refl|reflexivity]. Qed.

Lemma mutatedAt_trans ls1 ls2 ls h h' h'' :
  mutatedAt ls1 h h' -> mutatedAt ls2 h' h'' ->
  incl ls1 ls -> incl ls2 ls -> mutatedAt ls h h''.
Proof.
  intros [L1 H1] [L2 H2] I1 I2. split; [congruence|].
  intros l. destruct (H1 l) as [M1 K1]. destruct (H2 l) as [M2 K2]. split.
  - eapply mutationOf_trans; eauto.
  - intros Hn. rewrite K2, K1; auto.
Qed.

(** Writing a new value into a mutable gene. *)
Lemma mutatedAt_write l v h :
  g_mutable (geneAt h l) = true ->
  mutatedAt [l] h (replaceAt l (withValue v (geneAt h l)) h).
Proof.
  intros Hm. split; [apply length_replaceAt|].
  intros l'. rewrite geneAt_replaceAt.
  destruct (Nat.eqb_spec l' l) as [->|Hne]; simpl.
  - destruct (l <? List.length h)%nat.
    + split.
      * split; [reflexivity|]. intros Hf. congruence.
      * intros Hn. exfalso. apply Hn. now left.
    + split; [apply mutationOf_refl|reflexivity].
  - split; [apply mutationOf_refl|reflexivity].
Qed.

(** [mutateGene] writes at most the value of the gene it is given. *)
Lemma mutateGene_heap E l s r s' :
  mutateGene E l s = Ret r s' ->
  geneHeap s' = geneHeap s \/
  exists v, geneHeap s' = replaceAt l (withValue v (geneAt (geneHeap s) l)) (geneHeap s).
Proof.
  unfold mutateGene. intros H.
  apply bind_Ret_inv in H. destruct H as (gene & s0 & Hread & H).
  injection Hread as <- <-.
  apply bind_Ret_inv in H. destruct H as (magnitude & s1 & Hmag & H).
  assert (Hs1 : geneHeap s' = geneHeap s1).
  { destruct (Js.Qltb 0 magnitude).
    - cbv [bind dateNow mathRandom ret] in H. injection H as _ <-. reflexivity.
    - injection H as _ <-. reflexivity. }
  rewrite Hs1. clear H Hs1.
  destruct (g_type (geneAt (geneHeap s) l)), (g_value (geneAt (geneHeap s) l)) as [v|b|str| |];
    try (injection Hmag as _ <-; now left).
  - apply bind_Ret_inv in Hmag. destruct Hmag as (z & s2 & Hz & Hmag).
    apply gaussianRandom_state in Hz. destruct Hz as [n ->].
    cbv [bind writeGene modify ret] in Hmag. injection Hmag as _ <-.
    right. eexists. reflexivity.
  - cbv [bind writeGene modify ret] in Hmag. injection Hmag as _ <-.
    right. eexists. reflexivity.
Qed.

(** The mutation pass of [applyMutations] over the core genes. *)
Lemma mutateCoreGenes_heap E ls rate acc s r s' :
  mutateCoreGenes E ls rate acc s = Ret r s' ->
  mutatedAt ls (geneHeap s) (geneHeap s').
Proof.
  revert acc s. induction ls as [|l ls IH]; intros acc s H.
  - injection H as _ <-. apply mutatedAt_refl.
  - cbn [mutateCoreGenes] in H. unfold bind at 1 in H. unfold readGene at 1 in H.
    assert (Hrest : forall acc' s0, mutateCoreGenes E ls rate acc' s0 = Ret r s' ->
                                    geneHeap s0 = geneHeap s ->
                                    mutatedAt (l :: ls) (geneHeap s) (geneHeap s')).
    { intros acc' s0 H0 Heq. rewrite <- Heq.
      eapply mutatedAt_trans; [apply (mutatedAt_refl [])|exact (IH _ _ H0)| |].
      - intros x [].
      - apply incl_tl, incl_refl. }
    destruct (g_mutable (geneAt (geneHeap s) l)) eqn:Hm; [|now apply (Hrest acc s)].
    unfold bind at 1 in H. unfold mathRandom at 1 in H.
    destruct (Js.Qltb (random E (randomCalls s)) rate); [|now apply (Hrest acc _ H)].
    apply bind_Ret_inv in H. destruct H as (m & s1 & Hmut & H).
    assert (H1 : mutatedAt [l] (geneHeap s) (geneHeap s1)).
    { apply mutateGene_heap in Hmut. cbn [geneHeap set_randomCalls] in Hmut.
      destruct Hmut as [->|[v ->]]; [apply mutatedAt_refl|now apply mutatedAt_write]. }
    assert (H2 : mutatedAt ls (geneHeap s1) (geneHeap s')) by (destruct m; exact (IH _ _ H)).
    eapply mutatedAt_trans; [exact H1|exact H2| |].
    + intros x [<-|[]]. now left.
    + apply incl_tl, incl_refl.
Qed.

(** [applyMutations]: the mutation pass over the core genes, then at most one
    gene inserted at the end of the core genes. *)
Lemma applyMutations_heap E g rate s r s' :
  applyMutations E g rate s = Ret r s' ->
  exists h novel,
    mutatedAt (coreGenes g) (geneHeap s) h /\
    geneHeap s' = h ++ novel /\
    (List.length novel <= 1)%nat /\
    Forall novelGene novel /\
    coreGenes (fst r) = coreGenes g ++ seq (List.length h) (List.length novel) /\
    regulatoryGenes (fst r) = regulatoryGenes g /\
    expressionModifiers (fst r) = expressionModifiers g /\
    checksum (fst r)
    = calculateChecksum (geneHeap s') (coreGenes (fst r)) (regulatoryGenes (fst r)).
Proof.
  intros Hrun. unfold applyMutations in Hrun.
  apply bind_Ret_inv in Hrun. destruct Hrun as (muts & s1 & H1 & Hrun).
  apply mutateCoreGenes_heap in H1.
  apply bind_Ret_inv in Hrun. destruct Hrun as (r0 & s2 & H2 & Hrun).
  injection H2 as <- <-.
  apply bind_Ret_inv in Hrun. destruct Hrun as ([core muts'] & s3 & H3 & Hrun).
  injection Hrun as <- <-. cbn [fst coreGenes regulatoryGenes expressionModifiers checksum].
  exists (geneHeap s1).
  destruct (Js.Qltb _ _).
  - cbv [bind dateNow mathRandom allocGene ret] in H3. injection H3 as <- _ <-.
    cbn [geneHeap set_geneHeap set_randomCalls set_nowCalls].
    eexists [_]. split; [exact H1|]. split; [reflexivity|]. split; [simpl; lia|].
    split; [|repeat split; reflexivity].
    repeat constructor. now eexists.
  - injection H3 as <- _ <-. cbn [geneHeap set_randomCalls].
    exists []. cbn [List.length seq]. rewrite !app_nil_r.
    split; [exact H1|]. split; [reflexivity|]. split; [lia|].
    split; [constructor|repeat split; reflexivity].
Qed.

Lemma Forall2_map_same {A B : Type} (R : B -> B -> Prop) (f f' : A -> B) (l : list A) :
  (forall x, In x l -> R (f x) (f' x)) -> Forall2 R (map f l) (map f' l).
Proof.
  induction l as [|x l IH]; intros H; simpl; constructor.
  - apply H. now left.
  - apply IH. intros y Hy. apply H. now right.
Qed.

(** The genome [breedOne] gives the child when the method is crossover and
    only one parent was resolved. *)
Lemma breedOne_selfCrossed E rq p0 i s r s' :
  drawsInRange E ->
  rq_method rq = Crossover ->
  genesIn s (coreGenes (genome (kernelAt (kernelHeap s) p0))
             ++ regulatoryGenes (genome (kernelAt (kernelHeap s) p0))) ->
  breedOne E rq [p0] p0 i s = Ret r s' ->
  selfCrossed s s' (genome (kernelAt (kernelHeap s) p0))
    (genome (kernelAt (kernelHeap s') (fst r))).
Proof.
  intros Hrange Hm Hin H. unfold breedOne in H.
  apply bind_Ret_inv in H. destruct H as (sa & s0 & Hget & H).
  injection Hget as <- <-. rewrite Hm in H. cbn [nth_error] in H.
  set (g0 := genome (kernelAt (kernelHeap s) p0)) in *.
  destruct (crossover_self E g0 s Hrange Hin)
    as (child & s1 & Hrun & Hheap1 & Hcore & Hreg & Hmods).
  apply bind_Ret_inv in H. destruct H as (cg & s1' & Hchild & H).
  rewrite Hrun in Hchild. injection Hchild as <- <-.
  apply bind_Ret_inv in H. destruct H as (sb & s1' & Hget & H).
  injection Hget as <- <-.
  apply bind_Ret_inv in H. destruct H as ([mg muts] & s2 & Hmut & H).
  apply applyMutations_heap in Hmut. cbn [fst] in Hmut.
  destruct Hmut as (h & novel & [Hlen Hmutated] & Hheap2 & Hone & Hnovel & Hc & Hr & Hmd & Hsum).
  cbv [bind generateKernelId dateNow mathRandom get allocKernel
         bumpTotalKernelsCreated modify ret] in H.
  injection H as <- <-.
  cbn [fst kernelHeap set_totalKernelsCreated set_kernelHeap set_nowCalls set_randomCalls].
  assert (Hat : forall k, kernelAt (kernelHeap s2 ++ [k]) (List.length (kernelHeap s2)) = k).
  { intros k. unfold kernelAt. rewrite app_nth2 by lia. now rewrite Nat.sub_diag. }
  rewrite Hat. cbn [genome].
  set (n0 := List.length (geneHeap s)) in *.
  set (nc := List.length (coreGenes g0)) in *.
  set (nr := List.length (regulatoryGenes g0)) in *.
  assert (Lc : List.length (genesAt s (coreGenes g0)) = nc) by apply length_map.
  assert (Lr : List.length (genesAt s (regulatoryGenes g0)) = nr) by apply length_map.
  assert (Lh : List.length h = (n0 + nc + nr)%nat).
  { rewrite Hlen, Hheap1, !length_app, Lc, Lr. unfold n0. lia. }
  assert (Hold : forall l, (l < List.length h)%nat -> ~ In l (coreGenes child) ->
                           geneAt (h ++ novel) l = geneAt (geneHeap s1) l).
  { intros l Hl Hn. rewrite geneAt_app by exact Hl. now apply Hmutated. }
  unfold selfCrossed, genesAt, freshGenes.
  cbn [geneHeap set_totalKernelsCreated set_kernelHeap set_nowCalls set_randomCalls].
  rewrite Hheap2.
  exists (coreGenes child), (seq (List.length h) (List.length novel)).
  split; [exact Hc|]. split.
  { replace (map (geneAt (geneHeap s)) (coreGenes g0))
      with (map (geneAt (geneHeap s1)) (coreGenes child)).
    - apply Forall2_map_same. intros l Hl.
      rewrite Hcore in Hl. apply in_seq in Hl.
      rewrite geneAt_app by lia. apply Hmutated.
    - rewrite Hheap1, Hcore. fold n0. rewrite <- Lc at 1.
      apply map_geneAt_seq. }
  split; [now rewrite length_seq|]. split.
  { now rewrite map_geneAt_seq_end. }
  split.
  { rewrite Hr, Hreg.
    transitivity (map (geneAt (geneHeap s1)) (seq (n0 + nc) nr)).
    - apply map_ext_in. intros l Hl. apply in_seq in Hl.
      apply Hold; [lia|]. rewrite Hcore. intros Hc'. apply in_seq in Hc'. lia.
    - rewrite Hheap1, app_assoc.
      replace (n0 + nc)%nat with (List.length (geneHeap s ++ map (geneAt (geneHeap s)) (coreGenes g0))).
      + rewrite <- Lr at 1. apply map_geneAt_seq_end.
      + rewrite length_app. fold (genesAt s (coreGenes g0)). rewrite Lc. reflexivity. }
  split; [now rewrite Hmd|]. split; [rewrite <- Hheap2; exact Hsum|]. split.
  { rewrite Hc, Hr, Hcore, Hreg, length_app, Lh.
    repeat (apply Forall_app; split); apply seq_fresh; fold n0; lia. }
  apply map_ext_in. intros l Hl.
  assert (Hl0 : (l < n0)%nat).
  { unfold genesIn in Hin. rewrite Forall_forall in Hin. now apply Hin. }
  rewrite Hold.
  - rewrite Hheap1. now apply geneAt_app.
  - lia.
  - rewrite Hcore. intros Hc'. apply in_seq in Hc'. lia.
Qed.

Lemma selfCrossed_heaps s s' t t' p c :
  geneHeap t = geneHeap s -> geneHeap t' = geneHeap s' ->
  selfCrossed s s' p c -> selfCrossed t t' p c.
Proof.
  unfold selfCrossed, genesAt, freshGenes. intros -> ->. auto.
Qed.

Section SingleElite.

Variable E : Env.
Hypothesis inRange : drawsInRange E.
Hypothesis notStuck : drawsNotStuck E.

Lemma floorTimes_one r : (0 <= r /\ r <= Js.belowOne)%Q -> floorTimes r 1 = 0.
Proof.
  intros Hr. unfold floorTimes.
  destruct (mul_below r (QofNat 1) Hr ltac:(discriminate)) as [Hlo Hhi].
  specialize (Hhi ltac:(reflexivity)).
  pose proof (Qfloor_le (Js.mul r (QofNat 1))) as H1.
  pose proof (Qlt_floor (Js.mul r (QofNat 1))) as H2.
  assert (Ha : (inject_Z (Qfloor (Js.mul r (QofNat 1))) < inject_Z 1)%Q)
    by (eapply Qle_lt_trans; eauto).
  assert (Hb : (inject_Z 0 < inject_Z (Qfloor (Js.mul r (QofNat 1)) + 1))%Q)
    by (eapply Qle_lt_trans; eauto).
  rewrite <- Zlt_Qlt in Ha, Hb. lia.
Qed.

(** With one offspring requested and a method other than multi-parent,
    [breed] returns exactly one child, the one [breedOne] makes: its lineage
    records the method of the request and the ids of the resolved parents. *)
Lemma breed_one_offspring rq s p0 rest :
  rq_offspringCount rq = 1%nat ->
  rq_method rq <> MultiParent ->
  resolveParents s (rq_parents rq) = p0 :: rest ->
  Forall (fun p => (p < List.length (kernelHeap s))%nat) (p0 :: rest) ->
  exists c muts s1 r s',
    breedOne E rq (p0 :: rest) p0 0 s = Ret (c, muts) s1 /\
    breed E rq s = Ret r s' /\ offspring r = [c] /\
    geneHeap s' = geneHeap s1 /\ kernelHeap s' = kernelHeap s1 /\
    extends s s' /\ bornBetween s s' c /\
    breedingMethod (lineage (kernelAt (kernelHeap s') c)) = rq_method rq /\
    parents (lineage (kernelAt (kernelHeap s') c))
    = map (fun p => k_id (kernelAt (kernelHeap s) p)) (p0 :: rest).
Proof.
  intros Hcount Hm Hres Hps.
  destruct (returns_breedOne E notStuck rq (p0 :: rest) p0 0 Hm s) as ([c muts] & s1 & H1).
  destruct (breedOne_lineage E rq (p0 :: rest) p0 0 s (c, muts) s1 H1 Hps)
    as (He & Hb & Hmeth & Hpar).
  simpl fst in *.
  unfold breed, bind, get. rewrite Hres, Hcount.
  cbn [seq breedLoop]. unfold bind. rewrite H1.
  cbn [ret app]. unfold emitEvent, bind, dateNow, modify.
  exists c, muts, s1. eexists. eexists. split; [reflexivity|]. split; [reflexivity|].
  cbn [offspring kernelHeap geneHeap set_emitted set_nowCalls].
  split; [reflexivity|]. split; [reflexivity|]. split; [reflexivity|].
  split; [|split; [|split]]; auto.
Qed.

Lemma findInPopulations_None h id ps p l :
  findInPopulations h id ps = None -> In p ps -> In l (kernels p) ->
  k_id (kernelAt h l) <> id.
Proof.
  induction ps as [|q ps IH]; simpl; [contradiction|].
  destruct (findIn h id (kernels q)) as [l'|] eqn:Hf; [discriminate|].
  intros Hnone [<-|Hin] Hl.
  - exact (findIn_None _ _ _ l Hf Hl).
  - now apply IH.
Qed.

(** The id of a kernel of a population resolves to a held kernel with that
    id. *)
Lemma findKernel_member s i l :
  In l (kernelsOf s i) ->
  exists p, findKernel s (k_id (kernelAt (kernelHeap s) l)) = Some p /\
            held s p /\
            k_id (kernelAt (kernelHeap s) p) = k_id (kernelAt (kernelHeap s) l).
Proof.
  intros Hl. unfold findKernel.
  destruct (findInPopulations (kernelHeap s) _ (populations s)) as [p|] eqn:Hf.
  - apply findInPopulations_Some in Hf. destruct Hf as [(q & Hq & Hp) Heq].
    exists p. split; [reflexivity|]. split; [|exact Heq].
    right. eapply In_kernelsOf; eauto.
  - exfalso.
    assert (Hi : (i < List.length (populations s))%nat).
    { destruct (Nat.lt_ge_cases i (List.length (populations s))); auto.
      rewrite kernelsOf_beyond in Hl by assumption. contradiction. }
    refine (findInPopulations_None _ _ _ (populationAt (populations s) i) l Hf _ Hl eq_refl).
    apply nth_In. exact Hi.
Qed.

End SingleElite.

(** C6 as stated fails: the method of the slot stays crossover. In the
    founded engine the elite slice of the first population is its first
    kernel alone, the draw 0.5 is below the crossover rate 0.7, and the kernel
    the slot appends records [breedingMethod: crossover]. *)
Lemma single_elite_is_not_bred_asexually :
  ~ (forall (E : Env) (s s' : State) (i : nat) (elite : list loc) (rate : Q) (c : loc),
        inCycle E s ->
        (List.length elite < 2)%nat ->
        Js.Qltb (random E (randomCalls s)) rate = true ->
        growSlot E i elite rate s = Ret tt s' ->
        kernelsOf s' i = kernelsOf s i ++ [c] ->
        breedingMethod (lineage (kernelAt (kernelHeap s') c)) = Asexual).
Proof.
  intros H.
  specialize (H sampleEnv founded
                (afterPhase sampleEnv (PhaseSlot 0 [0%nat] (7 # 10)) founded)
                0%nat [0%nat] (7 # 10)%Q 20%nat
                (inCycle_reachable _ _ founded_reachable)).
  assert (Hc : Crossover = Asexual); [|discriminate Hc].
  apply H.
  - simpl. lia.
  - vm_compute. reflexivity.
  - vm_compute. reflexivity.
  - vm_compute. reflexivity.
Qed.

(** C6 (amended). In a turn of the breeding loop where the method drawn is
    crossover and the elite slice is a single kernel of the population, the
    turn returns, the request passed to [breed] keeps method crossover with
    that kernel's id as its only parent, and exactly one new kernel is
    appended to the population. Its lineage records [breedingMethod:
    crossover] and the id of the elite kernel as its only parent, and its
    genome is the genome of the parent [p] (the kernel [findKernel] resolves
    that id to, whose genes are objects of the heap) crossed with itself:
    copies of all core genes of [p] in order, changed at most in their value
    by the mutation pass and followed by at most one inserted gene, copies of
    the regulatory genes of [p], and the expression modifiers of [p]; no gene
    object is shared with [p], whose genes are left as they were. *)
Theorem crossover_slot_with_single_elite (E : Env) (s : State) (i : nat) (l0 p : loc)
  (rate : Q) :
  inCycle E s ->
  drawsInRange E ->
  drawsNotStuck E ->
  In l0 (kernelsOf s i) ->
  findKernel s (k_id (kernelAt (kernelHeap s) l0)) = Some p ->
  genesIn s (coreGenes (genome (kernelAt (kernelHeap s) p))
             ++ regulatoryGenes (genome (kernelAt (kernelHeap s) p))) ->
  Js.Qltb (random E (randomCalls s)) rate = true ->
  exists s' c,
    growSlot E i [l0] rate s = Ret tt s' /\
    kernelsOf s' i = kernelsOf s i ++ [c] /\
    bornBetween s s' c /\
    breedingMethod (lineage (kernelAt (kernelHeap s') c)) = Crossover /\
    parents (lineage (kernelAt (kernelHeap s') c)) = [k_id (kernelAt (kernelHeap s) l0)] /\
    selfCrossed s s' (genome (kernelAt (kernelHeap s) p))
      (genome (kernelAt (kernelHeap s') c)).
Proof.
  intros Hc Hrange Hfair Hl Hfind Hgenes Hmethod.
  pose proof (inCycle_wellOwned E s Hc) as Hw.
  set (s2 := set_randomCalls (S (S (randomCalls s))) s).
  set (id := k_id (kernelAt (kernelHeap s) l0)) in *.
  assert (Hslot : growSlot E i [l0] rate s
                  = breedInto E i (mkRequest [id] Crossover None 1) s2).
  { unfold growSlot, bind, mathRandom. rewrite Hmethod.
    cbn [isCrossover andb List.length Nat.leb].
    unfold pickElite, bind, mathRandom, get.
    cbn [randomCalls set_randomCalls List.length].
    rewrite (floorTimes_one _ (Hrange _)). reflexivity. }
  destruct (findKernel_member s i l0 Hl) as (p' & Hfind' & Hheld & Hid).
  fold id in Hfind', Hid. rewrite Hfind in Hfind'. injection Hfind' as <-.
  assert (Hres : resolveParents s2 [id] = [p]).
  { unfold resolveParents. simpl. change (findKernel s2 id) with (findKernel s id).
    now rewrite Hfind. }
  assert (Hp : (p < List.length (kernelHeap s))%nat).
  { destruct Hheld as [Ha|(j & Hj)].
    - exact (wo_bound_archive s Hw p Ha).
    - exact (wo_bound s Hw j p Hj). }
  destruct (breed_one_offspring E Hfair (mkRequest [id] Crossover None 1) s2 p []
              eq_refl ltac:(discriminate) Hres ltac:(repeat constructor; exact Hp))
    as (c & muts & s1 & r & s3 & Hone & Hbreed & Hoff & Hg3 & Hk3 & He & Hb & Hmeth & Hpar).
  pose proof (breedOne_selfCrossed E (mkRequest [id] Crossover None 1) p 0%nat s2
                (c, muts) s1 Hrange eq_refl Hgenes Hone) as Hself.
  cbn [fst] in Hself. rewrite <- Hk3 in Hself.
  assert (Hi : (i < List.length (populations s3))%nat).
  { destruct He as (Hpops & _). rewrite Hpops. simpl.
    destruct (Nat.lt_ge_cases i (List.length (populations s))); auto.
    rewrite kernelsOf_beyond in Hl by assumption. contradiction. }
  rewrite Hslot. unfold breedInto, bind. rewrite Hbreed, Hoff.
  unfold readPopulation, writePopulation, modify.
  eexists. exists c. split; [reflexivity|].
  cbn [kernelHeap set_populations]. split; [|split; [|split; [|split]]].
  - unfold kernelsOf. cbn [populations set_populations].
    rewrite populationAt_replaceAt, Nat.eqb_refl.
    destruct (Nat.ltb_spec i (List.length (populations s3))) as [_|Hge]; [|lia].
    cbn [andb kernels withStatistics withKernels].
    destruct He as (Hpops & _). now rewrite Hpops.
  - exact Hb.
  - exact Hmeth.
  - rewrite Hpar. simpl. now rewrite Hid.
  - refine (selfCrossed_heaps s2 s1 _ _ _ _ eq_refl _ Hself).
    cbn [geneHeap set_populations]. exact Hg3.
Qed.

Lemma sampleEnv_inRange : drawsInRange sampleEnv.
Proof. intros n. simpl. split; unfold Qle, Qlt; simpl; lia. Qed.

Lemma sampleEnv_notStuck : drawsNotStuck sampleEnv.
Proof. intros n. exists 0%nat. simpl. split; [lia|]. unfold Qeq. simpl. lia. Qed.

Lemma crossover_slot_with_single_elite_witness :
  exists s' c,
    growSlot sampleEnv 0 [0%nat] (7 # 10) founded = Ret tt s' /\
    kernelsOf s' 0 = kernelsOf founded 0 ++ [c] /\
    bornBetween founded s' c /\
    breedingMethod (lineage (kernelAt (kernelHeap s') c)) = Crossover /\
    parents (lineage (kernelAt (kernelHeap s') c))
    = [k_id (kernelAt (kernelHeap founded) 0%nat)] /\
    selfCrossed founded s' (genome (kernelAt (kernelHeap founded) 0%nat))
      (genome (kernelAt (kernelHeap s') c)).
Proof.
  apply (crossover_slot_with_single_elite sampleEnv founded 0%nat 0%nat 0%nat (7 # 10)).
  - apply inCycle_reachable. exact founded_reachable.
  - exact sampleEnv_inRange.
  - exact sampleEnv_notStuck.
  - vm_compute. auto.
  - vm_compute. reflexivity.
  - vm_compute. repeat constructor.
  - vm_compute. reflexivity.
Defined.

(** * Further properties of the service *)

(** ** Order on the rationals, as the comparisons of the source read it *)

Lemma Qltb_true a b : Js.Qltb a b = true -> (a < b)%Q.
Proof.
  unfold Js.Qltb. intros H. apply negb_true_iff in H.
  apply Qnot_le_lt. intros Hle. apply Qle_bool_iff in Hle. congruence.
Qed.

Lemma Qltb_false a b : Js.Qltb a b = false -> (b <= a)%Q.
Proof.
  unfold Js.Qltb. intros H. apply negb_false_iff in H. now apply Qle_bool_iff.
Qed.

(** ** The ancestor chain *)

Lemma NoDup_firstn_list {A : Type} (n : nat) (l : list A) :
  NoDup l -> NoDup (firstn n l).
Proof.
  revert n. induction l as [|x l IH]; intros [|n] H; simpl; try constructor.
  - inversion H as [|? ? Hx Hl]; subst. intros Hin. apply Hx.
    rewrite <- (firstn_skipn n l). apply in_or_app. now left.
  - inversion H; subst. now apply IH.
Qed.

Lemma setAdd_NoDup x l : NoDup l -> NoDup (setAdd x l).
Proof.
  intros H. unfold setAdd. destruct (existsb (String.eqb x) l) eqn:Hex; auto.
  apply NoDup_app; auto.
  - repeat constructor. intros [].
  - intros y Hy [Heq|[]]. subst y.
    assert (Hx : existsb (String.eqb x) l = true).
    { apply existsb_exists. exists x. split; auto. apply String.eqb_refl. }
    congruence.
Qed.

Lemma setAdd_In x l y : In y (setAdd x l) -> y = x \/ In y l.
Proof.
  unfold setAdd. destruct (existsb (String.eqb x) l); auto.
  intros H. apply in_app_or in H. destruct H as [H|[H|[]]]; auto.
Qed.

Lemma setAdd_head x l d : l <> [] -> hd d (setAdd x l) = hd d l.
Proof.
  unfold setAdd. destruct (existsb (String.eqb x) l); auto.
  destruct l; [contradiction|reflexivity].
Qed.

Lemma setAdd_nonempty x l : setAdd x l <> [].
Proof.
  unfold setAdd. destruct (existsb (String.eqb x) l) eqn:Hex.
  - destruct l; [discriminate|discriminate].
  - destruct l; discriminate.
Qed.

(** The accumulation of [buildAncestorChain] before the final cut. *)
Lemma ancestorFold_facts (h : list CognitiveKernel) (xs acc : list string) :
  NoDup acc ->
  let r := fold_left (fun a x => setAdd x a) xs acc in
  NoDup r /\ (forall y, In y r -> In y acc \/ In y xs) /\
  (acc <> [] -> r <> [] /\ forall d, hd d r = hd d acc).
Proof.
  revert acc. induction xs as [|x xs IH]; intros acc Hnd; simpl.
  - auto.
  - destruct (IH (setAdd x acc) (setAdd_NoDup x acc Hnd)) as (H1 & H2 & H3).
    split; [exact H1|]. split.
    + intros y Hy. destruct (H2 y Hy) as [Hin|Hin]; auto.
      apply setAdd_In in Hin. destruct Hin as [->|Hin]; auto.
    + intros Hne. destruct (H3 (setAdd_nonempty x acc)) as [Hr Hhd].
      split; [exact Hr|]. intros d. rewrite Hhd. now apply setAdd_head.
Qed.

Lemma ancestorSteps_facts (h : list CognitiveKernel) (ps : list loc) (acc : list string) :
  NoDup acc ->
  let step := fun a p =>
    fold_left (fun a x => setAdd x a)
      (Js.slice (ancestors (lineage (kernelAt h p))) 0 (Some 4))
      (setAdd (k_id (kernelAt h p)) a) in
  let r := fold_left step ps acc in
  NoDup r /\
  (forall y, In y r ->
     In y acc \/
     exists p, In p ps /\
               (y = k_id (kernelAt h p) \/
                In y (firstn 4 (ancestors (lineage (kernelAt h p)))))) /\
  (acc <> [] -> r <> [] /\ forall d, hd d r = hd d acc).
Proof.
  revert acc. induction ps as [|p ps IH]; intros acc Hnd; simpl.
  - auto.
  - pose proof (ancestorFold_facts h
                  (Js.slice (ancestors (lineage (kernelAt h p))) 0 (Some 4))
                  (setAdd (k_id (kernelAt h p)) acc)
                  (setAdd_NoDup _ _ Hnd)) as (F1 & F2 & F3).
    destruct (F3 (setAdd_nonempty _ _)) as [Fne Fhd].
    destruct (IH _ F1) as (H1 & H2 & H3).
    split; [exact H1|]. split.
    + intros y Hy. destruct (H2 y Hy) as [Hin|(q & Hq & Hy')].
      * destruct (F2 y Hin) as [Hin'|Hin'].
        -- apply setAdd_In in Hin'. destruct Hin' as [->|Hin']; auto.
           right. exists p. auto.
        -- right. exists p. split; [now left|]. right.
           change (Some 4) with (Some (Z.of_nat 4)) in Hin'.
           now rewrite slice_prefix in Hin'.
      * right. exists q. auto.
    + intros Hne. destruct (H3 Fne) as [Hr Hhd]. split; [exact Hr|].
      intros d. rewrite Hhd, Fhd. now apply setAdd_head.
Qed.

(** X1. The ancestor chain [buildAncestorChain] gives an offspring has at
    most 5 entries and no entry twice; every entry is the id of a parent or one
    of the first four ancestors of a parent; and when there is a parent, the
    chain starts with the id of the first parent. *)
Theorem ancestor_chain_bounded (h : list CognitiveKernel) (ps : list loc) :
  (List.length (buildAncestorChain h ps) <= 5)%nat /\
  NoDup (buildAncestorChain h ps) /\
  (forall y, In y (buildAncestorChain h ps) ->
     exists p, In p ps /\
               (y = k_id (kernelAt h p) \/
                In y (firstn 4 (ancestors (lineage (kernelAt h p)))))) /\
  (forall p0 rest, ps = p0 :: rest ->
     hd_error (buildAncestorChain h ps) = Some (k_id (kernelAt h p0))).
Proof.
  unfold buildAncestorChain. cbv zeta.
  change (Some 5) with (Some (Z.of_nat 5)). rewrite slice_prefix.
  destruct (ancestorSteps_facts h ps [] (NoDup_nil _)) as (H1 & H2 & _).
  cbv zeta in H1, H2.
  split; [apply firstn_le_length|]. split; [now apply NoDup_firstn_list|]. split.
  - intros y Hy. apply In_firstn_list in Hy.
    destruct (H2 y Hy) as [[]|H]. exact H.
  - intros p0 rest ->. cbn [fold_left].
    pose proof (ancestorFold_facts h
                  (Js.slice (ancestors (lineage (kernelAt h p0))) 0 (Some 4))
                  (setAdd (k_id (kernelAt h p0)) [])
                  (setAdd_NoDup _ _ (NoDup_nil _))) as (F1 & _ & F3).
    destruct (F3 (setAdd_nonempty _ _)) as [Fne Fhd].
    destruct (ancestorSteps_facts h rest _ F1) as (_ & _ & H3).
    destruct (H3 Fne) as [Hr Hhd]. cbv zeta in Hr, Hhd.
    match goal with
    | |- hd_error (firstn 5 ?r) = _ =>
        specialize (Hhd EmptyString); rewrite Fhd in Hhd;
        destruct r as [|x r']; [contradiction|]
    end.
    cbn [hd setAdd existsb app] in Hhd. cbn [firstn hd_error]. now rewrite Hhd.
Qed.

(** ** Looking kernels up *)

Lemma kernelsOf_In s i l :
  In l (kernelsOf s i) -> exists p, In p (populations s) /\ In l (kernels p).
Proof.
  unfold kernelsOf, populationAt. intros H.
  destruct (Nat.lt_ge_cases i (List.length (populations s))) as [Hlt|Hge].
  - exists (nth i (populations s) dummyPopulation). split; [now apply nth_In|exact H].
  - rewrite nth_beyond in H by exact Hge. destruct H.
Qed.

Lemma findKernel_Some s id l :
  findKernel s id = Some l -> held s l /\ k_id (kernelAt (kernelHeap s) l) = id.
Proof.
  unfold findKernel. intros H.
  destruct (findInPopulations (kernelHeap s) id (populations s)) as [l0|] eqn:Hp.
  - injection H as ->. apply findInPopulations_Some in Hp.
    destruct Hp as [(p & Hin & Hl) Hid]. split; [|exact Hid].
    right. now apply (In_kernelsOf s p).
  - apply findIn_Some in H. destruct H as [Hin Hid]. split; [now left|exact Hid].
Qed.

Lemma findKernel_None s id :
  findKernel s id = None <->
  forall l, held s l -> k_id (kernelAt (kernelHeap s) l) <> id.
Proof.
  split.
  - unfold findKernel. intros H l Hl.
    destruct (findInPopulations (kernelHeap s) id (populations s)) as [l0|] eqn:Hp;
      [discriminate|].
    destruct Hl as [Ha|[i Hi]].
    + now apply (findIn_None _ _ _ _ H).
    + apply kernelsOf_In in Hi. destruct Hi as (p & Hin & Hl).
      now apply (findInPopulations_None _ _ _ p l Hp).
  - intros H. destruct (findKernel s id) as [l|] eqn:Hf; [|reflexivity].
    apply findKernel_Some in Hf. destruct Hf as [Hl Hid]. now destruct (H l Hl).
Qed.

Lemma findInPopulations_first h id ps p l :
  In p ps -> In l (kernels p) -> k_id (kernelAt h l) = id ->
  exists l', findInPopulations h id ps = Some l'.
Proof.
  intros Hp Hl Hid.
  destruct (findInPopulations h id ps) as [l'|] eqn:Hf; [now exists l'|].
  now destruct (findInPopulations_None h id ps p l Hf Hp Hl).
Qed.

(** X2. [findKernel] resolves an id to a kernel that a population or the
    archive holds and that carries this id; it finds nothing exactly when no
    held kernel carries the id; and a kernel of a population takes precedence
    over the archive. *)
Theorem findKernel_resolves (s : State) (id : string) :
  (forall l, findKernel s id = Some l ->
             held s l /\ k_id (kernelAt (kernelHeap s) l) = id) /\
  (findKernel s id = None <->
   forall l, held s l -> k_id (kernelAt (kernelHeap s) l) <> id) /\
  (forall i l, In l (kernelsOf s i) -> k_id (kernelAt (kernelHeap s) l) = id ->
               exists j l', findKernel s id = Some l' /\ In l' (kernelsOf s j)).
Proof.
  split; [intros l; apply findKernel_Some|]. split; [apply findKernel_None|].
  intros i l Hl Hid. apply kernelsOf_In in Hl. destruct Hl as (p & Hp & Hl).
  destruct (findInPopulations_first _ _ _ _ _ Hp Hl Hid) as [l' Hf].
  unfold findKernel. rewrite Hf.
  apply findInPopulations_Some in Hf. destruct Hf as [(q & Hq & Hl') _].
  destruct (In_kernelsOf s q l' Hq Hl') as [j Hj]. now exists j, l'.
Qed.

(** ** The best kernel of a population *)

Lemma bestOf_spec (h : list CognitiveKernel) (rest pre mid : list loc) (best : loc) :
  let ov l := overall (fitness (kernelAt h l)) in
  (forall x, In x pre -> (ov x < ov best)%Q) ->
  (forall x, In x mid -> (ov x <= ov best)%Q) ->
  let b := fold_left (fun best current => if Js.Qltb (ov best) (ov current)
                                          then current else best) rest best in
  exists pre' post,
    pre ++ best :: mid ++ rest = pre' ++ b :: post /\
    (forall x, In x pre' -> (ov x < ov b)%Q) /\
    (forall x, In x post -> (ov x <= ov b)%Q).
Proof.
  intros ov. revert pre mid best.
  induction rest as [|c rest IH]; intros pre mid best Hpre Hmid; cbn [fold_left].
  - exists pre, mid. rewrite app_nil_r. auto.
  - destruct (Js.Qltb (ov best) (ov c)) eqn:Hc.
    + apply Qltb_true in Hc.
      destruct (IH (pre ++ best :: mid) [] c) as (pre' & post & Heq & H1 & H2).
      * intros x Hx. apply in_app_or in Hx. destruct Hx as [Hx|[<-|Hx]].
        -- apply Qlt_trans with (ov best); auto.
        -- exact Hc.
        -- apply Qle_lt_trans with (ov best); auto.
      * intros x [].
      * exists pre', post. split; [|auto].
        rewrite <- Heq. cbn [app]. rewrite <- app_assoc. reflexivity.
    + apply Qltb_false in Hc.
      destruct (IH pre (mid ++ [c]) best) as (pre' & post & Heq & H1 & H2).
      * exact Hpre.
      * intros x Hx. apply in_app_or in Hx. destruct Hx as [Hx|[<-|[]]]; auto.
      * exists pre', post. split; [|auto].
        rewrite <- Heq. rewrite <- app_assoc. reflexivity.
Qed.

Lemma kernelTypeName_inj a b : kernelTypeName a = kernelTypeName b -> a = b.
Proof. destruct a, b; simpl; intros H; try reflexivity; discriminate. Qed.

Lemma kernelType_eqb_eq a b : kernelType_eqb a b = true <-> a = b.
Proof.
  unfold kernelType_eqb. rewrite String.eqb_eq. split.
  - apply kernelTypeName_inj.
  - now intros ->.
Qed.

(** X3. [getBestKernel] answers with the first of the fittest kernels of the
    first population of the given type: every kernel before it in [kernels] has
    a strictly smaller [fitness.overall], every kernel after it has one that is
    not greater. It answers [null] exactly when there is no population of that
    type or that population has no kernel. *)
Theorem getBestKernel_first_fittest (s : State) (type : KernelType) :
  match getBestKernel s type with
  | Some b =>
      exists p pre post,
        getPopulation s type = Some p /\ In p (populations s) /\ p_name p = type /\
        kernels p = pre ++ b :: post /\
        (forall x, In x pre -> (overallOf s x < overallOf s b)%Q) /\
        (forall x, In x post -> (overallOf s x <= overallOf s b)%Q)
  | None =>
      (forall p, In p (populations s) -> p_name p <> type) \/
      exists p, getPopulation s type = Some p /\ kernels p = []
  end.
Proof.
  unfold getBestKernel.
  destruct (getPopulation s type) as [p|] eqn:Hp.
  - unfold getPopulation in Hp. pose proof (find_some _ _ Hp) as [Hin Hname].
    apply kernelType_eqb_eq in Hname.
    destruct (kernels p) as [|k0 rest] eqn:Hk.
    + right. now exists p.
    + destruct (bestOf_spec (kernelHeap s) rest [] [] k0) as (pre & post & Heq & H1 & H2).
      * intros x [].
      * intros x [].
      * exists p, pre, post. cbn [app] in Heq. unfold overallOf.
        repeat split; auto. now rewrite Hk.
  - left. intros p Hin Hname. unfold getPopulation in Hp.
    apply (find_none _ _ Hp) in Hin. apply kernelType_eqb_eq in Hname. congruence.
Qed.

(** ** Ids that do not resolve *)

(** X4. An id that no held kernel carries is ignored: [evaluateFitness]
    answers [null], [activateKernel] and [deprecateKernel] answer [false], and
    each of them leaves the whole state as it was (no clock reading, no
    event). *)
Theorem unknown_id_is_ignored (E : Env) (s : State) (id : string) (sc : PartialScores) :
  (forall l, held s l -> k_id (kernelAt (kernelHeap s) l) <> id) ->
  evaluateFitness E id sc s = Ret None s /\
  activateKernel E id s = Ret false s /\
  deprecateKernel E id s = Ret false s.
Proof.
  intros H. apply findKernel_None in H.
  unfold evaluateFitness, activateKernel, deprecateKernel, bind, get.
  rewrite H. auto.
Qed.

Lemma unknown_id_is_ignored_witness :
  evaluateFitness sampleEnv "kernel-0-none" zeroScores founded = Ret None founded /\
  activateKernel sampleEnv "kernel-0-none" founded = Ret false founded /\
  deprecateKernel sampleEnv "kernel-0-none" founded = Ret false founded.
Proof.
  apply (unknown_id_is_ignored sampleEnv founded "kernel-0-none" zeroScores).
  apply findKernel_None. vm_compute. reflexivity.
Defined.
(** ** Deprecation *)

Lemma held_bound s l : wellOwned s -> held s l -> (l < List.length (kernelHeap s))%nat.
Proof.
  intros W [Ha|[i Hi]].
  - now apply (wo_bound_archive s W).
  - now apply (wo_bound s W i).
Qed.

Lemma findIn_ids h h' id ls :
  (forall l, k_id (kernelAt h' l) = k_id (kernelAt h l)) ->
  findIn h' id ls = findIn h id ls.
Proof.
  intros H. unfold findIn. induction ls as [|l ls IH]; simpl; [reflexivity|].
  now rewrite H, IH.
Qed.

Lemma findInPopulations_ids h h' id ps :
  (forall l, k_id (kernelAt h' l) = k_id (kernelAt h l)) ->
  findInPopulations h' id ps = findInPopulations h id ps.
Proof.
  intros H. induction ps as [|p ps IH]; simpl; [reflexivity|].
  now rewrite (findIn_ids h h' id (kernels p) H), IH.
Qed.

(** [findKernel] reads the populations, the archive and the ids only. *)
Lemma findKernel_ids s s' id :
  populations s' = populations s -> archive s' = archive s ->
  (forall l, k_id (kernelAt (kernelHeap s') l) = k_id (kernelAt (kernelHeap s) l)) ->
  findKernel s' id = findKernel s id.
Proof.
  intros Hp Ha H. unfold findKernel. rewrite Hp, Ha.
  now rewrite (findInPopulations_ids _ _ id (populations s) H), (findIn_ids _ _ id (archive s) H).
Qed.

(** X5. In a reachable state, [deprecateKernel] on an id that resolves
    returns [true] and marks the kernel it resolves to DEPRECATED, changing no
    other kernel object, no population and not the archive; [activateKernel] on
    the same id then returns [false] and changes nothing. *)
Theorem deprecated_kernel_is_not_activated (E : Env) (s : State) (id : string) (l : loc) :
  reachable E s ->
  findKernel s id = Some l ->
  exists s',
    deprecateKernel E id s = Ret true s' /\
    kernelAt (kernelHeap s') l = withState DEPRECATED (kernelAt (kernelHeap s) l) /\
    (forall l', l' <> l -> kernelAt (kernelHeap s') l' = kernelAt (kernelHeap s) l') /\
    populations s' = populations s /\
    archive s' = archive s /\
    activateKernel E id s' = Ret false s'.
Proof.
  intros Hreach Hfind.
  pose proof (reachable_wellOwned E _ s Hreach) as W.
  destruct (findKernel_Some s id l Hfind) as [Hheld Hid].
  pose proof (held_bound s l W Hheld) as Hlt.
  unfold deprecateKernel, bind, get. rewrite Hfind.
  unfold readKernel, writeKernel, emitEvent, dateNow, modify, bind, ret.
  eexists. split; [reflexivity|].
  assert (Hat : forall l',
             kernelAt (replaceAt l (withState DEPRECATED (kernelAt (kernelHeap s) l))
                         (kernelHeap s)) l' =
             if (l' =? l)%nat then withState DEPRECATED (kernelAt (kernelHeap s) l)
             else kernelAt (kernelHeap s) l').
  { intros l'. rewrite kernelAt_replaceAt.
    destruct (Nat.ltb_spec l (List.length (kernelHeap s))); [|lia].
    now rewrite andb_true_r. }
  cbn [kernelHeap populations archive set_emitted set_nowCalls set_kernelHeap].
  split; [rewrite Hat; now rewrite Nat.eqb_refl|].
  split.
  { intros l' Hne. rewrite Hat. now destruct (Nat.eqb_spec l' l). }
  split; [reflexivity|]. split; [reflexivity|].
  unfold activateKernel, bind, get.
  rewrite (findKernel_ids s _ id); cbn [kernelHeap populations archive set_emitted
                                         set_nowCalls set_kernelHeap]; try reflexivity.
  - rewrite Hfind. unfold readKernel.
    cbn [kernelHeap populations archive set_emitted set_nowCalls set_kernelHeap].
    rewrite Hat, Nat.eqb_refl. reflexivity.
  - intros l'. rewrite Hat. now destruct (Nat.eqb_spec l' l) as [->|].
Qed.

Lemma deprecated_kernel_is_not_activated_witness :
  exists s',
    deprecateKernel sampleEnv (founderId 0) founded = Ret true s' /\
    kernelAt (kernelHeap s') 0%nat = withState DEPRECATED (kernelAt (kernelHeap founded) 0%nat) /\
    (forall l', l' <> 0%nat -> kernelAt (kernelHeap s') l' = kernelAt (kernelHeap founded) l') /\
    populations s' = populations founded /\
    archive s' = archive founded /\
    activateKernel sampleEnv (founderId 0) s' = Ret false s'.
Proof.
  apply (deprecated_kernel_is_not_activated sampleEnv founded (founderId 0) 0%nat).
  - exact founded_reachable.
  - vm_compute. reflexivity.
Defined.
(** ** Selection *)

Lemma replaceAt_replaceAt {A : Type} (n : nat) (x y : A) (l : list A) :
  replaceAt n y (replaceAt n x l) = replaceAt n y l.
Proof.
  revert n. induction l as [|a l IH]; intros [|n]; simpl; auto. now rewrite IH.
Qed.

Lemma replaceAt_self {A : Type} (n : nat) (d : A) (l : list A) :
  replaceAt n (nth n l d) l = l.
Proof.
  revert n. induction l as [|a l IH]; intros [|n]; simpl; auto. now rewrite IH.
Qed.

Lemma archivedMore_zero p : archivedMore 0 p = p.
Proof.
  destruct p as [a b c d st e f g]. destruct st. unfold archivedMore. simpl.
  now rewrite Nat.add_0_r.
Qed.

Lemma archivedMore_succ n p :
  archivedMore n
    (withStatistics (withArchivedCount (S (archivedCount (statistics p))) (statistics p)) p)
  = archivedMore (S n) p.
Proof.
  destruct p as [a b c d st e f g]. destruct st. unfold archivedMore. simpl.
  now rewrite Nat.add_succ_r.
Qed.

(** The populations after the archiving loop of [performSelection]. *)
Lemma archiveLoop_populations i ls s s' :
  forEach ls (archiveKernel i) s = Ret tt s' ->
  populations s' =
  replaceAt i (archivedMore (List.length ls) (populationAt (populations s) i))
    (populations s).
Proof.
  revert s. induction ls as [|l0 ls IH]; intros s Hrun.
  - injection Hrun as <-. rewrite archivedMore_zero. unfold populationAt.
    now rewrite replaceAt_self.
  - simpl forEach in Hrun. apply bind_Ret_inv in Hrun.
    destruct Hrun as ([] & s1 & H1 & Hrun).
    apply IH in Hrun. rewrite Hrun.
    assert (Hp : populations s1 =
                 replaceAt i
                   (withStatistics
                      (withArchivedCount
                         (S (archivedCount (statistics (populationAt (populations s) i))))
                         (statistics (populationAt (populations s) i)))
                      (populationAt (populations s) i))
                   (populations s)).
    { injection H1 as <-. reflexivity. }
    rewrite Hp, replaceAt_replaceAt, populationAt_replaceAt, Nat.eqb_refl.
    destruct (Nat.ltb_spec i (List.length (populations s))) as [Hlt|Hge].
    + cbn [andb]. now rewrite archivedMore_succ.
    + rewrite !(replaceAt_beyond i) by exact Hge. reflexivity.
Qed.

(** The populations after [performSelection]. *)
Lemma performSelection_populations i s s' :
  performSelection i s = Ret tt s' ->
  populations s' =
  replaceAt i
    (withKernels (kernelsOf s' i)
       (archivedMore (List.length (toArchive s i)) (populationAt (populations s) i)))
    (populations s).
Proof.
  intros Hrun.
  destruct (Nat.ltb_spec i (List.length (populations s))) as [Hlt|Hge].
  - unfold performSelection in Hrun.
    apply bind_Ret_inv in Hrun. destruct Hrun as (s0 & s0' & H0 & Hrun).
    injection H0 as <- <-.
    apply bind_Ret_inv in Hrun. destruct Hrun as (p & s0' & H0 & Hrun).
    injection H0 as <- <-.
    apply bind_Ret_inv in Hrun. destruct Hrun as ([] & s1 & H1 & Hrun).
    injection H1 as <-.
    apply bind_Ret_inv in Hrun. destruct Hrun as ([] & s2 & H2 & Hrun).
    apply archiveLoop_populations in H2.
    cbn [populations set_populations] in H2.
    rewrite replaceAt_replaceAt, populationAt_replaceAt, Nat.eqb_refl in H2.
    destruct (Nat.ltb_spec i (List.length (populations s))) as [_|]; [|lia].
    cbn [andb] in H2.
    injection Hrun as <-. unfold kernelsOf at 1. cbn [populations set_populations].
    rewrite H2, replaceAt_replaceAt, !populationAt_replaceAt, Nat.eqb_refl.
    rewrite ?length_replaceAt.
    destruct (Nat.ltb_spec i (List.length (populations s))) as [_|]; [|lia].
    cbn [andb]. reflexivity.
  - destruct (performSelection_spec i s) as (s2 & Hrun2 & Hsel).
    rewrite Hrun in Hrun2. injection Hrun2 as <-.
    rewrite replaceAt_beyond by exact Hge.
    unfold performSelection in Hrun.
    unfold bind, get, readPopulation, writePopulation, modify in Hrun.
    cbv beta in Hrun.
    assert (Hk : kernels (populationAt (populations s) i) = []).
    { apply (kernelsOf_beyond s i Hge). }
    rewrite Hk in Hrun. cbn [sortByFitness fold_right filter forEach ret] in Hrun.
    cbn [populations set_populations] in Hrun.
    rewrite (replaceAt_beyond i _ (populations s) Hge) in Hrun.
    rewrite (replaceAt_beyond i _ (populations s) Hge) in Hrun.
    injection Hrun as <-. reflexivity.
Qed.

Lemma insertByFitness_sorted h x l :
  StronglySorted (fun a b => (overall (fitness (kernelAt h b))
                              <= overall (fitness (kernelAt h a)))%Q) l ->
  StronglySorted (fun a b => (overall (fitness (kernelAt h b))
                              <= overall (fitness (kernelAt h a)))%Q)
    (insertByFitness h x l).
Proof.
  induction l as [|y l IH]; intros Hs; simpl.
  - repeat constructor.
  - apply StronglySorted_inv in Hs. destruct Hs as [Hl Hy].
    destruct (Js.Qltb _ _) eqn:Hc.
    + apply Qltb_true in Hc. constructor; [now apply IH|].
      apply Forall_forall. intros z Hz. apply In_insertByFitness in Hz.
      destruct Hz as [->|Hz]; [now apply Qlt_le_weak|].
      rewrite Forall_forall in Hy. now apply Hy.
    + apply Qltb_false in Hc. constructor; [now constructor|].
      constructor; [exact Hc|].
      apply Forall_forall. intros z Hz. rewrite Forall_forall in Hy.
      apply Qle_trans with (overall (fitness (kernelAt h y))); auto.
Qed.

Lemma sortByFitness_sorted h l :
  StronglySorted (fun a b => (overall (fitness (kernelAt h b))
                              <= overall (fitness (kernelAt h a)))%Q)
    (sortByFitness h l).
Proof.
  induction l as [|x l IH]; simpl; [constructor|]. now apply insertByFitness_sorted.
Qed.

Lemma insertByFitness_perm h x l : Permutation (insertByFitness h x l) (x :: l).
Proof.
  induction l as [|y l IH]; simpl; [reflexivity|].
  destruct (Js.Qltb _ _); [|reflexivity].
  rewrite IH. apply perm_swap.
Qed.

Lemma sortByFitness_perm h l : Permutation (sortByFitness h l) l.
Proof.
  induction l as [|x l IH]; simpl; [reflexivity|].
  rewrite insertByFitness_perm. now constructor.
Qed.

Lemma filter_sorted {A : Type} (R : A -> A -> Prop) (f : A -> bool) (l : list A) :
  StronglySorted R l -> StronglySorted R (filter f l).
Proof.
  induction l as [|x l IH]; intros Hs; simpl; [constructor|].
  apply StronglySorted_inv in Hs. destruct Hs as [Hl Hx].
  destruct (f x); [|now apply IH].
  constructor; [now apply IH|].
  apply Forall_forall. intros y Hy. apply filter_In in Hy.
  rewrite Forall_forall in Hx. now apply Hx.
Qed.

Lemma filter_partition {A : Type} (f : A -> bool) (l : list A) :
  Permutation (filter (fun x => negb (f x)) l ++ filter f l) l.
Proof.
  induction l as [|x l IH]; simpl; [reflexivity|].
  destruct (f x); simpl.
  - rewrite <- Permutation_middle. now constructor.
  - now constructor.
Qed.

Lemma sorted_ext {A : Type} (R R' : A -> A -> Prop) (l : list A) :
  (forall a b, R a b -> R' a b) -> StronglySorted R l -> StronglySorted R' l.
Proof.
  intros H. induction 1 as [|x l Hl IH Hx]; constructor; auto.
  eapply Forall_impl; [|exact Hx]. auto.
Qed.

(** What selection keeps, when no kernel of the population is marked
    ARCHIVED beforehand. *)
Lemma selected_kept i s s' :
  wellOwned s -> selected i s s' ->
  kernelsOf s' i =
  filter (fun l => negb (archivable s l)) (sortByFitness (kernelHeap s) (kernelsOf s i)).
Proof.
  intros W [Hm Ho Hk]. rewrite Hk. apply filter_ext_in. intros l Hl.
  apply In_sortByFitness in Hl.
  destruct (archivable s l) eqn:Ha.
  - assert (Hin : In l (toArchive s i)).
    { apply filter_In. split; [now apply In_sortByFitness|exact Ha]. }
    now rewrite (mk_in _ _ _ Hm l Hin (wo_bound s W i l Hl)).
  - assert (Hnin : ~ In l (toArchive s i)).
    { intros Hin. apply filter_In in Hin. destruct Hin as [_ Hin]. congruence. }
    rewrite (mk_out _ _ _ Hm l Hnin).
    pose proof (wo_state s W i l Hl) as Hst.
    destruct (k_state (kernelAt (kernelHeap s) l)); try reflexivity. contradiction.
Qed.

Lemma statisticsOf_replaceAt s i p :
  (i < List.length (populations s))%nat ->
  statistics (populationAt (replaceAt i p (populations s)) i) = statistics p.
Proof.
  intros Hlt. rewrite populationAt_replaceAt, Nat.eqb_refl.
  destruct (Nat.ltb_spec i (List.length (populations s))); [reflexivity|lia].
Qed.

(** X6. In every state the engine passes through, [performSelection] on a
    population splits its kernels in two: those with [fitness.overall] below
    the archive threshold and at least one evaluation go to the end of the
    archive and are marked ARCHIVED, whatever state they were in; the others
    stay, unchanged. Both parts are ordered by descending [fitness.overall],
    no kernel is lost or duplicated, and the population's [archivedCount]
    grows by the number of kernels archived while [totalCreated] stays. *)
Theorem selection_partitions_population (E : Env) (s : State) (i : nat) :
  inCycle E s ->
  exists s' gone,
    performSelection i s = Ret tt s' /\
    archive s' = archive s ++ gone /\
    Permutation (kernelsOf s' i ++ gone) (kernelsOf s i) /\
    Forall (fun l => archivable s l = true /\
                     kernelAt (kernelHeap s') l
                     = withState ARCHIVED (kernelAt (kernelHeap s) l)) gone /\
    Forall (fun l => archivable s l = false /\
                     kernelAt (kernelHeap s') l = kernelAt (kernelHeap s) l)
      (kernelsOf s' i) /\
    StronglySorted (fitterFirst s') (kernelsOf s' i) /\
    StronglySorted (fitterFirst s') gone /\
    archivedCount (statisticsOf s' i)
    = (archivedCount (statisticsOf s i) + List.length gone)%nat /\
    totalCreated (statisticsOf s' i) = totalCreated (statisticsOf s i).
Proof.
  intros Hin. pose proof (inCycle_wellOwned E s Hin) as W.
  destruct (performSelection_spec i s) as (s' & Hrun & Hsel).
  pose proof (selected_kept i s s' W Hsel) as Hkept.
  pose proof (performSelection_populations i s s' Hrun) as Hpops.
  pose proof Hsel as [Hm Ho Hk]. pose proof Hm as [Ma Ml Mr Mo Mi Mp].
  exists s', (toArchive s i). split; [exact Hrun|]. split; [exact Ma|].
  assert (Hsorted : forall f,
             StronglySorted (fitterFirst s')
               (filter f (sortByFitness (kernelHeap s) (kernelsOf s i)))).
  { intros f. apply filter_sorted.
    apply (sorted_ext (fun a b => (overall (fitness (kernelAt (kernelHeap s) b))
                                   <= overall (fitness (kernelAt (kernelHeap s) a)))%Q)).
    - intros a b Hab. unfold fitterFirst, overallOf.
      now rewrite !(marked_fitness _ _ _ _ Hm).
    - apply sortByFitness_sorted. }
  split.
  { rewrite Hkept. unfold toArchive. rewrite filter_partition. apply sortByFitness_perm. }
  split.
  { apply Forall_forall. intros l Hl. pose proof Hl as Hl'.
    apply filter_In in Hl'. destruct Hl' as [Hl0 Ha]. split; [exact Ha|].
    apply In_sortByFitness in Hl0.
    pose proof (Mi l Hl (wo_bound s W i l Hl0)) as Hst.
    pose proof (Mr l) as Hr.
    destruct (kernelAt (kernelHeap s') l). simpl in Hst. subst. exact Hr. }
  split.
  { apply Forall_forall. intros l Hl. rewrite Hkept in Hl.
    apply filter_In in Hl. destruct Hl as [Hl0 Ha]. apply negb_true_iff in Ha.
    split; [exact Ha|]. apply (marked_unchanged _ _ _ _ Hm).
    intros Hin'. apply filter_In in Hin'. destruct Hin' as [_ Hin']. congruence. }
  split; [rewrite Hkept; apply Hsorted|]. split; [apply Hsorted|].
  destruct (Nat.ltb_spec i (List.length (populations s))) as [Hlt|Hge].
  - unfold statisticsOf. rewrite Hpops, statisticsOf_replaceAt by exact Hlt.
    split; reflexivity.
  - assert (Hnil : toArchive s i = []).
    { unfold toArchive. now rewrite (kernelsOf_beyond s i Hge). }
    rewrite Hnil. unfold statisticsOf. rewrite Hpops, replaceAt_beyond by exact Hge.
    split; [|reflexivity]. simpl. lia.
Qed.

Lemma selection_partitions_population_witness :
  exists s' gone,
    performSelection 0 oneEvaluated = Ret tt s' /\
    archive s' = archive oneEvaluated ++ gone /\
    Permutation (kernelsOf s' 0 ++ gone) (kernelsOf oneEvaluated 0) /\
    Forall (fun l => archivable oneEvaluated l = true /\
                     kernelAt (kernelHeap s') l
                     = withState ARCHIVED (kernelAt (kernelHeap oneEvaluated) l)) gone /\
    Forall (fun l => archivable oneEvaluated l = false /\
                     kernelAt (kernelHeap s') l = kernelAt (kernelHeap oneEvaluated) l)
      (kernelsOf s' 0) /\
    StronglySorted (fitterFirst s') (kernelsOf s' 0) /\
    StronglySorted (fitterFirst s') gone /\
    archivedCount (statisticsOf s' 0)
    = (archivedCount (statisticsOf oneEvaluated 0) + List.length gone)%nat /\
    totalCreated (statisticsOf s' 0) = totalCreated (statisticsOf oneEvaluated 0).
Proof.
  exact (selection_partitions_population sampleEnv oneEvaluated 0
           (inCycle_reachable sampleEnv oneEvaluated oneEvaluated_reachable)).
Defined.

(** ** Mutation of a gene *)

Lemma clamp_inUnit (x : Q) : (0 <= Qmax 0 (Qmin 1 x) /\ Qmax 0 (Qmin 1 x) <= 1)%Q.
Proof.
  split.
  - apply Q.le_max_l.
  - apply Q.max_lub; [unfold Qle; simpl; lia|apply Q.le_min_l].
Qed.

(** X7. [mutateGene] comes back (the draws of the environment never stick
    at 0) and changes at most the [value] of the gene it is given: a
    [parameter] gene with a numeric value ends with a value in [0,1], whatever
    it was before; a [switch] gene with a boolean value is flipped and the
    mutation returned has magnitude 1; every other gene is left alone and
    [null] is returned. No other gene object and no kernel is touched. *)
Theorem mutateGene_clamps (E : Env) (l : loc) (s : State) :
  drawsNotStuck E ->
  exists r s',
    mutateGene E l s = Ret r s' /\
    List.length (geneHeap s') = List.length (geneHeap s) /\
    (forall l', l' <> l -> geneAt (geneHeap s') l' = geneAt (geneHeap s) l') /\
    kernelHeap s' = kernelHeap s /\
    geneAt (geneHeap s') l
    = withValue (g_value (geneAt (geneHeap s') l)) (geneAt (geneHeap s) l) /\
    match g_type (geneAt (geneHeap s) l), g_value (geneAt (geneHeap s) l) with
    | GParameter, VNumber v =>
        exists v', g_value (geneAt (geneHeap s') l) = VNumber v' /\
                   (0 <= v' /\ v' <= 1)%Q
    | GSwitch, VBoolean b =>
        g_value (geneAt (geneHeap s') l) = VBoolean (negb b) /\
        exists m, r = Some m /\ m_target m = g_id (geneAt (geneHeap s) l) /\
                  m_magnitude m = 1%Q
    | _, _ => r = None /\ s' = s
    end.
Proof.
  intros Hstuck.
  destruct (returns_mutateGene E Hstuck l s) as (r & s' & Hrun).
  exists r, s'. split; [exact Hrun|].
  assert (Hin : g_type (geneAt (geneHeap s) l) <> GStructure ->
                (l < List.length (geneHeap s))%nat).
  { intros Hty. destruct (Nat.lt_ge_cases l (List.length (geneHeap s))) as [H|H]; [exact H|].
    rewrite (geneAt_dummy _ _ H) in Hty. now destruct Hty. }
  unfold mutateGene in Hrun. unfold bind at 1 in Hrun. unfold readGene at 1 in Hrun.
  set (g := geneAt (geneHeap s) l) in *.
  assert (Hquiet : forall (s0 s1 : State) (q : Q) (r0 : option Mutation),
            (if Js.Qltb 0 q
             then t1 <- dateNow E ;; r1 <- mathRandom E ;; t2 <- dateNow E ;;
                  ret (Some (mkMutation
                               ("mut-" ++ Js.showZ t1 ++ "-"
                                ++ Js.sliceString (toString36 E r1) 2 (Some 6))%string
                               MParameter (g_id g) q t2))
             else ret None) s0 = Ret r0 s1 ->
            geneHeap s1 = geneHeap s0 /\ kernelHeap s1 = kernelHeap s0 /\
            (Js.Qltb 0 q = false -> r0 = None /\ s1 = s0) /\
            (Js.Qltb 0 q = true ->
             exists m, r0 = Some m /\ m_target m = g_id g /\ m_magnitude m = q)).
  { intros s0 s1 q r0 H. destruct (Js.Qltb 0 q).
    - injection H as <- <-. repeat split; try discriminate.
      intros _. eexists. repeat split.
    - injection H as <- <-. repeat split; try discriminate. }
  destruct (g_type g) eqn:Hty, (g_value g) as [v|b|str| |] eqn:Hval;
    try (apply bind_Ret_inv in Hrun; destruct Hrun as (q & s1 & H1 & Hrun);
         injection H1 as <- <-; apply Hquiet in Hrun;
         destruct Hrun as (Hg & Hk & Hnone & _);
         destruct (Hnone eq_refl) as [-> ->];
         repeat split; auto; now rewrite withValue_same).
  - (* a parameter gene with a numeric value *)
    apply bind_Ret_inv in Hrun. destruct Hrun as (q & s1 & H1 & Hrun).
    apply bind_Ret_inv in H1. destruct H1 as (z & s2 & Hz & H1).
    apply gaussianRandom_state in Hz. destruct Hz as [n ->].
    injection H1 as <- <-. apply Hquiet in Hrun. destruct Hrun as (Hg & Hk & _).
    rewrite Hg, Hk. cbn [geneHeap kernelHeap set_geneHeap set_randomCalls].
    assert (Hlt : (l < List.length (geneHeap s))%nat) by (apply Hin; congruence).
    split; [apply length_replaceAt|].
    split.
    { intros l' Hne. rewrite geneAt_replaceAt. now destruct (Nat.eqb_spec l' l). }
    split; [reflexivity|].
    rewrite geneAt_replaceAt, Nat.eqb_refl.
    destruct (Nat.ltb_spec l (List.length (geneHeap s))); [|lia]. cbn [andb].
    split; [reflexivity|]. eexists. split; [reflexivity|]. apply clamp_inUnit.
  - (* a switch gene with a boolean value *)
    apply bind_Ret_inv in Hrun. destruct Hrun as (q & s1 & H1 & Hrun).
    injection H1 as <- <-. apply Hquiet in Hrun. destruct Hrun as (Hg & Hk & _ & Hsome).
    rewrite Hg, Hk. cbn [geneHeap kernelHeap set_geneHeap set_randomCalls].
    assert (Hlt : (l < List.length (geneHeap s))%nat) by (apply Hin; congruence).
    split; [apply length_replaceAt|].
    split.
    { intros l' Hne. rewrite geneAt_replaceAt. now destruct (Nat.eqb_spec l' l). }
    split; [reflexivity|].
    rewrite geneAt_replaceAt, Nat.eqb_refl.
    destruct (Nat.ltb_spec l (List.length (geneHeap s))); [|lia]. cbn [andb].
    split; [reflexivity|]. split; [reflexivity|]. now apply Hsome.
Qed.

Lemma mutateGene_clamps_witness :
  exists r s',
    mutateGene sampleEnv 1%nat (createInitialState DEFAULT_EVOLUTION_CONFIG) = Ret r s' /\
    List.length (geneHeap s') = 12%nat /\
    (forall l', l' <> 1%nat -> geneAt (geneHeap s') l' = geneAt templateGenes l') /\
    kernelHeap s' = [] /\
    geneAt (geneHeap s') 1%nat
    = withValue (g_value (geneAt (geneHeap s') 1%nat)) (geneAt templateGenes 1%nat) /\
    exists v', g_value (geneAt (geneHeap s') 1%nat) = VNumber v' /\ (0 <= v' /\ v' <= 1)%Q.
Proof.
  exact (mutateGene_clamps sampleEnv 1%nat (createInitialState DEFAULT_EVOLUTION_CONFIG)
           sampleEnv_notStuck).
Defined.

(** ** Copies of genes *)

(** X8. [asexualReproduction] on a genome whose genes exist returns a genome
    of new gene objects, appended to the heap in order: as many core and
    regulatory genes as the parent has, with the same contents field by field,
    none of them shared with any existing genome. The expression modifiers are
    those of the parent, the checksum is the empty string, and nothing else in
    the state changes (no gene of the parent is touched). *)
Theorem asexualReproduction_copies (g : KernelGenome) (s : State) :
  genesIn s (coreGenes g) ->
  genesIn s (regulatoryGenes g) ->
  exists child s',
    asexualReproduction g s = Ret child s' /\
    s' = set_geneHeap
           (geneHeap s ++ genesAt s (coreGenes g) ++ genesAt s (regulatoryGenes g)) s /\
    genesAt s' (coreGenes child) = genesAt s (coreGenes g) /\
    genesAt s' (regulatoryGenes child) = genesAt s (regulatoryGenes g) /\
    freshGenes s s' (coreGenes child ++ regulatoryGenes child) /\
    NoDup (coreGenes child ++ regulatoryGenes child) /\
    expressionModifiers child = expressionModifiers g /\
    checksum child = EmptyString.
Proof.
  intros Hc Hr.
  destruct (cloneGenes_run (coreGenes g) s) as (c1 & Hrun1 & Hlen1 & Hin1).
  specialize (Hin1 Hc). subst c1.
  set (s1 := set_geneHeap (geneHeap s ++ genesAt s (coreGenes g)) s) in *.
  destruct (cloneGenes_run (regulatoryGenes g) s1) as (c2 & Hrun2 & Hlen2 & Hin2).
  assert (Hc2 : c2 = genesAt s (regulatoryGenes g)).
  { rewrite Hin2.
    - unfold genesAt, s1. cbn [geneHeap set_geneHeap]. now apply map_geneAt_app.
    - unfold genesIn, s1. cbn [geneHeap set_geneHeap]. rewrite length_app.
      eapply Forall_impl; [|exact Hr]. cbn. intros; lia. }
  subst c2.
  unfold asexualReproduction, bind. rewrite Hrun1, Hrun2. unfold ret.
  eexists. eexists. split; [reflexivity|].
  unfold s1. cbn [geneHeap set_geneHeap coreGenes regulatoryGenes expressionModifiers
                  checksum].
  assert (Hn1 : List.length (genesAt s (coreGenes g)) = List.length (coreGenes g)).
  { unfold genesAt. apply length_map. }
  assert (Hn2 : List.length (genesAt s (regulatoryGenes g))
                = List.length (regulatoryGenes g)).
  { unfold genesAt. apply length_map. }
  split; [now rewrite <- app_assoc|]. split.
  { unfold genesAt at 1. cbn [geneHeap set_geneHeap]. rewrite <- app_assoc.
    rewrite <- Hn1 at 1. apply map_geneAt_seq. }
  split.
  { unfold genesAt at 1. cbn [geneHeap set_geneHeap].
    rewrite <- Hn2 at 1. apply map_geneAt_seq_end. }
  split.
  { unfold freshGenes. cbn [geneHeap set_geneHeap]. rewrite !length_app.
    apply Forall_app. split; apply seq_fresh; lia. }
  split; [|split; reflexivity].
  rewrite length_app, Hn1. rewrite <- seq_app. apply seq_NoDup.
Qed.

Lemma asexualReproduction_copies_witness :
  exists child s',
    asexualReproduction (genome (kernelAt (kernelHeap founded) 0%nat)) founded
    = Ret child s' /\
    s' = set_geneHeap
           (geneHeap founded
            ++ genesAt founded (coreGenes (genome (kernelAt (kernelHeap founded) 0%nat)))
            ++ genesAt founded (regulatoryGenes (genome (kernelAt (kernelHeap founded) 0%nat))))
           founded /\
    genesAt s' (coreGenes child)
    = genesAt founded (coreGenes (genome (kernelAt (kernelHeap founded) 0%nat))) /\
    genesAt s' (regulatoryGenes child)
    = genesAt founded (regulatoryGenes (genome (kernelAt (kernelHeap founded) 0%nat))) /\
    freshGenes founded s' (coreGenes child ++ regulatoryGenes child) /\
    NoDup (coreGenes child ++ regulatoryGenes child) /\
    expressionModifiers child
    = expressionModifiers (genome (kernelAt (kernelHeap founded) 0%nat)) /\
    checksum child = EmptyString.
Proof.
  apply (asexualReproduction_copies (genome (kernelAt (kernelHeap founded) 0%nat)) founded).
  - vm_compute. repeat constructor.
  - vm_compute. constructor.
Defined.
(** ** Crossover *)

Lemma genesIn_randomCalls s n ls : genesIn s ls -> genesIn (set_randomCalls n s) ls.
Proof. exact (fun H => H). Qed.

(** X9. When the draws are those of [Math.random], [crossover] on two
    genomes whose genes exist returns a genome of new gene objects: with the
    crossover point [p = floor(random * genome1.coreGenes.length)], which is
    below the number of core genes of the first genome, the core genes are
    copies of the first [p] core genes of the first genome followed by copies
    of the core genes of the second genome from position [p] on; the regulatory
    genes are copies of those of the first genome if the second draw is below
    0.5 and of the second genome otherwise; the expression modifiers are the
    first half of the first genome's and the second half of the second's. No
    existing gene object is changed and the checksum is left empty. *)
Theorem crossover_recombines (E : Env) (g1 g2 : KernelGenome) (s : State) :
  drawsInRange E ->
  genesIn s (coreGenes g1) -> genesIn s (coreGenes g2) ->
  genesIn s (regulatoryGenes g1) -> genesIn s (regulatoryGenes g2) ->
  let p := Z.to_nat (floorTimes (random E (randomCalls s)) (List.length (coreGenes g1))) in
  let donor := if Js.Qltb (random E (S (randomCalls s))) (1 # 2) then g1 else g2 in
  exists child s',
    crossover E g1 g2 s = Ret child s' /\
    (p <= List.length (coreGenes g1))%nat /\
    (coreGenes g1 <> [] -> (p < List.length (coreGenes g1))%nat) /\
    genesAt s' (coreGenes child)
    = firstn p (genesAt s (coreGenes g1)) ++ skipn p (genesAt s (coreGenes g2)) /\
    genesAt s' (regulatoryGenes child) = genesAt s (regulatoryGenes donor) /\
    expressionModifiers child
    = firstn (List.length (expressionModifiers g1) / 2) (expressionModifiers g1)
      ++ skipn (List.length (expressionModifiers g2) / 2) (expressionModifiers g2) /\
    checksum child = EmptyString /\
    freshGenes s s' (coreGenes child ++ regulatoryGenes child) /\
    NoDup (coreGenes child ++ regulatoryGenes child) /\
    genesGrow s s' /\
    kernelHeap s' = kernelHeap s.
Proof.
  intros Hrange Hc1 Hc2 Hr1 Hr2 p donor.
  destruct (floorTimes_range (random E (randomCalls s)) (List.length (coreGenes g1))
              (Hrange _)) as [Hp0 Hplt].
  set (pz := floorTimes (random E (randomCalls s)) (List.length (coreGenes g1))) in *.
  set (sa := set_randomCalls (S (randomCalls s)) s).
  set (front := firstn p (coreGenes g1)).
  set (back := skipn p (coreGenes g2)).
  destruct (cloneGenes_run front sa) as (c1 & Hrun1 & Hlen1 & Hin1).
  assert (Hf : genesIn s front) by now apply genesIn_firstn.
  assert (Hb : genesIn s back) by now apply genesIn_skipn.
  assert (Hd : genesIn s (regulatoryGenes donor)) by (unfold donor; now destruct (Js.Qltb _ _)).
  rewrite (Hin1 Hf) in *. clear Hin1.
  change (genesAt sa front) with (genesAt s front) in *.
  change (geneHeap sa) with (geneHeap s) in *.
  set (s1 := set_geneHeap (geneHeap s ++ genesAt s front) sa) in *.
  destruct (cloneGenes_run back s1) as (c2 & Hrun2 & Hlen2 & Hin2).
  assert (Hc2' : c2 = genesAt s back).
  { rewrite Hin2; [apply (genesAt_grow sa); exact Hb|apply (genesIn_grow sa); exact Hb]. }
  subst c2. clear Hin2.
  set (s2 := set_geneHeap (geneHeap s1 ++ genesAt s back) s1) in *.
  set (sb := set_randomCalls (S (randomCalls s2)) s2).
  destruct (cloneGenes_run (regulatoryGenes donor) sb) as (c3 & Hrun3 & Hlen3 & Hin3).
  assert (Hc3 : c3 = genesAt s (regulatoryGenes donor)).
  { rewrite Hin3.
    - unfold genesAt, sb, s2, s1. cbn [geneHeap set_geneHeap set_randomCalls].
      rewrite <- app_assoc. now apply map_geneAt_app.
    - unfold genesIn, sb, s2, s1. cbn [geneHeap set_geneHeap set_randomCalls].
      rewrite !length_app. eapply Forall_impl; [|exact Hd]. cbn. intros; lia. }
  subst c3. clear Hin3.
  assert (Hrun : crossover E g1 g2 s
                 = Ret (mkGenome
                          (seq (List.length (geneHeap s)) (List.length front)
                           ++ seq (List.length (geneHeap s1)) (List.length back))
                          (seq (List.length (geneHeap sb))
                             (List.length (regulatoryGenes donor)))
                          (Js.slice (expressionModifiers g1) 0
                             (Some (Z.of_nat (List.length (expressionModifiers g1) / 2)))
                           ++ Js.slice (expressionModifiers g2)
                                (Z.of_nat (List.length (expressionModifiers g2) / 2)) None)
                          EmptyString)
                     (set_geneHeap (geneHeap sb ++ genesAt s (regulatoryGenes donor)) sb)).
  { unfold crossover. unfold bind at 1. unfold mathRandom at 1. fold sa. fold pz.
    rewrite (slice_firstn _ pz Hp0), (slice_skipn _ pz Hp0). fold p. fold front. fold back.
    unfold bind at 1. rewrite Hrun1. fold s1.
    unfold bind at 1. rewrite Hrun2. fold s2.
    unfold bind at 1. unfold mathRandom at 1. fold sb.
    change (randomCalls s2) with (S (randomCalls s)).
    unfold bind at 1. fold donor.
    replace (if Js.Qltb (random E (S (randomCalls s))) (1 # 2)
             then cloneGenes (regulatoryGenes g1) else cloneGenes (regulatoryGenes g2))
      with (cloneGenes (regulatoryGenes donor))
      by (unfold donor; now destruct (Js.Qltb _ _)).
    rewrite Hrun3. reflexivity. }
  rewrite Hrun. eexists. eexists. split; [reflexivity|].
  assert (Hple : (p <= List.length (coreGenes g1))%nat).
  { destruct (coreGenes g1) as [|x xs] eqn:Hg1.
    - unfold p, pz. cbn [List.length].
      unfold floorTimes, QofNat, Js.mul.
      rewrite (double_zero (_ * _)) by apply Qmult_0_r. reflexivity.
    - assert (H0 : (0 < List.length (x :: xs))%nat) by (simpl; lia).
      specialize (Hplt H0). unfold p. lia. }
  split; [exact Hple|]. split.
  { intros Hne. destruct (coreGenes g1) as [|x xs] eqn:Hg1; [contradiction|].
    assert (H0 : (0 < List.length (x :: xs))%nat) by (simpl; lia).
    specialize (Hplt H0). unfold p. lia. }
  cbn [coreGenes regulatoryGenes expressionModifiers checksum].
  assert (Hh1 : geneHeap s1 = geneHeap s ++ genesAt s front) by reflexivity.
  assert (Hhb : geneHeap sb = (geneHeap s ++ genesAt s front) ++ genesAt s back)
    by reflexivity.
  assert (Ln1 : List.length (genesAt s front) = List.length front) by apply length_map.
  assert (Ln2 : List.length (genesAt s back) = List.length back) by apply length_map.
  assert (Ln3 : List.length (genesAt s (regulatoryGenes donor))
                = List.length (regulatoryGenes donor)) by apply length_map.
  split.
  { unfold genesAt at 1. cbn [geneHeap set_geneHeap]. rewrite map_app.
    rewrite Hhb, Hh1. f_equal.
    - rewrite <- !app_assoc. rewrite <- Ln1 at 1. rewrite map_geneAt_seq.
      unfold genesAt, front. now rewrite firstn_map.
    - rewrite <- (app_assoc (geneHeap s ++ genesAt s front)).
      rewrite <- Ln2 at 1. rewrite map_geneAt_seq.
      unfold genesAt, back. now rewrite skipn_map. }
  split.
  { unfold genesAt at 1. cbn [geneHeap set_geneHeap].
    rewrite <- Ln3 at 1. apply map_geneAt_seq_end. }
  split.
  { rewrite slice_firstn, slice_skipn by lia. now rewrite !Nat2Z.id. }
  split; [reflexivity|]. split.
  { unfold freshGenes. cbn [geneHeap set_geneHeap]. rewrite Hhb, Hh1, !length_app.
    repeat (apply Forall_app; split); apply seq_fresh; lia. }
  split.
  { rewrite Hhb, Hh1, !length_app, Ln1, Ln2.
    rewrite <- seq_app, <- Nat.add_assoc, <- seq_app. apply seq_NoDup. }
  split.
  { unfold genesGrow. cbn [geneHeap set_geneHeap]. rewrite Hhb.
    rewrite <- !app_assoc. now eexists. }
  reflexivity.
Qed.

Lemma crossover_recombines_witness :
  let g1 := genome (kernelAt (kernelHeap founded) 0%nat) in
  let g2 := genome (kernelAt (kernelHeap founded) 5%nat) in
  let p := Z.to_nat (floorTimes (random sampleEnv (randomCalls founded))
                       (List.length (coreGenes g1))) in
  let donor := if Js.Qltb (random sampleEnv (S (randomCalls founded))) (1 # 2)
               then g1 else g2 in
  exists child s',
    crossover sampleEnv g1 g2 founded = Ret child s' /\
    (p <= List.length (coreGenes g1))%nat /\
    (coreGenes g1 <> [] -> (p < List.length (coreGenes g1))%nat) /\
    genesAt s' (coreGenes child)
    = firstn p (genesAt founded (coreGenes g1)) ++ skipn p (genesAt founded (coreGenes g2)) /\
    genesAt s' (regulatoryGenes child) = genesAt founded (regulatoryGenes donor) /\
    expressionModifiers child
    = firstn (List.length (expressionModifiers g1) / 2) (expressionModifiers g1)
      ++ skipn (List.length (expressionModifiers g2) / 2) (expressionModifiers g2) /\
    checksum child = EmptyString /\
    freshGenes founded s' (coreGenes child ++ regulatoryGenes child) /\
    NoDup (coreGenes child ++ regulatoryGenes child) /\
    genesGrow founded s' /\
    kernelHeap s' = kernelHeap founded.
Proof.
  intros g1 g2.
  assert (H1 : genesIn founded (coreGenes g1)) by (vm_compute; repeat constructor).
  assert (H2 : genesIn founded (coreGenes g2)) by (vm_compute; repeat constructor).
  assert (H3 : genesIn founded (regulatoryGenes g1)) by (vm_compute; repeat constructor).
  assert (H4 : genesIn founded (regulatoryGenes g2)) by (vm_compute; repeat constructor).
  exact (crossover_recombines sampleEnv g1 g2 founded sampleEnv_inRange H1 H2 H3 H4).
Defined.

(** ** Relations every step of a computation respects *)

Section Respects.

Variable R : State -> State -> Prop.
Hypothesis R_refl : forall s, R s s.
Hypothesis R_trans : forall s0 s1 s2, R s0 s1 -> R s1 s2 -> R s0 s2.

Lemma respects_ret {A : Type} (a : A) : respects R (ret a).
Proof. intros s. apply R_refl. Qed.

Lemma respects_get : respects R get.
Proof. intros s. apply R_refl. Qed.

Lemma respects_throw {A : Type} (e : Exn) : respects R (@throw A e).
Proof. intros s. apply R_refl. Qed.

Lemma respects_hang {A : Type} : respects R (@hang A).
Proof. intros s. exact I. Qed.

Lemma respects_bind {A B : Type} (m : M A) (k : A -> M B) :
  respects R m -> (forall a, respects R (k a)) -> respects R (bind m k).
Proof.
  intros Hm Hk s. unfold bind. specialize (Hm s).
  destruct (m s) as [a s1|e s1|]; auto.
  specialize (Hk a s1). destruct (k a s1); eauto.
Qed.

Lemma respects_forEach {A : Type} (l : list A) (body : A -> M unit) :
  (forall x, respects R (body x)) -> respects R (forEach l body).
Proof.
  intros H. induction l as [|x l IH]; simpl.
  - apply respects_ret.
  - apply respects_bind; auto.
Qed.

Lemma respects_mapM {A B : Type} (f : A -> M B) (l : list A) :
  (forall x, respects R (f x)) -> respects R (mapM f l).
Proof.
  intros H. induction l as [|x l IH]; simpl.
  - apply respects_ret.
  - apply respects_bind; [apply H|]. intros y.
    apply respects_bind; [exact IH|]. intros ys. apply respects_ret.
Qed.

(** A step that always returns. *)
Lemma respects_step {A : Type} (g : State -> A) (f : State -> State) :
  (forall s, R s (f s)) -> respects R (fun s => Ret (g s) (f s)).
Proof. intros H s. apply H. Qed.

Lemma respects_final {A : Type} (m : M A) s s' :
  respects R m -> finalState (m s) = Some s' -> R s s'.
Proof.
  intros H Hf. specialize (H s). destruct (m s); simpl in Hf; try discriminate;
    injection Hf as <-; exact H.
Qed.

End Respects.

(** One step of a proof that a computation respects a relation; [prim]
    closes the goals [R s (f s)] of the elementary state changes. *)
Ltac head_of t :=
  match t with
  | ?f _ => head_of f
  | _ => t
  end.

Ltac respects_step refl trans prim :=
  match goal with
  | |- respects _ (bind _ _) => apply (respects_bind _ trans); [ | intros ? ]
  | |- respects _ (ret _) => apply (respects_ret _ refl)
  | |- respects _ get => apply (respects_get _ refl)
  | |- respects _ (throw _) => apply (respects_throw _ refl)
  | |- respects _ hang => apply respects_hang
  | |- respects _ (forEach _ _) => apply (respects_forEach _ refl trans); intros ?
  | |- respects _ (mapM _ _) => apply (respects_mapM _ refl trans); intros ?
  | |- respects _ (if ?b then _ else _) => destruct b
  | |- respects _ (match ?x with _ => _ end) => destruct x
  | H : _ |- respects _ ?m =>
      let h := head_of m in
      match type of H with context [h] => solve [ apply H ] end
  | |- respects _ _ =>
      solve [ apply respects_step; intros ?; prim
            | unfold modify; apply respects_step; intros ?; prim ]
  end.

Ltac respects_auto refl trans prim := repeat respects_step refl trans prim.

(** ** Gene objects are never changed *)

Lemma genesKept_refl n s : genesKept n s s.
Proof. intros _. auto. Qed.

Lemma genesKept_trans n s0 s1 s2 :
  genesKept n s0 s1 -> genesKept n s1 s2 -> genesKept n s0 s2.
Proof.
  intros H1 H2 Hn. destruct (H1 Hn) as [L1 F1].
  destruct H2 as [L2 F2]; [lia|]. split; [lia|congruence].
Qed.

Lemma genesKept_same n s s' : geneHeap s' = geneHeap s -> genesKept n s s'.
Proof. intros H _. rewrite H. auto. Qed.

Lemma genesKept_alloc n s g : genesKept n s (set_geneHeap (geneHeap s ++ [g]) s).
Proof.
  intros Hn. cbn [geneHeap set_geneHeap]. split.
  - rewrite length_app. lia.
  - rewrite firstn_app. replace (n - List.length (geneHeap s))%nat with 0%nat by lia.
    cbn [firstn]. apply app_nil_r.
Qed.

Lemma firstn_replaceAt {A : Type} (n l : nat) (x : A) (h : list A) :
  (n <= l)%nat -> firstn n (replaceAt l x h) = firstn n h.
Proof.
  revert n l. induction h as [|y h IH]; intros [|n] [|l] H; simpl; auto; try lia.
  f_equal. apply IH. lia.
Qed.

Lemma genesKept_write n s l g :
  (n <= l)%nat -> genesKept n s (set_geneHeap (replaceAt l g (geneHeap s)) s).
Proof.
  intros Hl _. cbn [geneHeap set_geneHeap]. split.
  - now rewrite length_replaceAt.
  - now apply firstn_replaceAt.
Qed.

Lemma genesKept_grow s s' :
  genesKept (List.length (geneHeap s)) s s' -> genesGrow s s'.
Proof.
  intros H. destruct (H (le_n _)) as [Hlen Hfirst].
  exists (skipn (List.length (geneHeap s)) (geneHeap s')).
  rewrite <- (firstn_all (geneHeap s)) at 1. rewrite <- Hfirst.
  symmetry. apply firstn_skipn.
Qed.

(** Closes the elementary steps that do not write a gene. *)
Ltac genes_prim :=
  first [ apply genesKept_alloc
        | apply genesKept_same; reflexivity ].

Ltac genes_auto n :=
  respects_auto (genesKept_refl n) (genesKept_trans n) genes_prim.

Section GenesKept.

Variable E : Env.
Variable n : nat.

Lemma genes_mathRandom : respects (genesKept n) (mathRandom E).
Proof. unfold mathRandom. genes_auto n. Qed.

Lemma genes_dateNow : respects (genesKept n) (dateNow E).
Proof. unfold dateNow. genes_auto n. Qed.

Lemma genes_emitEvent d : respects (genesKept n) (emitEvent E d).
Proof. unfold emitEvent, dateNow. genes_auto n. Qed.

Lemma genes_generateKernelId : respects (genesKept n) (generateKernelId E).
Proof. unfold generateKernelId, dateNow, mathRandom. genes_auto n. Qed.

Lemma genes_cloneGenes ls : respects (genesKept n) (cloneGenes ls).
Proof. unfold cloneGenes, readGene, allocGene. genes_auto n. Qed.

Lemma genes_asexualReproduction g : respects (genesKept n) (asexualReproduction g).
Proof. unfold asexualReproduction. pose proof genes_cloneGenes. genes_auto n. Qed.

Lemma genes_crossover g1 g2 : respects (genesKept n) (crossover E g1 g2).
Proof.
  unfold crossover. pose proof genes_cloneGenes. pose proof genes_mathRandom.
  genes_auto n.
Qed.

Lemma genes_multiParentCore gs idxs acc :
  respects (genesKept n) (multiParentCore E gs idxs acc).
Proof.
  revert acc. induction idxs as [|i idxs IH]; intros acc; simpl.
  - genes_auto n.
  - pose proof genes_mathRandom. unfold readGene, allocGene. genes_auto n.
Qed.

Lemma genes_multiParentBreeding gs : respects (genesKept n) (multiParentBreeding E gs).
Proof.
  unfold multiParentBreeding.
  pose proof genes_multiParentCore. pose proof genes_cloneGenes.
  pose proof genes_mathRandom. genes_auto n.
Qed.

Lemma genes_drawNonZero fuel : respects (genesKept n) (drawNonZero E fuel).
Proof.
  induction fuel as [|fuel IH]; simpl; pose proof genes_mathRandom; genes_auto n.
Qed.

Lemma genes_gaussianRandom : respects (genesKept n) (gaussianRandom E).
Proof. unfold gaussianRandom. pose proof genes_drawNonZero. genes_auto n. Qed.

Lemma genes_mutateGene l : (n <= l)%nat -> respects (genesKept n) (mutateGene E l).
Proof.
  intros Hl. unfold mutateGene.
  pose proof genes_gaussianRandom. pose proof genes_mathRandom. pose proof genes_dateNow.
  assert (Hw : forall g, respects (genesKept n) (writeGene l g)).
  { intros g. unfold writeGene, modify. apply respects_step. intros s.
    now apply genesKept_write. }
  unfold readGene. genes_auto n.
Qed.

Lemma genes_mutateCoreGenes ls rate acc :
  Forall (fun l => (n <= l)%nat) ls ->
  respects (genesKept n) (mutateCoreGenes E ls rate acc).
Proof.
  intros Hls. revert acc. induction Hls as [|l ls Hl Hls IH]; intros acc; simpl.
  - genes_auto n.
  - pose proof (genes_mutateGene l Hl). pose proof genes_mathRandom.
    unfold readGene. genes_auto n.
Qed.

Lemma genes_applyMutations g rate :
  Forall (fun l => (n <= l)%nat) (coreGenes g) ->
  respects (genesKept n) (applyMutations E g rate).
Proof.
  intros Hg. unfold applyMutations.
  pose proof (genes_mutateCoreGenes (coreGenes g) rate [] Hg).
  pose proof genes_mathRandom. pose proof genes_dateNow.
  unfold allocGene. genes_auto n.
Qed.

End GenesKept.
Lemma cloneGenes_fresh ls s :
  exists ls' s',
    cloneGenes ls s = Ret ls' s' /\
    freshGenes s s' ls' /\
    (List.length (geneHeap s) <= List.length (geneHeap s'))%nat.
Proof.
  destruct (cloneGenes_run ls s) as (clones & Hrun & Hlen & _).
  eexists. eexists. split; [exact Hrun|].
  unfold freshGenes. cbn [geneHeap set_geneHeap]. rewrite length_app, Hlen.
  split; [apply seq_fresh; lia|lia].
Qed.

Lemma freshGenes_widen s0 s1 s2 s3 ls :
  (List.length (geneHeap s0) <= List.length (geneHeap s1))%nat ->
  (List.length (geneHeap s2) <= List.length (geneHeap s3))%nat ->
  freshGenes s1 s2 ls -> freshGenes s0 s3 ls.
Proof.
  intros H1 H2 H. unfold freshGenes in *. eapply Forall_impl; [|exact H].
  cbn. intros; lia.
Qed.

Lemma makesFresh_asexualReproduction g : makesFresh (asexualReproduction g).
Proof.
  intros s. destruct (asexualReproduction g s) as [child s'| |] eqn:Hrun; auto.
  unfold asexualReproduction in Hrun.
  apply bind_Ret_inv in Hrun. destruct Hrun as (core & s1 & H1 & Hrun).
  apply bind_Ret_inv in Hrun. destruct Hrun as (reg & s2 & H2 & Hrun).
  injection Hrun as <- <-. cbn [coreGenes regulatoryGenes].
  destruct (cloneGenes_fresh (coreGenes g) s) as (? & ? & E1 & F1 & L1).
  rewrite E1 in H1. injection H1 as -> ->.
  destruct (cloneGenes_fresh (regulatoryGenes g) s1) as (? & ? & E2 & F2 & L2).
  rewrite E2 in H2. injection H2 as -> ->.
  apply Forall_app. split.
  - apply (freshGenes_widen s s s1 s2); auto.
  - apply (freshGenes_widen s s1 s2 s2); auto.
Qed.

Lemma makesFresh_crossover E g1 g2 : makesFresh (crossover E g1 g2).
Proof.
  intros s. destruct (crossover E g1 g2 s) as [child s'| |] eqn:Hrun; auto.
  unfold crossover in Hrun.
  apply bind_Ret_inv in Hrun. destruct Hrun as (r & sa & Ha & Hrun).
  injection Ha as <- <-.
  apply bind_Ret_inv in Hrun. destruct Hrun as (front & s1 & H1 & Hrun).
  apply bind_Ret_inv in Hrun. destruct Hrun as (back & s2 & H2 & Hrun).
  apply bind_Ret_inv in Hrun. destruct Hrun as (r2 & sb & Hb & Hrun).
  injection Hb as <- <-.
  apply bind_Ret_inv in Hrun. destruct Hrun as (reg & s3 & H3 & Hrun).
  injection Hrun as <- <-. cbn [coreGenes regulatoryGenes].
  match type of H1 with cloneGenes ?ls ?s0 = _ =>
    destruct (cloneGenes_fresh ls s0) as (? & ? & E1 & F1 & L1) end.
  rewrite E1 in H1. injection H1 as -> ->.
  match type of H2 with cloneGenes ?ls ?s0 = _ =>
    destruct (cloneGenes_fresh ls s0) as (? & ? & E2 & F2 & L2) end.
  rewrite E2 in H2. injection H2 as -> ->.
  assert (F3 : freshGenes (set_randomCalls (S (randomCalls s2)) s2) s3 reg /\
               (List.length (geneHeap s2) <= List.length (geneHeap s3))%nat).
  { destruct (Js.Qltb _ _);
      match type of H3 with cloneGenes ?ls ?s0 = _ =>
        destruct (cloneGenes_fresh ls s0) as (? & ? & E3 & F3 & L3) end;
      rewrite E3 in H3; injection H3 as -> ->; auto. }
  destruct F3 as [F3 L3].
  cbn [geneHeap set_randomCalls] in *.
  rewrite <- app_assoc. repeat (apply Forall_app; split).
  - eapply Forall_impl; [|exact F1]. cbn. intros; lia.
  - eapply Forall_impl; [|exact F2]. cbn. intros; lia.
  - eapply Forall_impl; [|exact F3]. cbn. intros; lia.
Qed.

Lemma multiParentCore_fresh E gs idxs acc s n0 :
  (n0 <= List.length (geneHeap s))%nat ->
  Forall (fun l => (n0 <= l < List.length (geneHeap s))%nat) acc ->
  match multiParentCore E gs idxs acc s with
  | Ret ls s' =>
      Forall (fun l => (n0 <= l < List.length (geneHeap s'))%nat) ls /\
      (List.length (geneHeap s) <= List.length (geneHeap s'))%nat
  | _ => True
  end.
Proof.
  revert acc s. induction idxs as [|i idxs IH]; intros acc s Hn Hacc; simpl.
  - auto.
  - unfold bind at 1. unfold mathRandom at 1.
    destruct (Js.index gs _) as [g|]; [|exact I].
    destruct (nth_error (coreGenes g) i) as [l|].
    + unfold bind at 1. unfold readGene at 1. unfold bind at 1. unfold allocGene at 1.
      match goal with |- match multiParentCore E gs idxs ?a ?s1 with _ => _ end =>
        specialize (IH a s1) end.
      cbn [geneHeap set_geneHeap set_randomCalls] in IH. rewrite length_app in IH.
      cbn [List.length] in IH.
      destruct (multiParentCore E gs idxs _ _) as [ls s'| |]; auto.
      destruct IH as [F L]; [lia| |split; [exact F|lia]].
      apply Forall_app. split.
      * eapply Forall_impl; [|exact Hacc]. cbn. intros; lia.
      * repeat constructor; lia.
    + specialize (IH acc (set_randomCalls (S (randomCalls s)) s) Hn Hacc).
      exact IH.
Qed.

Lemma multiParentCore_Ret E gs idxs acc s n0 ls s' :
  multiParentCore E gs idxs acc s = Ret ls s' ->
  (n0 <= List.length (geneHeap s))%nat ->
  Forall (fun l => (n0 <= l < List.length (geneHeap s))%nat) acc ->
  Forall (fun l => (n0 <= l < List.length (geneHeap s'))%nat) ls /\
  (List.length (geneHeap s) <= List.length (geneHeap s'))%nat.
Proof.
  intros Hrun Hn Hacc. pose proof (multiParentCore_fresh E gs idxs acc s n0 Hn Hacc) as H.
  now rewrite Hrun in H.
Qed.

Lemma makesFresh_multiParentBreeding E gs : makesFresh (multiParentBreeding E gs).
Proof.
  intros s. destruct (multiParentBreeding E gs s) as [child s'| |] eqn:Hrun; auto.
  unfold multiParentBreeding in Hrun.
  apply bind_Ret_inv in Hrun. destruct Hrun as (core & s1 & H1 & Hrun).
  apply bind_Ret_inv in Hrun. destruct Hrun as (r & sa & Ha & Hrun).
  injection Ha as <- <-.
  apply bind_Ret_inv in Hrun. destruct Hrun as (reg & s2 & H2 & Hrun).
  injection Hrun as <- <-. cbn [coreGenes regulatoryGenes].
  assert (F1 : Forall (fun l => (List.length (geneHeap s) <= l
                                 < List.length (geneHeap s1))%nat) core /\
               (List.length (geneHeap s) <= List.length (geneHeap s1))%nat).
  { destruct gs as [|g0 gs'].
    - injection H1 as <- <-. auto.
    - cbv beta iota in H1.
      apply (multiParentCore_Ret E _ _ _ _ _ _ _ H1 (le_n _) (Forall_nil _)). }
  destruct F1 as [F1 L1].
  assert (F2 : freshGenes (set_randomCalls (S (randomCalls s1)) s1) s2 reg /\
               (List.length (geneHeap s1) <= List.length (geneHeap s2))%nat).
  { destruct (Js.index gs _) as [g|].
    - match type of H2 with cloneGenes ?ls ?s0 = _ =>
        destruct (cloneGenes_fresh ls s0) as (? & ? & E2 & F2 & L2) end.
      rewrite E2 in H2. injection H2 as -> ->. auto.
    - injection H2 as <- <-. split; [constructor|auto]. }
  destruct F2 as [F2 L2]. cbn [geneHeap set_randomCalls] in *.
  apply Forall_app. split.
  - eapply Forall_impl; [|exact F1]. cbn. intros; lia.
  - eapply Forall_impl; [|exact F2]. cbn. intros; lia.
Qed.

(** After a breeding method, the rest of a turn may mutate the genes of the
    child it made. *)
Lemma respects_bind_fresh {B : Type} n (m : M KernelGenome) (k : KernelGenome -> M B) :
  respects (genesKept n) m -> makesFresh m ->
  (forall g, Forall (fun l => (n <= l)%nat) (coreGenes g) -> respects (genesKept n) (k g)) ->
  respects (genesKept n) (bind m k).
Proof.
  intros Hm Hf Hk s. unfold bind. specialize (Hm s). specialize (Hf s).
  destruct (m s) as [g s1|e s1|]; auto.
  destruct (Nat.le_gt_cases n (List.length (geneHeap s))) as [Hn|Hn].
  - assert (Hg : Forall (fun l => (n <= l)%nat) (coreGenes g)).
    { apply Forall_app in Hf. destruct Hf as [Hf _].
      eapply Forall_impl; [|exact Hf]. cbn. intros; lia. }
    specialize (Hk g Hg s1).
    destruct (k g s1); auto; eapply genesKept_trans; eauto.
  - destruct (k g s1); auto; intros Hc; lia.
Qed.

Section GenesOfTheEngine.

Variable E : Env.
Variable n : nat.

Lemma genes_breedOne rq ps p0 i : respects (genesKept n) (breedOne E rq ps p0 i).
Proof.
  unfold breedOne.
  apply (respects_bind _ (genesKept_trans n)); [apply (respects_get _ (genesKept_refl n))|].
  intros s0. apply respects_bind_fresh.
  - destruct (rq_method rq);
      first [ apply genes_asexualReproduction | apply genes_crossover
            | apply genes_multiParentBreeding ].
  - destruct (rq_method rq);
      first [ apply makesFresh_asexualReproduction | apply makesFresh_crossover
            | apply makesFresh_multiParentBreeding ].
  - intros g Hg.
    pose proof (fun rate => genes_applyMutations E n g rate Hg).
    pose proof (genes_generateKernelId E n). pose proof (genes_dateNow E n).
    unfold allocKernel, bumpTotalKernelsCreated. genes_auto n.
Qed.

Lemma genes_breedLoop rq ps p0 idxs acc :
  respects (genesKept n) (breedLoop E rq ps p0 idxs acc).
Proof.
  revert acc. induction idxs as [|i idxs IH]; intros acc; simpl.
  - genes_auto n.
  - pose proof genes_breedOne. genes_auto n.
Qed.

Lemma genes_breed rq : respects (genesKept n) (breed E rq).
Proof.
  unfold breed. pose proof genes_breedLoop. pose proof (genes_emitEvent E n).
  genes_auto n.
Qed.

Lemma genes_createKernel t c : respects (genesKept n) (createKernel E t c).
Proof.
  unfold createKernel.
  pose proof (genes_generateKernelId E n). pose proof (genes_dateNow E n).
  pose proof (genes_emitEvent E n).
  unfold allocKernel, bumpTotalKernelsCreated. genes_auto n.
Qed.

Lemma genes_evaluateFitness id sc : respects (genesKept n) (evaluateFitness E id sc).
Proof.
  unfold evaluateFitness. pose proof (genes_dateNow E n).
  unfold readKernel, writeKernel. genes_auto n.
Qed.

Lemma genes_activateKernel id : respects (genesKept n) (activateKernel E id).
Proof.
  unfold activateKernel. pose proof (genes_dateNow E n). pose proof (genes_emitEvent E n).
  unfold readKernel, writeKernel. genes_auto n.
Qed.

Lemma genes_deprecateKernel id : respects (genesKept n) (deprecateKernel E id).
Proof.
  unfold deprecateKernel. pose proof (genes_emitEvent E n).
  unfold readKernel, writeKernel. genes_auto n.
Qed.

Lemma genes_initializePopulations : respects (genesKept n) (initializePopulations E).
Proof.
  unfold initializePopulations. pose proof genes_createKernel. genes_auto n.
Qed.

Lemma genes_startEvolution : respects (genesKept n) (startEvolution E).
Proof.
  unfold startEvolution. pose proof genes_initializePopulations. genes_auto n.
Qed.

Lemma genes_stopEvolution : respects (genesKept n) stopEvolution.
Proof. unfold stopEvolution. genes_auto n. Qed.

Lemma genes_performSelection i : respects (genesKept n) (performSelection i).
Proof.
  unfold performSelection, archiveKernel, readPopulation, writePopulation,
    readKernel, writeKernel.
  genes_auto n.
Qed.

Lemma genes_pickElite elite : respects (genesKept n) (pickElite E elite).
Proof. unfold pickElite. pose proof (genes_mathRandom E n). genes_auto n. Qed.

Lemma genes_breedInto i rq : respects (genesKept n) (breedInto E i rq).
Proof.
  unfold breedInto, readPopulation, writePopulation. pose proof genes_breed.
  genes_auto n.
Qed.

Lemma genes_growSlot i elite rate : respects (genesKept n) (growSlot E i elite rate).
Proof.
  unfold growSlot. pose proof genes_pickElite. pose proof genes_breedInto.
  pose proof (genes_mathRandom E n). genes_auto n.
Qed.

Lemma genes_performBreeding i : respects (genesKept n) (performBreeding E i).
Proof.
  unfold performBreeding, readPopulation. pose proof genes_growSlot. genes_auto n.
Qed.

Lemma genes_updatePopulationStatistics i :
  respects (genesKept n) (updatePopulationStatistics E i).
Proof.
  unfold updatePopulationStatistics, readPopulation, writePopulation.
  pose proof (genes_emitEvent E n). genes_auto n.
Qed.

Lemma genes_checkForEmergence : respects (genesKept n) (checkForEmergence E).
Proof.
  unfold checkForEmergence. pose proof (genes_emitEvent E n). pose proof (genes_dateNow E n).
  genes_auto n.
Qed.

Lemma genes_evolutionCycle : respects (genesKept n) (evolutionCycle E).
Proof.
  unfold evolutionCycle, advanceGeneration, readPopulation, writePopulation.
  pose proof genes_performSelection. pose proof genes_performBreeding.
  pose proof genes_updatePopulationStatistics. pose proof genes_checkForEmergence.
  pose proof (genes_emitEvent E n). pose proof (genes_dateNow E n).
  genes_auto n.
Qed.

Lemma genes_runOp op : respects (genesKept n) (runOp E op).
Proof.
  destruct op; cbn [runOp];
    pose proof genes_startEvolution; pose proof genes_stopEvolution;
    pose proof genes_evolutionCycle; pose proof genes_createKernel;
    pose proof genes_breed; pose proof genes_evaluateFitness;
    pose proof genes_activateKernel; pose proof genes_deprecateKernel;
    genes_auto n.
Qed.

End GenesOfTheEngine.

Lemma step_genesGrow E op s s' : stepTo E op s s' -> genesGrow s s'.
Proof.
  intros [_ Hf]. apply genesKept_grow.
  exact (respects_final _ _ s s' (genes_runOp E _ op) Hf).
Qed.

Lemma genesGrow_trans s0 s1 s2 : genesGrow s0 s1 -> genesGrow s1 s2 -> genesGrow s0 s2.
Proof.
  intros [e1 H1] [e2 H2]. exists (e1 ++ e2). now rewrite H2, H1, app_assoc.
Qed.

Lemma steps_genesGrow E s s' : stepsTo E s s' -> genesGrow s s'.
Proof.
  induction 1 as [s|s s1 s2 op Hstep _ IH].
  - exists []. now rewrite app_nil_r.
  - eapply genesGrow_trans; [eapply step_genesGrow; eauto|exact IH].
Qed.

(** X10. No operation of the engine changes a gene object that exists: over
    any sequence of operations (start, stop, generation cycles, createKernel,
    breed, evaluateFitness, activateKernel, deprecateKernel, also when one
    ends in an exception) the gene heap only gains new gene objects. The only
    genes that are ever written are those of an offspring inside the [breed]
    call that makes it. *)
Theorem genes_are_never_changed (E : Env) (s s' : State) :
  stepsTo E s s' ->
  exists ext, geneHeap s' = geneHeap s ++ ext.
Proof. apply steps_genesGrow. Qed.

Lemma genes_are_never_changed_witness :
  exists ext, geneHeap oneArchived = geneHeap founded ++ ext.
Proof.
  apply (genes_are_never_changed sampleEnv founded oneArchived).
  apply (runOps_stepsTo sampleEnv [OpEvaluateFitness (founderId 0) zeroScores; OpTick]).
  vm_compute. reflexivity.
Defined.

(** ** Kernel objects keep their identity *)

Lemma kernelsKept_refl s : kernelsKept s s.
Proof. constructor; auto. Qed.

Lemma kernelsKept_trans s0 s1 s2 :
  kernelsKept s0 s1 -> kernelsKept s1 s2 -> kernelsKept s0 s2.
Proof.
  intros [L1 I1 C1 F1] [L2 I2 C2 F2]. constructor.
  - lia.
  - intros l Hl. rewrite I2 by lia. now apply I1.
  - lia.
  - congruence.
Qed.

Lemma kernelsKept_same s s' :
  kernelHeap s' = kernelHeap s -> totalKernelsCreated s' = totalKernelsCreated s ->
  config s' = config s -> kernelsKept s s'.
Proof. intros H1 H2 H3. constructor; rewrite ?H1, ?H2; auto. Qed.

(** A kernel object is rewritten with its identity intact. *)
Lemma kernelsKept_rewrite s s' l k :
  kernelHeap s' = replaceAt l k (kernelHeap s) ->
  identity k = identity (kernelAt (kernelHeap s) l) ->
  totalKernelsCreated s' = totalKernelsCreated s ->
  config s' = config s -> kernelsKept s s'.
Proof.
  intros H1 Hk H2 H3. constructor; rewrite ?H1, ?H2, ?length_replaceAt; auto.
  intros l' Hl'. rewrite kernelAt_replaceAt.
  destruct (Nat.eqb_spec l' l) as [->|Hne]; cbn [andb]; auto.
  destruct (l <? List.length (kernelHeap s))%nat; auto.
Qed.

(** A kernel object is made and counted. *)
Lemma kernelsKept_alloc {A : Type} k (rest : loc -> M A) :
  (forall l, respects kernelsKept (rest l)) ->
  respects kernelsKept (l <- allocKernel k ;; bumpTotalKernelsCreated ;; rest l).
Proof.
  intros H s. unfold bind, allocKernel, bumpTotalKernelsCreated, modify.
  set (s1 := set_totalKernelsCreated _ _).
  assert (H1 : kernelsKept s s1).
  { constructor; unfold s1; cbn [kernelHeap totalKernelsCreated config
                                   set_totalKernelsCreated set_kernelHeap].
    - rewrite length_app. lia.
    - intros l Hl. unfold kernelAt. now rewrite app_nth1.
    - rewrite length_app. cbn [List.length]. lia.
    - reflexivity. }
  specialize (H (List.length (kernelHeap s)) s1).
  destruct (rest _ s1); auto; eapply kernelsKept_trans; eauto.
Qed.

Ltac kept_prim := apply kernelsKept_same; reflexivity.

Ltac kept_auto :=
  repeat first
    [ match goal with
      | |- respects _ (bind (allocKernel _) _) => apply kernelsKept_alloc; intros ?
      end
    | respects_step kernelsKept_refl kernelsKept_trans kept_prim ].

Section KernelsKept.

Variable E : Env.

Lemma kept_mathRandom : respects kernelsKept (mathRandom E).
Proof. unfold mathRandom. kept_auto. Qed.

Lemma kept_dateNow : respects kernelsKept (dateNow E).
Proof. unfold dateNow. kept_auto. Qed.

Lemma kept_emitEvent d : respects kernelsKept (emitEvent E d).
Proof. unfold emitEvent, dateNow. kept_auto. Qed.

Lemma kept_generateKernelId : respects kernelsKept (generateKernelId E).
Proof. unfold generateKernelId, dateNow, mathRandom. kept_auto. Qed.

Lemma kept_cloneGenes ls : respects kernelsKept (cloneGenes ls).
Proof. unfold cloneGenes, readGene, allocGene. kept_auto. Qed.

Lemma kept_asexualReproduction g : respects kernelsKept (asexualReproduction g).
Proof. unfold asexualReproduction. pose proof kept_cloneGenes. kept_auto. Qed.

Lemma kept_crossover g1 g2 : respects kernelsKept (crossover E g1 g2).
Proof.
  unfold crossover. pose proof kept_cloneGenes. pose proof kept_mathRandom. kept_auto.
Qed.

Lemma kept_multiParentCore gs idxs acc :
  respects kernelsKept (multiParentCore E gs idxs acc).
Proof.
  revert acc. induction idxs as [|i idxs IH]; intros acc; simpl.
  - kept_auto.
  - pose proof kept_mathRandom. unfold readGene, allocGene. kept_auto.
Qed.

Lemma kept_multiParentBreeding gs : respects kernelsKept (multiParentBreeding E gs).
Proof.
  unfold multiParentBreeding.
  pose proof kept_multiParentCore. pose proof kept_cloneGenes.
  pose proof kept_mathRandom. kept_auto.
Qed.

Lemma kept_drawNonZero fuel : respects kernelsKept (drawNonZero E fuel).
Proof. induction fuel as [|fuel IH]; simpl; pose proof kept_mathRandom; kept_auto. Qed.

Lemma kept_gaussianRandom : respects kernelsKept (gaussianRandom E).
Proof. unfold gaussianRandom. pose proof kept_drawNonZero. kept_auto. Qed.

Lemma kept_mutateGene l : respects kernelsKept (mutateGene E l).
Proof.
  unfold mutateGene.
  pose proof kept_gaussianRandom. pose proof kept_mathRandom. pose proof kept_dateNow.
  unfold readGene, writeGene. kept_auto.
Qed.

Lemma kept_mutateCoreGenes ls rate acc :
  respects kernelsKept (mutateCoreGenes E ls rate acc).
Proof.
  revert acc. induction ls as [|l ls IH]; intros acc; simpl.
  - kept_auto.
  - pose proof (kept_mutateGene l). pose proof kept_mathRandom.
    unfold readGene. kept_auto.
Qed.

Lemma kept_applyMutations g rate : respects kernelsKept (applyMutations E g rate).
Proof.
  unfold applyMutations.
  pose proof kept_mutateCoreGenes. pose proof kept_mathRandom. pose proof kept_dateNow.
  unfold allocGene. kept_auto.
Qed.

Lemma kept_breedOne rq ps p0 i : respects kernelsKept (breedOne E rq ps p0 i).
Proof.
  unfold breedOne.
  pose proof kept_asexualReproduction. pose proof kept_crossover.
  pose proof kept_multiParentBreeding. pose proof kept_applyMutations.
  pose proof kept_generateKernelId. pose proof kept_dateNow.
  kept_auto.
Qed.

Lemma kept_breedLoop rq ps p0 idxs acc :
  respects kernelsKept (breedLoop E rq ps p0 idxs acc).
Proof.
  revert acc. induction idxs as [|i idxs IH]; intros acc; simpl.
  - kept_auto.
  - pose proof kept_breedOne. kept_auto.
Qed.

Lemma kept_breed rq : respects kernelsKept (breed E rq).
Proof. unfold breed. pose proof kept_breedLoop. pose proof kept_emitEvent. kept_auto. Qed.

Lemma kept_createKernel t c : respects kernelsKept (createKernel E t c).
Proof.
  unfold createKernel.
  pose proof kept_generateKernelId. pose proof kept_dateNow. pose proof kept_emitEvent.
  kept_auto.
Qed.

Lemma kept_evaluateFitness id sc : respects kernelsKept (evaluateFitness E id sc).
Proof.
  intros s. unfold evaluateFitness, bind, get. destruct (findKernel s id) as [l|].
  - cbn. eapply kernelsKept_rewrite; reflexivity.
  - apply kernelsKept_refl.
Qed.

Lemma kept_activateKernel id : respects kernelsKept (activateKernel E id).
Proof.
  intros s. unfold activateKernel, bind, get. destruct (findKernel s id) as [l|].
  - unfold readKernel. destruct (isDeprecated _).
    + apply kernelsKept_refl.
    + cbn. eapply kernelsKept_rewrite; reflexivity.
  - apply kernelsKept_refl.
Qed.

Lemma kept_deprecateKernel id : respects kernelsKept (deprecateKernel E id).
Proof.
  intros s. unfold deprecateKernel, bind, get. destruct (findKernel s id) as [l|].
  - cbn. eapply kernelsKept_rewrite; reflexivity.
  - apply kernelsKept_refl.
Qed.

Lemma kept_archiveKernel i l : respects kernelsKept (archiveKernel i l).
Proof. intros s. cbn. eapply kernelsKept_rewrite; reflexivity. Qed.

Lemma kept_initializePopulations : respects kernelsKept (initializePopulations E).
Proof. unfold initializePopulations. pose proof kept_createKernel. kept_auto. Qed.

Lemma kept_startEvolution : respects kernelsKept (startEvolution E).
Proof. unfold startEvolution. pose proof kept_initializePopulations. kept_auto. Qed.

Lemma kept_stopEvolution : respects kernelsKept stopEvolution.
Proof. unfold stopEvolution. kept_auto. Qed.

Lemma kept_performSelection i : respects kernelsKept (performSelection i).
Proof.
  unfold performSelection, readPopulation, writePopulation.
  pose proof kept_archiveKernel. kept_auto.
Qed.

Lemma kept_pickElite elite : respects kernelsKept (pickElite E elite).
Proof. unfold pickElite. pose proof kept_mathRandom. kept_auto. Qed.

Lemma kept_breedInto i rq : respects kernelsKept (breedInto E i rq).
Proof.
  unfold breedInto, readPopulation, writePopulation. pose proof kept_breed. kept_auto.
Qed.

Lemma kept_growSlot i elite rate : respects kernelsKept (growSlot E i elite rate).
Proof.
  unfold growSlot. pose proof kept_pickElite. pose proof kept_breedInto.
  pose proof kept_mathRandom. kept_auto.
Qed.

Lemma kept_performBreeding i : respects kernelsKept (performBreeding E i).
Proof. unfold performBreeding, readPopulation. pose proof kept_growSlot. kept_auto. Qed.

Lemma kept_updatePopulationStatistics i :
  respects kernelsKept (updatePopulationStatistics E i).
Proof.
  unfold updatePopulationStatistics, readPopulation, writePopulation.
  pose proof kept_emitEvent. kept_auto.
Qed.

Lemma kept_checkForEmergence : respects kernelsKept (checkForEmergence E).
Proof.
  unfold checkForEmergence. pose proof kept_emitEvent. pose proof kept_dateNow. kept_auto.
Qed.

Lemma kept_evolutionCycle : respects kernelsKept (evolutionCycle E).
Proof.
  unfold evolutionCycle, advanceGeneration, readPopulation, writePopulation.
  pose proof kept_performSelection. pose proof kept_performBreeding.
  pose proof kept_updatePopulationStatistics. pose proof kept_checkForEmergence.
  pose proof kept_emitEvent. pose proof kept_dateNow.
  kept_auto.
Qed.

Lemma kept_runOp op : respects kernelsKept (runOp E op).
Proof.
  destruct op; cbn [runOp];
    pose proof kept_startEvolution; pose proof kept_stopEvolution;
    pose proof kept_evolutionCycle; pose proof kept_createKernel;
    pose proof kept_breed; pose proof kept_evaluateFitness;
    pose proof kept_activateKernel; pose proof kept_deprecateKernel;
    kept_auto.
Qed.

End KernelsKept.

Lemma step_kernelsKept E op s s' : stepTo E op s s' -> kernelsKept s s'.
Proof. intros [_ Hf]. exact (respects_final _ _ s s' (kept_runOp E op) Hf). Qed.

Lemma steps_kernelsKept E s s' : stepsTo E s s' -> kernelsKept s s'.
Proof.
  induction 1 as [s|s s1 s2 op Hstep _ IH].
  - apply kernelsKept_refl.
  - eapply kernelsKept_trans; [eapply step_kernelsKept; eauto|exact IH].
Qed.

(** X11. Over any sequence of engine operations a kernel object that exists
    keeps its id, name, version, type, lineage, genome (the gene arrays and the
    checksum) and creation time: only its fitness, its state and
    [lastActivated] are ever written. The configuration of the engine stays
    the same as well. *)
Theorem kernel_identity_is_fixed (E : Env) (s s' : State) (l : loc) :
  stepsTo E s s' ->
  (l < List.length (kernelHeap s))%nat ->
  let k := kernelAt (kernelHeap s) l in
  let k' := kernelAt (kernelHeap s') l in
  k_id k' = k_id k /\ k_name k' = k_name k /\ k_version k' = k_version k /\
  k_type k' = k_type k /\ lineage k' = lineage k /\ genome k' = genome k /\
  created k' = created k /\ config s' = config s.
Proof.
  intros Hsteps Hl k k'. apply steps_kernelsKept in Hsteps.
  destruct Hsteps as [_ Hid _ Hcfg]. specialize (Hid l Hl).
  unfold identity in Hid. fold k k' in Hid. injection Hid as -> -> -> -> -> -> ->.
  auto 10.
Qed.

Lemma kernel_identity_is_fixed_witness :
  let k := kernelAt (kernelHeap founded) 0%nat in
  let k' := kernelAt (kernelHeap oneArchived) 0%nat in
  k_id k' = k_id k /\ k_name k' = k_name k /\ k_version k' = k_version k /\
  k_type k' = k_type k /\ lineage k' = lineage k /\ genome k' = genome k /\
  created k' = created k /\ config oneArchived = config founded.
Proof.
  assert (H1 : stepsTo sampleEnv founded oneArchived).
  { apply (runOps_stepsTo sampleEnv [OpEvaluateFitness (founderId 0) zeroScores; OpTick]).
    vm_compute. reflexivity. }
  assert (H2 : (0 < List.length (kernelHeap founded))%nat) by (vm_compute; lia).
  exact (kernel_identity_is_fixed sampleEnv founded oneArchived 0%nat H1 H2).
Defined.

Lemma reachable_counted E allowed s :
  reachableVia E allowed s -> totalKernelsCreated s = List.length (kernelHeap s).
Proof.
  induction 1 as [cfg|s s' op _ IH _ Hstep]; [reflexivity|].
  apply step_kernelsKept in Hstep. destruct Hstep as [_ _ Hc _]. lia.
Qed.

(** X12. In every reachable state [totalKernelsCreated] is the number of
    kernel objects made so far, by [createKernel] and by [breed] together
    (the founders of the populations and the offspring of the generation
    cycles included): each kernel made is counted once, also by operations that
    end in an exception. *)
Theorem created_kernels_are_counted (E : Env) (s : State) :
  reachable E s ->
  totalKernelsCreated s = List.length (kernelHeap s).
Proof. apply reachable_counted. Qed.

Lemma created_kernels_are_counted_witness :
  totalKernelsCreated oneArchived = List.length (kernelHeap oneArchived).
Proof. exact (created_kernels_are_counted sampleEnv oneArchived oneArchived_reachable). Defined.

(** ** Checksums stay up to date *)

Lemma genesGrow_refl s : genesGrow s s.
Proof. exists []. now rewrite app_nil_r. Qed.

Lemma genesGrow_length s s' :
  genesGrow s s' -> (List.length (geneHeap s) <= List.length (geneHeap s'))%nat.
Proof. intros [ext ->]. rewrite length_app. lia. Qed.

Lemma calculateChecksum_grow h ext core reg :
  Forall (fun l => (l < List.length h)%nat) (core ++ reg) ->
  calculateChecksum (h ++ ext) core reg = calculateChecksum h core reg.
Proof.
  intros H. apply Forall_app in H. destruct H as [Hc Hr]. unfold calculateChecksum.
  now rewrite !map_geneAt_app.
Qed.

Lemma sealed_kept s s' l :
  kernelsKept s s' -> genesGrow s s' -> (l < List.length (kernelHeap s))%nat ->
  sealed s l -> sealed s' l.
Proof.
  intros [_ Hid _ _] Hg Hl [Hin Hsum]. specialize (Hid l Hl).
  assert (Hgen : genome (kernelAt (kernelHeap s') l) = genome (kernelAt (kernelHeap s) l)).
  { unfold identity in Hid. now injection Hid. }
  unfold sealed. rewrite Hgen. pose proof (genesGrow_length _ _ Hg) as Hlen.
  destruct Hg as [ext Hext]. split.
  - unfold genesIn in *. eapply Forall_impl; [|exact Hin]. cbn. intros; lia.
  - rewrite Hext, calculateChecksum_grow by exact Hin. exact Hsum.
Qed.

Lemma sealing_refl s : sealing s s.
Proof.
  split; [apply kernelsKept_refl|]. split; [apply genesGrow_refl|].
  intros _ l Hl. lia.
Qed.

Lemma sealing_trans s0 s1 s2 : sealing s0 s1 -> sealing s1 s2 -> sealing s0 s2.
Proof.
  intros (K1 & G1 & B1) (K2 & G2 & B2).
  split; [eapply kernelsKept_trans; eauto|]. split; [eapply genesGrow_trans; eauto|].
  intros Ht l Hl.
  assert (Ht1 : templatesIn s1).
  { unfold templatesIn in *. pose proof (genesGrow_length _ _ G1). lia. }
  destruct (Nat.lt_ge_cases l (List.length (kernelHeap s1))) as [Hlt|Hge].
  - apply (sealed_kept s1 s2 l K2 G2 Hlt). apply B1; [exact Ht|lia].
  - apply B2; [exact Ht1|lia].
Qed.

(** A step that makes no kernel and writes no gene. *)
Lemma sealing_same s s' :
  kernelHeap s' = kernelHeap s -> totalKernelsCreated s' = totalKernelsCreated s ->
  config s' = config s -> geneHeap s' = geneHeap s -> sealing s s'.
Proof.
  intros H1 H2 H3 H4. split; [now apply kernelsKept_same|]. split.
  - exists []. now rewrite app_nil_r.
  - intros _ l Hl. rewrite H1 in Hl. lia.
Qed.

(** A computation that makes no kernel. *)
Lemma sealing_of_parts {A : Type} (m : M A) :
  respects kernelsKept m ->
  (forall n, respects (genesKept n) m) ->
  respects (fun s s' => List.length (kernelHeap s') = List.length (kernelHeap s)) m ->
  respects sealing m.
Proof.
  intros Hk Hg Hl s. specialize (Hk s). specialize (Hg (List.length (geneHeap s)) s).
  specialize (Hl s).
  destruct (m s) as [a s'|e s'|]; auto;
    (split; [exact Hk|]; split; [now apply genesKept_grow|]; intros _ l Hl'; lia).
Qed.

Lemma applyMutations_sealed E g rate s r s' :
  applyMutations E g rate s = Ret r s' ->
  genesIn s (coreGenes g ++ regulatoryGenes g) ->
  genesIn s' (coreGenes (fst r) ++ regulatoryGenes (fst r)) /\
  checksum (fst r)
  = calculateChecksum (geneHeap s') (coreGenes (fst r)) (regulatoryGenes (fst r)).
Proof.
  intros Hrun Hin. unfold applyMutations in Hrun.
  apply bind_Ret_inv in Hrun. destruct Hrun as (muts & s1 & H1 & Hrun).
  pose proof (genes_mutateCoreGenes E 0 (coreGenes g) rate []
                ltac:(apply Forall_forall; intros; lia) s) as Hk.
  rewrite H1 in Hk. destruct (Hk (Nat.le_0_l _)) as [Hlen _].
  apply bind_Ret_inv in Hrun. destruct Hrun as (r0 & s2 & H2 & Hrun).
  injection H2 as <- <-.
  apply bind_Ret_inv in Hrun. destruct Hrun as ([core muts'] & s3 & H3 & Hrun).
  injection Hrun as <- <-. cbn [fst coreGenes regulatoryGenes checksum].
  split; [|reflexivity].
  apply Forall_app in Hin. destruct Hin as [Hc Hr].
  destruct (Js.Qltb _ _).
  - injection H3 as <- _ <-. unfold genesIn.
    cbn [geneHeap set_geneHeap set_randomCalls set_nowCalls]. rewrite length_app.
    cbn [List.length]. repeat (apply Forall_app; split).
    + eapply Forall_impl; [|exact Hc]. cbn. intros; lia.
    + repeat constructor. lia.
    + eapply Forall_impl; [|exact Hr]. cbn. intros; lia.
  - injection H3 as <- _ <-. unfold genesIn. cbn [geneHeap set_randomCalls].
    apply Forall_app. split.
    + eapply Forall_impl; [|exact Hc]. cbn. intros; lia.
    + eapply Forall_impl; [|exact Hr]. cbn. intros; lia.
Qed.

Lemma freshGenes_in s s' ls : freshGenes s s' ls -> genesIn s' ls.
Proof. unfold freshGenes, genesIn. intros H. eapply Forall_impl; [|exact H]. cbn. intros; lia. Qed.

Lemma genesOnly_refl s : genesOnly s s.
Proof. repeat split. Qed.

Lemma genesOnly_trans s0 s1 s2 : genesOnly s0 s1 -> genesOnly s1 s2 -> genesOnly s0 s2.
Proof.
  intros (A1 & A2 & A3 & A4 & A5 & A6 & A7) (B1 & B2 & B3 & B4 & B5 & B6 & B7).
  repeat split; congruence.
Qed.

Ltac only_prim := repeat split; reflexivity.
Ltac only_auto := respects_auto genesOnly_refl genesOnly_trans only_prim.

Section GenesOnly.

Variable E : Env.

Lemma only_mathRandom : respects genesOnly (mathRandom E).
Proof. unfold mathRandom. only_auto. Qed.

Lemma only_dateNow : respects genesOnly (dateNow E).
Proof. unfold dateNow. only_auto. Qed.

Lemma only_generateKernelId : respects genesOnly (generateKernelId E).
Proof. unfold generateKernelId, dateNow, mathRandom. only_auto. Qed.

Lemma only_cloneGenes ls : respects genesOnly (cloneGenes ls).
Proof. unfold cloneGenes, readGene, allocGene. only_auto. Qed.

Lemma only_asexualReproduction g : respects genesOnly (asexualReproduction g).
Proof. unfold asexualReproduction. pose proof only_cloneGenes. only_auto. Qed.

Lemma only_crossover g1 g2 : respects genesOnly (crossover E g1 g2).
Proof.
  unfold crossover. pose proof only_cloneGenes. pose proof only_mathRandom. only_auto.
Qed.

Lemma only_multiParentCore gs idxs acc :
  respects genesOnly (multiParentCore E gs idxs acc).
Proof.
  revert acc. induction idxs as [|i idxs IH]; intros acc; simpl.
  - only_auto.
  - pose proof only_mathRandom. unfold readGene, allocGene. only_auto.
Qed.

Lemma only_multiParentBreeding gs : respects genesOnly (multiParentBreeding E gs).
Proof.
  unfold multiParentBreeding.
  pose proof only_multiParentCore. pose proof only_cloneGenes.
  pose proof only_mathRandom. only_auto.
Qed.

Lemma only_drawNonZero fuel : respects genesOnly (drawNonZero E fuel).
Proof. induction fuel as [|fuel IH]; simpl; pose proof only_mathRandom; only_auto. Qed.

Lemma only_gaussianRandom : respects genesOnly (gaussianRandom E).
Proof. unfold gaussianRandom. pose proof only_drawNonZero. only_auto. Qed.

Lemma only_mutateGene l : respects genesOnly (mutateGene E l).
Proof.
  unfold mutateGene.
  pose proof only_gaussianRandom. pose proof only_mathRandom. pose proof only_dateNow.
  unfold readGene, writeGene. only_auto.
Qed.

Lemma only_mutateCoreGenes ls rate acc :
  respects genesOnly (mutateCoreGenes E ls rate acc).
Proof.
  revert acc. induction ls as [|l ls IH]; intros acc; simpl.
  - only_auto.
  - pose proof (only_mutateGene l). pose proof only_mathRandom.
    unfold readGene. only_auto.
Qed.

Lemma only_applyMutations g rate : respects genesOnly (applyMutations E g rate).
Proof.
  unfold applyMutations.
  pose proof only_mutateCoreGenes. pose proof only_mathRandom. pose proof only_dateNow.
  unfold allocGene. only_auto.
Qed.

End GenesOnly.

Lemma respects_Ret {A : Type} (R : State -> State -> Prop) (m : M A) s a s' :
  respects R m -> m s = Ret a s' -> R s s'.
Proof. intros H Hrun. specialize (H s). now rewrite Hrun in H. Qed.

(** The kernel [breedOne] makes is sealed. *)
Lemma breedOne_sealed E rq ps p0 i s r s' :
  breedOne E rq ps p0 i s = Ret r s' ->
  List.length (kernelHeap s') = S (List.length (kernelHeap s)) /\
  sealed s' (List.length (kernelHeap s)).
Proof.
  intros Hrun. unfold breedOne in Hrun.
  apply bind_Ret_inv in Hrun. destruct Hrun as (s0 & s0' & H0 & Hrun).
  injection H0 as <- <-.
  apply bind_Ret_inv in Hrun. destruct Hrun as (g & s1 & H1 & Hrun).
  match type of H1 with ?m _ = _ =>
    assert (Hfresh : makesFresh m)
      by (destruct (rq_method rq);
          first [ apply makesFresh_asexualReproduction | apply makesFresh_crossover
                | apply makesFresh_multiParentBreeding ]);
    assert (Honly : respects genesOnly m)
      by (destruct (rq_method rq);
          first [ apply only_asexualReproduction | apply only_crossover
                | apply only_multiParentBreeding ])
  end.
  specialize (Hfresh s). rewrite H1 in Hfresh.
  apply (respects_Ret _ _ _ _ _ Honly) in H1. destruct H1 as (K1 & _).
  apply bind_Ret_inv in Hrun. destruct Hrun as (s1' & s1'' & H0 & Hrun).
  injection H0 as <- <-.
  apply bind_Ret_inv in Hrun. destruct Hrun as ([g' muts] & s2 & H2 & Hrun).
  destruct (applyMutations_sealed E _ _ _ _ _ H2 (freshGenes_in _ _ _ Hfresh))
    as [Hin Hsum].
  apply (respects_Ret _ _ _ _ _ (only_applyMutations E _ _)) in H2.
  destruct H2 as (K2 & _).
  cbn [fst] in Hin, Hsum.
  apply bind_Ret_inv in Hrun. destruct Hrun as (id & s3 & H3 & Hrun).
  injection H3 as <- <-.
  unfold bind, get, dateNow, allocKernel, bumpTotalKernelsCreated, modify, ret in Hrun.
  injection Hrun as <- <-.
  cbn [kernelHeap geneHeap set_totalKernelsCreated set_kernelHeap set_nowCalls
       set_randomCalls].
  rewrite K2, K1. split.
  - rewrite length_app. cbn [List.length]. lia.
  - unfold sealed, genesIn in *.
    cbn [kernelHeap geneHeap set_totalKernelsCreated set_kernelHeap set_nowCalls
         set_randomCalls].
    unfold kernelAt. rewrite !nth_middle. cbn [genome].
    split; [exact Hin|exact Hsum].
Qed.
Lemma bind_Throw_inv {A B : Type} (m : M A) (k : A -> M B) s e s' :
  bind m k s = Throw e s' ->
  m s = Throw e s' \/ exists a s1, m s = Ret a s1 /\ k a s1 = Throw e s'.
Proof.
  unfold bind. destruct (m s) as [a s1|e1 s1|]; intros H; try discriminate.
  - right. now exists a, s1.
  - left. destruct e, e1. inversion H; subst. reflexivity.
Qed.

(** When [breedOne] throws, no kernel has been made. *)
Lemma breedOne_Throw E rq ps p0 i s e s' :
  breedOne E rq ps p0 i s = Throw e s' -> kernelHeap s' = kernelHeap s.
Proof.
  intros Hrun. unfold breedOne in Hrun.
  apply bind_Throw_inv in Hrun. destruct Hrun as [H|(s0 & s0' & H0 & Hrun)]; [discriminate|].
  injection H0 as <- <-.
  match type of Hrun with bind ?m _ _ = _ =>
    assert (Honly : respects genesOnly m)
      by (destruct (rq_method rq);
          first [ apply only_asexualReproduction | apply only_crossover
                | apply only_multiParentBreeding ])
  end.
  apply bind_Throw_inv in Hrun. destruct Hrun as [H1|(g & s1 & H1 & Hrun)].
  { specialize (Honly s). rewrite H1 in Honly. now destruct Honly. }
  apply (respects_Ret _ _ _ _ _ Honly) in H1. destruct H1 as (K1 & _).
  apply bind_Throw_inv in Hrun. destruct Hrun as [H|(s1' & s1'' & H0 & Hrun)]; [discriminate|].
  injection H0 as <- <-.
  apply bind_Throw_inv in Hrun. destruct Hrun as [H2|([g' muts] & s2 & H2 & Hrun)].
  { pose proof (only_applyMutations E g
                  match rq_mutationRate rq with
                  | Some r => r
                  | None => baseMutationRate (config s1)
                  end s1) as Ha.
    rewrite H2 in Ha. destruct Ha as (K2 & _). congruence. }
  discriminate.
Qed.

Section Sealing.

Variable E : Env.

Lemma sealing_breedOne rq ps p0 i : respects sealing (breedOne E rq ps p0 i).
Proof.
  intros s. pose proof (kept_breedOne E rq ps p0 i s) as Hk.
  pose proof (genes_breedOne E (List.length (geneHeap s)) rq ps p0 i s) as Hg.
  destruct (breedOne E rq ps p0 i s) as [r s'|e s'|] eqn:Hrun; auto.
  - split; [exact Hk|]. split; [now apply genesKept_grow|].
    intros _ l Hl. destruct (breedOne_sealed E _ _ _ _ _ _ _ Hrun) as [Hlen Hs].
    replace l with (List.length (kernelHeap s)) by lia. exact Hs.
  - split; [exact Hk|]. split; [now apply genesKept_grow|].
    intros _ l Hl. rewrite (breedOne_Throw E _ _ _ _ _ _ _ Hrun) in Hl. lia.
Qed.

(** The kernel [createKernel] makes. *)
Lemma createKernel_run t c s :
  exists k s',
    createKernel E t c s = Ret (List.length (kernelHeap s)) s' /\
    kernelHeap s' = kernelHeap s ++ [k] /\
    geneHeap s' = geneHeap s /\
    genome k = mkGenome (coreOfCall t c) (regulatoryOfCall t c)
                 (orEmpty (pg_expressionModifiers (baseGenome t)))
                 (calculateChecksum (geneHeap s) (coreOfCall t c) (regulatoryOfCall t c)).
Proof.
  eexists. eexists. split; [|split; [|split]].
  - unfold createKernel, generateKernelId, bumpTotalKernelsCreated, emitEvent, dateNow,
      mathRandom, allocKernel, modify, bind, get, ret.
    cbv beta iota zeta. reflexivity.
  - reflexivity.
  - reflexivity.
  - reflexivity.
Qed.

Lemma sealing_createKernel t c :
  Forall (fun l => (l < List.length templateGenes)%nat) (genesOfCall t c) ->
  respects sealing (createKernel E t c).
Proof.
  intros Hgenes s. pose proof (kept_createKernel E t c s) as Hk.
  pose proof (genes_createKernel E (List.length (geneHeap s)) t c s) as Hg.
  destruct (createKernel_run t c s) as (k & s' & Hrun & Hkh & Hgh & Hgen).
  rewrite Hrun in *.
  split; [exact Hk|]. split; [now apply genesKept_grow|].
  intros Ht l' Hl'. rewrite Hkh, length_app in Hl'. cbn [List.length] in Hl'.
  replace l' with (List.length (kernelHeap s)) by lia.
  unfold sealed, genesIn. rewrite Hkh, Hgh. unfold kernelAt. rewrite nth_middle, Hgen.
  cbn [coreGenes regulatoryGenes checksum]. split; [|reflexivity].
  unfold templatesIn in Ht. unfold genesOfCall in Hgenes.
  eapply Forall_impl; [|exact Hgenes]. intros a Ha. cbv beta in Ha |- *. lia.
Qed.

Lemma sealing_evaluateFitness id sc : respects sealing (evaluateFitness E id sc).
Proof.
  apply sealing_of_parts.
  - apply kept_evaluateFitness.
  - intros n. apply genes_evaluateFitness.
  - intros s. unfold evaluateFitness, bind, get. destruct (findKernel s id); [|reflexivity].
    cbn. apply length_replaceAt.
Qed.

Lemma sealing_activateKernel id : respects sealing (activateKernel E id).
Proof.
  apply sealing_of_parts.
  - apply kept_activateKernel.
  - intros n. apply genes_activateKernel.
  - intros s. unfold activateKernel, bind, get. destruct (findKernel s id); [|reflexivity].
    unfold readKernel. destruct (isDeprecated _); [reflexivity|].
    cbn. apply length_replaceAt.
Qed.

Lemma sealing_deprecateKernel id : respects sealing (deprecateKernel E id).
Proof.
  apply sealing_of_parts.
  - apply kept_deprecateKernel.
  - intros n. apply genes_deprecateKernel.
  - intros s. unfold deprecateKernel, bind, get. destruct (findKernel s id); [|reflexivity].
    cbn. apply length_replaceAt.
Qed.

Lemma sealing_performSelection i : respects sealing (performSelection i).
Proof.
  apply sealing_of_parts.
  - apply kept_performSelection.
  - intros n. apply genes_performSelection.
  - intros s. destruct (performSelection_spec i s) as (s' & Hrun & Hsel).
    rewrite Hrun. exact (mk_length _ _ _ (sel_marked _ _ _ Hsel)).
Qed.

End Sealing.

Ltac sealing_prim := apply sealing_same; reflexivity.
Ltac sealing_auto := respects_auto sealing_refl sealing_trans sealing_prim.

Lemma KERNEL_TEMPLATES_genes type template :
  find (fun t => kernelType_eqb (t_type t) type) KERNEL_TEMPLATES = Some template ->
  Forall (fun l => (l < List.length templateGenes)%nat) (genesOfCall template None).
Proof.
  intros H. destruct type; vm_compute in H; try discriminate;
    injection H as <-; vm_compute; repeat constructor.
Qed.

Section SealingOfTheEngine.

Variable E : Env.

Lemma sealing_mathRandom : respects sealing (mathRandom E).
Proof. unfold mathRandom. sealing_auto. Qed.

Lemma sealing_dateNow : respects sealing (dateNow E).
Proof. unfold dateNow. sealing_auto. Qed.

Lemma sealing_emitEvent d : respects sealing (emitEvent E d).
Proof. unfold emitEvent, dateNow. sealing_auto. Qed.

Lemma sealing_breedLoop rq ps p0 idxs acc :
  respects sealing (breedLoop E rq ps p0 idxs acc).
Proof.
  revert acc. induction idxs as [|i idxs IH]; intros acc; simpl.
  - sealing_auto.
  - pose proof (sealing_breedOne E). sealing_auto.
Qed.

Lemma sealing_breed rq : respects sealing (breed E rq).
Proof. unfold breed. pose proof sealing_breedLoop. pose proof sealing_emitEvent. sealing_auto. Qed.

Lemma sealing_initializePopulations : respects sealing (initializePopulations E).
Proof.
  unfold initializePopulations.
  apply (respects_forEach _ sealing_refl sealing_trans). intros type.
  apply (respects_bind _ sealing_trans); [apply (respects_get _ sealing_refl)|]. intros s.
  apply (respects_bind _ sealing_trans).
  - destruct (find _ KERNEL_TEMPLATES) as [template|] eqn:Hf.
    + apply (respects_mapM _ sealing_refl sealing_trans). intros _.
      apply sealing_createKernel. exact (KERNEL_TEMPLATES_genes _ _ Hf).
    + apply (respects_ret _ sealing_refl).
  - intros ks. sealing_auto.
Qed.

Lemma sealing_startEvolution : respects sealing (startEvolution E).
Proof. unfold startEvolution. pose proof sealing_initializePopulations. sealing_auto. Qed.

Lemma sealing_stopEvolution : respects sealing stopEvolution.
Proof. unfold stopEvolution. sealing_auto. Qed.

Lemma sealing_pickElite elite : respects sealing (pickElite E elite).
Proof. unfold pickElite. pose proof sealing_mathRandom. sealing_auto. Qed.

Lemma sealing_breedInto i rq : respects sealing (breedInto E i rq).
Proof.
  unfold breedInto, readPopulation, writePopulation. pose proof sealing_breed.
  sealing_auto.
Qed.

Lemma sealing_growSlot i elite rate : respects sealing (growSlot E i elite rate).
Proof.
  unfold growSlot. pose proof sealing_pickElite. pose proof sealing_breedInto.
  pose proof sealing_mathRandom. sealing_auto.
Qed.

Lemma sealing_performBreeding i : respects sealing (performBreeding E i).
Proof. unfold performBreeding, readPopulation. pose proof sealing_growSlot. sealing_auto. Qed.

Lemma sealing_updatePopulationStatistics i :
  respects sealing (updatePopulationStatistics E i).
Proof.
  unfold updatePopulationStatistics, readPopulation, writePopulation.
  pose proof sealing_emitEvent. sealing_auto.
Qed.

Lemma sealing_checkForEmergence : respects sealing (checkForEmergence E).
Proof.
  unfold checkForEmergence. pose proof sealing_emitEvent. pose proof sealing_dateNow.
  sealing_auto.
Qed.

Lemma sealing_evolutionCycle : respects sealing (evolutionCycle E).
Proof.
  unfold evolutionCycle, advanceGeneration, readPopulation, writePopulation.
  pose proof sealing_performSelection. pose proof sealing_performBreeding.
  pose proof sealing_updatePopulationStatistics. pose proof sealing_checkForEmergence.
  pose proof sealing_emitEvent. pose proof sealing_dateNow.
  sealing_auto.
Qed.

Lemma sealing_runOp op : templateGenesOnly op -> respects sealing (runOp E op).
Proof.
  intros Hop. destruct op; cbn [runOp];
    pose proof sealing_startEvolution; pose proof sealing_stopEvolution;
    pose proof sealing_evolutionCycle; pose proof (sealing_createKernel E);
    pose proof sealing_breed; pose proof (sealing_evaluateFitness E);
    pose proof (sealing_activateKernel E); pose proof (sealing_deprecateKernel E);
    try solve [sealing_auto].
  apply (respects_bind _ sealing_trans); [now apply sealing_createKernel|].
  intros l. apply (respects_ret _ sealing_refl).
Qed.

End SealingOfTheEngine.

Lemma reachable_sealed E s :
  reachableVia E templateGenesOnly s ->
  templatesIn s /\ forall l, (l < List.length (kernelHeap s))%nat -> sealed s l.
Proof.
  induction 1 as [cfg|s s' op _ [Ht IH] Hop [_ Hf]].
  - split; [apply le_n|]. intros l Hl. simpl in Hl. lia.
  - pose proof (respects_final _ _ s s' (sealing_runOp E op Hop) Hf) as (K & G & B).
    split.
    + unfold templatesIn in *. pose proof (genesGrow_length _ _ G). lia.
    + intros l Hl. destruct (Nat.lt_ge_cases l (List.length (kernelHeap s))) as [Hlt|Hge].
      * apply (sealed_kept s s' l K G Hlt). now apply IH.
      * apply B; [exact Ht|lia].
Qed.

(** X13. In every state reached by operations whose [createKernel] calls
    use only genes of [KERNEL_TEMPLATES], the checksum of every kernel ever
    made equals [calculateChecksum] of the present contents of its genes: the
    checksum written when the kernel was made (for an offspring after its
    mutations were applied) never goes stale, because no later operation writes
    a gene of an existing kernel. *)
Theorem checksums_stay_valid (E : Env) (s : State) (l : loc) :
  reachableVia E templateGenesOnly s ->
  (l < List.length (kernelHeap s))%nat ->
  let g := genome (kernelAt (kernelHeap s) l) in
  checksum g = calculateChecksum (geneHeap s) (coreGenes g) (regulatoryGenes g).
Proof.
  intros Hreach Hl g. destruct (reachable_sealed E s Hreach) as [_ H].
  exact (proj2 (H l Hl)).
Qed.

Lemma checksums_stay_valid_witness :
  let s := afterOps sampleEnv [OpTick] founded in
  let g := genome (kernelAt (kernelHeap s) 20%nat) in
  checksum g = calculateChecksum (geneHeap s) (coreGenes g) (regulatoryGenes g).
Proof.
  intros s.
  assert (H1 : reachableVia sampleEnv templateGenesOnly s).
  { apply (runOps_reachableVia sampleEnv templateGenesOnly [OpStartEvolution; OpTick]
             (createInitialState DEFAULT_EVOLUTION_CONFIG)).
    - repeat constructor.
    - apply reach_init.
    - vm_compute. reflexivity. }
  assert (H2 : (20 < List.length (kernelHeap s))%nat) by (vm_compute; lia).
  exact (checksums_stay_valid sampleEnv s 20%nat H1 H2).
Defined.

(** ** Refilling a population *)

Lemma kernelsGrow_refl s : kernelsGrow s s.
Proof. exists []. split; [now rewrite app_nil_r|constructor]. Qed.

Lemma kernelsGrow_trans s0 s1 s2 :
  kernelsGrow s0 s1 -> kernelsGrow s1 s2 -> kernelsGrow s0 s2.
Proof.
  intros (e1 & H1 & F1) (e2 & H2 & F2). exists (e1 ++ e2). split.
  - now rewrite H2, H1, app_assoc.
  - apply Forall_app. now split.
Qed.

Lemma kernelsGrow_born s s' c :
  kernelsGrow s s' -> bornBetween s s' c -> newborn (kernelAt (kernelHeap s') c).
Proof.
  intros (ext & Hext & Hnew) [Hlo Hhi]. rewrite Hext in *. rewrite length_app in Hhi.
  unfold kernelAt. rewrite app_nth2 by lia.
  rewrite Forall_forall in Hnew. apply Hnew. apply nth_In. lia.
Qed.

Lemma kernelsGrow_kernelAt s s' l :
  kernelsGrow s s' -> (l < List.length (kernelHeap s))%nat ->
  kernelAt (kernelHeap s') l = kernelAt (kernelHeap s) l.
Proof. intros (ext & -> & _) Hl. unfold kernelAt. now apply app_nth1. Qed.

Lemma kernelsGrow_length s s' :
  kernelsGrow s s' -> (List.length (kernelHeap s) <= List.length (kernelHeap s'))%nat.
Proof. intros (ext & -> & _). rewrite length_app. lia. Qed.

Lemma extends_kernelsGrow s s' : extends s s' -> kernelsGrow s s'.
Proof. intros (_ & _ & _ & _ & H). exact H. Qed.

Section Refill.

Variable E : Env.
Hypothesis inRange : drawsInRange E.
Hypothesis notStuck : drawsNotStuck E.

(** With a non-empty elite slice, [pickElite] returns the id of one of its
    members. *)
Lemma pickElite_picks elite s :
  elite <> [] ->
  exists l, In l elite /\
            pickElite E elite s
            = Ret (k_id (kernelAt (kernelHeap s) l)) (set_randomCalls (S (randomCalls s)) s).
Proof.
  intros Hne. unfold pickElite, bind, mathRandom, get.
  destruct (floorTimes_range (random E (randomCalls s)) (List.length elite) (inRange _))
    as [Hlo Hhi].
  assert (Hpos : (0 < List.length elite)%nat) by (destruct elite; [contradiction|simpl; lia]).
  specialize (Hhi Hpos). unfold Js.index.
  destruct (Z.ltb_spec (floorTimes (random E (randomCalls s)) (List.length elite)) 0);
    [lia|].
  destruct (nth_error elite (Z.to_nat (floorTimes (random E (randomCalls s))
                                         (List.length elite)))) as [l|] eqn:Hnth.
  - exists l. split; [eapply nth_error_In; eauto|reflexivity].
  - apply nth_error_None in Hnth. lia.
Qed.

(** The parents [growSlot] hands to [breed] resolve. *)
Lemma resolveParents_members s i ls :
  wellOwned s -> ls <> [] -> incl ls (kernelsOf s i) ->
  exists p0 rest,
    resolveParents s (map (fun l => k_id (kernelAt (kernelHeap s) l)) ls) = p0 :: rest /\
    Forall (fun p => (p < List.length (kernelHeap s))%nat) (p0 :: rest).
Proof.
  intros W Hne Hincl.
  assert (Hall : forall ls', incl ls' (kernelsOf s i) ->
             Forall (fun p => (p < List.length (kernelHeap s))%nat)
               (resolveParents s (map (fun l => k_id (kernelAt (kernelHeap s) l)) ls')) /\
             (ls' <> [] ->
              resolveParents s (map (fun l => k_id (kernelAt (kernelHeap s) l)) ls') <> [])).
  { induction ls' as [|l ls' IH]; intros Hi.
    - split; [constructor|]. intros H. now destruct H.
    - destruct (findKernel_member s i l (Hi l (or_introl eq_refl)))
        as (p & Hfind & Hheld & _).
      destruct IH as [IH _]; [intros x Hx; apply Hi; now right|].
      unfold resolveParents in *. cbn [map flat_map]. rewrite Hfind. cbn [app].
      split; [|discriminate].
      constructor; [now apply held_bound|exact IH]. }
  destruct (Hall ls Hincl) as [Hf Hn]. specialize (Hn Hne).
  destruct (resolveParents s _) as [|p0 rest]; [contradiction|].
  now exists p0, rest.
Qed.

(** One turn of the breeding loop, with a non-empty elite slice of kernels
    of the population: one newly made kernel is appended to the population. *)
Lemma growSlot_grows i elite rate s :
  inCycle E s -> elite <> [] -> incl elite (kernelsOf s i) ->
  exists s' c,
    growSlot E i elite rate s = Ret tt s' /\
    kernelsOf s' i = kernelsOf s i ++ [c] /\
    (forall j, j <> i -> kernelsOf s' j = kernelsOf s j) /\
    archive s' = archive s /\
    bornBetween s s' c /\
    kernelsGrow s s'.
Proof.
  intros Hc Hne Hincl. pose proof (inCycle_wellOwned E s Hc) as W.
  assert (Hi : (i < List.length (populations s))%nat).
  { destruct (Nat.lt_ge_cases i (List.length (populations s))) as [H|H]; [exact H|].
    destruct elite as [|l elite]; [contradiction|].
    specialize (Hincl l (or_introl eq_refl)). rewrite kernelsOf_beyond in Hincl by exact H.
    destruct Hincl. }
  set (method := if Js.Qltb (random E (randomCalls s)) rate then Crossover else Asexual).
  set (s1 := set_randomCalls (S (randomCalls s)) s).
  assert (Hids : exists ls s2,
             ls <> [] /\ incl ls elite /\
             (exists n, s2 = set_randomCalls n s) /\
             (if isCrossover method && (2 <=? List.length elite)%nat
              then a <- pickElite E elite ;; b <- pickElite E elite ;; ret [a; b]
              else a <- pickElite E elite ;; ret [a]) s1
             = Ret (map (fun l => k_id (kernelAt (kernelHeap s) l)) ls) s2).
  { destruct (isCrossover method && (2 <=? List.length elite)%nat).
    - destruct (pickElite_picks elite s1 Hne) as (a & Ha & Hpa).
      destruct (pickElite_picks elite (set_randomCalls (S (randomCalls s1)) s1) Hne)
        as (b & Hb & Hpb).
      exists [a; b]. eexists. split; [discriminate|]. split.
      { intros x [<-|[<-|[]]]; assumption. }
      split; [|unfold bind; rewrite Hpa, Hpb; reflexivity]. now eexists.
    - destruct (pickElite_picks elite s1 Hne) as (a & Ha & Hpa).
      exists [a]. eexists. split; [discriminate|]. split.
      { intros x [<-|[]]; assumption. }
      split; [|unfold bind; rewrite Hpa; reflexivity]. now eexists. }
  destruct Hids as (ls & s2 & Hls & Hlse & [n Hs2] & Hpick).
  assert (W2 : wellOwned s2).
  { subst s2. apply (wellOwned_congr s); auto. }
  destruct (resolveParents_members s i ls W Hls (fun x Hx => Hincl x (Hlse x Hx)))
    as (p0 & rest & Hres & Hin).
  set (rq := mkRequest (map (fun l => k_id (kernelAt (kernelHeap s) l)) ls) method None 1).
  assert (Hmeth : rq_method rq <> MultiParent).
  { cbn [rq rq_method]. unfold method. destruct (Js.Qltb _ _); discriminate. }
  destruct (breed_one_offspring E notStuck rq s2 p0 rest eq_refl Hmeth)
    as (c & ? & ? & r & s3 & _ & Hbreed & Hoff & _ & _ & He & Hb & _).
  { subst s2. exact Hres. }
  { subst s2. exact Hin. }
  assert (Hrun : growSlot E i elite rate s
                 = Ret tt
                     (set_populations
                        (replaceAt i
                           (withStatistics
                              (withTotalCreated
                                 (S (totalCreated (statistics (populationAt (populations s3) i))))
                                 (statistics (populationAt (populations s3) i)))
                              (withKernels (kernels (populationAt (populations s3) i) ++ [c])
                                 (populationAt (populations s3) i)))
                           (populations s3)) s3)).
  { unfold growSlot. unfold bind at 1. unfold mathRandom at 1. fold method. fold s1.
    unfold bind at 1. rewrite Hpick. fold rq.
    unfold breedInto, bind. rewrite Hbreed, Hoff. reflexivity. }
  rewrite Hrun. eexists. exists c. split; [reflexivity|].
  pose proof He as (Hpops & Harch & _ & _ & Hext).
  assert (Hpops' : populations s3 = populations s) by (rewrite Hpops, Hs2; reflexivity).
  split.
  { unfold kernelsOf. cbn [populations set_populations].
    rewrite populationAt_replaceAt, Nat.eqb_refl, Hpops'.
    destruct (Nat.ltb_spec i (List.length (populations s))); [reflexivity|lia]. }
  split.
  { intros j Hj. unfold kernelsOf. cbn [populations set_populations].
    rewrite populationAt_replaceAt, Hpops'.
    destruct (Nat.eqb_spec j i); [contradiction|reflexivity]. }
  split; [cbn [archive set_populations]; rewrite Harch, Hs2; reflexivity|].
  split.
  { unfold bornBetween in *. cbn [kernelHeap set_populations]. subst s2. exact Hb. }
  cbn [kernelsGrow]. unfold kernelsGrow. cbn [kernelHeap set_populations].
  subst s2. exact Hext.
Qed.

(** The breeding loop. *)
Lemma growLoop_grows i elite rate (idxs : list nat) s :
  inCycle E s -> elite <> [] -> incl elite (kernelsOf s i) ->
  exists s' cs,
    forEach idxs (fun _ => growSlot E i elite rate) s = Ret tt s' /\
    inCycle E s' /\
    kernelsOf s' i = kernelsOf s i ++ cs /\
    List.length cs = List.length idxs /\
    (forall j, j <> i -> kernelsOf s' j = kernelsOf s j) /\
    archive s' = archive s /\
    (forall c, In c cs -> bornBetween s s' c) /\
    kernelsGrow s s'.
Proof.
  revert s. induction idxs as [|x idxs IH]; intros s Hc Hne Hincl.
  - exists s, []. split; [reflexivity|]. split; [exact Hc|].
    split; [now rewrite app_nil_r|]. split; [reflexivity|].
    split; [auto|]. split; [reflexivity|]. split; [intros c []|apply kernelsGrow_refl].
  - destruct (growSlot_grows i elite rate s Hc Hne Hincl)
      as (s1 & c & Hrun & Hk & Ho & Ha & Hb & Hg).
    assert (Hc1 : inCycle E s1).
    { apply (inCycle_phase E s s1 (PhaseSlot i elite rate) Hc). cbn [runPhase].
      now rewrite Hrun. }
    destruct (IH s1 Hc1 Hne) as (s2 & cs & Hrun2 & Hc2 & Hk2 & Hlen & Ho2 & Ha2 & Hb2 & Hg2).
    { intros l Hl. rewrite Hk. apply in_or_app. left. now apply Hincl. }
    exists s2, (c :: cs). split.
    { cbn [forEach]. unfold bind. now rewrite Hrun. }
    split; [exact Hc2|]. split; [rewrite Hk2, Hk, <- app_assoc; reflexivity|].
    split; [cbn [List.length]; now rewrite Hlen|].
    split; [intros j Hj; rewrite Ho2, Ho; auto|].
    split; [congruence|]. split; [|eapply kernelsGrow_trans; eauto].
    pose proof (kernelsGrow_length _ _ Hg). pose proof (kernelsGrow_length _ _ Hg2).
    intros c' [<-|Hin].
    + unfold bornBetween in *. lia.
    + specialize (Hb2 c' Hin). unfold bornBetween in *. lia.
Qed.

End Refill.

Lemma Qceiling_positive (x : Q) : (0 < x)%Q -> 0 < Qceiling x.
Proof.
  intros Hx. pose proof (Qle_ceiling x) as H.
  assert (H0 : (inject_Z 0 < inject_Z (Qceiling x))%Q) by (eapply Qlt_le_trans; eauto).
  now rewrite <- Zlt_Qlt in H0.
Qed.

(** X14. In every state the engine passes through, with draws as
    [Math.random] gives them, a positive elitism rate and at least one kernel
    in the population, [performBreeding] returns normally and refills the
    population to its capacity: it appends exactly [max(0, capacity -
    kernels.length)] kernels to the end of [kernels], each of them a kernel
    made during the call, DORMANT and with the initial fitness; the kernels
    that were there stay in place, and no other population and not the archive
    are changed. *)
Theorem performBreeding_refills (E : Env) (s : State) (i : nat) :
  inCycle E s ->
  drawsInRange E ->
  drawsNotStuck E ->
  kernelsOf s i <> [] ->
  (0 < elitismRate (config s))%Q ->
  exists s' cs,
    performBreeding E i s = Ret tt s' /\
    kernelsOf s' i = kernelsOf s i ++ cs /\
    Z.of_nat (List.length cs)
    = Z.max 0 (capacity (populationAt (populations s) i)
               - Z.of_nat (List.length (kernelsOf s i))) /\
    (forall c, In c cs ->
               bornBetween s s' c /\
               k_state (kernelAt (kernelHeap s') c) = DORMANT /\
               fitness (kernelAt (kernelHeap s') c) = createInitialFitness) /\
    (forall j, j <> i -> kernelsOf s' j = kernelsOf s j) /\
    archive s' = archive s.
Proof.
  intros Hc Hrange Hstuck Hne Hrate.
  unfold performBreeding, bind, get, readPopulation. cbv beta.
  fold (kernelsOf s i).
  set (needed := Z.max 0 (capacity (populationAt (populations s) i)
                          - Z.of_nat (List.length (kernelsOf s i)))).
  destruct (Z.eqb_spec needed 0) as [H0|Hpos].
  - exists s, []. rewrite app_nil_r. cbn [List.length In].
    repeat split; auto; try lia; contradiction.
  - set (eliteCount := Qceiling (Js.mul (QofNat (List.length (kernelsOf s i)))
                                   (elitismRate (config s)))).
    assert (Hec : 0 < eliteCount).
    { apply Qceiling_positive. apply double_sign.
      apply Qmult_lt_0_compat; [|exact Hrate].
      unfold QofNat. change 0%Q with (inject_Z 0). rewrite <- Zlt_Qlt.
      destruct (kernelsOf s i); [contradiction|simpl; lia]. }
    assert (Helite : Js.slice (kernelsOf s i) 0 (Some eliteCount)
                     = firstn (Z.to_nat eliteCount) (kernelsOf s i)).
    { apply slice_firstn. lia. }
    rewrite Helite.
    destruct (growLoop_grows E Hrange Hstuck i
                (firstn (Z.to_nat eliteCount) (kernelsOf s i))
                (crossoverRate (config s)) (seq 0 (Z.to_nat needed)) s Hc)
      as (s' & cs & Hrun & _ & Hk & Hlen & Ho & Ha & Hb & Hg).
    { destruct (kernelsOf s i) as [|l ls]; [contradiction|].
      destruct (Z.to_nat eliteCount) eqn:Hn; [lia|]. discriminate. }
    { intros l Hl. eapply In_firstn_list; eauto. }
    exists s', cs. split; [exact Hrun|]. split; [exact Hk|].
    split; [rewrite Hlen, length_seq; unfold needed in *; lia|].
    split; [|split; assumption].
    intros c Hin. specialize (Hb c Hin). split; [exact Hb|].
    destruct (kernelsGrow_born s s' c Hg Hb) as [Hf Hs]. now split.
Qed.

Lemma performBreeding_refills_witness :
  exists s' cs,
    performBreeding sampleEnv 0 founded = Ret tt s' /\
    kernelsOf s' 0 = kernelsOf founded 0 ++ cs /\
    Z.of_nat (List.length cs)
    = Z.max 0 (capacity (populationAt (populations founded) 0)
               - Z.of_nat (List.length (kernelsOf founded 0))) /\
    (forall c, In c cs ->
               bornBetween founded s' c /\
               k_state (kernelAt (kernelHeap s') c) = DORMANT /\
               fitness (kernelAt (kernelHeap s') c) = createInitialFitness) /\
    (forall j, j <> 0%nat -> kernelsOf s' j = kernelsOf founded j) /\
    archive s' = archive founded.
Proof.
  assert (H1 : kernelsOf founded 0 <> []) by (vm_compute; discriminate).
  assert (H2 : (0 < elitismRate (config founded))%Q) by (vm_compute; reflexivity).
  exact (performBreeding_refills sampleEnv founded 0
           (inCycle_reachable sampleEnv founded founded_reachable)
           sampleEnv_inRange sampleEnv_notStuck H1 H2).
Defined.

(** ** The bookkeeping of the populations *)

Lemma Forall_replaceAt {A : Type} (P : A -> Prop) (i : nat) (x d : A) (l : list A) :
  Forall P l -> ((i < List.length l)%nat -> P (nth i l d) -> P x) ->
  Forall P (replaceAt i x l).
Proof.
  revert i. induction l as [|y l IH]; intros i Hl Hx; [destruct i; constructor|].
  inversion Hl as [|? ? Hy Hl']; subst. destruct i as [|i]; simpl.
  - constructor; [apply Hx; simpl; [lia|exact Hy]|exact Hl'].
  - constructor; [exact Hy|]. apply IH; [exact Hl'|].
    intros Hi. apply Hx. simpl. lia.
Qed.

Lemma archivedTotal_replaceAt i x ps :
  (i < List.length ps)%nat ->
  (archivedTotal (replaceAt i x ps) + archivedCount (statistics (populationAt ps i))
   = archivedTotal ps + archivedCount (statistics x))%nat.
Proof.
  revert i. induction ps as [|p ps IH]; intros i Hi; [simpl in Hi; lia|].
  destruct i as [|i]; simpl.
  - unfold populationAt. simpl. lia.
  - specialize (IH i ltac:(simpl in Hi; lia)). unfold populationAt in *. simpl. lia.
Qed.

Lemma archivedTotal_app ps q :
  archivedTotal (ps ++ [q]) = (archivedTotal ps + archivedCount (statistics q))%nat.
Proof. induction ps as [|p ps IH]; simpl; [lia|]. rewrite IH. lia. Qed.

(** One population is rewritten and [n] kernels go to the archive. *)
Lemma accounted_replace s s' i x n :
  accounted s ->
  populations s' = replaceAt i x (populations s) ->
  List.length (archive s') = (List.length (archive s) + n)%nat ->
  ((i < List.length (populations s))%nat ->
   balanced (populationAt (populations s) i) ->
   balanced x /\
   archivedCount (statistics x)
   = (archivedCount (statistics (populationAt (populations s) i)) + n)%nat) ->
  ((List.length (populations s) <= i)%nat -> n = 0%nat) ->
  accounted s'.
Proof.
  intros [Hb Ha] Hp Harch Hx Hn. constructor.
  - rewrite Hp. apply (Forall_replaceAt _ _ _ dummyPopulation); [exact Hb|].
    intros Hi Hpi. now apply Hx.
  - rewrite Hp, Harch, Ha.
    destruct (Nat.lt_ge_cases i (List.length (populations s))) as [Hi|Hi].
    + pose proof (archivedTotal_replaceAt i x (populations s) Hi) as Ht.
      assert (Hpi : balanced (populationAt (populations s) i)).
      { rewrite Forall_forall in Hb. apply Hb. now apply nth_In. }
      destruct (Hx Hi Hpi) as [_ Hac]. lia.
    + rewrite replaceAt_beyond by exact Hi. rewrite (Hn Hi). lia.
Qed.

Lemma accounted_same s s' :
  populations s' = populations s -> archive s' = archive s ->
  accounted s -> accounted s'.
Proof. intros Hp Ha [Hb Hc]. constructor; rewrite ?Hp, ?Ha; auto. Qed.

Lemma accounting_refl s : accounting s s.
Proof. split; [apply evolves_refl|auto]. Qed.

Lemma accounting_trans s0 s1 s2 : accounting s0 s1 -> accounting s1 s2 -> accounting s0 s2.
Proof.
  intros [E1 A1] [E2 A2]. split; [eapply evolves_trans; eauto|].
  intros W A. apply A2; [apply (ev_owned _ _ E1 W)|now apply A1].
Qed.

Lemma accounting_same s s' :
  populations s' = populations s -> archive s' = archive s ->
  kernelHeap s' = kernelHeap s -> accounting s s'.
Proof.
  intros Hp Ha Hk. split; [now apply evolves_flags|].
  intros _. now apply accounted_same.
Qed.

Lemma accounting_of_evolving {A : Type} (m : M A) :
  evolving m ->
  respects (fun s s' => wellOwned s -> accounted s -> accounted s') m ->
  respects accounting m.
Proof.
  intros He Ha s. pose proof (evolving_run m s He) as H1. specialize (Ha s).
  destruct (m s); auto; split; auto.
Qed.

Lemma accounting_of_frames {A : Type} (m : M A) : frames m -> respects accounting m.
Proof.
  intros Hf. apply accounting_of_evolving; [now apply evolving_of_frames|].
  intros s. pose proof (frames_run m s Hf) as H.
  destruct (m s); auto; destruct H as (Hp & Ha & _); intros _; now apply accounted_same.
Qed.

(** A population is rewritten in place, its kernels and its archive counter
    as they were. *)
Lemma accounting_update i (f : KernelPopulation -> KernelPopulation) :
  (forall p, kernels (f p) = kernels p) ->
  (forall p, balanced p -> balanced (f p)) ->
  (forall p, archivedCount (statistics (f p)) = archivedCount (statistics p)) ->
  respects accounting (p <- readPopulation i ;; writePopulation i (f p)).
Proof.
  intros Hk Hb Ha. apply accounting_of_evolving.
  - now apply evolving_writePopulation_same.
  - intros s. unfold bind, readPopulation, writePopulation, modify. intros _ Hacc.
    apply (accounted_replace s _ i (f (populationAt (populations s) i)) 0 Hacc);
      cbn [populations archive set_populations]; auto.
    intros _ Hp. split; [now apply Hb|]. rewrite Ha. lia.
Qed.

Lemma length_lastN {A : Type} (n : nat) (l : list A) :
  (n <= List.length l)%nat -> List.length (lastN n l) = n.
Proof. intros H. unfold lastN. rewrite length_skipn. lia. Qed.

Lemma sortByFitness_length h l : List.length (sortByFitness h l) = List.length l.
Proof. apply Permutation_length, sortByFitness_perm. Qed.

Ltac accounting_prim := apply accounting_same; reflexivity.
Ltac accounting_auto := respects_auto accounting_refl accounting_trans accounting_prim.

Section Accounting.

Variable E : Env.

Lemma accounting_performSelection i : respects accounting (performSelection i).
Proof.
  apply accounting_of_evolving; [apply evolving_performSelection|].
  intros s. destruct (performSelection_spec i s) as (s' & Hrun & Hsel).
  pose proof (performSelection_populations i s s' Hrun) as Hpops.
  rewrite Hrun. intros W Hacc.
  pose proof (selected_kept i s s' W Hsel) as Hkept.
  pose proof (mk_archive _ _ _ (sel_marked _ _ _ Hsel)) as Harch.
  assert (Hlen : (List.length (kernelsOf s' i) + List.length (toArchive s i)
                  = List.length (kernelsOf s i))%nat).
  { rewrite Hkept. unfold toArchive. rewrite <- length_app.
    rewrite (Permutation_length (filter_partition _ _)). apply sortByFitness_length. }
  apply (accounted_replace s s' i _ (List.length (toArchive s i)) Hacc Hpops).
  - rewrite Harch, length_app. reflexivity.
  - intros _ [Hb Ht]. split; [split|].
    + cbn. unfold kernelsOf in Hlen |- *. lia.
    + exact Ht.
    + reflexivity.
  - intros Hge. unfold toArchive. now rewrite (kernelsOf_beyond s i Hge).
Qed.

Lemma accounting_breedInto i rq : respects accounting (breedInto E i rq).
Proof.
  apply accounting_of_evolving; [apply evolving_breedInto|].
  intros s. unfold breedInto, bind.
  pose proof (frames_run (breed E rq) s (frames_breed E rq)) as Hf.
  destruct (breed E rq s) as [r s1|e s1|]; auto.
  - destruct Hf as (Hp & Ha & _).
    destruct (offspring r) as [|child rest].
    + intros _. now apply accounted_same.
    + unfold readPopulation, writePopulation, modify. intros _ Hacc.
      apply (accounted_same s s1 Hp Ha) in Hacc.
      apply (accounted_replace s1 _ i
               (withStatistics
                  (withTotalCreated
                     (S (totalCreated (statistics (populationAt (populations s1) i))))
                     (statistics (populationAt (populations s1) i)))
                  (withKernels (kernels (populationAt (populations s1) i) ++ [child])
                     (populationAt (populations s1) i))) 0 Hacc);
        cbn [populations archive set_populations]; auto.
      intros _ [Hb Ht]. split; [split|].
      * cbn. rewrite length_app. cbn [List.length]. lia.
      * exact Ht.
      * cbn. lia.
  - destruct Hf as (Hp & Ha & _). intros _. now apply accounted_same.
Qed.

Lemma accounting_mathRandom : respects accounting (mathRandom E).
Proof. apply accounting_of_frames, frames_mathRandom. Qed.

Lemma accounting_pickElite elite : respects accounting (pickElite E elite).
Proof. apply accounting_of_frames, frames_pickElite. Qed.

Lemma accounting_growSlot i elite rate : respects accounting (growSlot E i elite rate).
Proof.
  unfold growSlot. pose proof accounting_pickElite. pose proof accounting_breedInto.
  pose proof accounting_mathRandom. accounting_auto.
Qed.

Lemma accounting_performBreeding i : respects accounting (performBreeding E i).
Proof.
  unfold performBreeding, readPopulation. pose proof accounting_growSlot. accounting_auto.
Qed.

Lemma accounting_updatePopulationStatistics i :
  respects accounting (updatePopulationStatistics E i).
Proof.
  apply accounting_of_evolving; [apply evolving_updatePopulationStatistics|].
  intros s. unfold updatePopulationStatistics, bind, get, readPopulation.
  destruct (kernels (populationAt (populations s) i)) as [|k0 rest] eqn:Hk.
  - unfold writePopulation, modify. intros _ Hacc.
    match goal with |- accounted (set_populations (replaceAt i ?x _) _) =>
      apply (accounted_replace s _ i x 0 Hacc) end;
      cbn [populations archive set_populations]; auto.
  - unfold writePopulation, modify, emitEvent, dateNow, bind. intros _ Hacc.
    match goal with |- accounted (set_emitted _ (set_nowCalls _
                                    (set_populations (replaceAt i ?x _) _))) =>
      apply (accounted_replace s _ i x 0 Hacc) end;
      cbn [populations archive set_populations set_emitted set_nowCalls]; auto.
    intros _ [Hb Ht]. split; [split|]; cbn [statistics withStatistics totalCreated
                                           archivedCount kernels fitnessTrend].
    + exact Hb.
    + destruct (Nat.ltb_spec 20 (List.length (fitnessTrend
                   (statistics (populationAt (populations s) i)) ++
                   [Js.div (sumQ (map (fun l => overall (fitness (kernelAt (kernelHeap s) l)))
                                    (k0 :: rest)))
                      (QofNat (List.length (k0 :: rest)))])))
        as [Hlong|Hshort].
      * rewrite slice_last20 by exact Hlong. rewrite length_lastN; lia.
      * exact Hshort.
    + lia.
Qed.

Lemma accounting_checkForEmergence : respects accounting (checkForEmergence E).
Proof. apply accounting_of_frames, frames_checkForEmergence. Qed.

Lemma accounting_emitEvent d : respects accounting (emitEvent E d).
Proof. apply accounting_of_frames, frames_emitEvent. Qed.

Lemma accounting_dateNow : respects accounting (dateNow E).
Proof. apply accounting_of_frames, frames_dateNow. Qed.

Lemma accounting_advanceGeneration i : respects accounting (advanceGeneration i).
Proof.
  unfold advanceGeneration.
  apply (accounting_update i (fun p => withGeneration (S (p_generation p)) p));
    intros p; auto.
Qed.

Lemma accounting_evolutionCycle : respects accounting (evolutionCycle E).
Proof.
  unfold evolutionCycle.
  apply (respects_bind _ accounting_trans); [apply (respects_get _ accounting_refl)|].
  intros s. apply (respects_bind _ accounting_trans).
  { apply (respects_forEach _ accounting_refl accounting_trans). intros i.
    apply (respects_bind _ accounting_trans); [apply accounting_performSelection|intros _].
    apply (respects_bind _ accounting_trans); [apply accounting_performBreeding|intros _].
    apply (respects_bind _ accounting_trans);
      [apply accounting_updatePopulationStatistics|intros _].
    apply accounting_advanceGeneration. }
  intros _.
  pose proof accounting_checkForEmergence. pose proof accounting_emitEvent.
  pose proof accounting_dateNow. accounting_auto.
Qed.

(** The populations [initializePopulations] adds. *)
Lemma accounted_initializePopulations :
  respects (fun s s' => accounted s -> accounted s') (initializePopulations E).
Proof.
  assert (Hrefl : forall s : State, accounted s -> accounted s) by auto.
  assert (Htrans : forall s0 s1 s2 : State,
             (accounted s0 -> accounted s1) -> (accounted s1 -> accounted s2) ->
             accounted s0 -> accounted s2) by auto.
  unfold initializePopulations.
  apply (respects_forEach _ Hrefl Htrans). intros type.
  apply (respects_bind _ Htrans); [apply (respects_get _ Hrefl)|]. intros s.
  apply (respects_bind _ Htrans).
  - intros s0.
    match goal with |- match ?m s0 with _ => _ end =>
      assert (Hf : frames m)
        by (destruct (find _ KERNEL_TEMPLATES);
            [apply frames_mapM; intros _; apply frames_createKernel|apply frames_ret]);
      pose proof (frames_run m s0 Hf) as H;
      destruct (m s0); auto; destruct H as (Hp & Ha & _); now apply accounted_same
    end.
  - intros ks. unfold modify. apply respects_step. intros s0 [Hb Ha]. constructor.
    + cbn [populations set_populations]. apply Forall_app. split; [exact Hb|].
      repeat constructor. cbn. lia.
    + cbn [populations archive set_populations]. rewrite archivedTotal_app, Ha. cbn. lia.
Qed.

Lemma accounting_initializePopulations : respects accounting (initializePopulations E).
Proof.
  apply accounting_of_evolving; [apply evolving_initializePopulations|].
  intros s. pose proof (accounted_initializePopulations s) as H.
  destruct (initializePopulations E s); auto.
Qed.

Lemma accounting_startEvolution : respects accounting (startEvolution E).
Proof.
  unfold startEvolution. pose proof accounting_initializePopulations. accounting_auto.
Qed.

Lemma accounting_stopEvolution : respects accounting stopEvolution.
Proof. unfold stopEvolution. accounting_auto. Qed.

Lemma accounting_runPhase ph : respects accounting (runPhase E ph).
Proof.
  destruct ph; cbn [runPhase].
  - apply accounting_performSelection.
  - apply accounting_performBreeding.
  - apply accounting_growSlot.
  - apply accounting_updatePopulationStatistics.
  - apply accounting_advanceGeneration.
Qed.

(** Every operation keeps the bookkeeping of a well-owned state. *)
Lemma accounted_runOp op :
  respects (fun s s' => wellOwned s -> accounted s -> accounted s') (runOp E op).
Proof.
  assert (Hacc : forall m : M unit,
             respects accounting m ->
             respects (fun s s' => wellOwned s -> accounted s -> accounted s') m).
  { intros m H s. specialize (H s). destruct (m s); auto; now destruct H. }
  assert (Hsame : forall (A : Type) (m : M A),
             respects (fun s s' => populations s' = populations s /\ archive s' = archive s) m ->
             respects (fun s s' => wellOwned s -> accounted s -> accounted s')
               (m ;; ret tt)).
  { intros A m H s. specialize (H s). unfold bind. destruct (m s) as [a s1|e s1|]; auto;
      destruct H as [Hp Ha]; intros _; now apply accounted_same. }
  destruct op; cbn [runOp].
  - apply Hacc, accounting_startEvolution.
  - apply Hacc, accounting_stopEvolution.
  - apply Hacc, accounting_evolutionCycle.
  - apply Hsame. intros s. pose proof (frames_run _ s (frames_createKernel E template customGenome)) as H.
    destruct (createKernel E template customGenome s); auto; now destruct H as (Hp & Ha & _).
  - apply Hsame. intros s. pose proof (frames_run _ s (frames_breed E request)) as H.
    destruct (breed E request s); auto; now destruct H as (Hp & Ha & _).
  - apply Hsame. intros s. unfold evaluateFitness, bind, get.
    destruct (findKernel s kernelId); cbn; auto.
  - apply Hsame. intros s. unfold activateKernel, bind, get.
    destruct (findKernel s kernelId); cbn; auto.
    unfold readKernel. destruct (isDeprecated _); cbn; auto.
  - apply Hsame. intros s. unfold deprecateKernel, bind, get.
    destruct (findKernel s kernelId); cbn; auto.
Qed.

End Accounting.

Lemma accounted_init cfg : accounted (createInitialState cfg).
Proof. constructor; simpl; [constructor|reflexivity]. Qed.

Lemma reachable_accounted E allowed s : reachableVia E allowed s -> accounted s.
Proof.
  induction 1 as [cfg|s s' op Hreach IH _ [_ Hf]]; [apply accounted_init|].
  pose proof (accounted_runOp E op s) as H.
  destruct (runOp E op s); simpl in Hf; try discriminate; injection Hf as <-;
    apply H; auto; eapply reachable_wellOwned; eauto.
Qed.

Lemma inCycle_accounted E s : inCycle E s -> accounted s.
Proof.
  induction 1 as [s Hreach|s s' ph Hc IH Hf].
  - eapply reachable_accounted; eauto.
  - pose proof (respects_final _ _ s s' (accounting_runPhase E ph) Hf) as [_ H].
    apply H; [now apply (inCycle_wellOwned E)|exact IH].
Qed.

(** X15. In every state the engine passes through, the bookkeeping of the
    populations adds up: for each population [totalCreated] is the number of
    kernels it holds plus its [archivedCount], and the archive holds as many
    kernels as the [archivedCount]s of all populations together. No kernel
    handed to a population is lost: it is in the population or it was archived
    from it. *)
Theorem population_counts_add_up (E : Env) (s : State) :
  inCycle E s ->
  (forall p, In p (populations s) ->
             totalCreated (statistics p)
             = (List.length (kernels p) + archivedCount (statistics p))%nat) /\
  List.length (archive s) = archivedTotal (populations s).
Proof.
  intros Hc. destruct (inCycle_accounted E s Hc) as [Hb Ha]. split; [|exact Ha].
  intros p Hp. rewrite Forall_forall in Hb. exact (proj1 (Hb p Hp)).
Qed.

Lemma population_counts_add_up_witness :
  (forall p, In p (populations oneArchived) ->
             totalCreated (statistics p)
             = (List.length (kernels p) + archivedCount (statistics p))%nat) /\
  List.length (archive oneArchived) = archivedTotal (populations oneArchived).
Proof.
  exact (population_counts_add_up sampleEnv oneArchived
           (inCycle_reachable sampleEnv oneArchived oneArchived_reachable)).
Defined.

(** X16. In every state the engine passes through, the [fitnessTrend] of
    every population has at most 20 entries. *)
Theorem fitness_trend_is_bounded (E : Env) (s : State) (p : KernelPopulation) :
  inCycle E s ->
  In p (populations s) ->
  (List.length (fitnessTrend (statistics p)) <= 20)%nat.
Proof.
  intros Hc Hp. destruct (inCycle_accounted E s Hc) as [Hb _].
  rewrite Forall_forall in Hb. exact (proj2 (Hb p Hp)).
Qed.

Lemma fitness_trend_is_bounded_witness :
  (List.length (fitnessTrend (statistics (populationAt (populations oneArchived) 0))) <= 20)%nat.
Proof.
  assert (H : In (populationAt (populations oneArchived) 0) (populations oneArchived)).
  { apply nth_In. vm_compute. lia. }
  exact (fitness_trend_is_bounded sampleEnv oneArchived _
           (inCycle_reachable sampleEnv oneArchived oneArchived_reachable) H).
Defined.

(** ** The result of [breed] *)

(** The kernel [breedOne] makes and what else it changes. *)
Lemma breedOne_child E rq ps p0 i s r s' :
  breedOne E rq ps p0 i s = Ret r s' ->
  exists k,
    fst r = List.length (kernelHeap s) /\
    kernelHeap s' = kernelHeap s ++ [k] /\
    offspringOf (kernelHeap s) rq ps p0 k /\
    mutations (lineage k) = snd r /\
    totalKernelsCreated s' = S (totalKernelsCreated s) /\
    populations s' = populations s /\ archive s' = archive s /\
    emitted s' = emitted s /\ config s' = config s.
Proof.
  intros Hrun. unfold breedOne in Hrun.
  apply bind_Ret_inv in Hrun. destruct Hrun as (s0 & s0' & H0 & Hrun).
  injection H0 as <- <-.
  apply bind_Ret_inv in Hrun. destruct Hrun as (g & s1 & H1 & Hrun).
  match type of H1 with ?m _ = _ =>
    assert (Honly : respects genesOnly m)
      by (destruct (rq_method rq);
          first [ apply only_asexualReproduction | apply only_crossover
                | apply only_multiParentBreeding ])
  end.
  apply (respects_Ret _ _ _ _ _ Honly) in H1.
  apply bind_Ret_inv in Hrun. destruct Hrun as (s1' & s1'' & H0 & Hrun).
  injection H0 as <- <-.
  apply bind_Ret_inv in Hrun. destruct Hrun as ([g' muts] & s2 & H2 & Hrun).
  apply (respects_Ret _ _ _ _ _ (only_applyMutations E _ _)) in H2.
  pose proof (genesOnly_trans _ _ _ H1 H2) as (K1 & K2 & K3 & K4 & K5 & K6 & K7).
  apply bind_Ret_inv in Hrun. destruct Hrun as (id & s3 & H3 & Hrun).
  injection H3 as <- <-.
  unfold bind, get, dateNow, allocKernel, bumpTotalKernelsCreated, modify, ret in Hrun.
  injection Hrun as <- <-.
  cbn [kernelHeap totalKernelsCreated populations archive emitted config fst snd
       set_totalKernelsCreated set_kernelHeap set_nowCalls set_randomCalls].
  rewrite K1, K2, K3, K4, K5, K7.
  eexists. split; [reflexivity|]. split; [reflexivity|].
  split; [|repeat split; reflexivity].
  unfold offspringOf. cbn. repeat split; reflexivity.
Qed.

Lemma ancestorChain_ext h h' ps :
  (forall p, In p ps -> kernelAt h' p = kernelAt h p) ->
  buildAncestorChain h' ps = buildAncestorChain h ps.
Proof.
  intros H. unfold buildAncestorChain. f_equal.
  generalize (@nil string) as acc. induction ps as [|p ps IH]; intros acc; [reflexivity|].
  cbn [fold_left]. rewrite (H p (or_introl eq_refl)).
  apply IH. intros q Hq. apply H. now right.
Qed.

Lemma offspringOf_ext h h' rq ps p0 k :
  (forall p, In p (p0 :: ps) -> kernelAt h' p = kernelAt h p) ->
  offspringOf h' rq ps p0 k -> offspringOf h rq ps p0 k.
Proof.
  intros H (H1 & H2 & H3 & H4 & H5 & H6 & H7 & H8 & H9).
  assert (Hps : forall p, In p ps -> kernelAt h' p = kernelAt h p)
    by (intros p Hp; apply H; now right).
  unfold offspringOf. rewrite <- (H p0 (or_introl eq_refl)).
  rewrite <- (ancestorChain_ext h h' ps Hps).
  rewrite <- (map_ext_in _ _ ps
                (fun p Hp => f_equal (fun k => generation (lineage k)) (Hps p Hp))).
  rewrite <- (map_ext_in _ _ ps (fun p Hp => f_equal k_id (Hps p Hp))).
  repeat split; assumption.
Qed.

Lemma breedLoop_children E rq ps p0 idxs children tm nv s r s' :
  breedLoop E rq ps p0 idxs (children, tm, nv) s = Ret r s' ->
  Forall (fun p => (p < List.length (kernelHeap s))%nat) (p0 :: ps) ->
  exists ks,
    kernelHeap s' = kernelHeap s ++ ks /\
    List.length ks = List.length idxs /\
    r = (children ++ seq (List.length (kernelHeap s)) (List.length idxs),
         (tm + mutationCount ks)%nat, (nv + insertionCount ks)%nat) /\
    Forall (offspringOf (kernelHeap s) rq ps p0) ks /\
    totalKernelsCreated s' = (totalKernelsCreated s + List.length idxs)%nat /\
    populations s' = populations s /\ archive s' = archive s /\
    emitted s' = emitted s /\ config s' = config s.
Proof.
  revert children tm nv s. induction idxs as [|i idxs IH]; intros children tm nv s Hrun Hps.
  - injection Hrun as <- <-. exists []. rewrite !app_nil_r.
    unfold mutationCount, insertionCount. cbn. rewrite !Nat.add_0_r. repeat split; auto.
  - cbn [breedLoop] in Hrun. apply bind_Ret_inv in Hrun.
    destruct Hrun as ([c muts] & s1 & H1 & Hrun).
    destruct (breedOne_child E _ _ _ _ _ _ _ H1)
      as (k & Hc & Hk & Hoff & Hmut & Ht & Hp & Ha & He & Hcfg).
    cbn [fst snd] in Hc, Hmut. subst c.
    apply IH in Hrun.
    + destruct Hrun as (ks & Hk2 & Hlen & Hr & Hall & Ht2 & Hp2 & Ha2 & He2 & Hcfg2).
      exists (k :: ks). rewrite Hk2, Hk, <- app_assoc. split; [reflexivity|].
      split; [cbn [List.length]; now rewrite Hlen|]. split.
      { rewrite Hr, Hk, length_app. cbn [List.length seq]. rewrite <- app_assoc.
        cbn [app]. rewrite Nat.add_1_r.
        unfold mutationCount, insertionCount. cbn [map]. rewrite Hmut.
        cbn [list_sum fold_right]. rewrite !Nat.add_assoc. reflexivity. }
      split.
      { constructor; [exact Hoff|].
        eapply Forall_impl; [|exact Hall]. intros k' Hk'.
        apply (offspringOf_ext _ (kernelHeap s1)); [|exact Hk'].
        intros p Hp'. rewrite Hk. unfold kernelAt. apply app_nth1.
        rewrite Forall_forall in Hps. now apply Hps. }
      split; [rewrite Ht2, Ht; cbn [List.length]; lia|].
      repeat split; congruence.
    + rewrite Hk, length_app. eapply Forall_impl; [|exact Hps]. cbn. intros; lia.
Qed.

Section BreedReturns.

Variable E : Env.
Hypothesis inRange : drawsInRange E.
Hypothesis notStuck : drawsNotStuck E.

Lemma index_inRange {A : Type} (l : list A) r :
  l <> [] -> (0 <= r /\ r <= Js.belowOne)%Q ->
  exists x, Js.index l (floorTimes r (List.length l)) = Some x.
Proof.
  intros Hne Hr. destruct (floorTimes_range r (List.length l) Hr) as [Hlo Hhi].
  assert (Hpos : (0 < List.length l)%nat) by (destruct l; [contradiction|simpl; lia]).
  specialize (Hhi Hpos). unfold Js.index.
  destruct (Z.ltb_spec (floorTimes r (List.length l)) 0); [lia|].
  destruct (nth_error l (Z.to_nat (floorTimes r (List.length l)))) as [x|] eqn:Hn.
  - now exists x.
  - apply nth_error_None in Hn. lia.
Qed.

Lemma returns_multiParentCore gs idxs acc :
  gs <> [] -> returns (multiParentCore E gs idxs acc).
Proof.
  intros Hne. revert acc. induction idxs as [|i idxs IH]; intros acc; simpl.
  - apply returns_ret.
  - intros s. unfold bind at 1. unfold mathRandom at 1.
    destruct (index_inRange gs (random E (randomCalls s)) Hne (inRange _)) as [g Hg].
    rewrite Hg. destruct (nth_error (coreGenes g) i) as [l|].
    + unfold bind, readGene, allocGene. apply IH.
    + apply IH.
Qed.

Lemma returns_multiParentBreeding gs : gs <> [] -> returns (multiParentBreeding E gs).
Proof.
  intros Hne s. unfold multiParentBreeding. destruct gs as [|g0 gs']; [contradiction|].
  unfold bind at 1.
  destruct (returns_multiParentCore (g0 :: gs') (seq 0 (List.length (coreGenes g0))) []
              Hne s) as (core & s1 & H1).
  rewrite H1. unfold bind at 1. unfold mathRandom at 1.
  destruct (index_inRange (g0 :: gs') (random E (randomCalls s1)) Hne (inRange _))
    as [g Hg].
  rewrite Hg. unfold bind.
  destruct (returns_cloneGenes (regulatoryGenes g) (set_randomCalls (S (randomCalls s1)) s1))
    as (reg & s2 & H2).
  rewrite H2. eexists. eexists. reflexivity.
Qed.

(** With at least one parent, one turn of the offspring loop comes back,
    whatever the method. *)
Lemma returns_breedOne_any rq ps p0 i : ps <> [] -> returns (breedOne E rq ps p0 i).
Proof.
  intros Hne. destruct (rq_method rq) eqn:Hm;
    try (apply (returns_breedOne E notStuck); rewrite Hm; discriminate).
  unfold breedOne.
  apply returns_bind; [apply returns_get|intros s]. rewrite Hm.
  apply returns_bind.
  { apply returns_multiParentBreeding. destruct ps; [contradiction|discriminate]. }
  intros childGenome.
  apply returns_bind; [apply returns_get|intros s1].
  apply returns_bind; [apply (returns_applyMutations E notStuck)|intros [mutated muts]].
  apply returns_bind; [apply returns_generateKernelId|intros id].
  apply returns_bind; [apply returns_get|intros s2].
  apply returns_bind; [apply returns_dateNow|intros t].
  apply returns_bind; [apply returns_allocKernel|intros child].
  apply returns_bind; [apply returns_modify|intros _].
  apply returns_ret.
Qed.

Lemma returns_breedLoop rq ps p0 idxs acc :
  ps <> [] -> returns (breedLoop E rq ps p0 idxs acc).
Proof.
  intros Hne. revert acc. induction idxs as [|i idxs IH]; intros acc; simpl.
  - apply returns_ret.
  - apply returns_bind; [now apply returns_breedOne_any|]. intros [child muts].
    destruct acc as [[children tm] nv]. apply IH.
Qed.

End BreedReturns.

Lemma resolveParents_held s ids p : In p (resolveParents s ids) -> held s p.
Proof.
  unfold resolveParents. intros H. apply in_flat_map in H. destruct H as (id & _ & H).
  destruct (findKernel s id) as [l|] eqn:Hf; [|destruct H].
  destruct H as [<-|[]]. now apply (findKernel_Some s id).
Qed.

Lemma divide_self n :
  Js.divide (QofNat n) (QofNat n) = if (n =? 0)%nat then None else Some 1%Q.
Proof.
  unfold Js.divide, QofNat. destruct n as [|n]; [reflexivity|].
  cbn [Nat.eqb]. destruct (Qeq_bool (inject_Z (Z.of_nat (S n))) 0) eqn:H.
  - apply Qeq_bool_eq in H. unfold Qeq in H. simpl in H. lia.
  - f_equal. unfold Js.div. rewrite (double_comp _ 1); [reflexivity|].
    apply Qmult_inv_r. unfold Qeq. simpl. lia.
Qed.

(** X17. In a reachable state, with draws as [Math.random] gives them,
    [breed] on a request of which at least one parent id resolves returns
    normally with exactly [offspringCount] offspring, all of them kernels made
    by this call: each has the type of the first resolved parent, generation
    one more than the highest generation among the resolved parents, their ids
    as [parents], the requested breeding method, the initial fitness and state
    DORMANT. [successRate] is 1, or not a number when [offspringCount] is 0;
    [mutationsApplied] and [novelGenes] count the mutations and the insertions
    recorded in the lineages of the offspring. [totalKernelsCreated] grows by
    [offspringCount], one breeding-complete event is emitted, and no population
    and not the archive are changed: the offspring are handed to the caller
    only. *)
Theorem breed_makes_offspring (E : Env) (rq : BreedingRequest) (s : State)
  (p0 : loc) (rest : list loc) :
  reachable E s ->
  drawsInRange E ->
  drawsNotStuck E ->
  resolveParents s (rq_parents rq) = p0 :: rest ->
  exists r s' ks,
    breed E rq s = Ret r s' /\
    kernelHeap s' = kernelHeap s ++ ks /\
    offspring r = seq (List.length (kernelHeap s)) (rq_offspringCount rq) /\
    List.length ks = rq_offspringCount rq /\
    Forall (offspringOf (kernelHeap s) rq (p0 :: rest) p0) ks /\
    match successRate r with
    | Some q => (q == 1)%Q /\ rq_offspringCount rq <> 0%nat
    | None => rq_offspringCount rq = 0%nat
    end /\
    mutationsApplied r = mutationCount ks /\
    novelGenes r = insertionCount ks /\
    totalKernelsCreated s' = (totalKernelsCreated s + rq_offspringCount rq)%nat /\
    populations s' = populations s /\
    archive s' = archive s /\
    exists e, emitted s' = emitted s ++ [e] /\ isBreedingComplete e = true.
Proof.
  intros Hreach Hrange Hstuck Hres.
  pose proof (reachable_wellOwned E _ s Hreach) as W.
  assert (Hps : Forall (fun p => (p < List.length (kernelHeap s))%nat) (p0 :: p0 :: rest)).
  { assert (H : forall p, In p (p0 :: rest) -> (p < List.length (kernelHeap s))%nat).
    { intros p Hp. apply (held_bound s p W). apply (resolveParents_held s (rq_parents rq)).
      now rewrite Hres. }
    constructor; [apply H; now left|]. apply Forall_forall. exact H. }
  destruct (returns_breedLoop E Hrange Hstuck rq (p0 :: rest) p0
              (seq 0 (rq_offspringCount rq)) ([], 0%nat, 0%nat) ltac:(discriminate) s)
    as (r1 & s1 & Hloop).
  destruct (breedLoop_children E _ _ _ _ _ _ _ _ _ _ Hloop Hps)
    as (ks & Hk & Hlen & Hr & Hall & Ht & Hp & Ha & He & Hcfg).
  rewrite length_seq in *. subst r1. cbn [app Nat.add] in Hloop.
  unfold breed, bind, get. rewrite Hres, Hloop. unfold emitEvent, bind, dateNow, modify, ret.
  eexists. eexists. exists ks. split; [reflexivity|].
  cbn [kernelHeap offspring successRate mutationsApplied novelGenes totalKernelsCreated
       populations archive emitted set_emitted set_nowCalls].
  split; [exact Hk|]. split; [reflexivity|]. split; [exact Hlen|].
  split; [exact Hall|]. split.
  { rewrite length_seq, divide_self.
    destruct (Nat.eqb_spec (rq_offspringCount rq) 0) as [H0|H0]; [exact H0|].
    split; [reflexivity|exact H0]. }
  split; [reflexivity|]. split; [reflexivity|]. split; [exact Ht|].
  split; [exact Hp|]. split; [exact Ha|].
  eexists. split; [rewrite He; reflexivity|reflexivity].
Qed.

Lemma breed_makes_offspring_witness :
  exists r s' ks,
    breed sampleEnv (mkRequest [founderId 0; founderId 1] Crossover None 2) founded
    = Ret r s' /\
    kernelHeap s' = kernelHeap founded ++ ks /\
    offspring r = seq (List.length (kernelHeap founded)) 2 /\
    List.length ks = 2%nat /\
    Forall (offspringOf (kernelHeap founded)
              (mkRequest [founderId 0; founderId 1] Crossover None 2) [0; 1]%nat 0%nat) ks /\
    match successRate r with
    | Some q => (q == 1)%Q /\ 2%nat <> 0%nat
    | None => 2%nat = 0%nat
    end /\
    mutationsApplied r = mutationCount ks /\
    novelGenes r = insertionCount ks /\
    totalKernelsCreated s' = (totalKernelsCreated founded + 2)%nat /\
    populations s' = populations founded /\
    archive s' = archive founded /\
    exists e, emitted s' = emitted founded ++ [e] /\ isBreedingComplete e = true.
Proof.
  assert (H : resolveParents founded
                (rq_parents (mkRequest [founderId 0; founderId 1] Crossover None 2))
              = [0; 1]%nat) by (vm_compute; reflexivity).
  exact (breed_makes_offspring sampleEnv
           (mkRequest [founderId 0; founderId 1] Crossover None 2) founded 0%nat [1%nat]
           founded_reachable sampleEnv_inRange sampleEnv_notStuck H).
Defined.

(** ** The kernel factory *)

(** X18. In a reachable state, [createKernel] returns a new kernel object
    of the template's type, version 1.0.0, generation 0 without parents and
    with method synthetic, DORMANT and with the initial fitness, whose gene
    arrays are the template's followed by the custom genome's; it counts the
    kernel and emits one kernel-created event. The kernel is not put into any
    population nor into the archive: no id resolves to it, so
    [evaluateFitness], [activateKernel], [deprecateKernel] and [breed] do not
    reach it through its id. *)
Theorem created_kernel_is_not_registered (E : Env) (t : KernelTemplate)
  (c : option PartialGenome) (s : State) :
  reachable E s ->
  exists l s' k,
    createKernel E t c s = Ret l s' /\
    l = List.length (kernelHeap s) /\
    kernelHeap s' = kernelHeap s ++ [k] /\
    k_type k = t_type t /\ k_version k = "1.0.0" /\
    lineage k = mkLineage 0 [] [] Synthetic [] /\
    coreGenes (genome k) = coreOfCall t c /\
    regulatoryGenes (genome k) = regulatoryOfCall t c /\
    fitness k = createInitialFitness /\ k_state k = DORMANT /\ lastActivated k = 0 /\
    totalKernelsCreated s' = S (totalKernelsCreated s) /\
    populations s' = populations s /\
    archive s' = archive s /\
    (exists e, emitted s' = emitted s ++ [e] /\ ev_data e = KernelCreated l) /\
    ~ held s' l /\
    forall id, findKernel s' id <> Some l.
Proof.
  intros Hreach. pose proof (reachable_wellOwned E _ s Hreach) as W.
  assert (Hrun : exists k s',
             createKernel E t c s = Ret (List.length (kernelHeap s)) s' /\
             kernelHeap s' = kernelHeap s ++ [k] /\
             k_type k = t_type t /\ k_version k = "1.0.0" /\
             lineage k = mkLineage 0 [] [] Synthetic [] /\
             coreGenes (genome k) = coreOfCall t c /\
             regulatoryGenes (genome k) = regulatoryOfCall t c /\
             fitness k = createInitialFitness /\ k_state k = DORMANT /\
             lastActivated k = 0 /\
             totalKernelsCreated s' = S (totalKernelsCreated s) /\
             populations s' = populations s /\
             archive s' = archive s /\
             (exists e, emitted s' = emitted s ++ [e] /\
                        ev_data e = KernelCreated (List.length (kernelHeap s)))).
  { eexists. eexists. split.
    - unfold createKernel, generateKernelId, bumpTotalKernelsCreated, emitEvent, dateNow,
        mathRandom, allocKernel, modify, bind, get, ret.
      cbv beta iota zeta. reflexivity.
    - cbn [kernelHeap totalKernelsCreated populations archive emitted set_emitted
           set_nowCalls set_totalKernelsCreated set_kernelHeap set_randomCalls].
      split; [reflexivity|]. repeat (split; [reflexivity|]).
      eexists. split; reflexivity. }
  destruct Hrun as (k & s' & Hrun & Hk & H1 & H2 & H3 & H4 & H5 & H6 & H7 & H8 & Ht & Hp
                    & Ha & He).
  exists (List.length (kernelHeap s)), s', k. split; [exact Hrun|].
  split; [reflexivity|]. split; [exact Hk|].
  repeat (split; [assumption|]).
  assert (Hnot : ~ held s' (List.length (kernelHeap s))).
  { intros [Hin|[i Hin]].
    - rewrite Ha in Hin. pose proof (wo_bound_archive s W _ Hin). lia.
    - unfold kernelsOf in Hin. rewrite Hp in Hin. pose proof (wo_bound s W i _ Hin). lia. }
  split; [exact Hnot|].
  intros id Hf. apply findKernel_Some in Hf. now destruct Hf.
Qed.

Lemma created_kernel_is_not_registered_witness :
  exists l s' k,
    createKernel sampleEnv inferenceTemplate None founded = Ret l s' /\
    l = List.length (kernelHeap founded) /\
    kernelHeap s' = kernelHeap founded ++ [k] /\
    k_type k = t_type inferenceTemplate /\ k_version k = "1.0.0" /\
    lineage k = mkLineage 0 [] [] Synthetic [] /\
    coreGenes (genome k) = coreOfCall inferenceTemplate None /\
    regulatoryGenes (genome k) = regulatoryOfCall inferenceTemplate None /\
    fitness k = createInitialFitness /\ k_state k = DORMANT /\ lastActivated k = 0 /\
    totalKernelsCreated s' = S (totalKernelsCreated founded) /\
    populations s' = populations founded /\
    archive s' = archive founded /\
    (exists e, emitted s' = emitted founded ++ [e] /\ ev_data e = KernelCreated l) /\
    ~ held s' l /\
    forall id, findKernel s' id <> Some l.
Proof.
  exact (created_kernel_is_not_registered sampleEnv inferenceTemplate None founded
           founded_reachable).
Defined.

(** ** Emergence detection *)

Lemma slice_window_empty {A : Type} (l : list A) :
  (List.length l <= 5)%nat -> Js.slice l (-10) (Some (-5)) = [].
Proof.
  intros H. unfold Js.slice, Js.relIndex.
  change (-10 <? 0) with true. change (-5 <? 0) with true. cbv iota.
  replace (Z.to_nat (Z.max (Z.of_nat (List.length l) + -5) 0
                     - Z.max (Z.of_nat (List.length l) + -10) 0)) with 0%nat by lia.
  reflexivity.
Qed.

(** One turn of the loop of [checkForEmergence]. *)
Lemma emergenceTurn E (p : KernelPopulation) (s : State) :
  let body :=
    (let trend := fitnessTrend (statistics p) in
     if (5 <=? List.length trend)%nat then
       let recent := Js.slice trend (-5) None in
       let older := Js.slice trend (-10) (Some (-5)) in
       if (0 <? List.length older)%nat then
         let recentAvg := Js.div (sumQ recent) (QofNat (List.length recent)) in
         let olderAvg := Js.div (sumQ older) (QofNat (List.length older)) in
         if Js.Qltb (Js.mul olderAvg (Js.double (12 # 10))) recentAvg then
           t1 <- dateNow E ;;
           t2 <- dateNow E ;;
           let event :=
             mkEmergence ("emerge-" ++ Js.showZ t1) t2 ECapability
               ("Significant capability improvement in " ++ kernelTypeName (p_name p)
                ++ " population")
               (Js.divide (Js.sub recentAvg olderAvg) olderAvg) in
           modify (fun s' => set_emergenceEvents (emergenceEvents s' ++ [event]) s') ;;
           emitEvent E (EmergenceDetected event)
         else ret tt
       else ret tt
     else ret tt) in
  exists s' evs,
    body s = Ret tt s' /\
    emergenceEvents s' = emergenceEvents s ++ evs /\
    List.length (emitted s') = (List.length (emitted s) + List.length evs)%nat /\
    (List.length evs <= 1)%nat /\
    Forall (fun e => ee_type e = ECapability) evs /\
    ((List.length (fitnessTrend (statistics p)) <= 5)%nat -> s' = s) /\
    populations s' = populations s /\ archive s' = archive s /\
    kernelHeap s' = kernelHeap s /\ geneHeap s' = geneHeap s /\
    globalGeneration s' = globalGeneration s.
Proof.
  cbv zeta.
  assert (Hnone : exists s' evs,
             ret tt s = Ret tt s' /\
             emergenceEvents s' = emergenceEvents s ++ evs /\
             List.length (emitted s') = (List.length (emitted s) + List.length evs)%nat /\
             (List.length evs <= 1)%nat /\
             Forall (fun e => ee_type e = ECapability) evs /\
             ((List.length (fitnessTrend (statistics p)) <= 5)%nat -> s' = s) /\
             populations s' = populations s /\ archive s' = archive s /\
             kernelHeap s' = kernelHeap s /\ geneHeap s' = geneHeap s /\
             globalGeneration s' = globalGeneration s).
  { exists s, []. rewrite app_nil_r. cbn. repeat split; auto. }
  destruct (5 <=? List.length (fitnessTrend (statistics p)))%nat; [|exact Hnone].
  destruct (Nat.ltb_spec 0 (List.length
              (Js.slice (fitnessTrend (statistics p)) (-10) (Some (-5)))))
    as [Hpos|Hz]; [|exact Hnone].
  destruct (Js.Qltb _ _); [|exact Hnone].
  unfold bind, dateNow, modify, emitEvent, bind, dateNow, modify.
  eexists. eexists [_]. split; [reflexivity|].
  cbn [emergenceEvents emitted populations archive kernelHeap geneHeap globalGeneration
       set_emitted set_nowCalls set_emergenceEvents].
  split; [reflexivity|]. split; [rewrite length_app; reflexivity|].
  split; [cbn; lia|]. split; [repeat constructor|].
  split; [|repeat split; reflexivity].
  intros Hshort. rewrite slice_window_empty in Hpos by exact Hshort. cbn in Hpos. lia.
Qed.

(** X19. [checkForEmergence] returns normally from every state. It appends
    at most one emergence event per population, always of type capability, to
    [emergenceEvents] and emits one event for each; populations, archive,
    kernels and genes are as before. When no population has more than five
    entries in its fitness trend the window of older entries is empty and the
    call changes nothing at all. *)
Theorem emergence_needs_six_samples (E : Env) (s : State) :
  exists s' evs,
    checkForEmergence E s = Ret tt s' /\
    emergenceEvents s' = emergenceEvents s ++ evs /\
    List.length (emitted s') = (List.length (emitted s) + List.length evs)%nat /\
    (List.length evs <= List.length (populations s))%nat /\
    Forall (fun e => ee_type e = ECapability) evs /\
    (Forall (fun p => (List.length (fitnessTrend (statistics p)) <= 5)%nat)
       (populations s) -> s' = s) /\
    populations s' = populations s /\ archive s' = archive s /\
    kernelHeap s' = kernelHeap s /\ geneHeap s' = geneHeap s /\
    globalGeneration s' = globalGeneration s.
Proof.
  unfold checkForEmergence. unfold bind at 1. unfold get at 1.
  match goal with |- context [forEach (populations s) ?f s] => set (body := f) end.
  assert (Hloop : forall ps s0,
             exists s' evs,
               forEach ps body s0 = Ret tt s' /\
               emergenceEvents s' = emergenceEvents s0 ++ evs /\
               List.length (emitted s') = (List.length (emitted s0) + List.length evs)%nat /\
               (List.length evs <= List.length ps)%nat /\
               Forall (fun e => ee_type e = ECapability) evs /\
               (Forall (fun p => (List.length (fitnessTrend (statistics p)) <= 5)%nat) ps ->
                s' = s0) /\
               populations s' = populations s0 /\ archive s' = archive s0 /\
               kernelHeap s' = kernelHeap s0 /\ geneHeap s' = geneHeap s0 /\
               globalGeneration s' = globalGeneration s0).
  { induction ps as [|p ps IH]; intros s0.
    - exists s0, []. rewrite app_nil_r. cbn. repeat split; auto.
    - cbn [forEach]. unfold bind at 1.
      destruct (emergenceTurn E p s0)
        as (s1 & ev1 & H1 & He1 & Hm1 & Hl1 & Ht1 & Hs1 & Hp1 & Ha1 & Hk1 & Hg1 & Hn1).
      cbv zeta in H1. unfold body at 1. cbv beta zeta. rewrite H1.
      destruct (IH s1)
        as (s2 & ev2 & H2 & He2 & Hm2 & Hl2 & Ht2 & Hs2 & Hp2 & Ha2 & Hk2 & Hg2 & Hn2).
      rewrite H2. exists s2, (ev1 ++ ev2). split; [reflexivity|].
      split; [rewrite He2, He1, app_assoc; reflexivity|].
      split; [rewrite Hm2, Hm1, length_app; lia|].
      split; [rewrite length_app; cbn [List.length]; lia|].
      split; [apply Forall_app; now split|].
      split; [|repeat split; congruence].
      intros Hall. inversion Hall as [|? ? Hp Hps]; subst.
      rewrite (Hs2 Hps). now apply Hs1. }
  apply Hloop.
Qed.

(** ** Founding the populations *)

(** What a run of [createKernel] without a custom genome leaves. *)
Lemma createKernel_founder E t s :
  exists k s',
    createKernel E t None s = Ret (List.length (kernelHeap s)) s' /\
    kernelHeap s' = kernelHeap s ++ [k] /\ founder t k /\
    geneHeap s' = geneHeap s /\ populations s' = populations s /\
    archive s' = archive s /\ config s' = config s /\
    isEvolving s' = isEvolving s /\ evolutionInterval s' = evolutionInterval s /\
    totalKernelsCreated s' = S (totalKernelsCreated s).
Proof.
  eexists. eexists. split.
  - unfold createKernel, generateKernelId, bumpTotalKernelsCreated, emitEvent, dateNow,
      mathRandom, allocKernel, modify, bind, get, ret.
    cbv beta iota zeta. reflexivity.
  - cbn [kernelHeap geneHeap totalKernelsCreated populations archive config isEvolving
         evolutionInterval set_emitted set_nowCalls set_totalKernelsCreated
         set_kernelHeap set_randomCalls].
    split; [reflexivity|]. split; [|repeat split; reflexivity].
    unfold founder. cbn. repeat split; reflexivity.
Qed.

Lemma createKernels_founders E t (idxs : list nat) s :
  exists ks s',
    mapM (fun _ : nat => createKernel E t None) idxs s
    = Ret (seq (List.length (kernelHeap s)) (List.length idxs)) s' /\
    kernelHeap s' = kernelHeap s ++ ks /\ List.length ks = List.length idxs /\
    Forall (founder t) ks /\
    geneHeap s' = geneHeap s /\ populations s' = populations s /\
    archive s' = archive s /\ config s' = config s /\
    isEvolving s' = isEvolving s /\ evolutionInterval s' = evolutionInterval s /\
    totalKernelsCreated s' = (totalKernelsCreated s + List.length idxs)%nat.
Proof.
  revert s. induction idxs as [|i idxs IH]; intros s.
  - exists [], s. rewrite app_nil_r. cbn. rewrite Nat.add_0_r. repeat split; auto.
  - destruct (createKernel_founder E t s)
      as (k & s1 & H1 & Hk1 & Hf1 & Hg1 & Hp1 & Ha1 & Hc1 & He1 & Hi1 & Ht1).
    destruct (IH s1) as (ks & s2 & H2 & Hk2 & Hl2 & Hf2 & Hg2 & Hp2 & Ha2 & Hc2 & He2 & Hi2
                         & Ht2).
    exists (k :: ks), s2. split.
    { cbn [mapM]. unfold bind. rewrite H1, H2. unfold ret.
      rewrite Hk1, length_app. cbn [List.length seq]. now rewrite Nat.add_1_r. }
    split; [rewrite Hk2, Hk1, <- app_assoc; reflexivity|].
    split; [cbn [List.length]; now rewrite Hl2|].
    split; [now constructor|].
    cbn [List.length]. repeat split; try congruence. lia.
Qed.

(** One turn of the loop of [initializePopulations]. *)
Lemma foundTurn E type t s :
  templateOf type = Some t ->
  exists ks s',
    (s0 <- get ;;
     ks <- match find (fun t => kernelType_eqb (t_type t) type) KERNEL_TEMPLATES with
           | Some template => mapM (fun _ : nat => createKernel E template None) (seq 0 5)
           | None => ret []
           end ;;
     modify (fun s' =>
       set_populations
         (populations s' ++
          [mkPopulation ("pop-" ++ kernelTypeName type) type 0 ks
             (mkStatistics (List.length ks) 0 0 0 0 [] 0)
             (cfg_selectionPressure (config s0)) (baseMutationRate (config s0))
             (Qfloor (Js.div (populationCapacity (config s0)) 4))]) s')) s
    = Ret tt s' /\
    kernelHeap s' = kernelHeap s ++ ks /\ List.length ks = 5%nat /\
    Forall (founder t) ks /\
    populations s'
    = populations s ++ [foundedPopulation (config s) type (seq (List.length (kernelHeap s)) 5)] /\
    geneHeap s' = geneHeap s /\ archive s' = archive s /\ config s' = config s /\
    isEvolving s' = isEvolving s /\ evolutionInterval s' = evolutionInterval s /\
    totalKernelsCreated s' = (totalKernelsCreated s + 5)%nat.
Proof.
  intros Ht. unfold templateOf in Ht. unfold bind at 1. unfold get at 1. rewrite Ht.
  destruct (createKernels_founders E t (seq 0 5) s)
    as (ks & s1 & H1 & Hk & Hl & Hf & Hg & Hp & Ha & Hc & He & Hi & Hn).
  unfold bind. rewrite H1. unfold modify.
  exists ks. eexists. split; [reflexivity|].
  cbn [kernelHeap geneHeap populations archive config isEvolving evolutionInterval
       totalKernelsCreated set_populations].
  rewrite length_seq in *.
  split; [exact Hk|]. split; [exact Hl|]. split; [exact Hf|].
  split; [rewrite Hp; reflexivity|]. repeat split; assumption.
Qed.

(** X20. From a state that is not evolving and has no population,
    [startEvolution] founds four populations, in the order inference,
    reasoning, memory, meta, each of five new kernels made by [createKernel]
    from the template of that type, with generation 0, [totalCreated] 5,
    capacity [floor(populationCapacity / 4)] and the selection pressure and
    mutation rate of the configuration. It makes no gene (the founders of a
    population hold the gene objects of their template), leaves the archive as
    it is, counts the 20 kernels, and sets [isEvolving] and the timer.
    A second [startEvolution] changes nothing. *)
Theorem startEvolution_founds (E : Env) (s : State) :
  isEvolving s = false ->
  populations s = [] ->
  exists s' ks,
    startEvolution E s = Ret tt s' /\
    kernelHeap s' = kernelHeap s ++ ks /\
    List.length ks = 20%nat /\
    populations s'
    = [foundedPopulation (config s) Inference (seq (List.length (kernelHeap s)) 5);
       foundedPopulation (config s) Reasoning (seq (List.length (kernelHeap s) + 5) 5);
       foundedPopulation (config s) Memory (seq (List.length (kernelHeap s) + 10) 5);
       foundedPopulation (config s) Meta (seq (List.length (kernelHeap s) + 15) 5)] /\
    (forall j t, (j < 20)%nat ->
                 nth_error KERNEL_TEMPLATES (j / 5) = Some t ->
                 founder t (nth j ks dummyKernel)) /\
    geneHeap s' = geneHeap s /\
    archive s' = archive s /\
    totalKernelsCreated s' = (totalKernelsCreated s + 20)%nat /\
    isEvolving s' = true /\
    evolutionInterval s' = true /\
    startEvolution E s' = Ret tt s'.
Proof.
  intros Hev Hpops.
  set (s0 := set_isEvolving true s).
  destruct (foundTurn E Inference _ s0 eq_refl)
    as (k1 & s1 & H1 & Hk1 & Hl1 & Hf1 & Hp1 & Hg1 & Ha1 & Hc1 & He1 & Hi1 & Hn1).
  destruct (foundTurn E Reasoning _ s1 eq_refl)
    as (k2 & s2 & H2 & Hk2 & Hl2 & Hf2 & Hp2 & Hg2 & Ha2 & Hc2 & He2 & Hi2 & Hn2).
  destruct (foundTurn E Memory _ s2 eq_refl)
    as (k3 & s3 & H3 & Hk3 & Hl3 & Hf3 & Hp3 & Hg3 & Ha3 & Hc3 & He3 & Hi3 & Hn3).
  destruct (foundTurn E Meta _ s3 eq_refl)
    as (k4 & s4 & H4 & Hk4 & Hl4 & Hf4 & Hp4 & Hg4 & Ha4 & Hc4 & He4 & Hi4 & Hn4).
  assert (Hrun : startEvolution E s = Ret tt (set_evolutionInterval true s4)).
  { unfold startEvolution. unfold bind at 1. unfold get at 1. rewrite Hev.
    unfold bind at 1. unfold modify at 1. fold s0.
    unfold bind at 1. unfold get at 1.
    replace (List.length (populations s0)) with 0%nat
      by (unfold s0; cbn [populations set_isEvolving]; now rewrite Hpops).
    cbn [Nat.eqb]. unfold bind at 1.
    unfold initializePopulations. cbn [forEach].
    unfold bind at 1. rewrite H1. unfold bind at 1. rewrite H2.
    unfold bind at 1. rewrite H3. unfold bind at 1. rewrite H4.
    reflexivity. }
  exists (set_evolutionInterval true s4), (k1 ++ k2 ++ k3 ++ k4).
  split; [exact Hrun|].
  cbn [kernelHeap geneHeap populations archive totalKernelsCreated isEvolving
       evolutionInterval set_evolutionInterval].
  assert (L1 : List.length (kernelHeap s1) = (List.length (kernelHeap s) + 5)%nat).
  { rewrite Hk1, length_app, Hl1. reflexivity. }
  assert (L2 : List.length (kernelHeap s2) = (List.length (kernelHeap s) + 10)%nat).
  { rewrite Hk2, length_app, Hl2, L1. lia. }
  assert (L3 : List.length (kernelHeap s3) = (List.length (kernelHeap s) + 15)%nat).
  { rewrite Hk3, length_app, Hl3, L2. lia. }
  split.
  { rewrite Hk4, Hk3, Hk2, Hk1. unfold s0. cbn [kernelHeap set_isEvolving].
    now rewrite <- !app_assoc. }
  split; [rewrite !length_app; lia|].
  split.
  { rewrite Hp4, Hp3, Hp2, Hp1, L3, L2, L1, Hc3, Hc2, Hc1. unfold s0.
    cbn [populations config set_isEvolving kernelHeap]. rewrite Hpops. reflexivity. }
  split.
  { intros j t Hj Ht.
    assert (Hnth : forall (ks : list CognitiveKernel) t' i,
               Forall (founder t') ks -> (i < List.length ks)%nat ->
               founder t' (nth i ks dummyKernel)).
    { intros ks t' i Hall Hi. eapply Forall_forall; [exact Hall|]. now apply nth_In. }
    assert (Hq : (j / 5 = 0 /\ j < 5 \/ j / 5 = 1 /\ 5 <= j < 10 \/
                  j / 5 = 2 /\ 10 <= j < 15 \/ j / 5 = 3 /\ 15 <= j < 20)%nat).
    { pose proof (Nat.div_mod_eq j 5) as Hdm.
      pose proof (Nat.mod_upper_bound j 5 ltac:(discriminate)) as Hm. lia. }
    destruct Hq as [[Hq Hr]|[[Hq Hr]|[[Hq Hr]|[Hq Hr]]]]; rewrite Hq in Ht;
      cbn [nth_error KERNEL_TEMPLATES] in Ht; injection Ht as <-.
    - rewrite app_nth1 by lia. apply Hnth; [exact Hf1|lia].
    - rewrite app_nth2, app_nth1 by lia. apply Hnth; [exact Hf2|lia].
    - rewrite app_nth2, app_nth2, app_nth1 by lia. apply Hnth; [exact Hf3|lia].
    - rewrite app_nth2, app_nth2, app_nth2 by lia. apply Hnth; [exact Hf4|lia]. }
  split; [rewrite Hg4, Hg3, Hg2, Hg1; reflexivity|].
  split; [rewrite Ha4, Ha3, Ha2, Ha1; reflexivity|].
  split; [rewrite Hn4, Hn3, Hn2, Hn1; unfold s0; cbn [totalKernelsCreated set_isEvolving]; lia|].
  split; [rewrite He4, He3, He2, He1; reflexivity|].
  split; [reflexivity|].
  unfold startEvolution, bind, get.
  cbn [isEvolving set_evolutionInterval]. rewrite He4, He3, He2, He1. reflexivity.
Qed.

Lemma startEvolution_founds_witness :
  exists s' ks,
    startEvolution sampleEnv (createInitialState DEFAULT_EVOLUTION_CONFIG) = Ret tt s' /\
    kernelHeap s' = [] ++ ks /\
    List.length ks = 20%nat /\
    populations s'
    = [foundedPopulation DEFAULT_EVOLUTION_CONFIG Inference (seq 0 5);
       foundedPopulation DEFAULT_EVOLUTION_CONFIG Reasoning (seq (0 + 5) 5);
       foundedPopulation DEFAULT_EVOLUTION_CONFIG Memory (seq (0 + 10) 5);
       foundedPopulation DEFAULT_EVOLUTION_CONFIG Meta (seq (0 + 15) 5)] /\
    (forall j t, (j < 20)%nat ->
                 nth_error KERNEL_TEMPLATES (j / 5) = Some t ->
                 founder t (nth j ks dummyKernel)) /\
    geneHeap s' = templateGenes /\
    archive s' = [] /\
    totalKernelsCreated s' = (0 + 20)%nat /\
    isEvolving s' = true /\
    evolutionInterval s' = true /\
    startEvolution sampleEnv s' = Ret tt s'.
Proof.
  exact (startEvolution_founds sampleEnv (createInitialState DEFAULT_EVOLUTION_CONFIG)
           eq_refl eq_refl).
Defined.

(** ** Breeding from several parents *)

Lemma index_In {A : Type} (l : list A) i x : Js.index l i = Some x -> In x l.
Proof.
  unfold Js.index. destruct (i <? 0); [discriminate|]. apply nth_error_In.
Qed.

Lemma index_nil {A : Type} i : Js.index (@nil A) i = None.
Proof. unfold Js.index. destruct (i <? 0); [reflexivity|]. now destruct (Z.to_nat i). Qed.

Lemma length_pickedGene E gs s i : (List.length (pickedGene E gs s i) <= 1)%nat.
Proof.
  unfold pickedGene. destruct (parentPick E gs s i) as [g|]; [|cbn; lia].
  destruct (nth_error (coreGenes g) i); cbn; lia.
Qed.

(** The loop of [multiParentBreeding] over the positions [a .. a+n-1]. *)
Lemma multiParentCore_run E gs s0 n :
  drawsInRange E -> gs <> [] ->
  Forall (fun g => genesIn s0 (coreGenes g)) gs ->
  forall a acc s,
    genesGrow s0 s ->
    randomCalls s = (randomCalls s0 + a)%nat ->
    exists s',
      multiParentCore E gs (seq a n) acc s
      = Ret (acc ++ seq (List.length (geneHeap s))
                      (List.length (flat_map (pickedGene E gs s0) (seq a n)))) s' /\
      geneHeap s' = geneHeap s ++ flat_map (pickedGene E gs s0) (seq a n) /\
      randomCalls s' = (randomCalls s0 + a + n)%nat /\
      kernelHeap s' = kernelHeap s.
Proof.
  intros Hrange Hne Hin. induction n as [|n IH]; intros a acc s Hgrow Hrc.
  - exists s. cbn. rewrite !app_nil_r, !Nat.add_0_r. auto.
  - cbn [seq multiParentCore flat_map]. unfold bind at 1. unfold mathRandom at 1.
    unfold pickedGene at 1 3, parentPick. rewrite Hrc.
    destruct (index_inRange gs (random E (randomCalls s0 + a)) Hne (Hrange _)) as [g Hg].
    rewrite Hg.
    destruct (nth_error (coreGenes g) a) as [l|] eqn:Hl.
    + unfold bind at 1. unfold readGene at 1. unfold bind at 1. unfold allocGene at 1.
      cbn [geneHeap set_randomCalls].
      assert (Hsame : geneAt (geneHeap s) l = geneAt (geneHeap s0) l).
      { destruct Hgrow as [ext ->]. apply geneAt_app.
        apply index_In in Hg. rewrite Forall_forall in Hin. specialize (Hin g Hg).
        unfold genesIn in Hin. rewrite Forall_forall in Hin. apply Hin.
        eapply nth_error_In; eauto. }
      rewrite Hsame.
      set (s1 := set_geneHeap (geneHeap s ++ [geneAt (geneHeap s0) l])
                   (set_randomCalls (S (randomCalls s0 + a)) s)).
      destruct (IH (S a) (acc ++ [List.length (geneHeap s)]) s1) as (s' & Hrun & Hh & Hr & Hk).
      { destruct Hgrow as [ext Hext]. exists (ext ++ [geneAt (geneHeap s0) l]).
        unfold s1. cbn [geneHeap set_geneHeap set_randomCalls]. now rewrite Hext, app_assoc. }
      { unfold s1. cbn [randomCalls set_geneHeap set_randomCalls]. lia. }
      exists s'. unfold s1 in Hh, Hk, Hrun.
      cbn [geneHeap kernelHeap set_geneHeap set_randomCalls] in Hh, Hk, Hrun.
      split.
      { etransitivity; [exact Hrun|]. f_equal.
        rewrite !length_app, <- app_assoc. cbn [List.length app].
        rewrite Nat.add_1_r. reflexivity. }
      split; [now rewrite Hh, <- app_assoc|]. split; [lia|exact Hk].
    + cbn [app].
      set (s1 := set_randomCalls (S (randomCalls s0 + a)) s).
      destruct (IH (S a) acc s1) as (s' & Hrun & Hh & Hr & Hk).
      { exact Hgrow. }
      { unfold s1. cbn [randomCalls set_randomCalls]. lia. }
      exists s'. unfold s1 in Hh, Hk, Hrun. cbn [geneHeap kernelHeap set_randomCalls] in Hh, Hk, Hrun.
      split; [exact Hrun|]. split; [exact Hh|]. split; [lia|exact Hk].
Qed.

Lemma length_flat_map_le {A B : Type} (f : A -> list B) (l : list A) :
  (forall x, (List.length (f x) <= 1)%nat) ->
  (List.length (flat_map f l) <= List.length l)%nat.
Proof.
  intros H. induction l as [|x l IH]; [auto|].
  cbn [flat_map List.length]. rewrite length_app. specialize (H x). lia.
Qed.

Lemma length_flat_map_one {A B : Type} (f : A -> list B) (l : list A) :
  (forall x, In x l -> List.length (f x) = 1%nat) ->
  List.length (flat_map f l) = List.length l.
Proof.
  induction l as [|x l IH]; intros H; [auto|].
  cbn [flat_map List.length]. rewrite length_app, IH, (H x); auto with datatypes.
Qed.

(** X21. When the draws are those of [Math.random], [multiParentBreeding] on
    genomes whose genes exist returns a genome of new gene objects. For each
    position [i] of the first genome's core genes, in order, one draw picks a
    parent and the child gets a copy of that parent's core gene at position
    [i], or nothing when that parent has fewer core genes: so the child has at
    most as many core genes as the first parent, and exactly as many when no
    parent has fewer. One more draw picks the parent whose regulatory genes
    are copied. With no genome at all the result is the empty genome. The
    expression modifiers are empty and the checksum is the empty string; no
    existing gene object is changed. *)
Theorem multiParentBreeding_mixes (E : Env) (genomes : list KernelGenome) (s : State) :
  drawsInRange E ->
  Forall (fun g => genesIn s (coreGenes g) /\ genesIn s (regulatoryGenes g)) genomes ->
  let n := match genomes with g0 :: _ => List.length (coreGenes g0) | [] => 0%nat end in
  exists child s',
    multiParentBreeding E genomes s = Ret child s' /\
    (genomes <> [] -> forall k, exists g, parentPick E genomes s k = Some g /\ In g genomes) /\
    genesAt s' (coreGenes child) = flat_map (pickedGene E genomes s) (seq 0 n) /\
    genesAt s' (regulatoryGenes child)
    = match parentPick E genomes s n with
      | Some g => genesAt s (regulatoryGenes g)
      | None => []
      end /\
    (List.length (coreGenes child) <= n)%nat /\
    ((forall g, In g genomes -> (n <= List.length (coreGenes g))%nat) ->
     List.length (coreGenes child) = n) /\
    (genomes = [] -> child = mkGenome [] [] [] EmptyString) /\
    expressionModifiers child = [] /\
    checksum child = EmptyString /\
    freshGenes s s' (coreGenes child ++ regulatoryGenes child) /\
    NoDup (coreGenes child ++ regulatoryGenes child) /\
    genesGrow s s' /\
    kernelHeap s' = kernelHeap s.
Proof.
  intros Hrange Hin n.
  assert (Hpick : genomes <> [] ->
                  forall k, exists g, parentPick E genomes s k = Some g /\ In g genomes).
  { intros Hne k. unfold parentPick.
    destruct (index_inRange genomes (random E (randomCalls s + k)) Hne (Hrange _)) as [g Hg].
    exists g. split; [exact Hg|]. eapply index_In; eauto. }
  destruct genomes as [|g0 gs].
  - exists (mkGenome [] [] [] EmptyString), (set_randomCalls (S (randomCalls s)) s).
    unfold parentPick. rewrite !index_nil.
    split; [unfold multiParentBreeding, bind, mathRandom, ret; now rewrite index_nil|].
    split; [intros H; contradiction|]. cbn.
    repeat split; try reflexivity; try constructor; try lia.
    exists []. now rewrite app_nil_r.
  - subst n. cbv iota. set (n := List.length (coreGenes g0)).
    set (genomes := g0 :: gs) in Hin, Hpick |- *.
    assert (Hne : genomes <> []) by discriminate.
    assert (Hcore : Forall (fun g => genesIn s (coreGenes g)) genomes).
    { eapply Forall_impl; [|exact Hin]. cbn. tauto. }
    destruct (multiParentCore_run E genomes s n Hrange Hne Hcore 0%nat [] s)
      as (s1 & H1 & Hh1 & Hr1 & Hk1).
    { exists []. now rewrite app_nil_r. }
    { lia. }
    set (new := flat_map (pickedGene E genomes s) (seq 0 n)) in *.
    destruct (Hpick Hne n) as (g & Hg & Hgin).
    set (sa := set_randomCalls (S (randomCalls s1)) s1).
    destruct (cloneGenes_run (regulatoryGenes g) sa) as (clones & H2 & Hl2 & Hc2).
    assert (Hreg : genesIn s (regulatoryGenes g)).
    { rewrite Forall_forall in Hin. now apply Hin. }
    assert (Hclones : clones = genesAt s (regulatoryGenes g)).
    { rewrite Hc2.
      - unfold genesAt, sa. cbn [geneHeap set_randomCalls]. rewrite Hh1.
        now apply map_geneAt_app.
      - unfold genesIn, sa. cbn [geneHeap set_randomCalls]. rewrite Hh1, length_app.
        eapply Forall_impl; [|exact Hreg]. cbn. intros; lia. }
    subst clones. clear Hc2.
    eexists. eexists. split.
    { unfold multiParentBreeding, genomes. unfold bind at 1. fold n. fold genomes.
      rewrite H1.
      unfold bind at 1. unfold mathRandom at 1.
      pose proof Hg as Hg'. unfold parentPick in Hg'.
      replace (randomCalls s + n)%nat with (randomCalls s1) in Hg' by lia.
      rewrite Hg'. unfold bind. fold sa. rewrite H2. reflexivity. }
    cbn [coreGenes regulatoryGenes expressionModifiers checksum app].
    unfold sa in *. cbn [geneHeap kernelHeap set_geneHeap set_randomCalls] in *.
    rewrite Hg. rewrite Hh1.
    split; [exact Hpick|].
    split.
    { unfold genesAt. cbn [geneHeap set_geneHeap]. rewrite <- app_assoc.
      apply map_geneAt_seq. }
    split.
    { unfold genesAt. cbn [geneHeap set_geneHeap].
      rewrite <- (length_map (geneAt (geneHeap s)) (regulatoryGenes g)).
      apply map_geneAt_seq_end. }
    rewrite length_seq.
    split.
    { apply Nat.le_trans with (List.length (seq 0 n)); [|rewrite length_seq; lia].
      apply length_flat_map_le. apply length_pickedGene. }
    split.
    { intros Hall. transitivity (List.length (seq 0 n)); [|apply length_seq].
      apply length_flat_map_one. intros i Hi. apply in_seq in Hi.
      unfold pickedGene. destruct (Hpick Hne i) as (gi & Hgi & Hgiin). rewrite Hgi.
      specialize (Hall gi Hgiin).
      destruct (nth_error (coreGenes gi) i) eqn:Hnth; [reflexivity|].
      apply nth_error_None in Hnth. lia. }
    split; [discriminate|]. split; [reflexivity|]. split; [reflexivity|].
    split.
    { unfold freshGenes. cbn [geneHeap set_geneHeap]. rewrite !length_app, <- seq_app.
      rewrite Hl2. apply seq_fresh; lia. }
    split.
    { rewrite length_app, <- seq_app. apply seq_NoDup. }
    split; [|exact Hk1].
    exists (new ++ genesAt s (regulatoryGenes g)). cbn [geneHeap set_geneHeap].
    now rewrite app_assoc.
Qed.

Lemma multiParentBreeding_mixes_witness :
  let E := sampleEnv in
  let s := founded in
  let genomes := [genome (kernelAt (kernelHeap founded) 0%nat);
                  genome (kernelAt (kernelHeap founded) 5%nat)] in
  let n := match genomes with g0 :: _ => List.length (coreGenes g0) | [] => 0%nat end in
  exists child s',
    multiParentBreeding E genomes s = Ret child s' /\
    (genomes <> [] -> forall k, exists g, parentPick E genomes s k = Some g /\ In g genomes) /\
    genesAt s' (coreGenes child) = flat_map (pickedGene E genomes s) (seq 0 n) /\
    genesAt s' (regulatoryGenes child)
    = match parentPick E genomes s n with
      | Some g => genesAt s (regulatoryGenes g)
      | None => []
      end /\
    (List.length (coreGenes child) <= n)%nat /\
    ((forall g, In g genomes -> (n <= List.length (coreGenes g))%nat) ->
     List.length (coreGenes child) = n) /\
    (genomes = [] -> child = mkGenome [] [] [] EmptyString) /\
    expressionModifiers child = [] /\
    checksum child = EmptyString /\
    freshGenes s s' (coreGenes child ++ regulatoryGenes child) /\
    NoDup (coreGenes child ++ regulatoryGenes child) /\
    genesGrow s s' /\
    kernelHeap s' = kernelHeap s.
Proof.
  assert (Hin : Forall (fun g => genesIn founded (coreGenes g) /\
                                 genesIn founded (regulatoryGenes g))
                  [genome (kernelAt (kernelHeap founded) 0%nat);
                   genome (kernelAt (kernelHeap founded) 5%nat)]).
  { vm_compute. repeat constructor. }
  exact (multiParentBreeding_mixes sampleEnv _ founded sampleEnv_inRange Hin).
Defined.
